(* ===== verification/_CoqProject ===== *)
-Q . S2P
Prelude.v
GoRuntime.v
GoStrings.v
Config.v
GoTime.v
Filter.v
Metadata.v
Watcher.v
WatcherProofs.v
WatcherStart.v
Buffer.v
Debounce.v
CrdDebounce.v
Interleaving.v
Invariants.v
Sequential.v
BufferTheorems.v
Quiescence.v
DebounceWindow.v
DebounceSpec.v
RestClient.v
Json.v
Wire.v
ApiServer.v
Pipeline.v
ClusterSync.v
