(* ===== verification/Prelude.v ===== *)
(** * k8s-vectordb-sync, verified

    k8s-vectordb-sync watches a Kubernetes cluster and keeps the index of an
    external service (cluster-whisperer) in step with it.  A watcher turns informer
    notifications into events; two pipelines, one for resource instances and one
    for custom resource definitions (the capabilities pipeline, optional), debounce
    and batch the events and POST them as JSON.  The development is a shallow
    embedding of the Go code in functions: fallible code returns a sum or option,
    code that may panic an [Outcome], and the goroutines that share a buffer are a
    transition system.

    ** Files and the code they model

    - [Prelude.v]: this header, notation, tactics, generic lemmas.
    - [GoRuntime.v]: panics, 64-bit integers, durations, channels, [select], timers,
      map iteration order.  [GoStrings.v]: [strings] and [strconv].  [GoTime.v]:
      the one [time.Format] layout in use.  [Json.v]: [encoding/json], byte for
      byte, with a reader.
    - [Config.v]: [internal/config/config.go].  [Filter.v]:
      [internal/filter/filter.go].  [Metadata.v]: [internal/metadata/extract.go].
    - [Watcher.v], [WatcherProofs.v]: [internal/controller/watcher.go] (discovery,
      informer handlers, emission, resync, stop).  [WatcherStart.v]: [Start] with its
      helper goroutine, the cancellation and other callers of [Stop] as a transition
      system.
    - [Buffer.v]: the interface of the debounce buffers: an abstract buffer with one
      operation per critical section, and the class [Buffer] of implementations
      that refine it.  [Debounce.v] ([debounce.go]) and [CrdDebounce.v]
      ([crd_debounce.go]) are the two implementations: every field of the Go
      struct, one definition per method, and the refinement instance.  The two
      files use the names of the methods; where both are imported, those of the
      capabilities buffer are qualified.
    - [Interleaving.v]: the goroutines of a buffer ([Run], one per fired timer, the
      consumer, the clock) as a transition system over [Buffer]: a step is one
      critical section.  [Invariants.v]: its invariants.  [Sequential.v]: [Run] with
      the timer functions and the sender's receives run between its iterations, and
      the proof that such a run is a run of the transition system.
    - [BufferTheorems.v], [Quiescence.v], [DebounceWindow.v], [DebounceSpec.v]: the
      theorems on the two buffers.
    - [RestClient.v]: [internal/client/rest.go].  [Wire.v]: the JSON of the payloads
      (the struct tags) and the instances of the client's payload interface.
      [ApiServer.v]: [internal/api/server.go] (routing, handler, life of the server).
      [Pipeline.v]: [cmd/main.go]: what [main] starts, the sender loop, and a
      pipeline as the composition of a buffer's transition system with the sender
      that ranges over its live channel ([Pipe], [pipe_label]).
    - [ClusterSync.v]: the composition of all of it: a cluster as a map of objects,
      what its informers report, and the receiver's index as a copy of it.

    ** What the theorems show

    - Copy of the cluster ([ClusterSync.v]): from the informers' notifications (with
      resyncs at any time), through the handlers, the buffer's goroutines and the
      sender, to the bodies the server accepted: if no drop was logged, nothing was
      lost or is still pending, queued or held, no event was accepted and no batch
      taken while a payload was held (orderly runs), no updated object had an empty
      label or annotation value, the strings are UTF-8 and every send succeeded, the
      index equals the cluster, instance by instance, up to nil label maps (a setoid
      on instances); the capabilities index equals the set of names of the
      definitions.  A resync with room in the channels repairs every stale entry of
      an existing object and no lost deletion.
    - End to end ([Pipeline.v]): the two pipelines from the start of the debouncer and
      the sender, through every orderly interleaving of their goroutines, to the
      bodies the server accepted; once [Run] has returned the sender ends in a
      bounded number of its steps.  Delivery is at least once: a request whose
      response the client missed may have been taken, so a body may arrive twice;
      applying a payload is idempotent, so the index is the same.  Also what [main]
      starts, with which endpoints and channels, and when and how it exits.
    - Buffers: [Run] panics exactly when the flush interval is not positive, and its
      sequential runs preserve the index as long as nothing is dropped; under every
      interleaving no goroutine sends on or closes a closed channel, every payload
      is accounted for exactly once, batches hold the last state of their keys, no
      pending change is forgotten, the buffer stays well-formed, a loss is logged
      while [Run] runs, and the goroutines come to rest: their own steps decrease a
      measure and stop only where nothing is left to do; a shutdown with room in the
      channel, no payload held and none lost before delivers everything.  The index
      theorem holds for orderly interleavings.  Three reachable states show what the
      code does not guarantee: an old upsert may overtake a delete, a batch may be
      lost at shutdown, and a late timer may end the window of another entry; the
      last one cannot happen in the capabilities buffer, for which the window is
      proved.
    - Watcher: discovery finds exactly the resource types the filter accepts, the
      handlers emit or log every relevant change, change detection is
      characterised (with the label changes it misses), a resync lists and emits
      everything, and the periodic resync of the informers emits nothing.  [Start]
      never closes the stop channel twice, puts handlers on exactly the discovered
      resources, and returns after the cancellation even if no cache ever syncs.
    - API: only a POST of the documented path (in any percent-escaped spelling)
      reaches the handler, whose answer is always a success; every other request
      gets the status the library gives it; the server returns without waiting for running handlers.
    - Client: the retry loop (who is retried, how often, with which requests), the
      bounds of the backoff in exact [float64] arithmetic, and how often the server
      takes a body: once per success and once per request taken unseen.
    - Configuration, filter, metadata: parsing with its overflow, case folding, the
      uniqueness of IDs, the annotations kept, the wire round trip.

    ** Assumptions and bounds

    Code outside the repository is a parameter: the accessors of unstructured
    objects (class [Unstructured]), Unicode case folding of non-ASCII strings (class
    [GoUnicode]), [ParseGroupVersion], the lists the API server returns, the
    answers of the HTTP server, seen by the client or not, and the random numbers
    ([World]), the failures of
    the libraries [main] calls ([Libraries]).  What the program relies on in the
    informers is the relation [informs]: a notification passes the informer's own
    copy as the old object, an update keeps the creation time (so an object that
    was deleted and created anew while the watch was interrupted, which an
    informer reports as an update, is outside the relation), and equal resource
    versions mean equal metadata.  [select] and map iteration take their choice as
    an argument, so theorems hold for every scheduling.  Integers that the code
    stores in 64 bits wrap around; the window theorem assumes fewer than 2^64 adds,
    the backoff bounds a maximal delay below 2^53 ns.  The reader of [Json.v] uses
    the length of the text as fuel, which is enough for every text the encoder
    writes; the loops of the client and the buffers are structural, and the
    transition systems have measures ([work], [start_work], [sender_work]) instead of
    fuel.  The
    multiplexer is that of Go 1.26, for requests the server could parse.  A request
    that the server takes although the client sees an error is taken before the
    next request is sent: a server that takes it later, after a newer payload, is
    outside the model.

    ** Not modelled

    Log output except the lines that report a drop; the informer cache, the
    controller manager, the parsing of the command line, the logger; the sockets
    below the HTTP server; the mock server and the helpers of the tests.  Go's
    memory model below the mutexes: a critical section is atomic. *)

From Stdlib Require Export ZArith Lia.
From stdpp Require Export base tactics option list gmap strings fin_maps sorting.

(** ** Notation scope *)

Declare Scope sync_scope.
Delimit Scope sync_scope with sync.

(** Go's [m[k]] on a [map[string]string]: the zero value when [k] is absent. *)
Notation "m .[ k ]" := (default ""%string (m !! k))
  (at level 5, k at level 200, format "m .[ k ]") : sync_scope.

(** ** Hint databases *)

Create HintDb sync discriminated.
#[export] Hint Constructors rtc : sync.
#[export] Hint Extern 1 (_ ⊆ _) =>
  first [apply delete_subseteq | apply map_empty_subseteq | apply map_filter_subseteq] : sync.

(** ** Tactics *)

(** Case analysis on a lookup in an updated map. *)
Ltac lookup_cases :=
  repeat match goal with
  | |- context [<[?i:=_]> _ !! ?j] =>
      destruct (decide (i = j)) as [<-|];
      [rewrite ?lookup_insert_eq|rewrite ?lookup_insert_ne by done]
  | |- context [delete ?i _ !! ?j] =>
      destruct (decide (i = j)) as [<-|];
      [rewrite ?lookup_delete_eq|rewrite ?lookup_delete_ne by done]
  | H : context [<[?i:=_]> _ !! ?j] |- _ =>
      destruct (decide (i = j)) as [<-|];
      [rewrite ?lookup_insert_eq in H|rewrite ?lookup_insert_ne in H by done]
  | H : context [delete ?i _ !! ?j] |- _ =>
      destruct (decide (i = j)) as [<-|];
      [rewrite ?lookup_delete_eq in H|rewrite ?lookup_delete_ne in H by done]
  end; simplify_eq.

(** ** Reachability *)

Section reachability.
Context {S : Type} (step : S → S → Prop).

(** Rule induction in the form the invariants use: an inductive property that
    holds at the start holds at every reachable state. *)
Lemma rtc_invariant (P : S → Prop) s s' :
  P s → (∀ a b, P a → step a b → P b) → rtc step s s' → P s'.
Proof. intros Hs Hstep Hr. induction Hr; eauto. Qed.
End reachability.
