(* ===== verification/GoRuntime.v ===== *)
(** The part of the Go language and runtime that the sources use: panics,
    machine integers, buffered channels, the non-blocking and the blocking
    [select], timers started by [time.AfterFunc], and [time.NewTicker].

    A channel is its buffer, its capacity and its closed flag.  Every channel of
    the program is buffered, so handing a value to a waiting receiver is the
    same as enqueueing and dequeueing it.  [select] picks any ready case: the
    pick is an argument [choice] of the model, so a theorem that quantifies over
    it holds for every scheduling. *)

From S2P Require Import Prelude.

(** ** Panics *)

Inductive Panic :=
  | SendOnClosedChannel
  | CloseOfClosedChannel
  | NonPositiveTickerInterval.

Inductive Outcome (A : Type) :=
  | Ok (a : A)
  | Panicked (p : Panic).
Arguments Ok {A} a.
Arguments Panicked {A} p.

#[export] Instance outcome_ret : MRet Outcome := @Ok.
#[export] Instance outcome_bind : MBind Outcome := λ A B f m,
  match m with Ok a => f a | Panicked p => Panicked p end.

Definition is_ok {A} (m : Outcome A) : Prop := ∃ a, m = Ok a.

Lemma bind_Ok {A B} (m : Outcome A) (f : A → Outcome B) b :
  m ≫= f = Ok b ↔ ∃ a, m = Ok a ∧ f a = Ok b.
Proof. destruct m; naive_solver. Qed.

(** ** Machine integers *)

Definition int64_min : Z := - 2 ^ 63.
Definition int64_max : Z := 2 ^ 63 - 1.

(** The value an [int64] (or a 64-bit [int]) operation stores. *)
Definition to_int64 (z : Z) : Z := (z + 2 ^ 63) mod 2 ^ 64 - 2 ^ 63.

(** The value a [uint64] operation stores. *)
Definition to_uint64 (z : Z) : Z := z mod 2 ^ 64.

Definition in_int64 (z : Z) : Prop := (int64_min ≤ z ≤ int64_max)%Z.

#[export] Instance in_int64_dec z : Decision (in_int64 z).
Proof. unfold in_int64. apply _. Defined.

Lemma to_int64_id z : in_int64 z → to_int64 z = z.
Proof.
  unfold in_int64, to_int64, int64_min, int64_max. intros.
  rewrite Z.mod_small; lia.
Qed.

Lemma to_int64_range z : in_int64 (to_int64 z).
Proof.
  unfold in_int64, to_int64, int64_min, int64_max.
  pose proof (Z.mod_pos_bound (z + 2 ^ 63) (2 ^ 64) ltac:(lia)). lia.
Qed.

Lemma to_uint64_id z : (0 ≤ z < 2 ^ 64)%Z → to_uint64 z = z.
Proof. apply Z.mod_small. Qed.

#[export] Hint Resolve to_int64_range : sync.

(** [time.Duration]: nanoseconds in an [int64]. *)
Definition Millisecond : Z := 1000000.
Definition Second : Z := 1000 * Millisecond.
Definition Minute : Z := 60 * Second.

(** [time.NewTicker] panics when its interval is not positive. *)
Definition NewTicker (d : Z) : Outcome unit :=
  if decide (0 < d)%Z then Ok () else Panicked NonPositiveTickerInterval.

(** ** Channels *)

Record Chan (A : Type) := mkChan {
  chan_buf : list A;
  chan_cap : nat;
  chan_closed : bool;
}.
Arguments mkChan {A}.
Arguments chan_buf {A}.
Arguments chan_cap {A}.
Arguments chan_closed {A}.

Definition make_chan {A} (cap : nat) : Chan A := mkChan [] cap false.

Definition chan_has_room {A} (c : Chan A) : bool :=
  bool_decide (length (chan_buf c) < chan_cap c).

Definition chan_push {A} (x : A) (c : Chan A) : Chan A :=
  mkChan (chan_buf c ++ [x]) (chan_cap c) (chan_closed c).

(** [select { case c <- x: default: }].  The boolean says whether the send was
    taken; a send on a closed channel panics. *)
Definition select_send {A} (x : A) (c : Chan A) : Outcome (bool * Chan A) :=
  if chan_closed c then Panicked SendOnClosedChannel
  else if chan_has_room c then Ok (true, chan_push x c)
  else Ok (false, c).

(** [close(c)]. *)
Definition chan_close {A} (c : Chan A) : Outcome (Chan A) :=
  if chan_closed c then Panicked CloseOfClosedChannel
  else Ok (mkChan (chan_buf c) (chan_cap c) true).

Inductive Recv (A : Type) :=
  | Received (x : A) (c : Chan A)
  | RecvClosed
  | RecvBlocks.
Arguments Received {A}.
Arguments RecvClosed {A}.
Arguments RecvBlocks {A}.

(** [x, ok := <-c]. *)
Definition chan_recv {A} (c : Chan A) : Recv A :=
  match chan_buf c with
  | x :: xs => Received x (mkChan xs (chan_cap c) (chan_closed c))
  | [] => if chan_closed c then RecvClosed else RecvBlocks
  end.

(** Every operation keeps the buffer within the capacity. *)
Definition chan_wf {A} (c : Chan A) : Prop := length (chan_buf c) ≤ chan_cap c.

Lemma chan_push_wf {A} (x : A) c :
  chan_has_room c = true → chan_wf (chan_push x c).
Proof.
  unfold chan_has_room, chan_wf, chan_push. rewrite bool_decide_eq_true.
  simpl. rewrite length_app. simpl. lia.
Qed.

(** ** Select over several ready cases *)

(** [select] with a [default]: when no case is ready the default runs; otherwise
    one of the ready cases does, and [choice] says which. *)
Definition select_default {A} (choice : nat) (ready : list A) (dflt : A) : A :=
  match ready with
  | [] => dflt
  | _ => default dflt (ready !! (choice `mod` length ready))
  end.

(** [select] without a [default] blocks ([None]) when no case is ready. *)
Definition select_block {A} (choice : nat) (ready : list A) : option A :=
  match ready with
  | [] => None
  | _ => ready !! (choice `mod` length ready)
  end.

Lemma select_default_elem {A} choice (ready : list A) dflt :
  ready ≠ [] → select_default choice ready dflt ∈ ready.
Proof.
  intros Hne. destruct ready as [|x xs]; [done|].
  unfold select_default.
  destruct (lookup_lt_is_Some_2 (x :: xs) (choice `mod` length (x :: xs))) as [y Hy].
  { apply Nat.mod_upper_bound. simpl. lia. }
  rewrite Hy. simpl. by eapply list_elem_of_lookup_2.
Qed.

Lemma select_block_Some {A} choice (ready : list A) :
  ready ≠ [] → ∃ x, select_block choice ready = Some x ∧ x ∈ ready.
Proof.
  intros Hne. destruct ready as [|x xs]; [done|].
  unfold select_block.
  destruct (lookup_lt_is_Some_2 (x :: xs) (choice `mod` length (x :: xs))) as [y Hy].
  { apply Nat.mod_upper_bound. simpl. lia. }
  exists y. split; [done|]. by eapply list_elem_of_lookup_2.
Qed.

(** ** Timers *)

(** A pending [time.AfterFunc]: when it is due and the variables its function
    captured. *)
Record Timer (C : Type) := mkTimer { deadline : Z; closure : C }.
Arguments mkTimer {C}.
Arguments deadline {C}.
Arguments closure {C}.

(** The runtime's timers: the clock, the armed timers by identity, and the next
    identity. *)
Record Timers (C : Type) := mkTimers {
  now : Z;
  armed : gmap nat (Timer C);
  next_timer : nat;
}.
Arguments mkTimers {C}.
Arguments now {C}.
Arguments armed {C}.
Arguments next_timer {C}.

Definition no_timers {C} : Timers C := mkTimers 0 ∅ 0.

(** [time.AfterFunc(d, f)] returns a new armed timer. *)
Definition AfterFunc {C} (d : Z) (f : C) (t : Timers C) : nat * Timers C :=
  (next_timer t,
   mkTimers (now t) (<[next_timer t := mkTimer (now t + d) f]> (armed t)) (S (next_timer t))).

(** [timer.Stop()] disarms the timer.  It does not wait for, or undo, a function
    that already started. *)
Definition StopTimer {C} (tid : nat) (t : Timers C) : Timers C :=
  mkTimers (now t) (delete tid (armed t)) (next_timer t).

(** A timer that is due starts its function in a goroutine of its own. *)
Definition fire {C} (tid : nat) (t : Timers C) : option (C * Timers C) :=
  tm ← armed t !! tid;
  if decide (deadline tm ≤ now t)%Z
  then Some (closure tm, StopTimer tid t)
  else None.

Definition advance {C} (dt : Z) (t : Timers C) : Timers C :=
  mkTimers (now t + dt) (armed t) (next_timer t).

(** The stored value is the mathematical one exactly when that fits. *)
Lemma to_int64_exact z : to_int64 z = z ↔ in_int64 z.
Proof.
  split; [|apply to_int64_id]. intros <-. apply to_int64_range.
Qed.

(** ** Two-way selects *)

(** The selects of the sources have two cases, each ready or not. *)
Definition ready2 {A} (b1 b2 : bool) (x1 x2 : A) : list A :=
  (if b1 then [x1] else []) ++ (if b2 then [x2] else []).

Lemma ready2_elem {A} b1 b2 (x1 x2 y : A) :
  y ∈ ready2 b1 b2 x1 x2 → (b1 = true ∧ y = x1) ∨ (b2 = true ∧ y = x2).
Proof. unfold ready2. destruct b1, b2; simpl; set_solver. Qed.

Lemma ready2_nil {A} b1 b2 (x1 x2 : A) :
  ready2 b1 b2 x1 x2 = [] → b1 = false ∧ b2 = false.
Proof. unfold ready2. by destruct b1, b2. Qed.

Lemma select_default2 {A} choice b1 b2 (x1 x2 d : A) :
  let s := select_default choice (ready2 b1 b2 x1 x2) d in
  (b1 = true ∧ s = x1) ∨ (b2 = true ∧ s = x2) ∨ (b1 = false ∧ b2 = false ∧ s = d).
Proof.
  destruct (ready2 b1 b2 x1 x2) as [|y ys] eqn:E.
  - apply ready2_nil in E. naive_solver.
  - assert (select_default choice (y :: ys) d ∈ y :: ys) as Hin by by apply select_default_elem.
    rewrite <- E in Hin at 2. apply ready2_elem in Hin. naive_solver.
Qed.

Lemma select_block2 {A} choice b1 b2 (x1 x2 : A) :
  let s := select_block choice (ready2 b1 b2 x1 x2) in
  (b1 = true ∧ s = Some x1) ∨ (b2 = true ∧ s = Some x2) ∨ (b1 = false ∧ b2 = false ∧ s = None).
Proof.
  destruct (ready2 b1 b2 x1 x2) as [|y ys] eqn:E.
  - apply ready2_nil in E. naive_solver.
  - destruct (select_block_Some choice (y :: ys)) as (z & Hz & Hin); [done|].
    rewrite <- E in Hin. apply ready2_elem in Hin. naive_solver.
Qed.

(** ** Ranging over a map *)

(** The keys [for k, v := range m] visits, in Go's unspecified order: any order of
    the keys is [range_keys hint m] for some [hint]. *)
Definition range_keys {A} (hint : list string) (m : gmap string A) : list string :=
  let front := remove_dups (List.filter (λ k, bool_decide (is_Some (m !! k))) hint) in
  front ++ List.filter (λ k, bool_decide (k ∉ front)) (map_to_list m).*1.

Lemma elem_of_bool_filter {A} (f : A → bool) l x :
  x ∈ List.filter f l ↔ x ∈ l ∧ f x = true.
Proof. rewrite !list_elem_of_In. apply filter_In. Qed.

Lemma range_keys_elem {A} hint (m : gmap string A) k :
  k ∈ range_keys hint m ↔ is_Some (m !! k).
Proof.
  unfold range_keys. rewrite elem_of_app, elem_of_remove_dups, !elem_of_bool_filter,
    !bool_decide_eq_true, elem_of_remove_dups, elem_of_bool_filter, bool_decide_eq_true.
  rewrite list_elem_of_fmap.
  assert ((∃ kv, k = kv.1 ∧ kv ∈ map_to_list m) ↔ is_Some (m !! k)) as ->.
  { split.
    - intros ([k' v] & -> & Hin%elem_of_map_to_list). eauto.
    - intros [v Hv]. exists (k, v). by rewrite elem_of_map_to_list. }
  destruct (decide (k ∈ hint)); tauto.
Qed.

Lemma range_keys_NoDup {A} hint (m : gmap string A) : NoDup (range_keys hint m).
Proof.
  unfold range_keys. apply NoDup_app. split; [apply NoDup_remove_dups|]. split.
  - intros k Hk [_ Hn]%elem_of_bool_filter. by apply bool_decide_eq_true in Hn.
  - apply NoDup_ListNoDup, List.NoDup_filter, NoDup_ListNoDup, NoDup_fst_map_to_list.
Qed.

#[export] Hint Resolve range_keys_NoDup : sync.

(** The loop: a key that the body deleted before its turn is not visited. *)
Fixpoint range_loop {E St} (map_of : St → gmap string E) (body : string → E → St → St)
    (keys : list string) (s : St) : St :=
  match keys with
  | [] => s
  | k :: keys =>
      match map_of s !! k with
      | Some e => range_loop map_of body keys (body k e s)
      | None => range_loop map_of body keys s
      end
  end.
