(* ===== verification/GoStrings.v ===== *)
(** Go's [strings] and [strconv] functions, as far as the sources use them.

    A Go string is a sequence of bytes; [string] is that sequence.  [TrimSpace]
    is exact: Unicode's white space has few code points, and their UTF-8
    encodings are listed.  [ToLower] is exact on ASCII strings; on other strings
    it uses Go's Unicode tables, which are a parameter ([GoUnicode]). *)

From Stdlib Require Import Ascii String.
From stdpp Require Import pretty.
From S2P Require Import Prelude GoRuntime.

(** ** Bytes *)

Definition byte_of (c : ascii) : nat := nat_of_ascii c.

Fixpoint string_forall (f : ascii → bool) (s : string) : bool :=
  match s with
  | EmptyString => true
  | String c s => f c && string_forall f s
  end.

Fixpoint string_map (f : ascii → ascii) (s : string) : string :=
  match s with
  | EmptyString => EmptyString
  | String c s => String (f c) (string_map f s)
  end.

Definition is_ascii (s : string) : bool :=
  string_forall (λ c, bool_decide (byte_of c < 128)) s.

Definition lower_byte (c : ascii) : ascii :=
  if bool_decide (65 ≤ byte_of c ∧ byte_of c ≤ 90) then ascii_of_nat (byte_of c + 32) else c.

(** The case mapping of strings with a non-ASCII byte. *)
Class GoUnicode := unicode_ToLower : string → string.

(** [strings.ToLower] *)
Definition ToLower `{GoUnicode} (s : string) : string :=
  if is_ascii s then string_map lower_byte s else unicode_ToLower s.

(** ** Prefixes and separators *)

(** [strings.HasPrefix(s, p)] *)
Definition HasPrefix (s p : string) : bool := String.prefix p s.

(** [strings.Contains(s, c)] for a one-byte [c] *)
Fixpoint ContainsByte (c : ascii) (s : string) : bool :=
  match s with
  | EmptyString => false
  | String a s => Ascii.eqb a c || ContainsByte c s
  end.

(** [strings.Split(s, c)] for a one-byte separator: always at least one part. *)
Fixpoint Split (c : ascii) (s : string) : list string :=
  match s with
  | EmptyString => [""]
  | String a s =>
      if Ascii.eqb a c then "" :: Split c s
      else match Split c s with
           | p :: ps => String a p :: ps
           | [] => [String a ""]
           end
  end.

(** [strings.SplitN(s, c, 2)]: the parts before and after the first [c]. *)
Fixpoint SplitN2 (c : ascii) (s : string) : list string :=
  match s with
  | EmptyString => [""]
  | String a s =>
      if Ascii.eqb a c then [""; s]
      else match SplitN2 c s with
           | p :: ps => String a p :: ps
           | [] => [String a ""]
           end
  end.

(** [strings.Join(parts, c)] *)
Fixpoint Join (c : ascii) (parts : list string) : string :=
  match parts with
  | [] => ""
  | [p] => p
  | p :: ps => p +:+ String c (Join c ps)
  end.

(** ** TrimSpace *)

Definition bytes (l : list nat) : list ascii := ascii_of_nat <$> l.

(** The UTF-8 encodings of the code points [unicode.IsSpace] accepts. *)
Definition white_space : list (list ascii) :=
  bytes <$>
  [[9]; [10]; [11]; [12]; [13]; [32]; [194; 133]; [194; 160]; [225; 154; 128];
   [226; 128; 128]; [226; 128; 129]; [226; 128; 130]; [226; 128; 131];
   [226; 128; 132]; [226; 128; 133]; [226; 128; 134]; [226; 128; 135];
   [226; 128; 136]; [226; 128; 137]; [226; 128; 138]; [226; 128; 168];
   [226; 128; 169]; [226; 128; 175]; [226; 129; 159]; [227; 128; 128]].

Fixpoint strip_prefix (p s : list ascii) : option (list ascii) :=
  match p, s with
  | [], _ => Some s
  | a :: p, b :: s => if Ascii.eqb a b then strip_prefix p s else None
  | _ :: _, [] => None
  end.

(** Removes the first member of [ps] that [s] starts with. *)
Fixpoint strip_any (ps : list (list ascii)) (s : list ascii) : option (list ascii) :=
  match ps with
  | [] => None
  | p :: ps => match strip_prefix p s with
               | Some s' => Some s'
               | None => strip_any ps s
               end
  end.

(** Every white space code point has at least one byte, so [length s] rounds
    are enough. *)
Fixpoint trim_start (ps : list (list ascii)) (fuel : nat) (s : list ascii) : list ascii :=
  match fuel with
  | 0 => s
  | S fuel => match strip_any ps s with
              | Some s' => trim_start ps fuel s'
              | None => s
              end
  end.

Definition trim_left (s : list ascii) : list ascii :=
  trim_start white_space (length s) s.

Definition trim_right (s : list ascii) : list ascii :=
  reverse (trim_start (reverse <$> white_space) (length s) (reverse s)).

(** [strings.TrimSpace] *)
Definition TrimSpace (s : string) : string :=
  string_of_list_ascii (trim_right (trim_left (list_ascii_of_string s))).

(** ** Numbers *)

Definition digit_value (c : ascii) : option Z :=
  if bool_decide (48 ≤ byte_of c ∧ byte_of c ≤ 57)
  then Some (Z.of_nat (byte_of c) - 48)%Z else None.

Fixpoint parse_digits (s : string) (acc : Z) : option Z :=
  match s with
  | EmptyString => Some acc
  | String c s => d ← digit_value c; parse_digits s (10 * acc + d)
  end.

Definition parse_uint (s : string) : option Z :=
  if String.eqb s "" then None else parse_digits s 0.

Definition parse_signed (s : string) : option Z :=
  match s with
  | String "-" r => Z.opp <$> parse_uint r
  | String "+" r => parse_uint r
  | _ => parse_uint s
  end.

(** [strconv.Atoi]: an optional sign, decimal digits, and a value that fits a
    64-bit [int]. *)
Definition Atoi (s : string) : option Z :=
  z ← parse_signed s; if decide (in_int64 z) then Some z else None.

(** [%d] of [fmt] *)
Definition Itoa (z : Z) : string := pretty z.

(** ** Lemmas: strings *)

#[local] Arguments String.append !s1 s2 /.

Lemma append_nil_r s : s +:+ "" = s.
Proof. induction s; simpl; [done|]. by rewrite IHs. Qed.

Lemma append_assoc' s1 s2 s3 : (s1 +:+ s2) +:+ s3 = s1 +:+ (s2 +:+ s3).
Proof. induction s1; simpl; [done|]. by rewrite IHs1. Qed.

Lemma HasPrefix_spec s p : HasPrefix s p = true ↔ ∃ r, s = p +:+ r.
Proof.
  unfold HasPrefix. revert s. induction p as [|a p IH]; intros s.
  - destruct s; simpl; naive_solver.
  - destruct s as [|b s]; simpl; [naive_solver|].
    destruct (ascii_dec a b) as [<-|Hne]; [rewrite IH|]; naive_solver.
Qed.

Lemma ContainsByte_app c s1 s2 :
  ContainsByte c (s1 +:+ s2) = ContainsByte c s1 || ContainsByte c s2.
Proof. induction s1 as [|a s1 IH]; simpl; [done|]. by rewrite IH, orb_assoc. Qed.

Lemma SplitN2_absent c s : ContainsByte c s = false → SplitN2 c s = [s].
Proof.
  induction s as [|a s IH]; simpl; [done|].
  intros [-> Hs]%orb_false_elim. by rewrite IH.
Qed.

Lemma SplitN2_first c p r :
  ContainsByte c p = false → SplitN2 c (p +:+ String c r) = [p; r].
Proof.
  induction p as [|a p IH]; simpl.
  - by rewrite Ascii.eqb_refl.
  - intros [-> Hp]%orb_false_elim. by rewrite IH.
Qed.

(** The first separator splits a string in one way only. *)
Lemma append_sep_inj c p1 p2 r1 r2 :
  ContainsByte c p1 = false → ContainsByte c p2 = false →
  p1 +:+ String c r1 = p2 +:+ String c r2 → p1 = p2 ∧ r1 = r2.
Proof.
  intros H1 H2 Heq.
  pose proof (SplitN2_first c p1 r1 H1) as E1.
  pose proof (SplitN2_first c p2 r2 H2) as E2.
  rewrite Heq, E2 in E1. naive_solver.
Qed.

(** So does the last one. *)
Lemma append_last_sep_inj c p1 p2 r1 r2 :
  ContainsByte c r1 = false → ContainsByte c r2 = false →
  p1 +:+ String c r1 = p2 +:+ String c r2 → p1 = p2 ∧ r1 = r2.
Proof.
  intros H1 H2. revert p2. induction p1 as [|a p1 IH]; intros [|b p2]; simpl.
  - naive_solver.
  - intros [= <- ->]. rewrite ContainsByte_app in H1. simpl in H1.
    rewrite Ascii.eqb_refl, orb_true_r in H1. done.
  - intros [= -> <-]. rewrite ContainsByte_app in H2. simpl in H2.
    rewrite Ascii.eqb_refl, orb_true_r in H2. done.
  - intros [= -> Heq]. destruct (IH p2 Heq). naive_solver.
Qed.

Lemma Split_absent c s : ContainsByte c s = false → Split c s = [s].
Proof.
  induction s as [|a s IH]; simpl; [done|].
  intros [-> Hs]%orb_false_elim. by rewrite IH.
Qed.

Lemma Split_first c p r :
  ContainsByte c p = false → Split c (p +:+ String c r) = p :: Split c r.
Proof.
  induction p as [|a p IH]; simpl.
  - by rewrite Ascii.eqb_refl.
  - intros [-> Hp]%orb_false_elim. by rewrite IH.
Qed.

Lemma Split_Join c ps :
  ps ≠ [] → Forall (λ p, ContainsByte c p = false) ps → Split c (Join c ps) = ps.
Proof.
  intros Hne Hall. induction Hall as [|p ps Hp Hps IH]; [done|].
  destruct ps as [|q ps]; simpl.
  - by apply Split_absent.
  - rewrite Split_first by done. f_equal. by apply IH.
Qed.

Lemma Split_nonempty c s : Split c s ≠ [].
Proof. destruct s as [|a s]; simpl; [done|]. destruct (Ascii.eqb a c); [done|]. by destruct (Split c s). Qed.

Lemma Join_Split c s : Join c (Split c s) = s.
Proof.
  induction s as [|a s IH]; [done|]. pose proof (Split_nonempty c s) as Hne. simpl.
  destruct (Ascii.eqb_spec a c) as [->|_].
  - destruct (Split c s); [done|]. by rewrite <- IH.
  - destruct (Split c s) as [|q [|q' qs]]; [done|by rewrite <- IH|by rewrite <- IH].
Qed.

Lemma Split_no_sep c s p : p ∈ Split c s → ContainsByte c p = false.
Proof.
  revert p. induction s as [|a s IH]; intros p; simpl; [set_solver|].
  destruct (Ascii.eqb a c) eqn:Hac; [set_solver|].
  destruct (Split c s) as [|q qs].
  - intros ->%list_elem_of_singleton. simpl. by rewrite Hac.
  - intros [->|?]%elem_of_cons; [|set_solver].
    simpl. rewrite Hac. simpl. apply IH. set_solver.
Qed.

(** ** Lemmas: TrimSpace *)

Lemma strip_prefix_Some p s r : strip_prefix p s = Some r ↔ s = p ++ r.
Proof.
  revert s. induction p as [|a p IH]; intros [|b s]; simpl; try naive_solver.
  destruct (Ascii.eqb_spec a b) as [->|]; [rewrite IH|]; naive_solver.
Qed.

Lemma strip_any_None ps s :
  strip_any ps s = None ↔ ∀ p r, p ∈ ps → s ≠ p ++ r.
Proof.
  induction ps as [|p ps IH]; simpl; [set_solver|].
  destruct (strip_prefix p s) eqn:E.
  - apply strip_prefix_Some in E. split; [done|]. intros H. set_solver.
  - rewrite IH. split; [|set_solver].
    intros H q r [->|?]%elem_of_cons; [|naive_solver].
    intros ->. assert (strip_prefix p (p ++ r) = Some r) by by apply strip_prefix_Some.
    congruence.
Qed.

Lemma strip_any_Some ps s r :
  strip_any ps s = Some r → ∃ p, p ∈ ps ∧ s = p ++ r.
Proof.
  induction ps as [|p ps IH]; simpl; [done|].
  destruct (strip_prefix p s) eqn:E.
  - intros [= ->]. apply strip_prefix_Some in E. set_solver.
  - intros Hs. destruct (IH Hs) as (q & ? & ?). set_solver.
Qed.

Lemma trim_start_done ps fuel s :
  (∀ p, p ∈ ps → p ≠ []) → length s ≤ fuel →
  strip_any ps (trim_start ps fuel s) = None.
Proof.
  intros Hps. revert s. induction fuel as [|fuel IH]; intros s Hlen; simpl.
  - destruct s; [|simpl in Hlen; lia]. apply strip_any_None.
    intros p r Hp%Hps. by destruct p.
  - destruct (strip_any ps s) as [s'|] eqn:E; [|done].
    apply IH. destruct (strip_any_Some _ _ _ E) as (p & Hp%Hps & ->).
    destruct p; [done|]. rewrite length_app in Hlen. simpl in Hlen. lia.
Qed.

Lemma trim_start_stop ps fuel s :
  strip_any ps s = None → trim_start ps fuel s = s.
Proof. destruct fuel; simpl; [done|]. by intros ->. Qed.

Lemma trim_start_suffix ps fuel s : ∃ r, s = r ++ trim_start ps fuel s.
Proof.
  revert s. induction fuel as [|fuel IH]; intros s; simpl; [by exists []|].
  destruct (strip_any ps s) as [s'|] eqn:E; [|by exists []].
  destruct (strip_any_Some _ _ _ E) as (p & _ & ->).
  destruct (IH s') as [r Hr]. exists (p ++ r). by rewrite <- app_assoc, <- Hr.
Qed.

Lemma white_space_nonempty p : p ∈ white_space → p ≠ [].
Proof.
  assert (Forall (λ p, p ≠ []) white_space) as H by by repeat constructor.
  rewrite Forall_forall in H. apply H.
Qed.

Lemma reverse_white_space_nonempty p : p ∈ reverse <$> white_space → p ≠ [].
Proof.
  intros (q & -> & Hq)%list_elem_of_fmap Hp. apply (white_space_nonempty q); [done|].
  apply (f_equal reverse) in Hp. by rewrite reverse_involutive in Hp.
Qed.

(** A string without white space at either end. *)
Definition trimmed (s : list ascii) : Prop :=
  strip_any white_space s = None ∧ strip_any (reverse <$> white_space) (reverse s) = None.

Lemma trim_trimmed s : trimmed (trim_right (trim_left s)).
Proof.
  unfold trimmed. split.
  - unfold trim_right.
    destruct (trim_start_suffix (reverse <$> white_space) (length (trim_left s))
                (reverse (trim_left s))) as [r Hr].
    apply (f_equal reverse) in Hr. rewrite reverse_involutive, reverse_app in Hr.
    pose proof (trim_start_done white_space (length s) s white_space_nonempty) as Hdone.
    fold (trim_left s) in Hdone. rewrite strip_any_None in Hdone |- *.
    intros p q Hp Heq. apply (Hdone ltac:(lia) p (q ++ reverse r) Hp).
    by rewrite Hr, Heq, app_assoc.
  - unfold trim_right. rewrite reverse_involutive.
    apply trim_start_done; [apply reverse_white_space_nonempty|].
    by rewrite length_reverse.
Qed.

Lemma trimmed_trim s : trimmed s → trim_right (trim_left s) = s.
Proof.
  intros [Hl Hr]. unfold trim_left, trim_right.
  rewrite (trim_start_stop _ _ s) by done.
  rewrite trim_start_stop by done. apply reverse_involutive.
Qed.

Lemma TrimSpace_idemp s : TrimSpace (TrimSpace s) = TrimSpace s.
Proof.
  unfold TrimSpace. rewrite list_ascii_of_string_of_list_ascii.
  by rewrite (trimmed_trim _ (trim_trimmed _)).
Qed.

(** ASCII strings with blanks around them. *)

(** The ASCII characters [unicode.IsSpace] accepts. *)
Definition is_blank (c : ascii) : bool :=
  bool_decide (9 ≤ byte_of c ∧ byte_of c ≤ 13 ∨ byte_of c = 32).

Definition blank (s : string) : bool := string_forall is_blank s.

Lemma strip_any_ascii c s :
  byte_of c < 128 →
  strip_any white_space (c :: s) = (if is_blank c then Some s else None)
  ∧ strip_any (reverse <$> white_space) (c :: s) = (if is_blank c then Some s else None).
Proof.
  intros Hc. assert (bool_decide (byte_of c < 128) = true) as Hb by by apply bool_decide_eq_true.
  clear Hc. destruct c as [[][][][][][][][]]; vm_compute in Hb; try discriminate; by split.
Qed.

Lemma blank_ascii c : is_blank c = true → byte_of c < 128.
Proof. unfold is_blank. intros H%bool_decide_eq_true. lia. Qed.

Lemma strip_any_reverse_nil : strip_any (reverse <$> white_space) [] = None.
Proof. reflexivity. Qed.

(** Trimming removes exactly the blanks at the start. *)
Lemma trim_start_blanks ps b s fuel :
  (∀ c s, byte_of c < 128 → strip_any ps (c :: s) = if is_blank c then Some s else None) →
  Forall (λ c, is_blank c = true) b → strip_any ps s = None → length (b ++ s) ≤ fuel →
  trim_start ps fuel (b ++ s) = s.
Proof.
  intros Hps Hb Hs. revert fuel. induction Hb as [|c b Hc _ IH]; intros fuel Hf.
  - by apply trim_start_stop.
  - destruct fuel as [|fuel]; [cbn in Hf; lia|]. cbn [trim_start app].
    rewrite Hps by (by apply blank_ascii). rewrite Hc. apply IH. cbn in Hf. lia.
Qed.

(** A text whose first and last characters are not blank. *)
Lemma strip_any_app ps s r :
  (∀ c s, byte_of c < 128 → strip_any ps (c :: s) = if is_blank c then Some s else None) →
  Forall (λ c, byte_of c < 128) s → s ≠ [] → strip_any ps s = None → strip_any ps (s ++ r) = None.
Proof.
  intros Hps Ha Hne. destruct Ha as [|c s Hc _]; [done|]. cbn [app]. rewrite !Hps by done.
  by destruct (is_blank c).
Qed.

Lemma trim_padded b1 s b2 :
  Forall (λ c, is_blank c = true) b1 → Forall (λ c, is_blank c = true) b2 →
  Forall (λ c, byte_of c < 128) s → trimmed s →
  trim_right (trim_left (b1 ++ s ++ b2)) = s.
Proof.
  intros H1 H2 Ha [Hl Hr].
  assert (∀ c s, byte_of c < 128 → strip_any white_space (c :: s) = if is_blank c then Some s else None)
    as Hw by (intros c x Hc; exact (proj1 (strip_any_ascii c x Hc))).
  assert (∀ c s, byte_of c < 128 →
    strip_any (reverse <$> white_space) (c :: s) = if is_blank c then Some s else None)
    as Hrw by (intros c x Hc; exact (proj2 (strip_any_ascii c x Hc))).
  unfold trim_left. destruct (decide (s = [])) as [->|Hne].
  - assert (Forall (λ c, is_blank c = true) (b1 ++ b2)) as H12 by (apply Forall_app; by split).
    pose proof (trim_start_blanks white_space (b1 ++ b2) [] (length (b1 ++ b2)) Hw H12 Hl) as E.
    rewrite app_nil_r in E. cbn [app]. by rewrite E.
  - rewrite (trim_start_blanks white_space b1 (s ++ b2) (length (b1 ++ s ++ b2)) Hw H1
      (strip_any_app white_space s b2 Hw Ha Hne Hl)) by lia.
    unfold trim_right. rewrite reverse_app.
    rewrite (trim_start_blanks (reverse <$> white_space) (reverse b2) (reverse s) (length (s ++ b2)) Hrw);
      [apply reverse_involutive|by apply Forall_reverse|exact Hr|].
    by rewrite length_app, !length_reverse, length_app, Nat.add_comm.
Qed.

Lemma list_ascii_app s1 s2 :
  list_ascii_of_string (s1 +:+ s2) = list_ascii_of_string s1 ++ list_ascii_of_string s2.
Proof. induction s1 as [|c s1 IH]; [done|]. cbn. by rewrite IH. Qed.

Lemma string_forall_list f s :
  string_forall f s = true ↔ Forall (λ c, f c = true) (list_ascii_of_string s).
Proof.
  induction s as [|c s IH]; cbn; [by split|].
  rewrite Forall_cons, <- IH. apply andb_true_iff.
Qed.

Lemma TrimSpace_trimmed s : TrimSpace s = s → trimmed (list_ascii_of_string s).
Proof.
  intros E. rewrite <- E. unfold TrimSpace. rewrite list_ascii_of_string_of_list_ascii.
  apply trim_trimmed.
Qed.

(** Blanks around a trimmed ASCII text are what [TrimSpace] removes. *)
Lemma TrimSpace_padded b1 s b2 :
  blank b1 = true → blank b2 = true → is_ascii s = true → TrimSpace s = s →
  TrimSpace (b1 +:+ s +:+ b2) = s.
Proof.
  intros H1%string_forall_list H2%string_forall_list Ha%string_forall_list Hs.
  unfold TrimSpace. rewrite !list_ascii_app, trim_padded;
    [apply string_of_list_ascii_of_string|done|done| |by apply TrimSpace_trimmed].
  eapply Forall_impl; [exact Ha|]. intros c. apply bool_decide_eq_true.
Qed.

(** ** Lemmas: ToLower on ASCII *)

Section lower.
Context `{GoUnicode}.

Lemma lower_byte_idemp c : lower_byte (lower_byte c) = lower_byte c.
Proof. destruct c as [[][][][][][][][]]; reflexivity. Qed.

Lemma lower_byte_ascii c : byte_of c < 128 → byte_of (lower_byte c) < 128.
Proof.
  unfold lower_byte. case_bool_decide; [|done]. intros _.
  unfold byte_of in *. rewrite nat_ascii_embedding; lia.
Qed.

Lemma string_map_ascii s : is_ascii s → is_ascii (string_map lower_byte s).
Proof.
  unfold is_ascii. induction s as [|c s IH]; [done|].
  cbn [string_map string_forall]. rewrite !andb_True, !bool_decide_spec. intros [? ?].
  split; [by apply lower_byte_ascii|auto].
Qed.

Lemma ToLower_idemp_ascii s : is_ascii s → ToLower (ToLower s) = ToLower s.
Proof.
  intros Hs. pose proof (string_map_ascii s Hs) as Hm%Is_true_true.
  apply Is_true_true in Hs. unfold ToLower. rewrite Hs, Hm.
  clear. induction s as [|c s IH]; [done|]. simpl. by rewrite lower_byte_idemp, IH.
Qed.

Lemma string_map_app f s1 s2 : string_map f (s1 +:+ s2) = string_map f s1 +:+ string_map f s2.
Proof. induction s1 as [|c s1 IH]; [done|]. cbn. by rewrite IH. Qed.

Lemma string_forall_app f s1 s2 : string_forall f (s1 +:+ s2) = string_forall f s1 && string_forall f s2.
Proof. induction s1 as [|c s1 IH]; [done|]. cbn. by rewrite IH, andb_assoc. Qed.

Lemma lower_blank s : blank s = true → string_map lower_byte s = s.
Proof.
  unfold blank. induction s as [|c s IH]; [done|]. cbn. intros [Hc ->%IH]%andb_true_iff.
  f_equal. unfold is_blank in Hc. apply bool_decide_eq_true in Hc. unfold lower_byte.
  rewrite bool_decide_eq_false_2; [done|lia].
Qed.

Lemma string_forall_impl (f g : ascii → bool) s :
  (∀ c, f c = true → g c = true) → string_forall f s = true → string_forall g s = true.
Proof.
  intros Hfg. induction s as [|c s IH]; [done|]. cbn.
  intros [Hc%Hfg Hs%IH]%andb_true_iff. by rewrite Hc, Hs.
Qed.

Lemma blank_is_ascii s : blank s = true → is_ascii s = true.
Proof.
  apply string_forall_impl. intros c Hc. apply bool_decide_eq_true. by apply blank_ascii.
Qed.

Lemma blank_no_comma s : blank s = true → ContainsByte "," s = false.
Proof.
  unfold blank. induction s as [|c s IH]; [done|]. cbn. intros [Hc ->%IH]%andb_true_iff.
  rewrite orb_false_r. apply Ascii.eqb_neq. by intros ->.
Qed.

(** An ASCII text in any case, with blanks around it. *)
Lemma trim_lower_padded b1 s b2 p :
  blank b1 = true → blank b2 = true → is_ascii s = true →
  string_map lower_byte s = p → TrimSpace p = p →
  TrimSpace (ToLower (b1 +:+ s +:+ b2)) = p.
Proof.
  intros H1 H2 Hs Hp Ht. unfold ToLower, is_ascii. rewrite !string_forall_app.
  fold (is_ascii b1) (is_ascii s) (is_ascii b2). rewrite Hs, !blank_is_ascii by done. cbn [andb].
  rewrite !string_map_app, Hp, !lower_blank by done. apply TrimSpace_padded; [done..| |done].
  rewrite <- Hp. apply Is_true_true, string_map_ascii. by rewrite Hs.
Qed.
End lower.

(** ** Lemmas: Atoi and Itoa *)

Lemma digit_value_pretty (x : N) : (x < 10)%N → digit_value (pretty_N_char x) = Some (Z.of_N x).
Proof.
  intros Hx. assert (x = 0 ∨ x = 1 ∨ x = 2 ∨ x = 3 ∨ x = 4 ∨ x = 5 ∨ x = 6
    ∨ x = 7 ∨ x = 8 ∨ x = 9)%N by lia.
  by destruct_or!; subst x.
Qed.

Lemma parse_pretty_N_go (x : N) s :
  parse_digits (pretty_N_go x s) 0 = parse_digits s (Z.of_N x).
Proof.
  revert s. induction (N.lt_wf_0 x) as [x _ IH]; intros s.
  destruct (decide (x = 0)%N) as [->|Hx]; [done|].
  rewrite pretty_N_go_step by lia.
  rewrite IH by (apply N.div_lt; lia). simpl.
  rewrite digit_value_pretty by (apply N.mod_lt; lia). simpl. f_equal.
  pose proof (N.div_mod x 10 ltac:(lia)). lia.
Qed.

Lemma pretty_N_go_nonempty (x : N) s : s ≠ "" → pretty_N_go x s ≠ "".
Proof.
  revert s. induction (N.lt_wf_0 x) as [x _ IH]; intros s Hs.
  destruct (decide (x = 0)%N) as [->|Hx]; [done|].
  rewrite pretty_N_go_step by lia. apply IH; [apply N.div_lt; lia|done].
Qed.

Lemma parse_uint_pretty (x : N) : parse_uint (pretty x) = Some (Z.of_N x).
Proof.
  unfold pretty, pretty_N. case_decide as Hx; [by subst|].
  unfold parse_uint. rewrite parse_pretty_N_go.
  rewrite pretty_N_go_step by lia.
  destruct (String.eqb_spec (pretty_N_go (x `div` 10) (String (pretty_N_char (x `mod` 10)) "")) "")
    as [E|]; [|done].
  by apply pretty_N_go_nonempty in E.
Qed.

(** A string that starts with a digit has no sign. *)
Lemma parse_signed_unsigned s z : parse_uint s = Some z → parse_signed s = Some z.
Proof.
  destruct s as [|c s]; [done|]. intros H.
  destruct (decide (c = "-"%char)) as [->|Hm]; [done|].
  destruct (decide (c = "+"%char)) as [->|Hp]; [done|].
  rewrite <- H. destruct c as [[][][][][][][][]]; done.
Qed.

Lemma Atoi_Itoa z : in_int64 z → Atoi (Itoa z) = Some z.
Proof.
  intros Hz. unfold Atoi, Itoa.
  assert (parse_signed (pretty z) = Some z) as ->; [|simpl; by case_decide].
  destruct z as [|p|p]; [done|..].
  - apply parse_signed_unsigned. apply (parse_uint_pretty (N.pos p)).
  - change (Z.opp <$> parse_uint (pretty (N.pos p)) = Some (Z.neg p)).
    by rewrite parse_uint_pretty.
Qed.

Lemma Atoi_range s z : Atoi s = Some z → in_int64 z.
Proof. unfold Atoi. destruct (parse_signed s); simpl; [|done]. case_decide; naive_solver. Qed.

Lemma Itoa_nonempty z : Itoa z ≠ "".
Proof.
  destruct z as [|p|p]; [done| |done]. intros E.
  pose proof (parse_uint_pretty (N.pos p)) as H. change (pretty (N.pos p)) with (Itoa (Z.pos p)) in H.
  by rewrite E in H.
Qed.
