(* ===== verification/Config.v ===== *)
(** [internal/config/config.go]: the controller's configuration, read from the
    environment ([os.Getenv] is the argument [getenv]; an unset variable reads
    as the empty string). *)

From Stdlib Require Import Ascii.
From S2P Require Import Prelude GoRuntime GoStrings.

Record Config := mkConfig {
  InstancesEndpoint : string;
  CapabilitiesEndpoint : string;
  DebounceWindow : Z;
  BatchFlushInterval : Z;
  BatchMaxSize : Z;
  ResyncInterval : Z;
  WatchResourceTypes : list string;
  ExcludeResourceTypes : list string;
  APIBindAddress : string;
  LogLevel : string;
}.

Section load.
Context `{GoUnicode} (getenv : string → string).

Definition envOrDefault (key defaultVal : string) : string :=
  let val := getenv key in
  if String.eqb val "" then defaultVal else val.

Definition envIntOrDefault (key : string) (defaultVal : Z) : Z :=
  let val := getenv key in
  if String.eqb val "" then defaultVal
  else match Atoi val with
       | Some i => i
       | None => defaultVal
       end.

(** The multiplication is Go's, on [int64]. *)
Definition envDurationMsOrDefault (key : string) (defaultMs : Z) : Z :=
  to_int64 (envIntOrDefault key defaultMs * Millisecond).

Definition envDurationMinOrDefault (key : string) (defaultMin : Z) : Z :=
  to_int64 (envIntOrDefault key defaultMin * Minute).

Fixpoint envCSV_loop (parts : list string) (result : list string) : list string :=
  match parts with
  | [] => result
  | p :: parts =>
      let trimmed := TrimSpace (ToLower p) in
      if String.eqb trimmed "" then envCSV_loop parts result
      else envCSV_loop parts (result ++ [trimmed])
  end.

Definition envCSVOrDefault (key : string) (defaultVal : list string) : list string :=
  let val := getenv key in
  if String.eqb val "" then defaultVal
  else envCSV_loop (Split "," val) [].

Definition Load : Config := {|
  InstancesEndpoint :=
    envOrDefault "INSTANCES_ENDPOINT" "http://localhost:3000/api/v1/instances/sync";
  CapabilitiesEndpoint := envOrDefault "CAPABILITIES_ENDPOINT" "";
  DebounceWindow := envDurationMsOrDefault "DEBOUNCE_WINDOW_MS" 10000;
  BatchFlushInterval := envDurationMsOrDefault "BATCH_FLUSH_INTERVAL_MS" 5000;
  BatchMaxSize := envIntOrDefault "BATCH_MAX_SIZE" 50;
  ResyncInterval := envDurationMinOrDefault "RESYNC_INTERVAL_MIN" 1440;
  WatchResourceTypes := envCSVOrDefault "WATCH_RESOURCE_TYPES" [];
  ExcludeResourceTypes :=
    envCSVOrDefault "EXCLUDE_RESOURCE_TYPES"
      ["events"; "leases"; "endpointslices"; "componentstatuses"; "customresourcedefinitions"];
  APIBindAddress := envOrDefault "API_BIND_ADDRESS" ":8082";
  LogLevel := envOrDefault "LOG_LEVEL" "info";
|}.

(** ** Lemmas *)

(** What the list loop does, without the accumulator. *)
Lemma envCSV_loop_filter parts result :
  envCSV_loop parts result =
    result ++ filter (λ t, t ≠ "") ((λ p, TrimSpace (ToLower p)) <$> parts).
Proof.
  revert result. induction parts as [|p parts IH]; intros result; simpl.
  - by rewrite app_nil_r.
  - rewrite filter_cons. destruct (String.eqb_spec (TrimSpace (ToLower p)) "") as [E|E].
    + rewrite decide_False by naive_solver. apply IH.
    + rewrite decide_True by done. rewrite IH. by rewrite <- app_assoc.
Qed.

Lemma envIntOrDefault_range key defaultVal :
  in_int64 defaultVal → in_int64 (envIntOrDefault key defaultVal).
Proof.
  intros Hd. unfold envIntOrDefault. case_match; [done|].
  case_match; [by eapply Atoi_range|done].
Qed.

Lemma envIntOrDefault_Itoa key defaultVal i :
  getenv key = Itoa i → in_int64 i → envIntOrDefault key defaultVal = i.
Proof.
  intros Hkey Hi. unfold envIntOrDefault. rewrite Hkey, Atoi_Itoa by done.
  case_match; [|done]. apply String.eqb_eq in H0. by apply Itoa_nonempty in H0.
Qed.

End load.

(** How a user may write a list of types: [written items types]. *)
Inductive written : list string → list string → Prop :=
  | written_nil : written [] []
  | written_blank b raw ps : blank b = true → written raw ps → written (b :: raw) ps
  | written_item b1 s b2 p raw ps :
      blank b1 = true → blank b2 = true → is_ascii s = true → ContainsByte "," s = false →
      p ≠ "" → TrimSpace p = p → string_map lower_byte s = p →
      written raw ps → written ((b1 +:+ s +:+ b2) :: raw) (p :: ps).

Lemma written_no_comma raw ps : written raw ps → Forall (λ p, ContainsByte "," p = false) raw.
Proof.
  induction 1 as [|b raw ps Hb _ IH|b1 s b2 p raw ps H1 H2 _ Hs _ _ _ _ IH]; [done|..].
  - constructor; [by apply blank_no_comma|done].
  - constructor; [|done]. by rewrite !ContainsByte_app, Hs, !blank_no_comma.
Qed.

Lemma written_read `{GoUnicode} raw ps :
  written raw ps → filter (λ t, t ≠ "") ((λ p, TrimSpace (ToLower p)) <$> raw) = ps.
Proof.
  induction 1 as [|b raw ps Hb _ IH|b1 s b2 p raw ps H1 H2 Ha _ Hne Ht Hp _ IH]; [done|..];
    rewrite fmap_cons, filter_cons.
  - pose proof (trim_lower_padded b "" "" "" Hb eq_refl eq_refl eq_refl eq_refl) as E.
    rewrite append_nil_r in E. rewrite E, decide_False; [exact IH|]. intros Hn. by apply Hn.
  - by rewrite (trim_lower_padded b1 s b2 p), decide_True, IH.
Qed.

(** ** Properties *)

Section properties.
Context `{GoUnicode} (getenv : string → string).

(** With an empty environment [Load] returns the documented defaults: a
    debounce window of 10 s, a flush interval of 5 s, batches of 50, a resync
    every 24 h, every resource type watched except the five excluded ones, and
    the capabilities pipeline disabled. *)
Theorem Load_defaults (Hempty : ∀ key, getenv key = "") :
  Load getenv = {|
    InstancesEndpoint := "http://localhost:3000/api/v1/instances/sync";
    CapabilitiesEndpoint := "";
    DebounceWindow := 10 * Second;
    BatchFlushInterval := 5 * Second;
    BatchMaxSize := 50;
    ResyncInterval := 24 * 60 * Minute;
    WatchResourceTypes := [];
    ExcludeResourceTypes :=
      ["events"; "leases"; "endpointslices"; "componentstatuses"; "customresourcedefinitions"];
    APIBindAddress := ":8082";
    LogLevel := "info"
  |}.
Proof.
  unfold Load, envOrDefault, envDurationMsOrDefault, envDurationMinOrDefault,
    envIntOrDefault, envCSVOrDefault.
  rewrite !Hempty. reflexivity.
Qed.

(** Every element of a list read from the environment is non-empty and has
    no white space at either end: trimming it again changes nothing. *)
Theorem envCSV_normalised key s
    (Hset : getenv key ≠ "") (Hin : s ∈ envCSVOrDefault getenv key []) :
  s ≠ "" ∧ TrimSpace s = s.
Proof.
  revert Hin. unfold envCSVOrDefault. apply String.eqb_neq in Hset. rewrite Hset.
  rewrite envCSV_loop_filter. simpl. rewrite list_elem_of_filter.
  intros [Hne (p & -> & _)%list_elem_of_fmap]. split; [done|]. apply TrimSpace_idemp.
Qed.

(** C40: lists of resource types may be written freely.  However the types are
    capitalised, whatever ASCII white space is around them, and wherever there are
    empty or blank items between the commas, a set variable is read as the
    lower-case types, in order and with their duplicates; one that holds only
    blank items is read as the empty list, not as the default. *)
Theorem envCSV_roundtrip key dflt raw ps (Hraw : written raw ps)
    (Hkey : getenv key = Join "," raw) (Hset : getenv key ≠ "") :
  envCSVOrDefault getenv key dflt = ps.
Proof.
  unfold envCSVOrDefault. rewrite (proj2 (String.eqb_neq _ _) Hset), Hkey, envCSV_loop_filter.
  rewrite Split_Join; [by apply written_read| |by eapply written_no_comma].
  intros ->. by rewrite Hkey in Hset.
Qed.

(** C39: a duration given in milliseconds is stored exactly when its nanoseconds
    fit an [int64], that is up to 9223372036854 ms either way; outside that
    range Go's multiplication wraps and a different duration is stored. *)
Theorem envDurationMs_exact key dflt ms
    (Hkey : getenv key = Itoa ms) (Hms : in_int64 ms) :
  envDurationMsOrDefault getenv key dflt = (ms * Millisecond)%Z
    ↔ (-9223372036854 ≤ ms ≤ 9223372036854)%Z.
Proof.
  unfold envDurationMsOrDefault.
  rewrite (envIntOrDefault_Itoa getenv key dflt ms) by done.
  rewrite to_int64_exact. unfold in_int64, int64_min, int64_max, Millisecond. lia.
Qed.
End properties.

(** ** Witnesses *)

Section witnesses.
#[local] Instance ascii_only : GoUnicode := string_map lower_byte.

Lemma Load_defaults_witness :
  DebounceWindow (Load (λ _, "")) = 10000000000%Z
  ∧ ResyncInterval (Load (λ _, "")) = (86400 * Second)%Z.
Proof. rewrite (Load_defaults (λ _, "") (λ _, eq_refl)). split; reflexivity. Defined.

Lemma envCSV_normalised_witness :
  envCSVOrDefault (λ _, " Pods ,, services") "WATCH_RESOURCE_TYPES" [] = ["pods"; "services"]
  ∧ "pods" ≠ "" ∧ TrimSpace "pods" = "pods".
Proof.
  split; [vm_compute; reflexivity|].
  apply (envCSV_normalised (λ _, " Pods ,, services") "WATCH_RESOURCE_TYPES"); [done|].
  vm_compute. left.
Defined.

Lemma envCSV_roundtrip_witness :
  envCSVOrDefault (λ _, "Pods, ,  services ,") "WATCH_RESOURCE_TYPES" ["events"] = ["pods"; "services"].
Proof.
  apply (envCSV_roundtrip _ _ _ ["Pods"; " "; "  services "; ""]);
    [|vm_compute; reflexivity|vm_compute; discriminate].
  apply (written_item "" "Pods" ""); try done.
  apply written_blank; [done|].
  apply (written_item "  " "services" " "); try done.
  apply written_blank; [done|]. constructor.
Defined.

Lemma envDurationMs_exact_witness :
  envDurationMsOrDefault (λ _, "9223372036855") "DEBOUNCE_WINDOW_MS" 0
    ≠ (9223372036855 * Millisecond)%Z.
Proof.
  intros E.
  apply (envDurationMs_exact (λ _, "9223372036855") "DEBOUNCE_WINDOW_MS" 0 9223372036855)
    in E; [lia|vm_compute; reflexivity|vm_compute; split; discriminate].
Defined.
End witnesses.
