(* ===== verification/GoTime.v ===== *)
(** Go's [time] as [metadata.Extract] uses it: an instant is the number of
    seconds since the Unix epoch (the layout prints no fraction), and
    [Format("2006-01-02T15:04:05Z")] prints it in UTC on the proleptic Gregorian
    calendar. *)

From Stdlib Require Import Ascii.
From S2P Require Import Prelude GoRuntime GoStrings.
#[local] Open Scope Z_scope.

Definition GoTime := Z.

(** A calendar date. *)
Record Date := mkDate { year : Z; month : Z; day : Z }.

(** The date of a day number (days since 1970-01-01).  Years are counted from
    March 1st, in eras of 400 years, which are 146097 days long. *)
Definition date_of_days (n : Z) : Date :=
  let z := n + 719468 in
  let era := z / 146097 in
  let doe := z mod 146097 in
  let yoe := (doe - doe / 1460 + doe / 36524 - doe / 146096) / 365 in
  let doy := doe - (365 * yoe + yoe / 4 - yoe / 100) in
  let mp := (5 * doy + 2) / 153 in
  let m := if decide (mp < 10) then mp + 3 else mp - 9 in
  {| year := yoe + era * 400 + (if decide (m ≤ 2) then 1 else 0);
     month := m;
     day := doy - (153 * mp + 2) / 5 + 1 |}.

(** The day number of a date. *)
Definition days_of_date (d : Date) : Z :=
  let y := year d - (if decide (month d ≤ 2) then 1 else 0) in
  let era := y / 400 in
  let yoe := y mod 400 in
  let doy := (153 * (month d + (if decide (2 < month d) then -3 else 9)) + 2) / 5 + day d - 1 in
  let doe := yoe * 365 + yoe / 4 - yoe / 100 + doy in
  era * 146097 + doe - 719468.

Fixpoint zeros (n : nat) : string :=
  match n with O => "" | S n => String "0"%char (zeros n) end.

(** [time.appendInt]: the sign, then the digits padded to the width. *)
Definition appendInt (width : nat) (x : Z) : string :=
  let digits := Itoa (Z.abs x) in
  (if decide (x < 0) then "-" else "") +:+ zeros (width - String.length digits) +:+ digits.

(** [t.UTC().Format("2006-01-02T15:04:05Z")] *)
Definition Format (t : GoTime) : string :=
  let d := date_of_days (t / 86400) in
  let s := t mod 86400 in
  appendInt 4 (year d) +:+ "-" +:+ appendInt 2 (month d) +:+ "-" +:+ appendInt 2 (day d)
  +:+ "T" +:+ appendInt 2 (s / 3600) +:+ ":" +:+ appendInt 2 (s / 60 mod 60)
  +:+ ":" +:+ appendInt 2 (s mod 60) +:+ "Z".

(** ** The calendar is right: the date of a day determines the day *)

Lemma year_of_era_bounds doe :
  0 ≤ doe < 146097 →
  0 ≤ (doe - doe / 1460 + doe / 36524 - doe / 146096) / 365 ≤ 399.
Proof. intros. Z.to_euclidean_division_equations. lia. Qed.

Lemma day_of_year_bounds doe yoe :
  0 ≤ doe < 146097 →
  yoe = (doe - doe / 1460 + doe / 36524 - doe / 146096) / 365 →
  0 ≤ doe - (365 * yoe + yoe / 4 - yoe / 100) ≤ 365.
Proof. intros ? ->. Z.to_euclidean_division_equations. lia. Qed.

Lemma month_bounds doy : 0 ≤ doy ≤ 365 → 0 ≤ (5 * doy + 2) / 153 ≤ 11.
Proof. intros. Z.to_euclidean_division_equations. lia. Qed.

Lemma days_of_date_of_days n : days_of_date (date_of_days n) = n.
Proof.
  unfold days_of_date, date_of_days. cbn [year month day].
  set (z := n + 719468).
  pose proof (Z.mod_pos_bound z 146097 ltac:(lia)) as Hdoe.
  pose proof (year_of_era_bounds _ Hdoe) as Hyoe.
  pose proof (day_of_year_bounds _ _ Hdoe eq_refl) as Hdoy.
  pose proof (Z.div_mod z 146097 ltac:(lia)) as Hz.
  set (era := z / 146097) in *. set (doe := z mod 146097) in *.
  set (yoe := (doe - doe / 1460 + doe / 36524 - doe / 146096) / 365) in *.
  set (doy := doe - (365 * yoe + yoe / 4 - yoe / 100)) in *.
  pose proof (month_bounds _ Hdoy) as Hmp. set (mp := (5 * doy + 2) / 153) in *.
  set (m := if decide (mp < 10) then mp + 3 else mp - 9).
  assert (m + (if decide (2 < m) then -3 else 9) = mp) as ->.
  { unfold m. repeat case_decide; lia. }
  replace (yoe + era * 400 + (if decide (m ≤ 2) then 1 else 0)
           - (if decide (m ≤ 2) then 1 else 0)) with (yoe + era * 400) by lia.
  rewrite Z.div_add, Z.mod_add, Z.div_small, Z.mod_small by lia.
  unfold doy, z in *. lia.
Qed.

(** ** The printed fields *)

#[local] Arguments String.append !s1 s2 /.

Lemma parse_digits_zeros n s : parse_digits (zeros n +:+ s) 0 = parse_digits s 0.
Proof. induction n as [|n IH]; [done|]. cbn [zeros String.append parse_digits]. exact IH. Qed.

Lemma parse_digits_Itoa x : 0 ≤ x → parse_digits (Itoa x) 0 = Some x.
Proof.
  intros Hx. pose proof (parse_uint_pretty (Z.to_N x)) as H.
  unfold parse_uint in H. destruct (String.eqb _ _); [done|].
  rewrite Z2N.id in H by done. rewrite <- H. f_equal.
  destruct x as [|p|p]; [reflexivity..|lia].
Qed.

Lemma parse_digits_digits s acc z c :
  parse_digits s acc = Some z → digit_value c = None → ContainsByte c s = false.
Proof.
  intros Hs Hc. revert acc Hs. induction s as [|a s IH]; intros acc; [done|]. simpl.
  destruct (digit_value a) eqn:Ha; simpl; [|done]. intros Hs.
  rewrite (IH _ Hs), orb_false_r. apply Ascii.eqb_neq. congruence.
Qed.

Lemma appendInt_parse w x : 0 ≤ x → parse_digits (appendInt w x) 0 = Some x.
Proof.
  intros Hx. unfold appendInt. rewrite decide_False by lia. cbn [String.append].
  rewrite parse_digits_zeros, Z.abs_eq by done. by apply parse_digits_Itoa.
Qed.

Lemma appendInt_inj w x y : 0 ≤ x → 0 ≤ y → appendInt w x = appendInt w y → x = y.
Proof.
  intros Hx Hy E. pose proof (appendInt_parse w x Hx) as H.
  rewrite E, appendInt_parse in H by done. congruence.
Qed.

(** A separator splits two printed numbers apart. *)
Lemma appendInt_sep_inj c w x y r1 r2 :
  digit_value c = None → 0 ≤ x → 0 ≤ y →
  appendInt w x +:+ String c r1 = appendInt w y +:+ String c r2 → x = y ∧ r1 = r2.
Proof.
  intros Hc Hx Hy E. apply append_sep_inj in E as [E ->].
  - split; [by eapply appendInt_inj|done].
  - eapply parse_digits_digits; [by apply appendInt_parse|done].
  - eapply parse_digits_digits; [by apply appendInt_parse|done].
Qed.

(** Go's zero [time.Time]: January 1st of year 1. *)
Definition zero_time : GoTime := -62135596800.

Lemma date_fields_nonneg t :
  zero_time ≤ t →
  let d := date_of_days (t / 86400) in 0 ≤ year d ∧ 0 ≤ month d ∧ 0 ≤ day d.
Proof.
  unfold zero_time, date_of_days. cbn [year month day]. intros Ht.
  set (z := t / 86400 + 719468).
  assert (0 ≤ z / 146097) as Hera.
  { apply Z.div_pos; [|lia]. pose proof (Z.div_le_mono _ _ 86400 ltac:(lia) Ht).
    change (-62135596800 / 86400) with (-719162) in H. lia. }
  pose proof (Z.mod_pos_bound z 146097 ltac:(lia)) as Hdoe.
  pose proof (year_of_era_bounds _ Hdoe) as Hyoe.
  pose proof (day_of_year_bounds _ _ Hdoe eq_refl) as Hdoy.
  pose proof (month_bounds _ Hdoy) as Hmp.
  split; [case_decide; lia|split; [case_decide; lia|]].
  clear -Hdoy. revert Hdoy. generalize (z mod 146097 - (365 * ((z mod 146097 - z mod 146097 / 1460
    + z mod 146097 / 36524 - z mod 146097 / 146096) / 365) + (z mod 146097 - z mod 146097 / 1460
    + z mod 146097 / 36524 - z mod 146097 / 146096) / 365 / 4 - (z mod 146097 - z mod 146097 / 1460
    + z mod 146097 / 36524 - z mod 146097 / 146096) / 365 / 100)). intros doy ?.
  Z.to_euclidean_division_equations. lia.
Qed.

Lemma date_of_days_inj n1 n2 : date_of_days n1 = date_of_days n2 → n1 = n2.
Proof. intros E. by rewrite <- (days_of_date_of_days n1), E, days_of_date_of_days. Qed.

(** The second of the day is determined by its three fields. *)
Lemma clock_inj s1 s2 :
  s1 / 3600 = s2 / 3600 → s1 / 60 mod 60 = s2 / 60 mod 60 → s1 mod 60 = s2 mod 60 → s1 = s2.
Proof. intros. Z.to_euclidean_division_equations. lia. Qed.

Lemma Format_inj t1 t2 :
  zero_time ≤ t1 → zero_time ≤ t2 → Format t1 = Format t2 → t1 = t2.
Proof.
  intros H1 H2 E.
  destruct (date_fields_nonneg _ H1) as (? & ? & ?), (date_fields_nonneg _ H2) as (? & ? & ?).
  pose proof (Z.mod_pos_bound t1 86400 ltac:(lia)).
  pose proof (Z.mod_pos_bound t2 86400 ltac:(lia)).
  apply appendInt_sep_inj in E as [Ey E]; [|done..].
  apply appendInt_sep_inj in E as [Em E]; [|done..].
  apply appendInt_sep_inj in E as [Ed E]; [|done..].
  apply appendInt_sep_inj in E as [Eh E]; [|done|apply Z.div_pos; lia..].
  apply appendInt_sep_inj in E as [En E]; [|done|apply Z.mod_pos_bound; lia..].
  apply appendInt_sep_inj in E as [Es _]; [|done|apply Z.mod_pos_bound; lia..].
  assert (t1 / 86400 = t2 / 86400).
  { apply date_of_days_inj.
    destruct (date_of_days (t1 / 86400)), (date_of_days (t2 / 86400)). simpl in *. congruence. }
  assert (t1 mod 86400 = t2 mod 86400) by by apply clock_inj.
  rewrite (Z.div_mod t1 86400), (Z.div_mod t2 86400) by lia. congruence.
Qed.
