(* ===== verification/Filter.v ===== *)
(** [internal/filter/filter.go]: which discovered API resources are watched.

    A Go [map[string]bool] is a [gmap string bool]; reading an absent key, or a
    nil map, gives [false]. *)

From Stdlib Require Import Ascii.
From S2P Require Import Prelude GoRuntime GoStrings Config.

(** The fields of [metav1.APIResource] the program reads. *)
Record APIResource := mkAPIResource {
  ResourceName : string;
  Verbs : list string;
}.

Record ResourceFilter := mkResourceFilter {
  watchTypes : gmap string bool;
  excludeTypes : gmap string bool;
}.

Definition DefaultExclusions : list string :=
  ["events"; "leases"; "endpointslices"; "componentstatuses"; "customresourcedefinitions"].

Section filter.
Context `{GoUnicode}.

Fixpoint toSet_loop (items : list string) (set : gmap string bool) : gmap string bool :=
  match items with
  | [] => set
  | item :: items => toSet_loop items (<[ToLower (TrimSpace item) := true]> set)
  end.

Definition toSet (items : list string) : gmap string bool :=
  match items with
  | [] => ∅
  | _ => toSet_loop items ∅
  end.

Definition New (watchTypes excludeTypes : list string) : ResourceFilter :=
  {| watchTypes := toSet watchTypes; excludeTypes := toSet excludeTypes |}.

Fixpoint supportsListWatch_loop (verbs : list string) (hasList hasWatch : bool) : bool :=
  match verbs with
  | [] => hasList && hasWatch
  | verb :: verbs =>
      if String.eqb verb "list" then supportsListWatch_loop verbs true hasWatch
      else if String.eqb verb "watch" then supportsListWatch_loop verbs hasList true
      else supportsListWatch_loop verbs hasList hasWatch
  end.

Definition supportsListWatch (resource : APIResource) : bool :=
  supportsListWatch_loop (Verbs resource) false false.

Definition ShouldWatch (f : ResourceFilter) (resource : APIResource) : bool :=
  if negb (supportsListWatch resource) then false
  else
    let name := ToLower (ResourceName resource) in
    if bool_decide (0 < size (watchTypes f)) then default false (watchTypes f !! name)
    else negb (default false (excludeTypes f !! name)).

(** ** Lemmas *)

(** How a configured resource type is compared. *)
Definition normal_type (item : string) : string := ToLower (TrimSpace item).

Lemma toSet_loop_lookup items set k :
  default false (toSet_loop items set !! k) = true
    ↔ k ∈ normal_type <$> items ∨ default false (set !! k) = true.
Proof.
  revert set. induction items as [|item items IH]; intros set; csimpl.
  { rewrite elem_of_nil. naive_solver. }
  rewrite IH, elem_of_cons. fold (normal_type item).
  destruct (decide (k = normal_type item)) as [->|Hne].
  - rewrite lookup_insert_eq. naive_solver.
  - rewrite lookup_insert_ne by done. naive_solver.
Qed.

Lemma toSet_lookup items k :
  default false (toSet items !! k) = true ↔ k ∈ normal_type <$> items.
Proof.
  unfold toSet. destruct items as [|i items].
  { csimpl. rewrite elem_of_nil. done. }
  rewrite (toSet_loop_lookup (i :: items)), lookup_empty. naive_solver.
Qed.

Lemma toSet_size items : 0 < size (toSet items) ↔ items ≠ [].
Proof.
  destruct items as [|i items].
  { unfold toSet. rewrite map_size_empty. split; [lia|done]. }
  split; [done|intros _].
  destruct (size (toSet (i :: items))) eqn:E; [|lia].
  apply map_size_empty_inv in E. pose proof (proj2 (toSet_lookup (i :: items) (normal_type i))) as Hl.
  rewrite E, lookup_empty in Hl. simpl in Hl. discriminate Hl. left.
Qed.

Lemma supportsListWatch_loop_spec verbs hasList hasWatch :
  supportsListWatch_loop verbs hasList hasWatch = true
    ↔ (hasList = true ∨ "list" ∈ verbs) ∧ (hasWatch = true ∨ "watch" ∈ verbs).
Proof.
  revert hasList hasWatch. induction verbs as [|v verbs IH]; intros; simpl.
  - rewrite andb_true_iff. set_solver.
  - rewrite !elem_of_cons.
    destruct (String.eqb_spec v "list") as [->|]; [rewrite IH; naive_solver|].
    destruct (String.eqb_spec v "watch") as [->|]; rewrite IH; naive_solver.
Qed.

(** The filter's decision, as a proposition. *)
Lemma should_watch_iff watch exclude resource :
  ShouldWatch (New watch exclude) resource = true ↔
    "list" ∈ Verbs resource ∧ "watch" ∈ Verbs resource ∧
    (if decide (watch = [])
     then ToLower (ResourceName resource) ∉ normal_type <$> exclude
     else ToLower (ResourceName resource) ∈ normal_type <$> watch).
Proof.
  unfold ShouldWatch, supportsListWatch.
  pose proof (supportsListWatch_loop_spec (Verbs resource) false false) as Hv.
  destruct (supportsListWatch_loop (Verbs resource) false false); simpl;
    [|naive_solver].
  assert ("list" ∈ Verbs resource ∧ "watch" ∈ Verbs resource) as Hlw by naive_solver.
  clear Hv. cbn [watchTypes excludeTypes New].
  destruct (decide (watch = [])) as [Hw|Hw]; case_bool_decide as Hs;
    rewrite toSet_size in Hs; try (by destruct (Hs Hw)); try (by destruct Hs).
  - rewrite negb_true_iff, <- not_true_iff_false, toSet_lookup. tauto.
  - rewrite toSet_lookup. tauto.
Qed.
End filter.

(** ** Properties *)

Section properties.
Context `{GoUnicode}.

(** C35: a resource is watched exactly when it supports both [list] and [watch]
    and its lower-cased name is on the watch list, or, when the watch list is
    empty, not on the exclude list; a non-empty watch list makes the exclude
    list irrelevant. *)
Theorem ShouldWatch_spec watch exclude resource :
  ShouldWatch (New watch exclude) resource = true ↔
    "list" ∈ Verbs resource ∧ "watch" ∈ Verbs resource ∧
    (if decide (watch = [])
     then ToLower (ResourceName resource) ∉ normal_type <$> exclude
     else ToLower (ResourceName resource) ∈ normal_type <$> watch).
Proof. apply should_watch_iff. Qed.

(** With the default configuration a resource that supports [list] and
    [watch] is watched unless its lower-cased name is one of the
    [DefaultExclusions]; in particular custom resource definitions do not reach
    the instance pipeline through the filter. *)
Theorem default_filter_spec getenv resource (Hempty : ∀ key, getenv key = "") :
  ShouldWatch (New (WatchResourceTypes (Load getenv)) (ExcludeResourceTypes (Load getenv)))
    resource = true ↔
    "list" ∈ Verbs resource ∧ "watch" ∈ Verbs resource ∧
    ToLower (ResourceName resource) ∉ DefaultExclusions.
Proof.
  rewrite should_watch_iff. unfold Load, envCSVOrDefault.
  cbn [WatchResourceTypes ExcludeResourceTypes]. rewrite !Hempty.
  rewrite decide_True by done.
  by replace (normal_type <$> _) with DefaultExclusions by (vm_compute; reflexivity).
Qed.
End properties.

Section witnesses.
#[local] Instance ascii_only : GoUnicode := string_map lower_byte.

Lemma default_filter_spec_witness :
  ShouldWatch (New (WatchResourceTypes (Load (λ _, ""))) (ExcludeResourceTypes (Load (λ _, ""))))
    (mkAPIResource "Pods" ["get"; "list"; "watch"]) = true.
Proof.
  apply (default_filter_spec (λ _, "") (mkAPIResource "Pods" ["get"; "list"; "watch"])
           (λ _, eq_refl)).
  split; [|split]; [apply (bool_decide_unpack _); vm_compute; exact I..|].
  apply (bool_decide_unpack _). vm_compute. exact I.
Defined.
End witnesses.
