(* ===== verification/Metadata.v ===== *)
(** [internal/metadata/extract.go]: the metadata of one Kubernetes object.

    Objects are [*unstructured.Unstructured] values of apimachinery; the program
    only calls their accessors, which are the class [Unstructured].  A Go
    [map[string]string] that may be nil is an [option (gmap string string)]:
    [None] is nil, which is encoded differently from an empty map in JSON. *)

From Stdlib Require Import Ascii.
From S2P Require Import Prelude GoRuntime GoStrings GoTime.

Abbreviation StringMap := (option (gmap string string)).

(** The entries of a map that may be nil. *)
Definition entries (m : StringMap) : gmap string string := default ∅ m.

(** The accessors of [unstructured.Unstructured] the program calls. *)
Class Unstructured (U : Type) := {
  GetNamespace : U → string;
  GetName : U → string;
  GetKind : U → string;
  GetAPIVersion : U → string;
  GetResourceVersion : U → string;
  GetLabels : U → StringMap;
  GetAnnotations : U → StringMap;
  GetCreationTimestamp : U → GoTime;
}.

Record ResourceInstance := mkResourceInstance {
  ID : string;
  Namespace : string;
  Name : string;
  Kind : string;
  APIVersion : string;
  APIGroup : string;
  Labels : StringMap;
  Annotations : StringMap;
  CreatedAt : string;
}.

#[export] Instance ResourceInstance_eq_dec : EqDecision ResourceInstance.
Proof. solve_decision. Defined.

(** [fmt.Sprintf("%s/%s/%s/%s", ...)] *)
Definition buildID (namespace apiVersion kind name : string) : string :=
  namespace +:+ "/" +:+ apiVersion +:+ "/" +:+ kind +:+ "/" +:+ name.

Definition extractAPIGroup (apiVersion : string) : string :=
  match SplitN2 "/" apiVersion with
  | [group; _] => group
  | _ => ""
  end.

Definition skipAnnotationPrefixes : list string :=
  ["kubectl.kubernetes.io/";
   "meta.helm.sh/";
   "helm.sh/";
   "deployment.kubernetes.io/";
   "control-plane.alpha.kubernetes.io/";
   "kubernetes.io/"].

Fixpoint shouldSkipAnnotation_loop (prefixes : list string) (key : string) : bool :=
  match prefixes with
  | [] => false
  | prefix :: prefixes =>
      if HasPrefix key prefix then true else shouldSkipAnnotation_loop prefixes key
  end.

Definition shouldSkipAnnotation (key : string) : bool :=
  shouldSkipAnnotation_loop skipAnnotationPrefixes key.

(** The loop visits the entries in some order; it fills a map, so the order does
    not matter. *)
Fixpoint filterAnnotations_loop (it : list (string * string))
    (filtered : gmap string string) : gmap string string :=
  match it with
  | [] => filtered
  | (key, value) :: it =>
      if shouldSkipAnnotation key then filterAnnotations_loop it filtered
      else filterAnnotations_loop it (<[key := value]> filtered)
  end.

Definition filterAnnotations (annotations : StringMap) : StringMap :=
  if decide (size (entries annotations) = 0) then None
  else
    let filtered := filterAnnotations_loop (map_to_list (entries annotations)) ∅ in
    if decide (size filtered = 0) then None else Some filtered.

Definition Extract `{Unstructured U} (obj : U) : ResourceInstance :=
  let namespace :=
    if String.eqb (GetNamespace obj) "" then "_cluster" else GetNamespace obj in
  let apiVersion := GetAPIVersion obj in
  let kind := GetKind obj in
  let name := GetName obj in
  {| ID := buildID namespace apiVersion kind name;
     Namespace := namespace;
     Name := name;
     Kind := kind;
     APIVersion := apiVersion;
     APIGroup := extractAPIGroup apiVersion;
     Labels := GetLabels obj;
     Annotations := filterAnnotations (GetAnnotations obj);
     CreatedAt := Format (GetCreationTimestamp obj) |}.

(** ** Lemmas *)

Abbreviation no_slash s := (ContainsByte "/" s = false).

(** [namespace] is what precedes the first slash, [name] what follows the last
    one and [kind] what is before it; the API version in between may itself
    contain a slash. *)
Lemma buildID_parts ns1 av1 k1 n1 ns2 av2 k2 n2 :
  no_slash ns1 → no_slash k1 → no_slash n1 →
  no_slash ns2 → no_slash k2 → no_slash n2 →
  buildID ns1 av1 k1 n1 = buildID ns2 av2 k2 n2 →
  ns1 = ns2 ∧ av1 = av2 ∧ k1 = k2 ∧ n1 = n2.
Proof.
  intros Hns1 Hk1 Hn1 Hns2 Hk2 Hn2 Heq.
  apply (append_sep_inj "/") in Heq as [-> Heq]; [|done..].
  assert (∀ a k n, a +:+ String "/" (k +:+ String "/" n)
                   = (a +:+ String "/" k) +:+ String "/" n) as Hassoc.
  { intros. by rewrite append_assoc'. }
  change (av1 +:+ String "/" (k1 +:+ String "/" n1)
          = av2 +:+ String "/" (k2 +:+ String "/" n2)) in Heq.
  rewrite !Hassoc in Heq.
  apply (append_last_sep_inj "/") in Heq as [Heq ->]; [|done..].
  by apply (append_last_sep_inj "/") in Heq as [-> ->].
Qed.

Lemma shouldSkipAnnotation_loop_spec prefixes key :
  shouldSkipAnnotation_loop prefixes key = true
    ↔ ∃ p r, p ∈ prefixes ∧ key = p +:+ r.
Proof.
  induction prefixes as [|p ps IH]; simpl; [set_solver|].
  destruct (HasPrefix key p) eqn:E.
  - apply HasPrefix_spec in E as [r ->]. set_solver.
  - rewrite IH. split; [set_solver|].
    intros (q & r & [->|Hq]%elem_of_cons & Hkey); [|naive_solver].
    assert (HasPrefix key p = true) by (apply HasPrefix_spec; eauto). congruence.
Qed.

Lemma shouldSkipAnnotation_spec key :
  shouldSkipAnnotation key = true ↔ ∃ p r, p ∈ skipAnnotationPrefixes ∧ key = p +:+ r.
Proof. apply shouldSkipAnnotation_loop_spec. Qed.

Lemma filterAnnotations_loop_lookup it filtered k :
  NoDup it.*1 → (∀ k, is_Some (filtered !! k) → k ∉ it.*1) →
  filterAnnotations_loop it filtered !! k =
    (if shouldSkipAnnotation k then filtered !! k
     else (list_to_map it : gmap string string) !! k ∪ filtered !! k).
Proof.
  revert filtered. induction it as [|[key value] it IH]; intros filtered; csimpl.
  { intros _ _. rewrite lookup_empty, (left_id_L None (∪)). by case_match. }
  intros [Hkey Hnd]%NoDup_cons Hfresh.
  destruct (shouldSkipAnnotation key) eqn:Hskip; rewrite IH; try done.
  - case_match eqn:Hk; [done|]. rewrite lookup_insert_ne by congruence. done.
  - intros k' Hk'. specialize (Hfresh k' Hk'). set_solver.
  - case_match eqn:Hk; lookup_cases; try done; try congruence.
    rewrite (not_elem_of_list_to_map_1 it) by done.
    destruct (filtered !! key) eqn:Hf; [|done].
    exfalso. apply (Hfresh key); [eauto|]. left.
  - intros k' [v Hv]. lookup_cases; [done|].
    assert (k' ∉ key :: it.*1) by (apply Hfresh; eauto). set_solver.
Qed.

(** The loop keeps exactly the entries that are not skipped. *)
Lemma filterAnnotations_loop_map (m : gmap string string) k :
  filterAnnotations_loop (map_to_list m) ∅ !! k =
    if shouldSkipAnnotation k then None else m !! k.
Proof.
  rewrite filterAnnotations_loop_lookup.
  - rewrite lookup_empty, (right_id_L None (∪)), list_to_map_to_list. done.
  - apply NoDup_fst_map_to_list.
  - intros k' [v Hv]. by rewrite lookup_empty in Hv.
Qed.

Section extract.
Context `{Unstructured U}.

(** An object as the API server accepts it: no slash in its namespace, kind and
    name, and a namespace that is not the placeholder of cluster scope (an
    underscore is not allowed in a namespace name). *)
Definition valid_object (obj : U) : Prop :=
  no_slash (GetNamespace obj) ∧ no_slash (GetKind obj) ∧ no_slash (GetName obj)
  ∧ GetNamespace obj ≠ "_cluster".

Lemma namespace_no_slash obj :
  valid_object obj → no_slash (Namespace (Extract obj)).
Proof. intros (? & _). cbn. by case_match. Qed.

Lemma Extract_ID_parts o1 o2 :
  valid_object o1 → valid_object o2 → ID (Extract o1) = ID (Extract o2) →
  GetNamespace o1 = GetNamespace o2 ∧ GetAPIVersion o1 = GetAPIVersion o2
  ∧ GetKind o1 = GetKind o2 ∧ GetName o1 = GetName o2.
Proof.
  intros V1 V2 E.
  pose proof (namespace_no_slash _ V1) as N1. pose proof (namespace_no_slash _ V2) as N2.
  destruct V1 as (_ & ? & ? & U1), V2 as (_ & ? & ? & U2).
  apply buildID_parts in E as (En & ? & ? & ?); [|done..].
  split; [|done]. revert En.
  destruct (String.eqb_spec (GetNamespace o1) "") as [->|];
    destruct (String.eqb_spec (GetNamespace o2) "") as [->|]; congruence.
Qed.
End extract.

(** ** Properties *)

Section properties.
Context `{Unstructured U}.

(** C26: the identifier of a resource identifies it: two valid objects have the
    same [ID] exactly when namespace, API version, kind and name agree, although
    the API version may contain the separator. *)
Theorem Extract_ID_unique (o1 o2 : U) (V1 : valid_object o1) (V2 : valid_object o2) :
  ID (Extract o1) = ID (Extract o2) ↔
    GetNamespace o1 = GetNamespace o2 ∧ GetAPIVersion o1 = GetAPIVersion o2
    ∧ GetKind o1 = GetKind o2 ∧ GetName o1 = GetName o2.
Proof.
  split; [by apply Extract_ID_parts|]. intros (E1 & E2 & E3 & E4).
  unfold Extract. cbn. by rewrite E1, E2, E3, E4.
Qed.

(** [Extract] prints the creation time without losing it: for times from Go's
    zero time on, two objects show the same [createdAt] exactly when they were
    created in the same second. *)
Theorem Extract_CreatedAt_exact (o1 o2 : U)
    (T1 : (zero_time ≤ GetCreationTimestamp o1)%Z)
    (T2 : (zero_time ≤ GetCreationTimestamp o2)%Z) :
  CreatedAt (Extract o1) = CreatedAt (Extract o2) ↔
    GetCreationTimestamp o1 = GetCreationTimestamp o2.
Proof.
  cbn [CreatedAt Extract]. split; [by apply Format_inj|by intros ->].
Qed.

(** C36: the annotations of an extracted resource are those of the object whose key
    has none of the skipped prefixes, with their values; the map is nil when
    none is left, and never empty. *)
Theorem Extract_annotations (obj : U) :
  (∀ k v, entries (Annotations (Extract obj)) !! k = Some v ↔
     entries (GetAnnotations obj) !! k = Some v
     ∧ ¬ ∃ p r, p ∈ skipAnnotationPrefixes ∧ k = p +:+ r)
  ∧ Annotations (Extract obj) ≠ Some ∅.
Proof.
  cbn [Annotations Extract]. unfold filterAnnotations.
  set (m := entries (GetAnnotations obj)).
  set (f := filterAnnotations_loop (map_to_list m) ∅).
  assert (∀ k v, f !! k = Some v ↔
    m !! k = Some v ∧ ¬ ∃ p r, p ∈ skipAnnotationPrefixes ∧ k = p +:+ r) as Hf.
  { intros k v. unfold f. rewrite filterAnnotations_loop_map, <- shouldSkipAnnotation_spec.
    case_match; naive_solver. }
  case_decide as Hm; [|case_decide as Hs]; split; try done.
  - apply map_size_empty_inv in Hm. intros k v. cbn. rewrite lookup_empty, Hm, lookup_empty.
    naive_solver.
  - intros k v. rewrite <- Hf. apply map_size_empty_inv in Hs. by rewrite Hs.
  - intros [= E]. by rewrite E in Hs.
Qed.
End properties.

(** The API group is what precedes the first slash of the API version, and is
    empty for the core group, whose versions have no slash. *)
Theorem extractAPIGroup_spec group version (Hgroup : no_slash group) :
  extractAPIGroup (group +:+ "/" +:+ version) = group ∧ extractAPIGroup group = "".
Proof.
  unfold extractAPIGroup. split.
  - change ("/" +:+ version) with (String "/" version). by rewrite SplitN2_first.
  - by rewrite SplitN2_absent.
Qed.

(** ** Witnesses *)

(** A concrete object. *)
Record PlainObject := mkPlainObject {
  p_namespace : string;
  p_name : string;
  p_kind : string;
  p_apiVersion : string;
  p_resourceVersion : string;
  p_labels : StringMap;
  p_annotations : StringMap;
  p_created : GoTime;
}.

#[export] Instance plain_unstructured : Unstructured PlainObject := {|
  GetNamespace := p_namespace;
  GetName := p_name;
  GetKind := p_kind;
  GetAPIVersion := p_apiVersion;
  GetResourceVersion := p_resourceVersion;
  GetLabels := p_labels;
  GetAnnotations := p_annotations;
  GetCreationTimestamp := p_created;
|}.

Definition nginx : PlainObject :=
  mkPlainObject "default" "nginx" "Deployment" "apps/v1" "7" None
    (Some {["description" := "Web server"; "helm.sh/chart" := "nginx-1"]}) 1771581600%Z.

Definition crd_object (name : string) : PlainObject :=
  mkPlainObject "" name "CustomResourceDefinition" "apiextensions.k8s.io/v1" "1" None None 0%Z.

Example Extract_nginx :
  Extract nginx =
    mkResourceInstance "default/apps/v1/Deployment/nginx" "default" "nginx" "Deployment"
      "apps/v1" "apps" None (Some {["description" := "Web server"]}) "2026-02-20T10:00:00Z".
Proof. vm_compute. reflexivity. Qed.

Lemma Extract_ID_unique_witness :
  valid_object nginx ∧ ID (Extract nginx) ≠ ID (Extract (crd_object "nginx")).
Proof.
  assert (valid_object nginx) as V1 by (vm_compute; intuition discriminate).
  assert (valid_object (crd_object "nginx")) as V2 by (vm_compute; intuition discriminate).
  split; [done|]. intros E. apply (Extract_ID_unique nginx (crd_object "nginx") V1 V2) in E.
  by destruct E.
Defined.

Lemma Extract_CreatedAt_exact_witness :
  CreatedAt (Extract nginx) ≠ CreatedAt (Extract (crd_object "nginx")).
Proof.
  intros E. apply (Extract_CreatedAt_exact nginx (crd_object "nginx")) in E.
  - discriminate E.
  - vm_compute. discriminate.
  - vm_compute. discriminate.
Defined.

Lemma extractAPIGroup_spec_witness :
  extractAPIGroup "apps/v1" = "apps" ∧ extractAPIGroup "apps" = "".
Proof. apply (extractAPIGroup_spec "apps" "v1"). reflexivity. Defined.
