(* ===== verification/Watcher.v ===== *)
(** [internal/controller/watcher.go]: discovery of the watchable resources, the
    informer event handlers, the two event channels and the on-demand resync.

    The Kubernetes client is not part of the repository: what discovery returns,
    the parse of a group version, the result of a [List] call and whether a
    handler can be added are arguments.  A [select] with several ready cases
    takes the one that the argument [choice] points at. *)

From Stdlib Require Import Ascii.
From S2P Require Import Prelude GoRuntime GoStrings GoTime Config Filter Metadata.

(** ** Data *)

Inductive EventType := EventAdd | EventUpdate | EventDelete.

#[export] Instance EventType_eq_dec : EqDecision EventType.
Proof. solve_decision. Defined.

Record ResourceEvent := mkResourceEvent {
  EvType : EventType;
  EvInstance : ResourceInstance;
}.

Record CrdEvent := mkCrdEvent {
  CrdType : EventType;
  CrdName : string;
}.

(** [schema.GroupVersionResource] *)
Record GVR := mkGVR { Group : string; Version : string; Resource : string }.

#[export] Instance GVR_eq_dec : EqDecision GVR.
Proof. solve_decision. Defined.

Definition crdGVR : GVR := mkGVR "apiextensions.k8s.io" "v1" "customresourcedefinitions".

(** [metav1.APIResourceList] *)
Record APIResourceList := mkAPIResourceList {
  GroupVersion : string;
  APIResources : list APIResource;
}.

(** The log lines that report a lost event. *)
Inductive DropLog :=
  | EventDropped (type : EventType) (id : string)
  | CrdEventDropped (type : EventType) (crdName : string).

Record Watcher := mkWatcher {
  filter : ResourceFilter;
  resyncInterval : Z;
  watchCRDs : bool;
  Events : Chan ResourceEvent;
  CrdEvents : Chan CrdEvent;
  watchedGVRs : list GVR;
  stopCh : Chan unit;
  stopOnce : bool;
  dropLog : list DropLog;
}.

Definition with_Events (c : Chan ResourceEvent) (w : Watcher) : Watcher :=
  mkWatcher (filter w) (resyncInterval w) (watchCRDs w) c (CrdEvents w)
    (watchedGVRs w) (stopCh w) (stopOnce w) (dropLog w).

Definition with_CrdEvents (c : Chan CrdEvent) (w : Watcher) : Watcher :=
  mkWatcher (filter w) (resyncInterval w) (watchCRDs w) (Events w) c
    (watchedGVRs w) (stopCh w) (stopOnce w) (dropLog w).

Definition with_watchedGVRs (g : list GVR) (w : Watcher) : Watcher :=
  mkWatcher (filter w) (resyncInterval w) (watchCRDs w) (Events w) (CrdEvents w)
    g (stopCh w) (stopOnce w) (dropLog w).

Definition with_stop (c : Chan unit) (once : bool) (w : Watcher) : Watcher :=
  mkWatcher (filter w) (resyncInterval w) (watchCRDs w) (Events w) (CrdEvents w)
    (watchedGVRs w) c once (dropLog w).

Definition log_drop (l : DropLog) (w : Watcher) : Watcher :=
  mkWatcher (filter w) (resyncInterval w) (watchCRDs w) (Events w) (CrdEvents w)
    (watchedGVRs w) (stopCh w) (stopOnce w) (dropLog w ++ [l]).

Abbreviation stopped w := (chan_closed (stopCh w)).

(** [NewWatcher]; the arguments are the errors of the two client constructors. *)
Definition NewWatcher `{GoUnicode} (dynErr discoErr : option string) (cfg : Config) :
    string + Watcher :=
  match dynErr with
  | Some err => inl ("creating dynamic client: " +:+ err)
  | None =>
      match discoErr with
      | Some err => inl ("creating discovery client: " +:+ err)
      | None => inr {|
          filter := New (WatchResourceTypes cfg) (ExcludeResourceTypes cfg);
          resyncInterval := ResyncInterval cfg;
          watchCRDs := negb (String.eqb (CapabilitiesEndpoint cfg) "");
          Events := make_chan 10000;
          CrdEvents := make_chan 1000;
          watchedGVRs := [];
          stopCh := make_chan 0;
          stopOnce := false;
          dropLog := [];
        |}
      end
  end.

(** [Stop]: [stopOnce.Do(func() { close(w.stopCh) })] *)
Definition Stop (w : Watcher) : Outcome Watcher :=
  if stopOnce w then Ok w
  else c ← chan_close (stopCh w); Ok (with_stop c true w).

(** ** Discovery *)

Section discovery.
Context `{GoUnicode}.
Variable ParseGroupVersion : string → option (string * string).
Implicit Types w : Watcher.

Fixpoint discover_resources_loop w (gv : string * string) (resources : list APIResource)
    (gvrs : list GVR) (hasCRDs : bool) : list GVR * bool :=
  match resources with
  | [] => (gvrs, hasCRDs)
  | resource :: resources =>
      if ContainsByte "/" (ResourceName resource)
      then discover_resources_loop w gv resources gvrs hasCRDs
      else if negb (ShouldWatch (filter w) resource)
      then discover_resources_loop w gv resources gvrs hasCRDs
      else
        let gvr := mkGVR gv.1 gv.2 (ResourceName resource) in
        discover_resources_loop w gv resources (gvrs ++ [gvr])
          (if decide (gvr = crdGVR) then true else hasCRDs)
  end.

Fixpoint discover_lists_loop w (resourceLists : list APIResourceList)
    (gvrs : list GVR) (hasCRDs : bool) : list GVR * bool :=
  match resourceLists with
  | [] => (gvrs, hasCRDs)
  | l :: resourceLists =>
      match ParseGroupVersion (GroupVersion l) with
      | None => discover_lists_loop w resourceLists gvrs hasCRDs
      | Some gv =>
          let '(gvrs, hasCRDs) := discover_resources_loop w gv (APIResources l) gvrs hasCRDs in
          discover_lists_loop w resourceLists gvrs hasCRDs
      end
  end.

(** The lists are what discovery returned; an error beside them only gets logged. *)
Definition discoverResources w (resourceLists : list APIResourceList) : list GVR :=
  let '(gvrs, hasCRDs) := discover_lists_loop w resourceLists [] false in
  if watchCRDs w && negb hasCRDs then gvrs ++ [crdGVR] else gvrs.

(** The part of [Start] before it blocks: the discovered resources are recorded,
    and each gets the event handler unless adding it fails. *)
Fixpoint Start_handlers (addHandlerFails : GVR → bool) (gvrs : list GVR) : list GVR :=
  match gvrs with
  | [] => []
  | gvr :: gvrs =>
      if addHandlerFails gvr then Start_handlers addHandlerFails gvrs
      else gvr :: Start_handlers addHandlerFails gvrs
  end.

Definition Start w (resourceLists : list APIResourceList) (addHandlerFails : GVR → bool) :
    Watcher * list GVR :=
  let w := with_watchedGVRs (discoverResources w resourceLists) w in
  (w, Start_handlers addHandlerFails (watchedGVRs w)).
End discovery.

Definition WatchedGVRCount (w : Watcher) : nat := length (watchedGVRs w).

(** ** Emitting events *)

(** Never blocks: with the stop channel closed and room in the channel either
    case may be taken; with neither the event is dropped and logged. *)
Definition emit (choice : nat) (event : ResourceEvent) (w : Watcher) : Watcher :=
  select_default choice
    (ready2 (stopped w) (chan_has_room (Events w))
       w (with_Events (chan_push event (Events w)) w))
    (log_drop (EventDropped (EvType event) (ID (EvInstance event))) w).

(** [None]: the call blocks. *)
Definition emitCrd (choice : nat) (event : CrdEvent) (w : Watcher) : option Watcher :=
  let ready :=
    ready2 (stopped w) (chan_has_room (CrdEvents w))
      w (with_CrdEvents (chan_push event (CrdEvents w)) w) in
  if decide (CrdType event = EventDelete) then select_block choice ready
  else Some (select_default choice ready
               (log_drop (CrdEventDropped (CrdType event) (CrdName event)) w)).

(** ** Change detection *)

Fixpoint mapsEqual_loop (it : list (string * string)) (b : gmap string string) : bool :=
  match it with
  | [] => true
  | (k, v) :: it =>
      if String.eqb (b.[k])%sync v then mapsEqual_loop it b else false
  end.

Definition mapsEqual (a b : StringMap) : bool :=
  if decide (size (entries a) ≠ size (entries b)) then false
  else mapsEqual_loop (map_to_list (entries a)) (entries b).

Section objects.
Context `{Unstructured U}.

Definition metadataChanged (oldObj newObj : U) : bool :=
  if String.eqb (GetResourceVersion oldObj) (GetResourceVersion newObj) then false
  else if negb (mapsEqual (GetLabels oldObj) (GetLabels newObj)) then true
  else if negb (mapsEqual (GetAnnotations oldObj) (GetAnnotations newObj)) then true
  else false.

Definition MetadataChanged (oldObj newObj : U) : bool := metadataChanged oldObj newObj.

Definition IsCRD (obj : U) : bool :=
  String.eqb (GetKind obj) "CustomResourceDefinition"
  && HasPrefix (GetAPIVersion obj) "apiextensions.k8s.io/".

(** ** Event handlers *)

(** What an informer may pass as an object: a pointer to an unstructured object,
    a [DeletedFinalStateUnknown] around something, or something else. *)
Inductive Any :=
  | Object (u : U)
  | Tombstone (obj : Any)
  | OtherObject.

Definition AddFunc (choice : nat) (obj : Any) (w : Watcher) : option Watcher :=
  match obj with
  | Object u =>
      if IsCRD u then emitCrd choice (mkCrdEvent EventAdd (GetName u)) w
      else Some (emit choice (mkResourceEvent EventAdd (Extract u)) w)
  | _ => Some w
  end.

Definition UpdateFunc (choice : nat) (oldObj newObj : Any) (w : Watcher) : option Watcher :=
  match oldObj, newObj with
  | Object oldU, Object newU =>
      if IsCRD newU then Some w
      else if negb (metadataChanged oldU newU) then Some w
      else Some (emit choice (mkResourceEvent EventUpdate (Extract newU)) w)
  | _, _ => Some w
  end.

Definition DeleteFunc (choice : nat) (obj : Any) (w : Watcher) : option Watcher :=
  let obj := match obj with Tombstone obj => obj | _ => obj end in
  match obj with
  | Object u =>
      if IsCRD u then emitCrd choice (mkCrdEvent EventDelete (GetName u)) w
      else Some (emit choice (mkResourceEvent EventDelete (Extract u)) w)
  | _ => Some w
  end.

(** ** Resync *)

Section resync.
(** The result of listing a resource type ([None]: an error), the picks of the
    selects, and what the other goroutines do to the watcher's channels before
    the n-th event of the resync. *)
Variable list_resource : GVR → option (list U).
Variable choice : nat → nat.
Variable others : nat → Watcher → Watcher.

Definition resync_item (n : nat) (obj : U) (w : Watcher) : option Watcher :=
  let w := others n w in
  if IsCRD obj then emitCrd (choice n) (mkCrdEvent EventAdd (GetName obj)) w
  else Some (emit (choice n) (mkResourceEvent EventAdd (Extract obj)) w).

(** The count [total] is also the number of events emitted so far. *)
Fixpoint resync_items (items : list U) (total : nat) (w : Watcher) :
    option (nat * Watcher) :=
  match items with
  | [] => Some (total, w)
  | obj :: items =>
      w ← resync_item total obj w;
      resync_items items (S total) w
  end.

Fixpoint resync_gvrs (gvrs : list GVR) (total : nat) (w : Watcher) :
    option (nat * Watcher) :=
  match gvrs with
  | [] => Some (total, w)
  | gvr :: gvrs =>
      match list_resource gvr with
      | None => resync_gvrs gvrs total w
      | Some items =>
          '(total, w) ← resync_items items total w;
          resync_gvrs gvrs total w
      end
  end.

(** The count and the error it returns, and the watcher after it. *)
Definition TriggerResync (w : Watcher) : option (nat * option string * Watcher) :=
  '(total, w) ← resync_gvrs (watchedGVRs w) 0 w;
  Some (total, None, w).
End resync.
End objects.
Arguments Any : clear implicits.
Arguments Object {U} u.
Arguments Tombstone {U} obj.
Arguments OtherObject {U}.
