(* ===== verification/WatcherProofs.v ===== *)
(** Correctness of the watcher: discovery against a reference definition, change
    detection, what each event handler emits, when it can block, and the resync. *)

From Stdlib Require Import Ascii.
From S2P Require Import Prelude GoRuntime GoStrings GoTime Config Filter Metadata Watcher.

(** ** Emission *)

Lemma emit_cases choice event w :
  (stopped w = true ∧ emit choice event w = w)
  ∨ (chan_has_room (Events w) = true
     ∧ emit choice event w = with_Events (chan_push event (Events w)) w)
  ∨ (stopped w = false ∧ chan_has_room (Events w) = false
     ∧ emit choice event w = log_drop (EventDropped (EvType event) (ID (EvInstance event))) w).
Proof. apply select_default2. Qed.

(** An add or update of a custom resource definition never blocks. *)
Lemma emitCrd_add_cases choice event w :
  CrdType event ≠ EventDelete →
  (stopped w = true ∧ emitCrd choice event w = Some w)
  ∨ (chan_has_room (CrdEvents w) = true
     ∧ emitCrd choice event w = Some (with_CrdEvents (chan_push event (CrdEvents w)) w))
  ∨ (stopped w = false ∧ chan_has_room (CrdEvents w) = false
     ∧ emitCrd choice event w = Some (log_drop (CrdEventDropped (CrdType event) (CrdName event)) w)).
Proof.
  intros Ht. unfold emitCrd. rewrite decide_False by done.
  match goal with |- context [Some (select_default choice (ready2 ?b1 ?b2 ?x1 ?x2) ?d)] =>
    destruct (select_default2 choice b1 b2 x1 x2 d) as [[? ->]|[[? ->]|(? & ? & ->)]] end;
    auto.
Qed.

(** A delete is delivered, or discarded because the watcher stopped, or it blocks:
    it is never dropped. *)
Lemma emitCrd_delete_cases choice name w :
  let event := mkCrdEvent EventDelete name in
  (stopped w = true ∧ emitCrd choice event w = Some w)
  ∨ (chan_has_room (CrdEvents w) = true
     ∧ emitCrd choice event w = Some (with_CrdEvents (chan_push event (CrdEvents w)) w))
  ∨ (stopped w = false ∧ chan_has_room (CrdEvents w) = false ∧ emitCrd choice event w = None).
Proof. apply select_block2. Qed.

(** ** Discovery *)

Section discovery.
Context `{GoUnicode}.
Variable ParseGroupVersion : string → option (string * string).

(** The reference: the resources of the lists that parse, without subresources
    and filtered, in the order they were served. *)
Definition accepted (w : Watcher) (r : APIResource) : bool :=
  negb (ContainsByte "/" (ResourceName r)) && ShouldWatch (filter w) r.

Definition list_gvrs (w : Watcher) (l : APIResourceList) : list GVR :=
  match ParseGroupVersion (GroupVersion l) with
  | None => []
  | Some gv => (λ r, mkGVR gv.1 gv.2 (ResourceName r)) <$> List.filter (accepted w) (APIResources l)
  end.

Definition filtered_gvrs (w : Watcher) (ls : list APIResourceList) : list GVR :=
  ls ≫= list_gvrs w.

Lemma discover_resources_loop_spec w gv rs gvrs has :
  discover_resources_loop w gv rs gvrs has =
    let new := (λ r, mkGVR gv.1 gv.2 (ResourceName r)) <$> List.filter (accepted w) rs in
    (gvrs ++ new, has || bool_decide (crdGVR ∈ new)).
Proof.
  revert gvrs has. induction rs as [|r rs IH]; intros gvrs has; cbn [discover_resources_loop].
  { simpl. rewrite app_nil_r, orb_false_r. done. }
  cbn [List.filter]. destruct (accepted w r) eqn:Ha; unfold accepted in Ha;
    destruct (ContainsByte "/" (ResourceName r)), (ShouldWatch (filter w) r);
    try discriminate Ha; cbn [negb]; try apply IH.
  rewrite IH. csimpl. rewrite <- app_assoc. f_equal.
  apply eq_true_iff_eq. rewrite !orb_true_iff, !bool_decide_eq_true, elem_of_cons.
  case_decide; naive_solver.
Qed.

Lemma discover_lists_loop_spec w ls gvrs has :
  discover_lists_loop ParseGroupVersion w ls gvrs has =
    (gvrs ++ filtered_gvrs w ls, has || bool_decide (crdGVR ∈ filtered_gvrs w ls)).
Proof.
  unfold filtered_gvrs. revert gvrs has.
  induction ls as [|l ls IH]; intros gvrs has; cbn [discover_lists_loop].
  { simpl. rewrite app_nil_r, orb_false_r. done. }
  rewrite bind_cons. assert (Hl : list_gvrs w l = list_gvrs w l) by done.
  unfold list_gvrs at 2 in Hl.
  destruct (ParseGroupVersion (GroupVersion l)) as [gv|]; rewrite Hl; [|apply IH].
  rewrite discover_resources_loop_spec. cbv beta iota zeta. rewrite IH, <- app_assoc. f_equal.
  rewrite <- orb_assoc. f_equal.
  apply eq_true_iff_eq. rewrite orb_true_iff, !bool_decide_eq_true, elem_of_app. done.
Qed.
End discovery.

(** ** Change detection *)

Lemma mapsEqual_loop_spec it b :
  mapsEqual_loop it b = true ↔ Forall (λ kv, (b.[kv.1])%sync = kv.2) it.
Proof.
  induction it as [|[k v] it IH]; cbn [mapsEqual_loop]; [naive_solver|].
  rewrite Forall_cons. destruct (String.eqb_spec (default "" (b !! k)) v); naive_solver.
Qed.

(** What the comparison really decides: as many entries, and every key of the first
    map reads the same in the second, where an absent key reads as "". *)
Lemma mapsEqual_spec a b :
  mapsEqual a b = true ↔
    size (entries a) = size (entries b)
    ∧ ∀ k v, entries a !! k = Some v → ((entries b).[k])%sync = v.
Proof.
  unfold mapsEqual. case_decide as Hs; [naive_solver|].
  rewrite mapsEqual_loop_spec, Forall_forall. split.
  - intros Hf. split; [lia|]. intros k v Hkv. apply (Hf (k, v)). by apply elem_of_map_to_list.
  - intros [_ Hf] [k v] Hin. apply Hf. by apply elem_of_map_to_list.
Qed.

(** Without empty values the comparison is equality of the entries. *)
Lemma mapsEqual_correct a b :
  (∀ k v, entries a !! k = Some v → v ≠ "") →
  mapsEqual a b = true ↔ entries a = entries b.
Proof.
  intros Hne. rewrite mapsEqual_spec. split.
  - intros [Hs Hf]. apply map_subseteq_size_eq; [|lia].
    apply map_subseteq_spec. intros k v Hkv. specialize (Hf k v Hkv).
    destruct (entries b !! k); simpl in Hf; [by subst|]. by destruct (Hne k v).
  - intros ->. split; [done|]. by intros k v ->.
Qed.

Section objects.
Context `{Unstructured U}.

Lemma metadataChanged_iff (o1 o2 : U) :
  metadataChanged o1 o2 = true ↔
    GetResourceVersion o1 ≠ GetResourceVersion o2
    ∧ (mapsEqual (GetLabels o1) (GetLabels o2) = false
       ∨ mapsEqual (GetAnnotations o1) (GetAnnotations o2) = false).
Proof.
  unfold metadataChanged.
  destruct (String.eqb_spec (GetResourceVersion o1) (GetResourceVersion o2)); [naive_solver|].
  destruct (mapsEqual (GetLabels o1) (GetLabels o2)); simpl; [|naive_solver].
  destruct (mapsEqual (GetAnnotations o1) (GetAnnotations o2)); naive_solver.
Qed.

(** ** Resync *)

(** The events a resync has to emit for a list of objects. *)
Definition instance_events (objs : list U) : list ResourceEvent :=
  (λ o, mkResourceEvent EventAdd (Extract o)) <$> List.filter (λ o, negb (IsCRD o)) objs.

Definition crd_events (objs : list U) : list CrdEvent :=
  (λ o, mkCrdEvent EventAdd (GetName o)) <$> List.filter IsCRD objs.

(** The objects of the resource types that could be listed. *)
Definition listed (list_resource : GVR → option (list U)) (gvrs : list GVR) : list U :=
  gvrs ≫= λ g, default [] (list_resource g).

Section total.
Variable list_resource : GVR → option (list U).
Variable choice : nat → nat.
Variable others : nat → Watcher → Watcher.

Lemma resync_item_total n obj w : ∃ w', resync_item choice others n obj w = Some w'.
Proof.
  unfold resync_item. destruct (IsCRD obj); [|eauto].
  destruct (emitCrd_add_cases (choice n) (mkCrdEvent EventAdd (GetName obj)) (others n w))
    as [[_ ->]|[[_ ->]|(_ & _ & ->)]]; eauto; done.
Qed.

Lemma resync_items_total items total w :
  ∃ w', resync_items choice others items total w = Some (total + length items, w').
Proof.
  revert total w. induction items as [|obj items IH]; intros total w; simpl.
  - rewrite Nat.add_0_r. eauto.
  - destruct (resync_item_total total obj w) as [w' ->]. simpl.
    rewrite Nat.add_succ_r. apply IH.
Qed.

Lemma resync_gvrs_total gvrs total w :
  ∃ w', resync_gvrs list_resource choice others gvrs total w =
          Some (total + length (listed list_resource gvrs), w').
Proof.
  unfold listed. revert total w. induction gvrs as [|g gvrs IH]; intros total w.
  - rewrite Nat.add_0_r. simpl. eauto.
  - rewrite bind_cons, length_app. cbn [resync_gvrs].
    destruct (list_resource g) as [items|]; simpl; [|apply IH].
    destruct (resync_items_total items total w) as [w' ->]. simpl.
    rewrite Nat.add_assoc. apply IH.
Qed.
End total.
End objects.

(** ** The handlers as one function *)

Section notifications.
Context `{Unstructured U}.

(** What an informer calls. *)
Inductive Notification :=
  | Added (obj : Any U)
  | Updated (oldObj newObj : Any U)
  | Deleted (obj : Any U).

Definition handle (choice : nat) (n : Notification) (w : Watcher) : option Watcher :=
  match n with
  | Added obj => AddFunc choice obj w
  | Updated oldObj newObj => UpdateFunc choice oldObj newObj w
  | Deleted obj => DeleteFunc choice obj w
  end.

(** The object a notification is about, a tombstone opened. *)
Definition subject (n : Notification) : option U :=
  match n with
  | Added (Object u) | Updated (Object _) (Object u)
  | Deleted (Object u) | Deleted (Tombstone (Object u)) => Some u
  | _ => None
  end.

Definition notification_type (n : Notification) : EventType :=
  match n with
  | Added _ => EventAdd
  | Updated _ _ => EventUpdate
  | Deleted _ => EventDelete
  end.

(** An update is worth an event when metadata changed. *)
Definition relevant (n : Notification) : bool :=
  match n with
  | Updated (Object o1) (Object o2) => metadataChanged o1 o2
  | _ => true
  end.

(** The event that a notification calls for: about custom resource definitions
    only additions and deletions, and for the other pipeline. *)
Definition event_for (n : Notification) : option (ResourceEvent + CrdEvent) :=
  u ← subject n;
  if IsCRD u then
    if decide (notification_type n = EventUpdate) then None
    else Some (inr (mkCrdEvent (notification_type n) (GetName u)))
  else if relevant n then Some (inl (mkResourceEvent (notification_type n) (Extract u)))
  else None.

Lemma handle_event_for choice n w :
  handle choice n w =
    match event_for n with
    | None => Some w
    | Some (inl e) => Some (emit choice e w)
    | Some (inr e) => emitCrd choice e w
    end.
Proof.
  destruct n as [[u|a|]|[o1|a|] [o2|b|]|[u|[u|a|]|]];
    unfold event_for, handle, AddFunc, UpdateFunc, DeleteFunc; simpl;
    try destruct (IsCRD _); try done.
  by destruct (metadataChanged o1 o2).
Qed.

(** ** Two channels within their capacities *)

Definition channels_wf (w : Watcher) : Prop := chan_wf (Events w) ∧ chan_wf (CrdEvents w).

Lemma emit_wf choice e w : channels_wf w → channels_wf (emit choice e w).
Proof.
  intros [He Hc].
  destruct (emit_cases choice e w) as [[_ ->]|[[Hr ->]|(_ & _ & ->)]]; split; try done.
  by apply chan_push_wf.
Qed.

Lemma emitCrd_wf choice e w w' : channels_wf w → emitCrd choice e w = Some w' → channels_wf w'.
Proof.
  intros [He Hc] E. destruct e as [ty name].
  assert (w' = w ∨ (chan_has_room (CrdEvents w) = true
            ∧ w' = with_CrdEvents (chan_push (mkCrdEvent ty name) (CrdEvents w)) w)
          ∨ ∃ l, w' = log_drop l w) as [->|[[Hr ->]|[l ->]]]; [|done|..].
  - destruct (decide (ty = EventDelete)) as [->|Ht].
    + destruct (emitCrd_delete_cases choice name w) as [[_ E']|[[? E']|(_ & _ & E')]];
        rewrite E in E'; naive_solver.
    + destruct (emitCrd_add_cases choice (mkCrdEvent ty name) w Ht)
        as [[_ E']|[[? E']|(_ & _ & E')]]; rewrite E in E'; naive_solver.
  - split; [done|]. by apply chan_push_wf.
  - done.
Qed.
End notifications.
Arguments Notification : clear implicits.

(** ** A resync without interference *)

Section complete.
Context `{Unstructured U}.
Variable list_resource : GVR → option (list U).
Variable choice : nat → nat.
Abbreviation alone := (λ (_ : nat) (w : Watcher), w).

(** The watcher with more events queued. *)
Definition queued (evs : list ResourceEvent) (crds : list CrdEvent) (w : Watcher) : Watcher :=
  with_CrdEvents (mkChan (chan_buf (CrdEvents w) ++ crds) (chan_cap (CrdEvents w))
                    (chan_closed (CrdEvents w)))
    (with_Events (mkChan (chan_buf (Events w) ++ evs) (chan_cap (Events w))
                    (chan_closed (Events w))) w).

(** Running, with room for that many more events. *)
Definition room_for (n m : nat) (w : Watcher) : Prop :=
  stopped w = false
  ∧ length (chan_buf (Events w)) + n ≤ chan_cap (Events w)
  ∧ length (chan_buf (CrdEvents w)) + m ≤ chan_cap (CrdEvents w).

Lemma queued_nil w : queued [] [] w = w.
Proof. destruct w as [?? ? [] [] ? ? ? ?]. unfold queued. simpl. by rewrite !app_nil_r. Qed.

Lemma queued_queued e1 c1 e2 c2 w :
  queued e2 c2 (queued e1 c1 w) = queued (e1 ++ e2) (c1 ++ c2) w.
Proof. unfold queued. simpl. by rewrite <- !app_assoc. Qed.

Lemma room_queued evs crds n m w :
  room_for (length evs + n) (length crds + m) w → room_for n m (queued evs crds w).
Proof.
  unfold room_for, queued. simpl. rewrite !length_app. intros (? & ? & ?).
  split; [done|lia].
Qed.

Lemma emit_room c e n w :
  room_for (S n) 0 w → emit c e w = queued [e] [] w.
Proof.
  intros (Hs & He & _). assert (chan_has_room (Events w) = true) as Hr
    by (apply bool_decide_eq_true; lia).
  destruct (emit_cases c e w) as [[? _]|[[_ ->]|(_ & ? & _)]]; [congruence| |congruence].
  destruct w as [?? ? [] [] ? ? ? ?]. unfold queued, chan_push. simpl. by rewrite app_nil_r.
Qed.

Lemma emitCrd_room c e n w :
  CrdType e ≠ EventDelete → room_for 0 (S n) w → emitCrd c e w = Some (queued [] [e] w).
Proof.
  intros Ht (Hs & _ & He). assert (chan_has_room (CrdEvents w) = true) as Hr
    by (apply bool_decide_eq_true; lia).
  destruct (emitCrd_add_cases c e w Ht) as [[? _]|[[_ ->]|(_ & ? & _)]];
    [congruence| |congruence].
  destruct w as [?? ? [] [] ? ? ? ?]. unfold queued, chan_push. simpl. by rewrite app_nil_r.
Qed.

Lemma room_le n m n' m' w : n' ≤ n → m' ≤ m → room_for n m w → room_for n' m' w.
Proof. unfold room_for. intros ?? (? & ? & ?). split; [done|lia]. Qed.

Lemma resync_items_complete items total w :
  room_for (length (instance_events items)) (length (crd_events items)) w →
  resync_items choice alone items total w =
    Some (total + length items, queued (instance_events items) (crd_events items) w).
Proof.
  revert total w. induction items as [|obj items IH]; intros total w Hroom.
  { simpl. by rewrite queued_nil, Nat.add_0_r. }
  cbn [resync_items]. unfold resync_item.
  unfold instance_events, crd_events in Hroom |- *. cbn [List.filter] in Hroom |- *.
  destruct (IsCRD obj); cbn [negb] in Hroom |- *;
    rewrite ?fmap_cons in Hroom |- *; cbn [length] in Hroom |- *.
  - rewrite (emitCrd_room _ _ 0) by (done || (eapply room_le, Hroom; simpl; lia)). simpl.
    rewrite IH, queued_queued, Nat.add_succ_r; [done|].
    by apply (room_queued [] [_]).
  - rewrite (emit_room _ _ 0) by (eapply room_le, Hroom; simpl; lia). simpl.
    rewrite IH, queued_queued, Nat.add_succ_r; [done|].
    by apply (room_queued [_] []).
Qed.

Lemma instance_events_app l1 l2 :
  instance_events (U:=U) (l1 ++ l2) = instance_events l1 ++ instance_events l2.
Proof. unfold instance_events. by rewrite List.filter_app, fmap_app. Qed.

Lemma crd_events_app l1 l2 : crd_events (U:=U) (l1 ++ l2) = crd_events l1 ++ crd_events l2.
Proof. unfold crd_events. by rewrite List.filter_app, fmap_app. Qed.

Lemma resync_gvrs_complete gvrs total w :
  let objs := listed list_resource gvrs in
  room_for (length (instance_events objs)) (length (crd_events objs)) w →
  resync_gvrs list_resource choice alone gvrs total w =
    Some (total + length objs, queued (instance_events objs) (crd_events objs) w).
Proof.
  cbv zeta. revert total w. induction gvrs as [|g gvrs IH]; intros total w Hroom.
  { simpl. by rewrite queued_nil, Nat.add_0_r. }
  unfold listed in *. rewrite bind_cons in Hroom |- *. cbn [resync_gvrs].
  rewrite instance_events_app, crd_events_app, !length_app in Hroom.
  rewrite instance_events_app, crd_events_app, length_app.
  destruct (list_resource g) as [items|]; simpl in *; [|by apply IH].
  rewrite resync_items_complete by (eapply room_le, Hroom; lia). simpl.
  rewrite IH by (by apply room_queued).
  by rewrite queued_queued, Nat.add_assoc.
Qed.
End complete.

(** ** Properties *)

Section properties.
Context `{GoUnicode} `{Unstructured U}.

(** C25: discovery returns, in the served order, the resources of the parseable
    group versions that are no subresources and pass the filter, and after
    them the custom resource definitions when the capabilities pipeline is
    enabled and they are not already there. *)
Theorem discoverResources_reference ParseGroupVersion w lists :
  discoverResources ParseGroupVersion w lists =
    filtered_gvrs ParseGroupVersion w lists ++
    (if decide (watchCRDs w = true ∧ crdGVR ∉ filtered_gvrs ParseGroupVersion w lists)
     then [crdGVR] else []).
Proof.
  unfold discoverResources. rewrite discover_lists_loop_spec. simpl.
  destruct (watchCRDs w); case_bool_decide; case_decide; simpl;
    rewrite ?app_nil_r; naive_solver.
Qed.

(** With the capabilities pipeline enabled the custom resource definitions are
    watched whatever the filter and whatever discovery returns. *)
Theorem discoverResources_watches_crds ParseGroupVersion w lists (Hw : watchCRDs w = true) :
  crdGVR ∈ discoverResources ParseGroupVersion w lists.
Proof.
  unfold discoverResources. rewrite discover_lists_loop_spec, Hw. simpl.
  case_bool_decide; simpl; [done|]. apply elem_of_app. right. left.
Qed.

(** C24: a change of labels or annotations is detected, and nothing else is: when
    the old object has no label or annotation with an empty value,
    [metadataChanged] holds exactly when the resource version changed and the
    labels or the annotations differ. *)
Theorem metadataChanged_correct (o1 o2 : U)
    (Hl : ∀ k v, entries (GetLabels o1) !! k = Some v → v ≠ "")
    (Ha : ∀ k v, entries (GetAnnotations o1) !! k = Some v → v ≠ "") :
  metadataChanged o1 o2 = true ↔
    GetResourceVersion o1 ≠ GetResourceVersion o2
    ∧ (entries (GetLabels o1) ≠ entries (GetLabels o2)
       ∨ entries (GetAnnotations o1) ≠ entries (GetAnnotations o2)).
Proof.
  rewrite metadataChanged_iff, <- !not_true_iff_false.
  by rewrite !mapsEqual_correct by done.
Qed.

Lemma unchanged_update choice (o1 o2 : U) w :
  GetResourceVersion o1 = GetResourceVersion o2 →
  UpdateFunc choice (Object o1) (Object o2) w = Some w.
Proof.
  intros Hrv. unfold UpdateFunc, metadataChanged. destruct (IsCRD o2); [done|].
  by rewrite Hrv, String.eqb_refl.
Qed.

(** C33: the periodic resync of the informers emits nothing.  It reports every cached
    object as an update from itself to itself; any number of such updates, of any
    objects and with any picks of the selects, leaves the watcher as it was: no
    event is queued, whatever the receiver has missed. *)
Theorem periodic_resync_emits_nothing (cache : list (nat * U)) w :
  foldl (λ acc cn, acc ≫= UpdateFunc cn.1 (Object cn.2) (Object cn.2)) (Some w) cache = Some w.
Proof.
  induction cache as [|[choice o] cache IH]; cbn [foldl mbind option_bind fst snd]; [done|].
  by rewrite unchanged_update.
Qed.

(** C20: while the watcher runs no event is lost silently: a notification that
    calls for an event puts it at the end of its channel, or reports the drop in
    the log when the channel is full; only the deletion of a custom resource
    definition blocks instead, and it does so exactly when its channel is full. *)
Theorem handler_no_silent_loss choice (n : Notification U) w (Hrun : stopped w = false) :
  match event_for n with
  | None => handle choice n w = Some w
  | Some (inl e) =>
      handle choice n w = Some
        (if chan_has_room (Events w) then with_Events (chan_push e (Events w)) w
         else log_drop (EventDropped (EvType e) (ID (EvInstance e))) w)
  | Some (inr e) =>
      handle choice n w =
        (if chan_has_room (CrdEvents w) then Some (with_CrdEvents (chan_push e (CrdEvents w)) w)
         else if decide (CrdType e = EventDelete) then None
         else Some (log_drop (CrdEventDropped (CrdType e) (CrdName e)) w))
  end.
Proof.
  rewrite handle_event_for. destruct (event_for n) as [[e|e]|]; [..|done].
  - destruct (emit_cases choice e w) as [[Hs _]|[[-> ->]|(_ & -> & ->)]]; congruence.
  - destruct e as [ty name]. simpl. case_decide as Ht; [subst ty|].
    + destruct (emitCrd_delete_cases choice name w) as [[Hs _]|[[-> ->]|(_ & -> & ->)]];
        congruence.
    + destruct (emitCrd_add_cases choice (mkCrdEvent ty name) w Ht)
        as [[Hs _]|[[-> ->]|(_ & -> & ->)]]; (congruence || done).
Qed.

(** Whatever the handlers do, in any order and with any picks of the selects,
    both event channels stay within their capacities. *)
Theorem handlers_keep_bounds (ns : list (nat * Notification U)) w w'
    (Hwf : channels_wf w)
    (Hrun : foldl (λ acc cn, acc ≫= handle cn.1 cn.2) (Some w) ns = Some w') :
  channels_wf w'.
Proof.
  revert w Hwf Hrun. induction ns as [|[c n] ns IH]; intros w Hwf Hrun; simpl in *; [naive_solver|].
  destruct (handle c n w) as [w1|] eqn:E; simpl in *.
  - apply (IH w1); [|done]. rewrite handle_event_for in E.
    destruct (event_for n) as [[e|e]|]; [|by eapply emitCrd_wf|by simplify_eq].
    simplify_eq. by apply emit_wf.
  - exfalso. clear -Hrun. induction ns as [|[c n] ns IH]; simpl in Hrun; [done|auto].
Qed.

(** A resync always finishes without an error and reports the number of
    objects it listed, whatever could not be listed, was dropped because a
    channel was full, or was concurrently consumed. *)
Theorem TriggerResync_total list_resource choice others w :
  ∃ w', TriggerResync list_resource choice others w =
          Some (length (listed (U:=U) list_resource (watchedGVRs w)), None, w').
Proof.
  unfold TriggerResync.
  destruct (resync_gvrs_total list_resource choice others (watchedGVRs w) 0 w) as [w' ->].
  simpl. eauto.
Qed.

(** A resync that runs alone with enough room in the channels emits an ADD
    event for every listed object, in listing order: custom resource
    definitions to the capabilities pipeline and all others to the instance
    pipeline, and it changes nothing else. *)
Theorem TriggerResync_complete list_resource choice w
    (objs := listed (U:=U) list_resource (watchedGVRs w))
    (Hroom : room_for (length (instance_events objs)) (length (crd_events objs)) w) :
  TriggerResync list_resource choice (λ _ w, w) w =
    Some (length objs, None, queued (instance_events objs) (crd_events objs) w).
Proof. unfold TriggerResync. by rewrite resync_gvrs_complete. Qed.
End properties.

(** C32: some changes of labels are missed: replacing a label whose value is empty by
      another label with an empty value (as a change of node role does) leaves the
      maps equal in the eyes of [mapsEqual], so no update is emitted. *)
Theorem label_change_missed (w : Watcher) (choice : nat) :
  ∃ o1 o2 : PlainObject,
    GetResourceVersion o1 ≠ GetResourceVersion o2
    ∧ entries (GetLabels o1) ≠ entries (GetLabels o2)
    ∧ UpdateFunc choice (Object o1) (Object o2) w = Some w.
Proof.
  set (node rv role := mkPlainObject "" "n1" "Node" "v1" rv (Some {[role := ""]}) None 0%Z).
  exists (node "1" "node-role.kubernetes.io/master"),
         (node "2" "node-role.kubernetes.io/control-plane").
  split; [done|]. split; [|reflexivity].
  intros E. apply (f_equal (lookup "node-role.kubernetes.io/master")) in E. discriminate E.
Qed.

(** [Stop] never panics and closes the stop channel once: from a watcher whose
      stop channel is closed exactly when [Stop] already ran, any number of calls
      ends with it closed. *)
Theorem Stop_idempotent (w : Watcher) (Hinv : stopped w = stopOnce w) :
  ∃ w', Stop w = Ok w' ∧ stopped w' = true ∧ Stop w' = Ok w'
        ∧ Events w' = Events w ∧ CrdEvents w' = CrdEvents w.
Proof.
  unfold Stop. destruct (stopOnce w) eqn:Ho.
  - exists w. by rewrite Ho.
  - unfold chan_close. rewrite Hinv. cbn. eexists. done.
Qed.

(** ** Definitions reaching a pipeline that does not run *)

(** The README's example of a longer exclusion list; nothing else is set, so the
    capabilities pipeline is disabled. *)
Definition readme_exclusions (key : string) : string :=
  if String.eqb key "EXCLUDE_RESOURCE_TYPES" then "events,leases,endpointslices,secrets" else "".

Definition served_crds : list APIResourceList :=
  [mkAPIResourceList "apiextensions.k8s.io/v1"
     [mkAPIResource "customresourcedefinitions" ["get"; "list"; "watch"]]].

Definition add_crds (names : list (nat * string)) (w : Watcher) : option Watcher :=
  foldl (λ acc cn, acc ≫= AddFunc cn.1 (Object (crd_object cn.2))) (Some w) names.

Lemma add_crds_queued names w :
  room_for 0 (length names) w →
  add_crds names w = Some (queued [] ((λ cn, mkCrdEvent EventAdd cn.2) <$> names) w).
Proof.
  unfold add_crds. revert w. induction names as [|[c name] names IH]; intros w Hroom.
  { simpl. by rewrite queued_nil. }
  cbn [foldl fst snd mbind option_bind].
  change (AddFunc c (Object (crd_object name)) w) with (emitCrd c (mkCrdEvent EventAdd name) w).
  rewrite (emitCrd_room c _ (length names)) by done.
  rewrite IH by (by apply (room_queued [] [_])).
  by rewrite queued_queued.
Qed.

(** C31: with the README's example exclusion list and the capabilities pipeline
      disabled, custom resource definitions are watched although nothing reads
      their events: after a thousand additions the next deletion blocks the
      informer's handler, whatever the selects pick. *)
Theorem crd_delete_blocks_informer `{GoUnicode} :
  ∃ w, NewWatcher None None (Load readme_exclusions) = inr w
    ∧ watchCRDs w = false
    ∧ crdGVR ∈ discoverResources (λ _, Some ("apiextensions.k8s.io", "v1")) w served_crds
    ∧ ∀ names, length names = 1000 →
        ∃ w', add_crds names w = Some w'
          ∧ ∀ choice name, DeleteFunc choice (Object (crd_object name)) w' = None.
Proof.
  eexists. split; [reflexivity|]. split; [reflexivity|]. split.
  { apply (bool_decide_unpack _). vm_compute. exact I. }
  intros names Hlen. eexists. split.
  { apply add_crds_queued. split; [done|]. cbn. lia. }
  intros choice name. match goal with |- DeleteFunc _ _ ?w = _ => set (w' := w) end.
  change (emitCrd choice (mkCrdEvent EventDelete name) w' = None).
  assert (chan_has_room (CrdEvents w') = false) as Hr.
  { apply bool_decide_eq_false. cbn. rewrite length_fmap. lia. }
  destruct (emitCrd_delete_cases choice name w') as [[Hs _]|[[? _]|(_ & _ & E)]];
    [discriminate Hs|congruence|done].
Qed.

(** ** Witnesses *)

Section witnesses.
#[local] Instance ascii_only : GoUnicode := string_map lower_byte.

(** A running watcher with one free slot in each channel. *)
Definition small_watcher (crds : bool) : Watcher :=
  mkWatcher (New [] DefaultExclusions) 0 crds (mkChan [] 1 false) (mkChan [] 1 false)
    [mkGVR "apps" "v1" "deployments"; crdGVR] (make_chan 0) false [].

Definition nginx2 : PlainObject :=
  mkPlainObject "default" "nginx" "Deployment" "apps/v1" "8" (Some {["app" := "nginx"]}) None 0%Z.

Definition small_cluster (g : GVR) : option (list PlainObject) :=
  if decide (g = crdGVR) then Some [crd_object "issuers.cert-manager.io"] else Some [nginx].

Lemma discoverResources_watches_crds_witness :
  crdGVR ∈ discoverResources (λ _, None) (small_watcher true) [].
Proof. apply discoverResources_watches_crds. reflexivity. Defined.

Lemma metadataChanged_correct_witness : metadataChanged nginx2 nginx = true.
Proof.
  apply metadataChanged_correct.
  - intros k v Hkv. cbn in Hkv. apply lookup_singleton_Some in Hkv as [_ <-]. discriminate.
  - intros k v. cbn. rewrite lookup_empty. discriminate.
  - split; [discriminate|]. left. intros E.
    apply (f_equal (lookup "app")) in E. discriminate E.
Defined.

Lemma handler_no_silent_loss_witness :
  handle 3 (Added (Object nginx)) (small_watcher true) =
    Some (with_Events (mkChan [mkResourceEvent EventAdd (Extract nginx)] 1 false)
            (small_watcher true)).
Proof. exact (handler_no_silent_loss 3 (Added (Object nginx)) (small_watcher true) eq_refl). Defined.

Lemma handlers_keep_bounds_witness :
  ∃ w', foldl (λ acc cn, acc ≫= handle cn.1 cn.2) (Some (small_watcher true))
          [(0, Added (Object nginx)); (0, Added (Object nginx2))] = Some w'
        ∧ channels_wf w'.
Proof.
  eexists. split; [reflexivity|].
  apply (handlers_keep_bounds [(0, Added (Object nginx)); (0, Added (Object nginx2))]
           (small_watcher true)); [|reflexivity].
  split; unfold chan_wf; cbn; lia.
Defined.

Lemma TriggerResync_complete_witness :
  TriggerResync small_cluster (λ _, 5) (λ _ w, w) (small_watcher true) =
    Some (2, None, queued [mkResourceEvent EventAdd (Extract nginx)]
                     [mkCrdEvent EventAdd "issuers.cert-manager.io"] (small_watcher true)).
Proof.
  assert (listed small_cluster (watchedGVRs (small_watcher true))
          = [nginx; crd_object "issuers.cert-manager.io"]) as E by (vm_compute; reflexivity).
  pose proof (TriggerResync_complete small_cluster (λ _, 5) (small_watcher true)) as T.
  rewrite E in T. apply T. split; [reflexivity|]. split; cbn; lia.
Defined.

Lemma Stop_idempotent_witness :
  ∃ w', Stop (small_watcher true) = Ok w' ∧ stopped w' = true.
Proof.
  destruct (Stop_idempotent (small_watcher true) eq_refl) as (w' & ? & ? & _).
  exists w'. split; assumption.
Defined.
End witnesses.
