(* ===== verification/WatcherStart.v ===== *)
(** [Watcher.Start] as a transition system: the goroutine that discovers, adds the
    handlers, starts the informers and waits, the goroutine that turns the
    cancellation of the context into [Stop], the informers that sync their caches
    some time, and other callers of [Stop].

    A step is what a goroutine does between two points where it can be observed
    or has to wait.  What the API server serves and which handlers cannot be added
    are arguments, as in [Watcher.v]. *)

From S2P Require Import Prelude GoRuntime GoStrings GoTime Config Filter Metadata Watcher.
From S2P Require Import WatcherProofs.

(** ** The machine *)

(** Where the goroutine of [Start] is. *)
Inductive StartPc :=
  | SDiscover
  | SHandlers (todo : list GVR)
  | SWaitSync
  | SWaitDone
  | SReturned.

Record StartState := mkStartState {
  st_watcher : Watcher;
  st_pc : StartPc;
  st_helper : bool;          (** the helper goroutine has called [Stop] *)
  st_handlers : list GVR;    (** the informers with an event handler *)
  st_informing : bool;       (** [factory.Start] was called *)
  st_synced : bool;          (** every cache has synced *)
  st_cancelled : bool;       (** the context is done *)
  st_stops : nat;            (** ghost: calls of [Stop] by others *)
  st_crash : option Panic;
}.

Definition start_init (w : Watcher) : StartState :=
  mkStartState w SDiscover false [] false false false 0 None.

Inductive StartLabel := LStart | LHelper | LSync | LCancel | LStop.

Section start.
Context `{GoUnicode}.
Variable ParseGroupVersion : string → option (string * string).
Variable resourceLists : list APIResourceList.
Variable addHandlerFails : GVR → bool.
Implicit Types s : StartState.

Abbreviation discovered w := (discoverResources ParseGroupVersion w resourceLists).

Definition start_at (w : Watcher) (pc : StartPc) (hs : list GVR) (informing : bool) s : StartState :=
  mkStartState w pc (st_helper s) hs informing (st_synced s) (st_cancelled s) (st_stops s) (st_crash s).

(** The next step of [Start]; [None]: it waits, or has returned. *)
Definition start_step s : option StartState :=
  let w := st_watcher s in
  match st_pc s with
  | SDiscover =>
      let w := with_watchedGVRs (discovered w) w in
      Some (start_at w (SHandlers (watchedGVRs w)) (st_handlers s) (st_informing s) s)
  | SHandlers (gvr :: todo) =>
      Some (start_at w (SHandlers todo)
              (if addHandlerFails gvr then st_handlers s else st_handlers s ++ [gvr])
              (st_informing s) s)
  | SHandlers [] => Some (start_at w SWaitSync (st_handlers s) true s)
  | SWaitSync =>
      if stopped w || st_synced s then Some (start_at w SWaitDone (st_handlers s) (st_informing s) s)
      else None
  | SWaitDone =>
      if st_cancelled s then Some (start_at w SReturned (st_handlers s) (st_informing s) s) else None
  | SReturned => None
  end.

(** A call of [Stop], by the helper or by another caller. *)
Definition stop_call (helper : bool) s : StartState :=
  match Stop (st_watcher s) with
  | Ok w =>
      mkStartState w (st_pc s) (helper || st_helper s) (st_handlers s) (st_informing s) (st_synced s)
        (st_cancelled s) (if helper then st_stops s else S (st_stops s)) (st_crash s)
  | Panicked x =>
      mkStartState (st_watcher s) (st_pc s) (st_helper s) (st_handlers s) (st_informing s)
        (st_synced s) (st_cancelled s) (st_stops s) (Some x)
  end.

Definition start_label (l : StartLabel) s : option StartState :=
  match st_crash s with
  | Some _ => None
  | None =>
      match l with
      | LStart => start_step s
      | LHelper => if st_cancelled s && negb (st_helper s) then Some (stop_call true s) else None
      | LSync =>
          if st_informing s && negb (stopped (st_watcher s))
          then Some (mkStartState (st_watcher s) (st_pc s) (st_helper s) (st_handlers s) true true
                       (st_cancelled s) (st_stops s) None)
          else None
      | LCancel =>
          Some (mkStartState (st_watcher s) (st_pc s) (st_helper s) (st_handlers s) (st_informing s)
                  (st_synced s) true (st_stops s) None)
      | LStop => Some (stop_call false s)
      end
  end.

Fixpoint start_exec (ls : list StartLabel) s : option StartState :=
  match ls with [] => Some s | l :: ls => s ← start_label l s; start_exec ls s end.

Inductive start_move s s' : Prop := StartMove l : start_label l s = Some s' → start_move s s'.

Lemma start_exec_rtc ls s s' : start_exec ls s = Some s' → rtc start_move s s'.
Proof.
  revert s. induction ls as [|l ls IH]; intros s E; [by injection E as <-|].
  cbn in E. apply bind_Some in E as (s1 & E1 & E). eapply rtc_l; [by econstructor|by apply IH].
Qed.

(** ** Its invariant *)

(** The resources whose handlers were added, of those in a list. *)
Definition handled_gvrs (gvrs : list GVR) : list GVR := Start_handlers addHandlerFails gvrs.

Lemma handled_app l1 l2 : handled_gvrs (l1 ++ l2) = handled_gvrs l1 ++ handled_gvrs l2.
Proof using Type.
  clear ParseGroupVersion resourceLists. unfold handled_gvrs. induction l1 as [|g l1 IH]; [done|].
  cbn. destruct (addHandlerFails g); cbn; by rewrite IH.
Qed.

(** How far [Start] has come with the resources it discovered. *)
Definition progress_ok (w0 : Watcher) s : Prop :=
  let gvrs := discovered w0 in
  match st_pc s with
  | SDiscover => watchedGVRs (st_watcher s) = watchedGVRs w0 ∧ st_handlers s = [] ∧ st_informing s = false
  | SHandlers todo =>
      watchedGVRs (st_watcher s) = gvrs ∧ st_informing s = false
      ∧ ∃ done, gvrs = done ++ todo ∧ st_handlers s = handled_gvrs done
  | SWaitSync | SWaitDone | SReturned =>
      watchedGVRs (st_watcher s) = gvrs ∧ st_informing s = true ∧ st_handlers s = handled_gvrs gvrs
  end.

Record start_ok (w0 : Watcher) s : Prop := {
  ok_crash : st_crash s = None;
  ok_once : stopOnce (st_watcher s) = stopped (st_watcher s);
  ok_helper : st_helper s = true → st_cancelled s = true ∧ stopped (st_watcher s) = true;
  ok_stopped : stopped (st_watcher s) = true → st_helper s = true ∨ 0 < st_stops s;
  ok_returned : st_pc s = SReturned → st_cancelled s = true;
  ok_frame : filter (st_watcher s) = filter w0 ∧ watchCRDs (st_watcher s) = watchCRDs w0
    ∧ Events (st_watcher s) = Events w0 ∧ CrdEvents (st_watcher s) = CrdEvents w0;
  ok_progress : progress_ok w0 s;
  ok_synced : st_pc s = SWaitDone ∨ st_pc s = SReturned → stopped (st_watcher s) = true ∨ st_synced s = true;
}.

(** Discovery depends on the filter and on whether definitions are watched. *)
Lemma discovered_frame w1 w2 :
  filter w1 = filter w2 → watchCRDs w1 = watchCRDs w2 → discovered w1 = discovered w2.
Proof.
  intros Hf Hw. unfold discoverResources. rewrite !discover_lists_loop_spec, Hw.
  assert (filtered_gvrs ParseGroupVersion w1 resourceLists
          = filtered_gvrs ParseGroupVersion w2 resourceLists) as ->; [|done].
  unfold filtered_gvrs, list_gvrs, accepted. by rewrite Hf.
Qed.

Lemma start_step_ok w0 s s' : start_ok w0 s → start_step s = Some s' → start_ok w0 s'.
Proof.
  intros [H1 H2 H3 H4 H5 H6 H7 H8]. destruct s as [w pc helper hs inf syn can stops crash].
  unfold start_step, progress_ok in *. cbn in *.
  destruct pc as [|[|gvr todo]| | |]; [| | |destruct (stopped w || syn) eqn:Hw; [|done]
    |destruct can; [|done]|done]; intros [= <-]; (split; cbn; try done; try tauto).
  - destruct H6 as (Hf & Hc & _), H7 as (_ & -> & ->). rewrite (discovered_frame w w0) by done.
    split; [done|]. split; [done|]. by exists [].
  - by intros [?|?].
  - destruct H7 as (? & _ & done & Hd & ->). rewrite app_nil_r in Hd. subst done. done.
  - by intros [?|?].
  - destruct H7 as (? & ? & done & Hd & ->). split; [done|]. split; [done|].
    exists (done ++ [gvr]). rewrite <- app_assoc, handled_app. split; [done|].
    unfold handled_gvrs at 3. cbn. destruct (addHandlerFails gvr); by rewrite ?app_nil_r.
  - by intros [?|?].
  - intros _. by apply orb_true_iff.
Qed.
(** [Stop] closes the channel at the first call and does nothing at the others. *)
Lemma Stop_once w : stopOnce w = stopped w → ∃ c, Stop w = Ok (with_stop c true w) ∧ chan_closed c = true.
Proof.
  intros Ho. unfold Stop. rewrite Ho. destruct (stopped w) eqn:Hs.
  - exists (stopCh w). split; [|done]. f_equal. destruct w. cbn in *. by subst.
  - unfold chan_close. rewrite Hs. by eexists.
Qed.

Lemma stop_call_ok w0 helper s :
  start_ok w0 s → (helper = true → st_cancelled s = true) → start_ok w0 (stop_call helper s).
Proof.
  intros [H1 H2 H3 H4 H5 H6 H7 H8] Hc. unfold stop_call.
  destruct (Stop_once _ H2) as (c & -> & Hcl). destruct s as [w pc hl hs inf syn can stops crash].
  unfold progress_ok in *. cbn in *. split; cbn; try done.
  - intros Hh. split; [|done]. destruct helper; [by apply Hc|by apply H3].
  - intros _. destruct helper; cbn; [by left|right; lia].
  - intros _. by left.
Qed.

Lemma start_label_ok w0 l s s' : start_ok w0 s → start_label l s = Some s' → start_ok w0 s'.
Proof.
  intros Hs E. destruct (Hs) as [H1 H2 H3 H4 H5 H6 H7 H8]. unfold start_label in E. rewrite H1 in E.
  destruct l.
  - by eapply start_step_ok.
  - destruct (st_cancelled s && negb (st_helper s)) eqn:Hc; [|done]. injection E as <-.
    apply andb_true_iff in Hc as [Hc _]. by apply stop_call_ok.
  - destruct (st_informing s && negb (stopped (st_watcher s))) eqn:Hc; [|done]. injection E as <-.
    apply andb_true_iff in Hc as [Hc _]. unfold progress_ok in *. split; cbn; try done; [|intros _; by right].
    unfold progress_ok. cbn. rewrite Hc in H7. exact H7.
  - injection E as <-. split; cbn; try done. intros Hh. split; [done|by apply H3].
  - injection E as <-. by apply stop_call_ok.
Qed.

(** A watcher whose stop channel is open, or closed by an earlier [Stop]. *)
Definition startable (w : Watcher) : Prop := stopOnce w = false ∧ stopped w = false.

Lemma start_init_ok w : startable w → start_ok w (start_init w).
Proof. intros [Ho Hs]. split; cbn; try done; [congruence|by rewrite Hs|by intros [?|?]]. Qed.

Lemma start_reachable_ok w s : startable w → rtc start_move (start_init w) s → start_ok w s.
Proof.
  intros Hw. apply rtc_invariant; [by apply start_init_ok|].
  intros s1 s2 Hs1 [l E]. by eapply start_label_ok.
Qed.

(** ** [Start] returns *)

(** The steps of the two goroutines. *)
Definition own_step (l : StartLabel) : Prop := match l with LStart | LHelper => True | _ => False end.

Definition start_work s : nat :=
  (if st_helper s then 0 else 1) +
  match st_pc s with
  | SDiscover => 4 + length (discovered (st_watcher s))
  | SHandlers todo => 3 + length todo
  | SWaitSync => 2
  | SWaitDone => 1
  | SReturned => 0
  end.

Lemma own_step_decreases w0 l s s' :
  start_ok w0 s → own_step l → start_label l s = Some s' → start_work s' < start_work s.
Proof.
  intros [H1 H2 H3 H4 H5 H6 H7 H8] Hl E. unfold start_label in E. rewrite H1 in E.
  destruct l; try done; unfold start_work.
  - unfold start_step in E. destruct (st_pc s) as [|[|gvr todo]| | |]; cbn in E; try done.
    + injection E as <-. cbn. lia.
    + injection E as <-. cbn. lia.
    + injection E as <-. cbn. lia.
    + destruct (stopped _ || _); [|done]. injection E as <-. cbn. lia.
    + destruct (st_cancelled s); [|done]. injection E as <-. cbn. lia.
  - destruct (st_helper s) eqn:Hh; [by rewrite andb_false_r in E|].
    destruct (st_cancelled s); [|done]. injection E as <-. unfold stop_call.
    destruct (Stop_once _ H2) as (c & -> & _). cbn. destruct (st_pc s); cbn; try lia.
    rewrite (discovered_frame (with_stop c true (st_watcher s)) (st_watcher s)) by done. lia.
Qed.

(** After the cancellation the two goroutines only stop at their ends. *)
Lemma cancelled_stuck w0 s :
  start_ok w0 s → st_cancelled s = true →
  (∀ l, own_step l → start_label l s = None) → st_pc s = SReturned ∧ st_helper s = true.
Proof.
  intros [H1 H2 H3 H4 H5 H6 H7 H8] Hc Hstuck.
  pose proof (Hstuck LHelper I) as Hh. pose proof (Hstuck LStart I) as Hp.
  unfold start_label in Hh, Hp. rewrite H1 in Hh, Hp. rewrite Hc in Hh.
  destruct (st_helper s) eqn:Eh; [|done]. split; [|done].
  unfold start_step in Hp. destruct (H3 eq_refl) as [_ Hs]. rewrite Hs, Hc in Hp.
  destruct (st_pc s) as [|[|gvr todo]| | |]; done.
Qed.

Lemma own_steps_bounded w0 ls s s' :
  start_ok w0 s → Forall own_step ls → start_exec ls s = Some s' →
  length ls + start_work s' ≤ start_work s ∧ start_ok w0 s' ∧ (st_cancelled s = true → st_cancelled s' = true).
Proof.
  intros Hs Hf. revert s Hs. induction Hf as [|l ls Hl _ IH]; intros s Hs E.
  - injection E as <-. by split.
  - cbn in E. apply bind_Some in E as (s1 & E1 & E).
    pose proof (own_step_decreases _ _ _ _ Hs Hl E1). pose proof (start_label_ok _ _ _ _ Hs E1) as Hs1.
    destruct (IH _ Hs1 E) as (? & ? & Hc). split; [cbn; lia|]. split; [done|]. intros Hc0. apply Hc.
    pose proof (ok_crash _ _ Hs) as Hcr. unfold start_label in E1. rewrite Hcr in E1.
    destruct l; try done.
    + unfold start_step in E1. destruct (st_pc s) as [|[|gvr todo]| | |]; cbn in E1; try done;
        try (by injection E1 as <-); [destruct (stopped _ || _)|rewrite Hc0 in E1];
        try done; by injection E1 as <-.
    + destruct (st_cancelled s && negb (st_helper s)); [|done]. injection E1 as <-.
      unfold stop_call. by destruct (Stop (st_watcher s)).
Qed.
End start.

(** ** Properties *)

(** C21: the life of the watcher.  In whatever order [Start], its helper goroutine,
    the informers, the cancellation and other callers of [Stop] take their steps:
    nobody closes the stop channel twice; it is closed only by the helper after
    the cancellation or by another caller of [Stop]; [Start] returns only after
    the cancellation; and once the informers run, the watcher records the
    discovered resources and exactly those have handlers whose handler could be
    added. *)
Theorem Start_lifecycle `{GoUnicode} ParseGroupVersion lists fails w s
    (Hw : startable w) (Hs : rtc (start_move ParseGroupVersion lists fails) (start_init w) s) :
  st_crash s = None
  ∧ (stopped (st_watcher s) = true → st_cancelled s = true ∨ 0 < st_stops s)
  ∧ (st_pc s = SReturned → st_cancelled s = true)
  ∧ (st_informing s = true →
       (watchedGVRs (st_watcher s), st_handlers s)
         = (let '(w', hs) := Start ParseGroupVersion w lists fails in (watchedGVRs w', hs))).
Proof.
  destruct (start_reachable_ok _ _ _ w s Hw Hs) as [H1 H2 H3 H4 H5 H6 H7 H8].
  split; [done|]. split; [|split; [done|]].
  - intros Hst. destruct (H4 Hst) as [Hh|?]; [left; by apply H3|by right].
  - intros Hi. unfold progress_ok in H7. rewrite Hi in H7.
    assert (watchedGVRs (st_watcher s) = discoverResources ParseGroupVersion w lists
      ∧ st_handlers s = handled_gvrs fails (discoverResources ParseGroupVersion w lists)) as [-> ->]
      by (destruct (st_pc s); naive_solver).
    done.
Qed.

(** C22: [Start] returns.  Once the context is cancelled, whatever [Start] was doing
    (also while it waits for caches that never sync), its two goroutines take at
    most [start_work s] more steps, can only stop when [Start] has returned and
    the stop channel is closed, and do so unless another step intervenes for
    ever: there is a run that ends there. *)
Theorem Start_returns `{GoUnicode} ParseGroupVersion lists fails w s
    (Hw : startable w) (Hs : rtc (start_move ParseGroupVersion lists fails) (start_init w) s)
    (Hc : st_cancelled s = true) :
  (∀ ls s', Forall own_step ls → start_exec ParseGroupVersion lists fails ls s = Some s' →
     length ls ≤ start_work ParseGroupVersion lists s
     ∧ ((∀ l, own_step l → start_label ParseGroupVersion lists fails l s' = None) →
          st_pc s' = SReturned ∧ stopped (st_watcher s') = true))
  ∧ ∃ ls s', Forall own_step ls ∧ start_exec ParseGroupVersion lists fails ls s = Some s'
      ∧ st_pc s' = SReturned ∧ stopped (st_watcher s') = true.
Proof.
  pose proof (start_reachable_ok _ _ _ w s Hw Hs) as Hok.
  assert (∀ s', start_ok ParseGroupVersion lists fails w s' → st_cancelled s' = true →
    (∀ l, own_step l → start_label ParseGroupVersion lists fails l s' = None) →
    st_pc s' = SReturned ∧ stopped (st_watcher s') = true) as Hend.
  { intros s' Hok' Hc' Hn. destruct (cancelled_stuck _ _ _ w s' Hok' Hc' Hn) as [? Hh].
    split; [done|]. by destruct (ok_helper _ _ _ _ _ Hok' Hh). }
  split.
  - intros ls s' Hf E. destruct (own_steps_bounded _ _ _ w ls s s' Hok Hf E) as (? & Hok' & Hc').
    split; [lia|]. auto.
  - clear Hs. revert Hok Hc.
    induction s as [s IH] using (induction_ltof1 _ (start_work ParseGroupVersion lists)). intros Hok Hc.
    assert ((∀ l, own_step l → start_label ParseGroupVersion lists fails l s = None)
      ∨ ∃ l s1, own_step l ∧ start_label ParseGroupVersion lists fails l s = Some s1)
      as [Hn|(l & s1 & Hl & E)].
    { destruct (start_label ParseGroupVersion lists fails LStart s) as [s1|] eqn:E1; [right; by exists LStart, s1|].
      destruct (start_label ParseGroupVersion lists fails LHelper s) as [s1|] eqn:E2; [right; by exists LHelper, s1|].
      left. by intros []. }
    + exists [], s. by destruct (Hend s Hok Hc Hn).
    + destruct (own_steps_bounded _ _ _ w [l] s s1 Hok) as (? & Hok1 & Hc1);
        [by repeat constructor|by cbn; rewrite E|].
      destruct (IH s1) as (ls & s' & Hf & E' & Hr); [unfold ltof; cbn in *; lia|done|exact (Hc1 Hc)|].
      exists (l :: ls), s'. cbn. rewrite E. split; [by constructor|done].
Qed.

(** ** Witnesses *)

Section witnesses.
#[local] Instance ascii_only : GoUnicode := string_map lower_byte.
Abbreviation parse := (λ _, Some ("apiextensions.k8s.io", "v1")).

(** One resource, cancelled while the caches sync. *)
Definition sample_start : list StartLabel := [LStart; LStart; LStart; LCancel; LHelper; LStop].

Definition start_final : StartState :=
  default (start_init (small_watcher true))
    (start_exec parse served_crds (λ _, false) sample_start (start_init (small_watcher true))).

Lemma start_final_reachable :
  rtc (start_move parse served_crds (λ _, false)) (start_init (small_watcher true)) start_final.
Proof. apply (start_exec_rtc _ _ _ sample_start). vm_compute. reflexivity. Qed.

Lemma Start_lifecycle_witness :
  watchedGVRs (st_watcher start_final) = [crdGVR] ∧ st_handlers start_final = [crdGVR].
Proof.
  destruct (Start_lifecycle parse served_crds (λ _, false) (small_watcher true) start_final)
    as (_ & _ & _ & E); [by split|exact start_final_reachable|].
  assert ((let '(w', hs) := Start parse (small_watcher true) served_crds (λ _, false) in
           (watchedGVRs w', hs)) = ([crdGVR], [crdGVR])) as E2 by (vm_compute; reflexivity).
  assert (st_informing start_final = true) as Ei by (vm_compute; reflexivity).
  pose proof (eq_trans (E Ei) E2) as E3.
  split; [exact (f_equal fst E3)|exact (f_equal snd E3)].
Defined.

Lemma Start_returns_witness :
  ∃ ls s', Forall own_step ls ∧ start_exec parse served_crds (λ _, false) ls start_final = Some s'
    ∧ st_pc s' = SReturned ∧ stopped (st_watcher s') = true.
Proof.
  apply (Start_returns parse served_crds (λ _, false) (small_watcher true) start_final);
    [by split|exact start_final_reachable|vm_compute; reflexivity].
Defined.
End witnesses.
