(* ===== verification/Buffer.v ===== *)
(** The interface between the two debounce buffers and everything that uses them.

    The instance pipeline and the capabilities pipeline have a buffer each, two Go
    types with the same structure.  This file states what both promise: an
    abstract buffer ([ABuf], with one operation per critical section of the
    code), and the class [Buffer] of implementations, whose laws say that every
    operation of the implementation is the abstract one seen through [abs].
    The interleaving model and its theorems are stated for the class; the files
    of the two buffers provide the instances. *)

From S2P Require Import Prelude GoRuntime.

(** ** Payloads *)

(** A buffer collects values of type [V], each with a key, and sends payloads of
    type [P], which hold upserted values and deleted keys. *)
Class PayloadOps (V P : Type) := {
  key_of : V → string;
  batch : list V → P;
  deletion : string → P;
  upserts_of : P → list V;
  deletes_of : P → list string;
  upserts_of_batch vs : upserts_of (batch vs) = vs;
  deletes_of_batch vs : deletes_of (batch vs) = [];
  upserts_of_deletion k : upserts_of (deletion k) = [];
  deletes_of_deletion k : deletes_of (deletion k) = [k];
}.

(** ** The abstract buffer *)

(** The variables a timer's function captured. *)
Record Closure := mkClosure { cl_key : string; cl_gen : Z }.

(** A pending change: its value, its timer, whether the timer's function has
    marked it ready, and its generation. *)
Record Entry (V : Type) := mkEntry { e_val : V; e_timer : nat; e_ready : bool; e_gen : Z }.
Arguments mkEntry {V}.
Arguments e_val {V}.
Arguments e_timer {V}.
Arguments e_ready {V}.
Arguments e_gen {V}.

Definition set_ready {V} (e : Entry V) : Entry V :=
  mkEntry (e_val e) (e_timer e) true (e_gen e).

Record ABuf (V P : Type) := mkABuf {
  a_pending : gmap string (Entry V);
  a_timers : Timers Closure;
  a_chan : Chan P;
  a_closed : bool;
  a_window : Z;
  a_max : Z;
  a_drops : nat;  (** log lines that report a dropped payload *)
}.
Arguments mkABuf {V P}.
Arguments a_pending {V P}.
Arguments a_timers {V P}.
Arguments a_chan {V P}.
Arguments a_closed {V P}.
Arguments a_window {V P}.
Arguments a_max {V P}.
Arguments a_drops {V P}.

(** ** Loops over the pending changes *)

Section loops.
Context {E V : Type} (rdy : E → bool) (val : E → V).
Implicit Types m : gmap string E.

(** The values of the selected entries, in the order of the keys. *)
Definition selected (keys : list string) m : list V :=
  omap (λ k, e ← m !! k; if rdy e then Some (val e) else None) keys.

(** The entries that stay when the selected ones of some keys are removed. *)
Definition unselected (keys : list string) m : gmap string E :=
  base.filter (λ kv, ¬ (kv.1 ∈ keys ∧ rdy kv.2 = true)) m.

Lemma selected_delete k keys m : k ∉ keys → selected keys (delete k m) = selected keys m.
Proof.
  intros Hk. apply list_omap_ext, Forall2_same_length_lookup. split; [done|].
  intros i j1 j2 H1 H2. assert (j1 = j2) as <- by congruence.
  rewrite lookup_delete_ne; [done|]. intros ->. by apply list_elem_of_lookup_2 in H1.
Qed.

Lemma selected_cons k keys m :
  selected (k :: keys) m =
    match m !! k with
    | Some e => if rdy e then val e :: selected keys m else selected keys m
    | None => selected keys m
    end.
Proof.
  unfold selected. simpl. destruct (m !! k) as [e|]; simpl; [|done]. by destruct (rdy e).
Qed.

Lemma unselected_nil m : unselected [] m = m.
Proof using Type. clear val V. apply map_filter_id. intros i x _ [Hin _]. by apply elem_of_nil in Hin. Qed.

Lemma unselected_take k keys m e :
  k ∉ keys → m !! k = Some e → rdy e = true →
  unselected keys (delete k m) = unselected (k :: keys) m.
Proof using Type. clear val V.
  intros Hk Hm Hr. apply map_eq. intros j. apply option_eq. intros x. unfold unselected.
  rewrite !map_lookup_filter_Some, lookup_delete_Some, elem_of_cons. simpl.
  split; [naive_solver|]. intros [Hj Hn]. split; [|naive_solver].
  split; [|done]. intros <-. naive_solver.
Qed.

Lemma unselected_skip k keys m :
  (∀ e, m !! k = Some e → rdy e = false) → unselected keys m = unselected (k :: keys) m.
Proof using Type. clear val V.
  intros Hk. apply map_filter_ext. intros j x Hj. simpl.
  rewrite elem_of_cons. split; [|naive_solver].
  intros Hn [[->|] Hx]; [|naive_solver]. specialize (Hk _ Hj). congruence.
Qed.

(** The body of the flush loop. *)
Definition take_body (k : string) (e : E) (s : list V * gmap string E) :
    list V * gmap string E :=
  if rdy e then (s.1 ++ [val e], delete k s.2) else s.

Lemma take_loop keys ups m :
  NoDup keys →
  range_loop snd take_body keys (ups, m) = (ups ++ selected keys m, unselected keys m).
Proof.
  revert ups m. induction keys as [|k keys IH]; intros ups m Hnd.
  - by rewrite unselected_nil, app_nil_r.
  - apply NoDup_cons in Hnd as [Hk Hnd]. rewrite selected_cons. cbn [range_loop snd].
    destruct (m !! k) as [e|] eqn:Hm; [destruct (rdy e) eqn:Hr|].
    + replace (take_body k e (ups, m)) with (ups ++ [val e], delete k m)
        by (unfold take_body; by rewrite Hr).
      rewrite IH, selected_delete, (unselected_take k keys m e), <- app_assoc by done. done.
    + replace (take_body k e (ups, m)) with (ups, m) by (unfold take_body; by rewrite Hr).
      rewrite IH, (unselected_skip k keys m) by naive_solver. done.
    + rewrite IH, (unselected_skip k keys m) by naive_solver. done.
Qed.
End loops.

Section drain.
Context {E V : Type} (val : E → V) (tm : E → nat).
Abbreviation every := (λ _ : E, true).

(** The body of the shutdown loop, which also stops the timers. *)
Definition drain_body (k : string) (e : E)
    (s : list V * gmap string E * Timers Closure) : list V * gmap string E * Timers Closure :=
  (s.1.1 ++ [val e], delete k s.1.2, StopTimer (tm e) s.2).

Definition stop_all (keys : list string) (m : gmap string E) (t : Timers Closure) :
    Timers Closure :=
  foldl (λ t k, match m !! k with Some e => StopTimer (tm e) t | None => t end) t keys.

Lemma stop_all_delete k keys m t :
  k ∉ keys → stop_all keys (delete k m) t = stop_all keys m t.
Proof.
  unfold stop_all. revert t. induction keys as [|j keys IH]; intros t Hk; [done|].
  simpl. apply not_elem_of_cons in Hk as [Hkj Hk].
  rewrite lookup_delete_ne by done. by apply IH.
Qed.

Lemma drain_loop keys ups m t :
  NoDup keys →
  range_loop (λ s, s.1.2) drain_body keys (ups, m, t) =
    (ups ++ selected every val keys m, unselected every keys m, stop_all keys m t).
Proof.
  revert ups m t. induction keys as [|k keys IH]; intros ups m t Hnd.
  - by rewrite unselected_nil, app_nil_r.
  - apply NoDup_cons in Hnd as [Hk Hnd]. rewrite selected_cons. simpl.
    destruct (m !! k) as [e|] eqn:Hm.
    + unfold drain_body at 2. cbn [fst snd].
      rewrite IH, selected_delete, (unselected_take _ k keys m e), stop_all_delete,
        <- app_assoc by done. done.
    + rewrite IH, (unselected_skip _ k keys m) by naive_solver. done.
Qed.
End drain.

(** ** The operations of the abstract buffer *)

Section abstract.
Context `{PayloadOps V P}.
Implicit Types b : ABuf V P.

Definition a_set (m : gmap string (Entry V)) (t : Timers Closure) b : ABuf V P :=
  mkABuf m t (a_chan b) (a_closed b) (a_window b) (a_max b) (a_drops b).

Definition a_with_timers (t : Timers Closure) b : ABuf V P := a_set (a_pending b) t b.

Definition a_with_chan (c : Chan P) b : ABuf V P :=
  mkABuf (a_pending b) (a_timers b) c (a_closed b) (a_window b) (a_max b) (a_drops b).

(** The timers after stopping the one of a key, if it has one. *)
Definition stop_in (k : string) (m : gmap string (Entry V)) (t : Timers Closure) :
    Timers Closure :=
  match m !! k with Some e => StopTimer (e_timer e) t | None => t end.

Definition stop_key (k : string) b : Timers Closure := stop_in k (a_pending b) (a_timers b).

(** A value replaces the pending one of its key and starts a timer. *)
Definition a_put (v : V) (g : Z) b : ABuf V P :=
  let '(tid, t) := AfterFunc (a_window b) (mkClosure (key_of v) g) (stop_key (key_of v) b) in
  a_set (<[key_of v := mkEntry v tid false g]> (a_pending b)) t b.

(** A deletion cancels the pending value of its key. *)
Definition a_cancel (k : string) b : ABuf V P :=
  a_set (delete k (a_pending b)) (stop_key k b) b.

(** A timer's function marks the entry it was started for. *)
Definition a_mark (k : string) (g : Z) b : ABuf V P :=
  match a_pending b !! k with
  | Some e => if decide (e_gen e = g)
              then a_set (<[k := set_ready e]> (a_pending b)) (a_timers b) b else b
  | None => b
  end.

Definition a_readyCount b : nat :=
  size (base.filter (λ kv, e_ready kv.2 = true) (a_pending b)).

(** A flush takes the ready values, in the order of the keys, and leaves the
    other entries. *)
Definition a_collect (hint : list string) b : list V * ABuf V P :=
  (selected e_ready e_val (range_keys hint (a_pending b)) (a_pending b),
   a_set (base.filter (λ kv, e_ready kv.2 = false) (a_pending b)) (a_timers b) b).

(** The shutdown flush takes every value and stops every timer. *)
Definition a_collect_all (hint : list string) b : list V * ABuf V P :=
  let keys := range_keys hint (a_pending b) in
  (selected (λ _, true) e_val keys (a_pending b),
   a_set ∅ (stop_all e_timer keys (a_pending b) (a_timers b)) b).

(** A payload is discarded once the channel is closed, dropped with a log line
    when the channel is full, and enqueued otherwise. *)
Definition a_emit (p : P) b : Outcome (ABuf V P) :=
  if a_closed b then Ok b
  else
    '(sent, c) ← select_send p (a_chan b);
    Ok (if sent : bool then a_with_chan c b
        else mkABuf (a_pending b) (a_timers b) (a_chan b) (a_closed b) (a_window b) (a_max b)
               (S (a_drops b))).

Definition a_close b : Outcome (ABuf V P) :=
  if a_closed b then Ok b
  else
    c ← chan_close (a_chan b);
    Ok (mkABuf (a_pending b) (a_timers b) c true (a_window b) (a_max b) (a_drops b)).
End abstract.

(** ** Implementations *)

(** One field per critical section of the code: [put] and [cancel] are those of
    [handleEvent], [mark] that of the timer function, [readyCount] that of
    [checkFlush], [collect] and [collectAll] those of [flushPending] and
    [flushAllPending], [emit] and [close] are [emitPayload] and
    [closePayloads]. *)
Class Buffer (B V P : Type) `{PayloadOps V P} := {
  abs : B → ABuf V P;
  put : V → B → B;
  cancel : string → B → B;
  mark : string → Z → B → B;
  readyCountOf : B → Z;
  collect : list string → B → list V * B;
  collectAll : list string → B → list V * B;
  emit : P → B → Outcome B;
  close : B → Outcome B;
  set_timers : Timers Closure → B → B;
  set_chan : Chan P → B → B;
  next_gen : V → B → Z;
  abs_put v b : abs (put v b) = a_put v (next_gen v b) (abs b);
  abs_cancel k b : abs (cancel k b) = a_cancel k (abs b);
  abs_mark k g b : abs (mark k g b) = a_mark k g (abs b);
  abs_readyCount b : readyCountOf b = Z.of_nat (a_readyCount (abs b));
  abs_collect it b : prod_map id abs (collect it b) = a_collect it (abs b);
  abs_collectAll it b : prod_map id abs (collectAll it b) = a_collect_all it (abs b);
  abs_emit p b : (emit p b ≫= λ b', Ok (abs b')) = a_emit p (abs b);
  abs_close b : (close b ≫= λ b', Ok (abs b')) = a_close (abs b);
  abs_set_timers t b : abs (set_timers t b) = a_with_timers t (abs b);
  abs_set_chan c b : abs (set_chan c b) = a_with_chan c (abs b);
}.

(** ** Implementations that keep their entries in a type of their own *)

Lemma range_keys_fmap {A B} (f : A → B) hint (m : gmap string A) :
  range_keys hint (f <$> m) = range_keys hint m.
Proof.
  unfold range_keys. rewrite map_to_list_fmap, <- list_fmap_compose.
  rewrite (list_fmap_ext (fst ∘ prod_map id f) fst) by done.
  replace (List.filter (λ k, bool_decide (is_Some ((f <$> m) !! k))) hint)
    with (List.filter (λ k, bool_decide (is_Some (m !! k))) hint); [done|].
  apply List.filter_ext. intros k. apply bool_decide_ext.
  by rewrite lookup_fmap, fmap_is_Some.
Qed.

Lemma range_keys_empty {A} hint : range_keys hint (∅ : gmap string A) = [].
Proof.
  destruct (range_keys hint ∅) as [|k ks] eqn:E; [done|].
  assert (k ∈ range_keys hint (∅ : gmap string A)) as Hk by (rewrite E; left).
  apply range_keys_elem in Hk as [e He]. by rewrite lookup_empty in He.
Qed.

Lemma size_filter_length {A} (P : string * A → Prop) `{∀ x, Decision (P x)} (m : gmap string A) :
  size (base.filter P m) = length (base.filter P (map_to_list m)).
Proof.
  rewrite map_filter_alt, <- length_map_to_list, map_to_list_to_map; [done|].
  apply (sublist_NoDup _ (map_to_list m).*1); [apply NoDup_fst_map_to_list|].
  apply fmap_sublist, sublist_filter.
Qed.

Section views.
Context {E V : Type} (view : E → Entry V).
Implicit Types m : gmap string E.

Lemma count_loop (rdy : E → bool) m :
  foldl (λ count kv, if rdy (kv : string * E).2 then count + 1 else count)%Z 0%Z (map_to_list m)
    = Z.of_nat (size (base.filter (λ kv, rdy kv.2 = true) m)).
Proof.
  rewrite size_filter_length. change 0%Z with (Z.of_nat 0).
  rewrite <- (Nat.add_0_l (length _)). generalize 0 as c.
  induction (map_to_list m) as [|kv l IH]; intros c; simpl.
  - by rewrite Nat.add_0_r.
  - rewrite filter_cons. destruct (rdy kv.2) eqn:Hr.
    + rewrite decide_True by done. simpl. rewrite Nat.add_succ_r.
      replace (Z.of_nat c + 1)%Z with (Z.of_nat (S c)) by lia. apply IH.
    + rewrite decide_False by congruence. apply IH.
Qed.

Lemma filter_view m (b : bool) (rdy : E → bool) :
  (∀ e, e_ready (view e) = rdy e) →
  base.filter (λ kv, e_ready kv.2 = b) (view <$> m)
    = view <$> base.filter (λ kv, rdy kv.2 = b) m.
Proof.
  intros Hv. rewrite map_filter_fmap. f_equal. apply map_filter_ext.
  intros k e _. simpl. by rewrite Hv.
Qed.

Lemma selected_view keys m (sel : Entry V → bool) (rdy : E → bool) (val : E → V) :
  (∀ e, sel (view e) = rdy e) → (∀ e, e_val (view e) = val e) →
  selected sel e_val keys (view <$> m) = selected rdy val keys m.
Proof.
  intros Hr Hv. apply list_omap_ext, Forall2_same_length_lookup. split; [done|].
  intros i k1 k2 H1 H2. assert (k1 = k2) as <- by congruence. rewrite lookup_fmap.
  destruct (m !! k1) as [e|]; simpl; [|done]. by rewrite Hr, Hv.
Qed.

Lemma stop_all_view keys m (tm : E → nat) t :
  (∀ e, e_timer (view e) = tm e) → stop_all e_timer keys (view <$> m) t = stop_all tm keys m t.
Proof.
  intros Hv. unfold stop_all. revert t. induction keys as [|k keys IH]; intros t; [done|].
  simpl. rewrite lookup_fmap. destruct (m !! k) as [e|]; simpl; rewrite ?Hv; apply IH.
Qed.
End views.

Section remaining.
Context {E : Type}.
Implicit Types m : gmap string E.

(** After the flush loop every ready entry is gone, after the shutdown loop every
    entry. *)
Lemma filter_taken hint m (rdy : E → bool) :
  unselected rdy (range_keys hint m) m = base.filter (λ kv, rdy kv.2 = false) m.
Proof.
  apply map_filter_ext. intros k e Hk. simpl.
  rewrite range_keys_elem, <- not_true_iff_false. naive_solver.
Qed.

Lemma filter_drained hint m :
  unselected (λ _, true) (range_keys hint m) m = ∅.
Proof.
  apply map_empty. intros k. apply map_lookup_filter_None. right. intros e Hk Hn.
  apply Hn. split; [apply range_keys_elem; eauto|done].
Qed.
End remaining.
