(* ===== verification/Debounce.v ===== *)
(** [internal/controller/debounce.go]: the debounce buffer of the instance
    pipeline, its operations as the code composes them, and the proof that it
    implements the abstract buffer. *)

From S2P Require Import Prelude GoRuntime GoStrings Config Metadata Watcher Buffer.

(** ** Data *)

Record SyncPayload := mkSyncPayload {
  Upserts : list ResourceInstance;
  Deletes : list string;
}.

#[export] Instance SyncPayload_eq_dec : EqDecision SyncPayload.
Proof. solve_decision. Defined.

Definition IsEmpty (p : SyncPayload) : bool :=
  bool_decide (length (Upserts p) = 0) && bool_decide (length (Deletes p) = 0).

(** [pendingChange]; the timer is named by its identity. *)
Record pendingChange := mkPendingChange {
  instance : ResourceInstance;
  timer : nat;
  ready : bool;
  gen : Z;
}.

(** The log line that reports a dropped payload. *)
Inductive PayloadLog := PayloadDropped (upserts deletes : nat).

(** The struct, and beside its fields the timers it started ([timers]) and the
    drop lines it logged ([dropped]). *)
Record DebounceBuffer := mkDebounceBuffer {
  debounceWindow : Z;
  flushInterval : Z;
  maxBatchSize : Z;
  pending : gmap string pendingChange;
  Payloads : Chan SyncPayload;
  payloadsClosed : bool;
  timers : Timers Closure;
  dropped : list PayloadLog;
}.

Definition with_pending (m : gmap string pendingChange) (t : Timers Closure)
    (d : DebounceBuffer) : DebounceBuffer :=
  mkDebounceBuffer (debounceWindow d) (flushInterval d) (maxBatchSize d) m
    (Payloads d) (payloadsClosed d) t (dropped d).

Definition with_payloads (c : Chan SyncPayload) (closed : bool) (log : list PayloadLog)
    (d : DebounceBuffer) : DebounceBuffer :=
  mkDebounceBuffer (debounceWindow d) (flushInterval d) (maxBatchSize d) (pending d)
    c closed (timers d) log.

Definition NewDebounceBuffer (cfg : Config) : DebounceBuffer := {|
  debounceWindow := DebounceWindow cfg;
  flushInterval := BatchFlushInterval cfg;
  maxBatchSize := BatchMaxSize cfg;
  pending := ∅;
  Payloads := make_chan 100;
  payloadsClosed := false;
  timers := no_timers;
  dropped := [];
|}.

(** ** Operations *)

Definition emitPayload (payload : SyncPayload) (d : DebounceBuffer) : Outcome DebounceBuffer :=
  if payloadsClosed d then Ok d
  else
    '(sent, c) ← select_send payload (Payloads d);
    Ok (if sent : bool then with_payloads c (payloadsClosed d) (dropped d) d
        else with_payloads (Payloads d) (payloadsClosed d)
               (dropped d ++ [PayloadDropped (length (Upserts payload)) (length (Deletes payload))]) d).

Definition closePayloads (d : DebounceBuffer) : Outcome DebounceBuffer :=
  if payloadsClosed d then Ok d
  else
    c ← chan_close (Payloads d);
    Ok (with_payloads c true (dropped d) d).

(** The section of [handleEvent] under [pendingMu] for a delete. *)
Definition cancelPending (id : string) (d : DebounceBuffer) : DebounceBuffer :=
  match pending d !! id with
  | Some existing =>
      with_pending (delete id (pending d)) (StopTimer (timer existing) (timers d)) d
  | None => d
  end.

(** The generation [handleEvent] gives a new entry. *)
Definition nextGen (id : string) (d : DebounceBuffer) : Z :=
  match pending d !! id with
  | Some existing => to_uint64 (gen existing + 1)
  | None => 0
  end.

(** The rest of [handleEvent], for an upsert. *)
Definition putPending (inst : ResourceInstance) (d : DebounceBuffer) : DebounceBuffer :=
  let id := ID inst in
  let t := match pending d !! id with
           | Some existing => StopTimer (timer existing) (timers d)
           | None => timers d
           end in
  let capturedGen := nextGen id d in
  let '(tm, t) := AfterFunc (debounceWindow d) (mkClosure id capturedGen) t in
  with_pending
    (<[id := {| instance := inst; timer := tm; ready := false; gen := capturedGen |}]> (pending d))
    t d.

Definition handleEvent (event : ResourceEvent) (d : DebounceBuffer) : Outcome DebounceBuffer :=
  if decide (EvType event = EventDelete) then
    let d := cancelPending (ID (EvInstance event)) d in
    emitPayload {| Upserts := []; Deletes := [ID (EvInstance event)] |} d
  else Ok (putPending (EvInstance event) d).

(** The section of the timer function under [pendingMu]. *)
Definition markReady (id : string) (capturedGen : Z) (d : DebounceBuffer) : DebounceBuffer :=
  match pending d !! id with
  | Some p =>
      if decide (gen p = capturedGen)
      then with_pending (<[id := {| instance := instance p; timer := timer p; ready := true;
                                    gen := gen p |}]> (pending d)) (timers d) d
      else d
  | None => d
  end.

(** The loop counts, so its order does not matter. *)
Definition readyCount (d : DebounceBuffer) : Z :=
  foldl (λ count kv, if ready (kv : string * pendingChange).2 then count + 1 else count)%Z 0%Z
    (map_to_list (pending d)).

(** The section of [flushPending] under [pendingMu]; [hint] decides the order in
    which the loop visits the entries. *)
Definition takeReady (hint : list string) (d : DebounceBuffer) :
    list ResourceInstance * DebounceBuffer :=
  if decide (size (pending d) = 0) then ([], d)
  else
    let '(upserts, pending') :=
      range_loop snd
        (λ id change s,
           if ready change then (s.1 ++ [instance change], delete id s.2) else s)
        (range_keys hint (pending d)) ([], pending d) in
    (upserts, with_pending pending' (timers d) d).

Definition flushPending (hint : list string) (d : DebounceBuffer) : Outcome DebounceBuffer :=
  let '(upserts, d) := takeReady hint d in
  if decide (length upserts = 0) then Ok d
  else emitPayload {| Upserts := upserts; Deletes := [] |} d.

Definition checkFlush (hint : list string) (d : DebounceBuffer) : Outcome DebounceBuffer :=
  let size := readyCount d in
  if decide (maxBatchSize d ≤ size)%Z then flushPending hint d else Ok d.

(** The function a timer runs in a goroutine of its own. *)
Definition timerFunc (hint : list string) (id : string) (capturedGen : Z) (d : DebounceBuffer) :
    Outcome DebounceBuffer :=
  checkFlush hint (markReady id capturedGen d).

(** The section of [flushAllPending] under [pendingMu]. *)
Definition takeAll (hint : list string) (d : DebounceBuffer) :
    list ResourceInstance * DebounceBuffer :=
  if decide (size (pending d) = 0) then ([], d)
  else
    let '(upserts, pending', t) :=
      range_loop (λ s, s.1.2)
        (λ id change s,
           (s.1.1 ++ [instance change], delete id s.1.2, StopTimer (timer change) s.2))
        (range_keys hint (pending d)) ([], pending d, timers d) in
    (upserts, with_pending pending' t d).

Definition flushAllPending (hint : list string) (d : DebounceBuffer) : Outcome DebounceBuffer :=
  let '(upserts, d) := takeAll hint d in
  if decide (0 < length upserts) then emitPayload {| Upserts := upserts; Deletes := [] |} d
  else Ok d.

Definition pendingCount (d : DebounceBuffer) : nat := size (pending d).

Definition PendingCountForTesting (d : DebounceBuffer) : nat := pendingCount d.

(** ** The event loop *)

(** The cases of the [select] in [Run], and what happens between two iterations:
    [CaseTimer] is a timer function that runs, [CaseWait] the passing of time, and
    [CaseReceive] the sender taking a payload from the channel. *)
Inductive RunCase :=
  | CaseEvent (event : ResourceEvent)
  | CaseEventsClosed (hint : list string)
  | CaseTick (hint : list string)
  | CaseDone (hint : list string)
  | CaseTimer (tid : nat) (hint : list string)
  | CaseWait (dt : N)
  | CaseReceive.

(** One iteration; the boolean says that [Run] returned, the list is what the sender
    took. *)
Definition runCase (c : RunCase) (d : DebounceBuffer) : Outcome (bool * list SyncPayload * DebounceBuffer) :=
  match c with
  | CaseEvent event => d ← handleEvent event d; Ok (false, [], d)
  | CaseTick hint => d ← flushPending hint d; Ok (false, [], d)
  | CaseEventsClosed hint | CaseDone hint =>
      d ← flushAllPending hint d;
      d ← closePayloads d;
      Ok (true, [], d)
  | CaseTimer tid hint =>
      match fire tid (timers d) with
      | Some (cl, t) =>
          d ← timerFunc hint (cl_key cl) (cl_gen cl) (with_pending (pending d) t d);
          Ok (false, [], d)
      | None => Ok (false, [], d)
      end
  | CaseWait dt => Ok (false, [], with_pending (pending d) (advance (Z.of_N dt) (timers d)) d)
  | CaseReceive =>
      match chan_recv (Payloads d) with
      | Received payload c => Ok (false, [payload], with_payloads c (payloadsClosed d) (dropped d) d)
      | _ => Ok (false, [], d)
      end
  end.

Fixpoint runLoop (cs : list RunCase) (d : DebounceBuffer) : Outcome (bool * list SyncPayload * DebounceBuffer) :=
  match cs with
  | [] => Ok (false, [], d)
  | c :: cs =>
      '(returned, got, d) ← runCase c d;
      if returned : bool then Ok (true, got, d)
      else '(returned, got', d) ← runLoop cs d; Ok (returned, got ++ got', d)
  end.

(** [Run] on the cases the scheduler picks, when every timer function finds [Run] at
    its [select] and ends before the next iteration.  Interleaving.v has the runs
    in which the goroutines take turns at every critical section. *)
Definition Run (cs : list RunCase) (d : DebounceBuffer) : Outcome (bool * list SyncPayload * DebounceBuffer) :=
  _ ← NewTicker (flushInterval d);
  runLoop cs d.

(** ** The buffer is an abstract buffer *)

#[export, program] Instance sync_payload_ops : PayloadOps ResourceInstance SyncPayload := {|
  key_of := ID;
  batch vs := {| Upserts := vs; Deletes := [] |};
  deletion k := {| Upserts := []; Deletes := [k] |};
  upserts_of := Upserts;
  deletes_of := Deletes;
|}.
Solve All Obligations with done.

Definition entry (p : pendingChange) : Entry ResourceInstance :=
  mkEntry (instance p) (timer p) (ready p) (gen p).

Definition abstract (d : DebounceBuffer) : ABuf ResourceInstance SyncPayload := {|
  a_pending := entry <$> pending d;
  a_timers := timers d;
  a_chan := Payloads d;
  a_closed := payloadsClosed d;
  a_window := debounceWindow d;
  a_max := maxBatchSize d;
  a_drops := length (dropped d);
|}.

Lemma abstract_put inst d : abstract (putPending inst d) = a_put inst (nextGen (ID inst) d) (abstract d).
Proof.
  unfold putPending, a_put, stop_key, stop_in. cbn [abstract a_pending a_timers a_window key_of sync_payload_ops].
  rewrite lookup_fmap. unfold abstract, a_set, with_pending. cbn.
  destruct (pending d !! ID inst); cbn; by rewrite fmap_insert.
Qed.

Lemma abstract_cancel id d : abstract (cancelPending id d) = a_cancel id (abstract d).
Proof.
  unfold cancelPending, a_cancel, stop_key, stop_in, abstract, a_set. cbn.
  rewrite lookup_fmap, <- fmap_delete.
  destruct (pending d !! id) eqn:E; cbn; [done|]. by rewrite delete_id.
Qed.

Lemma abstract_mark id g d : abstract (markReady id g d) = a_mark id g (abstract d).
Proof.
  unfold markReady, a_mark. cbn. rewrite lookup_fmap.
  destruct (pending d !! id) as [p|] eqn:E; cbn; [|done].
  case_decide; [|done]. unfold abstract, a_set, with_pending. cbn. by rewrite fmap_insert.
Qed.

Lemma abstract_readyCount d : readyCount d = Z.of_nat (a_readyCount (abstract d)).
Proof.
  unfold readyCount, a_readyCount. rewrite count_loop. cbn [abstract a_pending].
  by rewrite (filter_view entry _ _ ready), map_size_fmap.
Qed.

Lemma abstract_takeReady hint d :
  prod_map id abstract (takeReady hint d) = a_collect hint (abstract d).
Proof.
  unfold takeReady, a_collect. cbn [abstract a_pending].
  rewrite range_keys_fmap, (selected_view entry _ _ _ ready instance) by done.
  rewrite (filter_view entry _ _ ready) by done.
  case_decide as Hs.
  - apply map_size_empty_inv in Hs. rewrite Hs, range_keys_empty, map_filter_empty. cbn.
    unfold abstract, a_set. cbn. by rewrite Hs.
  - change (λ id change s, if ready change then _ else _) with (take_body ready instance).
    rewrite take_loop by auto with sync. cbn. by rewrite filter_taken.
Qed.

Lemma abstract_takeAll hint d :
  prod_map id abstract (takeAll hint d) = a_collect_all hint (abstract d).
Proof.
  unfold takeAll, a_collect_all. cbn [abstract a_pending a_timers].
  rewrite range_keys_fmap, (selected_view entry _ _ _ (λ _, true) instance) by done.
  rewrite (stop_all_view entry _ _ timer) by done.
  case_decide as Hs.
  - apply map_size_empty_inv in Hs. rewrite Hs, range_keys_empty. cbn.
    unfold abstract, a_set. cbn. by rewrite Hs.
  - pose proof (drain_loop instance timer (range_keys hint (pending d)) [] (pending d) (timers d)
      (range_keys_NoDup _ _)) as E.
    unfold drain_body in E. rewrite E. cbn. by rewrite filter_drained.
Qed.

Lemma abstract_emit p d : (emitPayload p d ≫= λ d', Ok (abstract d')) = a_emit p (abstract d).
Proof.
  unfold emitPayload, a_emit. cbn. destruct (payloadsClosed d) eqn:Hc; [done|].
  unfold select_send. destruct (chan_closed (Payloads d)); [done|].
  unfold abstract, with_payloads, a_with_chan. cbn.
  destruct (chan_has_room (Payloads d)); cbn; rewrite ?length_app, ?Nat.add_1_r, ?Hc; done.
Qed.

Lemma abstract_close d : (closePayloads d ≫= λ d', Ok (abstract d')) = a_close (abstract d).
Proof.
  unfold closePayloads, a_close. cbn. destruct (payloadsClosed d); [done|].
  unfold chan_close. by destruct (chan_closed (Payloads d)).
Qed.

#[export] Instance debounce_buffer : Buffer DebounceBuffer ResourceInstance SyncPayload := {|
  abs := abstract;
  put := putPending;
  cancel := cancelPending;
  mark := markReady;
  readyCountOf := readyCount;
  collect := takeReady;
  collectAll := takeAll;
  emit := emitPayload;
  close := closePayloads;
  set_timers t d := with_pending (pending d) t d;
  set_chan c d := with_payloads c (payloadsClosed d) (dropped d) d;
  next_gen v d := nextGen (ID v) d;
  abs_put := abstract_put;
  abs_cancel := abstract_cancel;
  abs_mark := abstract_mark;
  abs_readyCount := abstract_readyCount;
  abs_collect := abstract_takeReady;
  abs_collectAll := abstract_takeAll;
  abs_emit := abstract_emit;
  abs_close := abstract_close;
  abs_set_timers t d := eq_refl;
  abs_set_chan c d := eq_refl;
|}.
