(* ===== verification/CrdDebounce.v ===== *)
(** [internal/controller/crd_debounce.go]: the debounce buffer of the capabilities
    pipeline.  It has the structure of the instance buffer, with names of custom
    resource definitions as values and one generation counter for the whole
    buffer. *)

From S2P Require Import Prelude GoRuntime GoStrings Config Watcher Buffer.

(** ** Data *)

Record CrdSyncPayload := mkCrdSyncPayload {
  Upserts : list string;
  Deletes : list string;
}.

#[export] Instance CrdSyncPayload_eq_dec : EqDecision CrdSyncPayload.
Proof. solve_decision. Defined.

Definition IsEmpty (p : CrdSyncPayload) : bool :=
  bool_decide (length (Upserts p) = 0) && bool_decide (length (Deletes p) = 0).

Record pendingCrdChange := mkPendingCrdChange {
  crdName : string;
  timer : nat;
  ready : bool;
  gen : Z;
}.

(** The log line that reports a dropped payload. *)
Inductive CrdPayloadLog := CrdPayloadDropped (upserts deletes : nat).

(** The struct, and beside its fields the timers it started and the drop lines it
    logged. *)
Record CrdDebounceBuffer := mkCrdDebounceBuffer {
  debounceWindow : Z;
  flushInterval : Z;
  maxBatchSize : Z;
  pending : gmap string pendingCrdChange;
  nextGen : Z;
  Payloads : Chan CrdSyncPayload;
  payloadsClosed : bool;
  timers : Timers Closure;
  dropped : list CrdPayloadLog;
}.

Definition with_pending (m : gmap string pendingCrdChange) (g : Z) (t : Timers Closure)
    (d : CrdDebounceBuffer) : CrdDebounceBuffer :=
  mkCrdDebounceBuffer (debounceWindow d) (flushInterval d) (maxBatchSize d) m g
    (Payloads d) (payloadsClosed d) t (dropped d).

Definition with_payloads (c : Chan CrdSyncPayload) (closed : bool) (log : list CrdPayloadLog)
    (d : CrdDebounceBuffer) : CrdDebounceBuffer :=
  mkCrdDebounceBuffer (debounceWindow d) (flushInterval d) (maxBatchSize d) (pending d)
    (nextGen d) c closed (timers d) log.

Definition NewCrdDebounceBuffer (cfg : Config) : CrdDebounceBuffer := {|
  debounceWindow := DebounceWindow cfg;
  flushInterval := BatchFlushInterval cfg;
  maxBatchSize := BatchMaxSize cfg;
  pending := ∅;
  nextGen := 0;
  Payloads := make_chan 100;
  payloadsClosed := false;
  timers := no_timers;
  dropped := [];
|}.

(** ** Operations *)

Definition emitPayload (payload : CrdSyncPayload) (d : CrdDebounceBuffer) :
    Outcome CrdDebounceBuffer :=
  if payloadsClosed d then Ok d
  else
    '(sent, c) ← select_send payload (Payloads d);
    Ok (if sent : bool then with_payloads c (payloadsClosed d) (dropped d) d
        else with_payloads (Payloads d) (payloadsClosed d)
               (dropped d ++ [CrdPayloadDropped (length (Upserts payload))
                                (length (Deletes payload))]) d).

Definition closePayloads (d : CrdDebounceBuffer) : Outcome CrdDebounceBuffer :=
  if payloadsClosed d then Ok d
  else
    c ← chan_close (Payloads d);
    Ok (with_payloads c true (dropped d) d).

(** The section of [handleEvent] under [pendingMu] for a delete. *)
Definition cancelPending (name : string) (d : CrdDebounceBuffer) : CrdDebounceBuffer :=
  match pending d !! name with
  | Some existing =>
      with_pending (delete name (pending d)) (nextGen d) (StopTimer (timer existing) (timers d)) d
  | None => d
  end.

(** The rest of [handleEvent], for an add. *)
Definition putPending (name : string) (d : CrdDebounceBuffer) : CrdDebounceBuffer :=
  let t := match pending d !! name with
           | Some existing => StopTimer (timer existing) (timers d)
           | None => timers d
           end in
  let capturedGen := to_uint64 (nextGen d + 1) in
  let '(tm, t) := AfterFunc (debounceWindow d) (mkClosure name capturedGen) t in
  with_pending
    (<[name := {| crdName := name; timer := tm; ready := false; gen := capturedGen |}]>
       (pending d))
    capturedGen t d.

Definition handleEvent (event : CrdEvent) (d : CrdDebounceBuffer) : Outcome CrdDebounceBuffer :=
  if decide (CrdType event = EventDelete) then
    let d := cancelPending (CrdName event) d in
    emitPayload {| Upserts := []; Deletes := [CrdName event] |} d
  else Ok (putPending (CrdName event) d).

(** The section of the timer function under [pendingMu]. *)
Definition markReady (name : string) (capturedGen : Z) (d : CrdDebounceBuffer) :
    CrdDebounceBuffer :=
  match pending d !! name with
  | Some p =>
      if decide (gen p = capturedGen)
      then with_pending (<[name := {| crdName := crdName p; timer := timer p; ready := true;
                                      gen := gen p |}]> (pending d)) (nextGen d) (timers d) d
      else d
  | None => d
  end.

(** The loop counts, so its order does not matter. *)
Definition readyCount (d : CrdDebounceBuffer) : Z :=
  foldl (λ count kv, if ready (kv : string * pendingCrdChange).2 then count + 1 else count)%Z 0%Z
    (map_to_list (pending d)).

(** The section of [flushPending] under [pendingMu]; [hint] decides the order in
    which the loop visits the entries. *)
Definition takeReady (hint : list string) (d : CrdDebounceBuffer) :
    list string * CrdDebounceBuffer :=
  if decide (size (pending d) = 0) then ([], d)
  else
    let '(upserts, pending') :=
      range_loop snd
        (λ name change s,
           if ready change then (s.1 ++ [crdName change], delete name s.2) else s)
        (range_keys hint (pending d)) ([], pending d) in
    (upserts, with_pending pending' (nextGen d) (timers d) d).

Definition flushPending (hint : list string) (d : CrdDebounceBuffer) :
    Outcome CrdDebounceBuffer :=
  let '(upserts, d) := takeReady hint d in
  if decide (length upserts = 0) then Ok d
  else emitPayload {| Upserts := upserts; Deletes := [] |} d.

Definition checkFlush (hint : list string) (d : CrdDebounceBuffer) : Outcome CrdDebounceBuffer :=
  let size := readyCount d in
  if decide (maxBatchSize d ≤ size)%Z then flushPending hint d else Ok d.

(** The function a timer runs in a goroutine of its own. *)
Definition timerFunc (hint : list string) (name : string) (capturedGen : Z)
    (d : CrdDebounceBuffer) : Outcome CrdDebounceBuffer :=
  checkFlush hint (markReady name capturedGen d).

(** The section of [flushAllPending] under [pendingMu]. *)
Definition takeAll (hint : list string) (d : CrdDebounceBuffer) :
    list string * CrdDebounceBuffer :=
  if decide (size (pending d) = 0) then ([], d)
  else
    let '(upserts, pending', t) :=
      range_loop (λ s, s.1.2)
        (λ name change s,
           (s.1.1 ++ [crdName change], delete name s.1.2, StopTimer (timer change) s.2))
        (range_keys hint (pending d)) ([], pending d, timers d) in
    (upserts, with_pending pending' (nextGen d) t d).

Definition flushAllPending (hint : list string) (d : CrdDebounceBuffer) :
    Outcome CrdDebounceBuffer :=
  let '(upserts, d) := takeAll hint d in
  if decide (0 < length upserts) then emitPayload {| Upserts := upserts; Deletes := [] |} d
  else Ok d.

Definition PendingCountForTesting (d : CrdDebounceBuffer) : nat := size (pending d).

(** ** The event loop *)

(** The cases of the [select] in [Run], and what happens between two iterations:
    [CaseTimer] is a timer function that runs, [CaseWait] the passing of time, and
    [CaseReceive] the sender taking a payload from the channel. *)
Inductive RunCase :=
  | CaseEvent (event : CrdEvent)
  | CaseEventsClosed (hint : list string)
  | CaseTick (hint : list string)
  | CaseDone (hint : list string)
  | CaseTimer (tid : nat) (hint : list string)
  | CaseWait (dt : N)
  | CaseReceive.

(** One iteration; the boolean says that [Run] returned, the list is what the sender
    took. *)
Definition runCase (c : RunCase) (d : CrdDebounceBuffer) : Outcome (bool * list CrdSyncPayload * CrdDebounceBuffer) :=
  match c with
  | CaseEvent event => d ← handleEvent event d; Ok (false, [], d)
  | CaseTick hint => d ← flushPending hint d; Ok (false, [], d)
  | CaseEventsClosed hint | CaseDone hint =>
      d ← flushAllPending hint d;
      d ← closePayloads d;
      Ok (true, [], d)
  | CaseTimer tid hint =>
      match fire tid (timers d) with
      | Some (cl, t) =>
          d ← timerFunc hint (cl_key cl) (cl_gen cl) (with_pending (pending d) (nextGen d) t d);
          Ok (false, [], d)
      | None => Ok (false, [], d)
      end
  | CaseWait dt => Ok (false, [], with_pending (pending d) (nextGen d) (advance (Z.of_N dt) (timers d)) d)
  | CaseReceive =>
      match chan_recv (Payloads d) with
      | Received payload c => Ok (false, [payload], with_payloads c (payloadsClosed d) (dropped d) d)
      | _ => Ok (false, [], d)
      end
  end.

Fixpoint runLoop (cs : list RunCase) (d : CrdDebounceBuffer) : Outcome (bool * list CrdSyncPayload * CrdDebounceBuffer) :=
  match cs with
  | [] => Ok (false, [], d)
  | c :: cs =>
      '(returned, got, d) ← runCase c d;
      if returned : bool then Ok (true, got, d)
      else '(returned, got', d) ← runLoop cs d; Ok (returned, got ++ got', d)
  end.

(** [Run] on the cases the scheduler picks, when every timer function finds [Run] at
    its [select] and ends before the next iteration.  Interleaving.v has the runs
    in which the goroutines take turns at every critical section. *)
Definition Run (cs : list RunCase) (d : CrdDebounceBuffer) : Outcome (bool * list CrdSyncPayload * CrdDebounceBuffer) :=
  _ ← NewTicker (flushInterval d);
  runLoop cs d.

(** ** The buffer is an abstract buffer *)

#[export, program] Instance crd_payload_ops : PayloadOps string CrdSyncPayload := {|
  key_of v := v;
  batch vs := {| Upserts := vs; Deletes := [] |};
  deletion k := {| Upserts := []; Deletes := [k] |};
  upserts_of := Upserts;
  deletes_of := Deletes;
|}.
Solve All Obligations with done.

Definition entry (p : pendingCrdChange) : Entry string :=
  mkEntry (crdName p) (timer p) (ready p) (gen p).

Definition abstract (d : CrdDebounceBuffer) : ABuf string CrdSyncPayload := {|
  a_pending := entry <$> pending d;
  a_timers := timers d;
  a_chan := Payloads d;
  a_closed := payloadsClosed d;
  a_window := debounceWindow d;
  a_max := maxBatchSize d;
  a_drops := length (dropped d);
|}.

Lemma crd_abstract_put name d :
  abstract (putPending name d) = a_put name (to_uint64 (nextGen d + 1)) (abstract d).
Proof.
  unfold putPending, a_put, stop_key, stop_in. cbn [abstract a_pending a_timers a_window key_of crd_payload_ops].
  rewrite lookup_fmap. unfold abstract, a_set, with_pending. cbn -[to_uint64].
  destruct (pending d !! name); cbn -[to_uint64]; by rewrite fmap_insert.
Qed.

Lemma crd_abstract_cancel name d : abstract (cancelPending name d) = a_cancel name (abstract d).
Proof.
  unfold cancelPending, a_cancel, stop_key, stop_in, abstract, a_set. cbn.
  rewrite lookup_fmap, <- fmap_delete.
  destruct (pending d !! name) eqn:E; cbn; [done|]. by rewrite delete_id.
Qed.

Lemma crd_abstract_mark name g d : abstract (markReady name g d) = a_mark name g (abstract d).
Proof.
  unfold markReady, a_mark. cbn. rewrite lookup_fmap.
  destruct (pending d !! name) as [p|] eqn:E; cbn; [|done].
  case_decide; [|done]. unfold abstract, a_set, with_pending. cbn. by rewrite fmap_insert.
Qed.

Lemma crd_abstract_readyCount d : readyCount d = Z.of_nat (a_readyCount (abstract d)).
Proof.
  unfold readyCount, a_readyCount. rewrite count_loop. cbn [abstract a_pending].
  by rewrite (filter_view entry _ _ ready), map_size_fmap.
Qed.

Lemma crd_abstract_takeReady hint d :
  prod_map id abstract (takeReady hint d) = a_collect hint (abstract d).
Proof.
  unfold takeReady, a_collect. cbn [abstract a_pending].
  rewrite range_keys_fmap, (selected_view entry _ _ _ ready crdName) by done.
  rewrite (filter_view entry _ _ ready) by done.
  case_decide as Hs.
  - apply map_size_empty_inv in Hs. rewrite Hs, range_keys_empty, map_filter_empty. cbn.
    unfold abstract, a_set. cbn. by rewrite Hs.
  - change (λ name change s, if ready change then _ else _) with (take_body ready crdName).
    rewrite take_loop by auto with sync. cbn. by rewrite filter_taken.
Qed.

Lemma crd_abstract_takeAll hint d :
  prod_map id abstract (takeAll hint d) = a_collect_all hint (abstract d).
Proof.
  unfold takeAll, a_collect_all. cbn [abstract a_pending a_timers].
  rewrite range_keys_fmap, (selected_view entry _ _ _ (λ _, true) crdName) by done.
  rewrite (stop_all_view entry _ _ timer) by done.
  case_decide as Hs.
  - apply map_size_empty_inv in Hs. rewrite Hs, range_keys_empty. cbn.
    unfold abstract, a_set. cbn. by rewrite Hs.
  - pose proof (drain_loop crdName timer (range_keys hint (pending d)) [] (pending d) (timers d)
      (range_keys_NoDup _ _)) as E.
    unfold drain_body in E. rewrite E. cbn. by rewrite filter_drained.
Qed.

Lemma crd_abstract_emit p d : (emitPayload p d ≫= λ d', Ok (abstract d')) = a_emit p (abstract d).
Proof.
  unfold emitPayload, a_emit. cbn. destruct (payloadsClosed d) eqn:Hc; [done|].
  unfold select_send. destruct (chan_closed (Payloads d)); [done|].
  unfold abstract, with_payloads, a_with_chan. cbn.
  destruct (chan_has_room (Payloads d)); cbn; rewrite ?length_app, ?Nat.add_1_r, ?Hc; done.
Qed.

Lemma crd_abstract_close d : (closePayloads d ≫= λ d', Ok (abstract d')) = a_close (abstract d).
Proof.
  unfold closePayloads, a_close. cbn. destruct (payloadsClosed d); [done|].
  unfold chan_close. by destruct (chan_closed (Payloads d)).
Qed.

#[export] Instance crd_debounce_buffer : Buffer CrdDebounceBuffer string CrdSyncPayload := {|
  abs := abstract;
  put := putPending;
  cancel := cancelPending;
  mark := markReady;
  readyCountOf := readyCount;
  collect := takeReady;
  collectAll := takeAll;
  emit := emitPayload;
  close := closePayloads;
  set_timers t d := with_pending (pending d) (nextGen d) t d;
  set_chan c d := with_payloads c (payloadsClosed d) (dropped d) d;
  next_gen _ d := to_uint64 (nextGen d + 1);
  abs_put := crd_abstract_put;
  abs_cancel := crd_abstract_cancel;
  abs_mark := crd_abstract_mark;
  abs_readyCount := crd_abstract_readyCount;
  abs_collect := crd_abstract_takeReady;
  abs_collectAll := crd_abstract_takeAll;
  abs_emit := crd_abstract_emit;
  abs_close := crd_abstract_close;
  abs_set_timers t d := eq_refl;
  abs_set_chan c d := eq_refl;
|}.
