(* ===== verification/Interleaving.v ===== *)
(** The goroutines that share a debounce buffer, as a transition system over any
    implementation of [Buffer]: the goroutine of [Run], one goroutine for every
    timer that fired, the consumer of the payload channel, and the clock.

    A step is one critical section of the code.  The mutexes make the sections
    atomic; between two sections of a goroutine any other goroutine may run.  In
    particular a flush takes values out of the buffer in one step and sends them
    in a later one. *)

From S2P Require Import Prelude GoRuntime Buffer.

Section system.
Context {B V P : Type} `{!PayloadOps V P} `{!Buffer B V P}.

(** ** States *)

(** What [Run] receives, and what happened so far: accepted events and batches
    taken out of the buffer. *)
Inductive Event := Upsert (v : V) | Remove (k : string).
Inductive History := Accepted (e : Event) | Taken (vs : list V).

#[export] Instance Event_eq_dec `{!EqDecision V} : EqDecision Event.
Proof. solve_decision. Defined.

#[export] Instance History_eq_dec `{!EqDecision V} : EqDecision History.
Proof. solve_decision. Defined.

(** Where the goroutine of [Run] is: at its [select], about to send, about to
    close the channel, or returned. *)
Inductive RunPc :=
  | RSelect
  | REmitDelete (k : string)
  | REmitBatch (vs : list V)
  | REmitFinal (vs : list V)
  | RClose
  | RReturned.

(** Where a timer's goroutine is: before its first section, before [checkFlush],
    before [flushPending], or about to send. *)
Inductive ThreadPc :=
  | TMark (k : string) (g : Z)
  | TCheck
  | TFlush
  | TEmit (vs : list V).

Record Sys := mkSys {
  buf : B;
  run : RunPc;
  threads : list ThreadPc;
  hist : list History;      (** ghost: the history *)
  added : gmap string Z;    (** ghost: when the last upsert of a key was accepted *)
  delivered : list P;       (** what the consumer received *)
  lost : list P;            (** ghost: payloads that were not enqueued *)
  crash : option Panic;
}.

Definition init (b : B) : Sys := mkSys b RSelect [] [] ∅ [] [] None.

Definition upd (b : B) (r : RunPc) (ts : list ThreadPc) (s : Sys) : Sys :=
  mkSys b r ts (hist s) (added s) (delivered s) (lost s) (crash s).

Definition record_history (h : list History) (s : Sys) : Sys :=
  mkSys (buf s) (run s) (threads s) (hist s ++ h) (added s) (delivered s) (lost s) (crash s).

Definition record_added (k : string) (t : Z) (s : Sys) : Sys :=
  mkSys (buf s) (run s) (threads s) (hist s) (<[k := t]> (added s)) (delivered s) (lost s)
    (crash s).

Abbreviation pend s := (a_pending (abs (buf s))).
Abbreviation chan s := (a_chan (abs (buf s))).
Abbreviation clock s := (now (a_timers (abs (buf s)))).

(** [emitPayload]; a payload that the channel did not take is lost. *)
Definition send (p : P) (s : Sys) : Sys :=
  match emit p (buf s) with
  | Ok b =>
      let lost' :=
        if decide (length (chan_buf (a_chan (abs b))) = length (chan_buf (chan s)))
        then lost s ++ [p] else lost s in
      mkSys b (run s) (threads s) (hist s) (added s) (delivered s) lost' (crash s)
  | Panicked x =>
      mkSys (buf s) (run s) (threads s) (hist s) (added s) (delivered s) (lost s) (Some x)
  end.

Definition taken (vs : list V) : list History :=
  match vs with [] => [] | _ => [Taken vs] end.

(** ** Steps *)

Inductive Label :=
  | LUpsert (v : V)                     (** [Run] accepts an add or update *)
  | LRemove (k : string)                (** [Run] accepts a delete *)
  | LTick (hint : list string)          (** the flush ticker *)
  | LShutdown (hint : list string)      (** context done or events closed *)
  | LRun                                (** the next section of [Run] *)
  | LFire (tid : nat)                   (** a due timer starts its goroutine *)
  | LThread (i : nat) (hint : list string)  (** the next section of a timer goroutine *)
  | LWait (dt : Z)
  | LConsume.

Definition at_select (s : Sys) : bool := match run s with RSelect => true | _ => false end.

Definition step_run (s : Sys) : option Sys :=
  match run s with
  | REmitDelete k => let s := send (deletion k) s in Some (upd (buf s) RSelect (threads s) s)
  | REmitBatch vs => let s := send (batch vs) s in Some (upd (buf s) RSelect (threads s) s)
  | REmitFinal vs => let s := send (batch vs) s in Some (upd (buf s) RClose (threads s) s)
  | RClose =>
      Some match close (buf s) with
           | Ok b => upd b RReturned (threads s) s
           | Panicked x => mkSys (buf s) (run s) (threads s) (hist s) (added s) (delivered s)
                             (lost s) (Some x)
           end
  | RSelect | RReturned => None
  end.

Definition step_thread (i : nat) (hint : list string) (s : Sys) : option Sys :=
  t ← threads s !! i;
  let rest := delete i (threads s) in
  Some match t with
       | TMark k g => upd (mark k g (buf s)) (run s) (rest ++ [TCheck]) s
       | TCheck =>
           upd (buf s) (run s)
             (rest ++ if decide (a_max (abs (buf s)) ≤ readyCountOf (buf s))%Z
                      then [TFlush] else []) s
       | TFlush =>
           let '(vs, b) := collect hint (buf s) in
           record_history (taken vs)
             (upd b (run s) (rest ++ match vs with [] => [] | _ => [TEmit vs] end) s)
       | TEmit vs => let s' := send (batch vs) s in upd (buf s') (run s') rest s'
       end.

Definition step_label (l : Label) (s : Sys) : option Sys :=
  match crash s with
  | Some _ => None
  | None =>
      match l with
      | LUpsert v =>
          if at_select s then
            Some (record_added (key_of v) (clock s)
                    (record_history [Accepted (Upsert v)]
                       (upd (put v (buf s)) RSelect (threads s) s)))
          else None
      | LRemove k =>
          if at_select s then
            Some (record_history [Accepted (Remove k)]
                    (upd (cancel k (buf s)) (REmitDelete k) (threads s) s))
          else None
      | LTick hint =>
          if at_select s then
            let '(vs, b) := collect hint (buf s) in
            Some (record_history (taken vs)
                    (upd b (match vs with [] => RSelect | _ => REmitBatch vs end) (threads s) s))
          else None
      | LShutdown hint =>
          if at_select s then
            let '(vs, b) := collectAll hint (buf s) in
            Some (record_history (taken vs)
                    (upd b (match vs with [] => RClose | _ => REmitFinal vs end) (threads s) s))
          else None
      | LRun => step_run s
      | LFire tid =>
          '(cl, t) ← fire tid (a_timers (abs (buf s)));
          Some (upd (set_timers t (buf s)) (run s)
                  (threads s ++ [TMark (cl_key cl) (cl_gen cl)]) s)
      | LThread i hint => step_thread i hint s
      | LWait dt =>
          if decide (0 ≤ dt)%Z then
            Some (upd (set_timers (advance dt (a_timers (abs (buf s)))) (buf s))
                    (run s) (threads s) s)
          else None
      | LConsume =>
          match chan_recv (chan s) with
          | Received p c =>
              Some (mkSys (set_chan c (buf s)) (run s) (threads s) (hist s) (added s)
                      (delivered s ++ [p]) (lost s) (crash s))
          | _ => None
          end
      end
  end.

Inductive step (s s' : Sys) : Prop :=
  | Step l : step_label l s = Some s' → step s s'.

Fixpoint exec (ls : list Label) (s : Sys) : option Sys :=
  match ls with
  | [] => Some s
  | l :: ls => s ← step_label l s; exec ls s
  end.

Lemma exec_rtc ls s s' : exec ls s = Some s' → rtc step s s'.
Proof.
  revert s. induction ls as [|l ls IH]; intros s; simpl; [intros [= ->]; constructor|].
  destruct (step_label l s) as [s1|] eqn:E; simpl; [|done]. intros Hr.
  eapply rtc_l; [by econstructor|by apply IH].
Qed.

(** A buffer nothing has been put into. *)
Definition fresh_buffer (b : B) : Prop :=
  a_pending (abs b) = ∅ ∧ a_closed (abs b) = false ∧ armed (a_timers (abs b)) = ∅
  ∧ chan_buf (a_chan (abs b)) = [] ∧ chan_closed (a_chan (abs b)) = false.

Definition reachable (b : B) (s : Sys) : Prop := rtc step (init b) s.

(** ** What a step does *)

(** The parts of a state the invariants speak of. *)
Record View := mkView {
  v_pend : gmap string (Entry V);
  v_timers : Timers Closure;
  v_chan : Chan P;
  v_window : Z;
  v_run : RunPc;
  v_threads : list ThreadPc;
  v_hist : list History;
  v_added : gmap string Z;
  v_delivered : list P;
  v_lost : list P;
}.

Definition view (s : Sys) : View :=
  mkView (pend s) (a_timers (abs (buf s))) (chan s) (a_window (abs (buf s)))
    (run s) (threads s) (hist s) (added s) (delivered s) (lost s).

(** The payloads that a goroutine holds: taken out of the buffer, not yet sent. *)
Definition run_payload (r : RunPc) : list P :=
  match r with
  | REmitDelete k => [deletion k]
  | REmitBatch vs | REmitFinal vs => [batch vs]
  | _ => []
  end.

Definition thread_payload (t : ThreadPc) : list P :=
  match t with TEmit vs => [batch vs] | _ => [] end.

Definition held (r : RunPc) (ts : list ThreadPc) : list P :=
  run_payload r ++ (ts ≫= thread_payload).

Definition inflight (s : Sys) : list P := held (run s) (threads s).

Definition taken_payload (vs : list V) : list P :=
  match vs with [] => [] | _ => [batch vs] end.

(** [Run] is past its shutdown flush. *)
Definition finishing (r : RunPc) : bool :=
  match r with REmitFinal _ | RClose | RReturned => true | _ => false end.

(** The values a section takes out: those of the selected entries, in some order
    of the keys, with the entries it leaves. *)
Definition takes (sel : Entry V → bool) (m : gmap string (Entry V)) (vs : list V)
    (m' : gmap string (Entry V)) : Prop :=
  ∃ keys, NoDup keys ∧ (∀ k, k ∈ keys ↔ is_Some (m !! k))
    ∧ vs = selected sel e_val keys m
    ∧ m' = base.filter (λ kv, sel kv.2 = false) m.

Definition same_marks (ts ts' : list ThreadPc) : Prop :=
  ∀ k g, TMark k g ∈ ts ↔ TMark k g ∈ ts'.

(** Steps by what they do to the view.  [gen_ok] says which generation a new entry
    may get. *)
Inductive Effect (gen_ok : V → Z → Prop) : View → View → Prop :=
  | EffUpsert m t c w ts h ad de lo v g :
      gen_ok v g →
      Effect gen_ok (mkView m t c w RSelect ts h ad de lo)
        (mkView
           (<[key_of v := mkEntry v (next_timer (stop_in (key_of v) m t)) false g]> m)
           (AfterFunc w (mkClosure (key_of v) g) (stop_in (key_of v) m t)).2
           c w RSelect ts (h ++ [Accepted (Upsert v)]) (<[key_of v := now t]> ad) de lo)
  | EffRemove m t c w ts h ad de lo k :
      Effect gen_ok (mkView m t c w RSelect ts h ad de lo)
        (mkView (delete k m) (stop_in k m t) c w (REmitDelete k) ts
           (h ++ [Accepted (Remove k)]) ad de lo)
  | EffFlush m t c w r r' ts ts' h ad de lo vs m' :
      takes e_ready m vs m' →
      held r' ts' ≡ₚ held r ts ++ taken_payload vs →
      same_marks ts ts' → finishing r' = finishing r →
      Effect gen_ok (mkView m t c w r ts h ad de lo)
        (mkView m' t c w r' ts' (h ++ taken vs) ad de lo)
  | EffDrain m t t' c w r' ts h ad de lo vs :
      takes (λ _, true) m vs ∅ →
      held r' ts ≡ₚ held RSelect ts ++ taken_payload vs →
      now t' = now t → next_timer t' = next_timer t → armed t' ⊆ armed t →
      finishing r' = true →
      Effect gen_ok (mkView m t c w RSelect ts h ad de lo)
        (mkView ∅ t' c w r' ts (h ++ taken vs) ad de lo)
  | EffMove m t c w r ts ts' h ad de lo :
      held r ts' ≡ₚ held r ts → same_marks ts ts' →
      Effect gen_ok (mkView m t c w r ts h ad de lo) (mkView m t c w r ts' h ad de lo)
  | EffSend m t c c' w r r' ts ts' h ad de lo lo' p :
      held r ts ≡ₚ p :: held r' ts' →
      same_marks ts ts' → finishing r' = finishing r →
      (c' = chan_push p c ∧ lo' = lo) ∨ (c' = c ∧ lo' = lo ++ [p]) →
      Effect gen_ok (mkView m t c w r ts h ad de lo) (mkView m t c' w r' ts' h ad de lo')
  | EffClose m t c c' w ts h ad de lo :
      chan_buf c' = chan_buf c →
      Effect gen_ok (mkView m t c w RClose ts h ad de lo)
        (mkView m t c' w RReturned ts h ad de lo)
  | EffFire m t c w r ts h ad de lo tid tm :
      armed t !! tid = Some tm → (deadline tm ≤ now t)%Z →
      Effect gen_ok (mkView m t c w r ts h ad de lo)
        (mkView m (StopTimer tid t) c w r
           (ts ++ [TMark (cl_key (closure tm)) (cl_gen (closure tm))]) h ad de lo)
  | EffMark m t c w r ts i h ad de lo k g :
      ts !! i = Some (TMark k g) →
      Effect gen_ok (mkView m t c w r ts h ad de lo)
        (mkView
           (match m !! k with
            | Some e => if decide (e_gen e = g) then <[k := set_ready e]> m else m
            | None => m
            end) t c w r (delete i ts ++ [TCheck]) h ad de lo)
  | EffWait m t c w r ts h ad de lo dt :
      (0 ≤ dt)%Z →
      Effect gen_ok (mkView m t c w r ts h ad de lo)
        (mkView m (advance dt t) c w r ts h ad de lo)
  | EffConsume m t c c' w r ts h ad de lo p :
      chan_buf c = p :: chan_buf c' →
      Effect gen_ok (mkView m t c w r ts h ad de lo)
        (mkView m t c' w r ts h ad (de ++ [p]) lo).

(** ** Every step has an effect, and none panics *)

(** The channel is closed exactly when the flag says so and [Run] has returned. *)
Definition sane (s : Sys) : Prop :=
  crash s = None ∧ chan_closed (chan s) = a_closed (abs (buf s))
  ∧ (a_closed (abs (buf s)) = true ↔ run s = RReturned).

Lemma send_spec p s :
  crash s = None → chan_closed (chan s) = a_closed (abs (buf s)) →
  ∃ b lo c, send p s = mkSys b (run s) (threads s) (hist s) (added s) (delivered s) lo None
    ∧ abs b = mkABuf (pend s) (a_timers (abs (buf s))) c (a_closed (abs (buf s)))
                (a_window (abs (buf s))) (a_max (abs (buf s))) (a_drops (abs b))
    ∧ chan_closed c = chan_closed (chan s)
    ∧ ((c = chan_push p (chan s) ∧ lo = lost s) ∨ (c = chan s ∧ lo = lost s ++ [p])).
Proof.
  intros Hcr Hcl. unfold send. pose proof (abs_emit p (buf s)) as E.
  unfold a_emit in E. destruct (a_closed (abs (buf s))) eqn:Hc.
  - destruct (emit p (buf s)) as [b|x]; simpl in E; [|done]. injection E as E.
    rewrite E, Hcr, decide_True by done. do 3 eexists. split; [done|].
    split; [|split; [|by right]]; [|done]. rewrite E. destruct (abs (buf s)). simpl in *. congruence.
  - unfold select_send in E. rewrite Hcl in E. destruct (chan_has_room (chan s)) eqn:Hr; simpl in E;
      (destruct (emit p (buf s)) as [b|x]; simpl in E; [|done]); injection E as E; rewrite Hcr.
    + rewrite decide_False.
      2:{ rewrite E. simpl. rewrite length_app. simpl. lia. }
      do 3 eexists. split; [done|]. split; [|split; [|by left]]; [|done].
      rewrite E. unfold a_with_chan. simpl. congruence.
    + rewrite decide_True by (by rewrite E).
      do 3 eexists. split; [done|]. split; [|split; [|by right]]; [|done].
      rewrite E. simpl. congruence.
Qed.

Lemma collect_takes hint b vs b' :
  collect hint b = (vs, b') →
  takes e_ready (a_pending (abs b)) vs (a_pending (abs b'))
  ∧ abs b' = a_set (a_pending (abs b')) (a_timers (abs b)) (abs b).
Proof.
  intros E. pose proof (abs_collect hint b) as Hc. rewrite E in Hc. unfold a_collect in Hc.
  injection Hc as Hvs Hb. rewrite Hb. split; [|done].
  exists (range_keys hint (a_pending (abs b))). split; [auto with sync|].
  split; [intros; apply range_keys_elem|]. done.
Qed.

Lemma stop_all_frame keys m (t : Timers Closure) :
  let t' := stop_all (E:=Entry V) e_timer keys m t in
  now t' = now t ∧ next_timer t' = next_timer t ∧ armed t' ⊆ armed t.
Proof.
  cbv zeta. unfold stop_all. revert t. induction keys as [|k keys IH]; intros t; [done|].
  simpl. destruct (m !! k) as [e|]; [|apply IH].
  destruct (IH (StopTimer (e_timer e) t)) as (-> & -> & Hsub). split; [done|]. split; [done|].
  etrans; [exact Hsub|]. apply delete_subseteq.
Qed.

Lemma collectAll_takes hint b vs b' :
  collectAll hint b = (vs, b') →
  takes (λ _, true) (a_pending (abs b)) vs ∅
  ∧ ∃ t', abs b' = a_set ∅ t' (abs b)
    ∧ now t' = now (a_timers (abs b)) ∧ next_timer t' = next_timer (a_timers (abs b))
    ∧ armed t' ⊆ armed (a_timers (abs b)).
Proof.
  intros E. pose proof (abs_collectAll hint b) as Hc. rewrite E in Hc.
  unfold a_collect_all in Hc. injection Hc as Hvs Hb. split.
  - exists (range_keys hint (a_pending (abs b))). split; [auto with sync|].
    split; [intros; apply range_keys_elem|]. split.
    + done.
    + symmetry. apply map_empty. intros k. apply map_lookup_filter_None. right. done.
  - rewrite Hb. eexists. split; [done|]. apply stop_all_frame.
Qed.

Lemma held_perm r ts ts' : ts ≡ₚ ts' → held r ts ≡ₚ held r ts'.
Proof. intros E. unfold held. by rewrite E. Qed.

Lemma held_replace r ts i t extra :
  ts !! i = Some t → thread_payload t = [] →
  held r (delete i ts ++ extra) ≡ₚ held r ts ++ (extra ≫= thread_payload).
Proof.
  intros Hi Ht. rewrite (held_perm r ts _ (delete_Permutation _ _ _ Hi)).
  unfold held. rewrite bind_app, bind_cons, Ht. simpl. by rewrite app_assoc.
Qed.

(** A thread that is not about to mark an entry. *)
Definition not_mark (t : ThreadPc) : Prop := match t with TMark _ _ => False | _ => True end.

Lemma marks_replace ts i t extra :
  ts !! i = Some t → not_mark t → Forall not_mark extra → same_marks ts (delete i ts ++ extra).
Proof.
  intros Hi Ht Hx k g. rewrite elem_of_app.
  rewrite (delete_Permutation _ _ _ Hi) at 1. rewrite elem_of_cons.
  rewrite Forall_forall in Hx. split.
  - intros [<-|]; [done|by left].
  - intros [|H%Hx]; [by right|done].
Qed.

Lemma at_select_run s : at_select s = true → run s = RSelect.
Proof. unfold at_select. by destruct (run s). Qed.

Abbreviation gen_rule s := (λ v g, g = next_gen v (buf s)).
Abbreviation good s s' := (sane s' ∧ Effect (gen_rule s) (view s) (view s')).

Lemma upsert_effect v s s' :
  sane s → step_label (LUpsert v) s = Some s' → good s s'.
Proof.
  intros (Hcr & Hcl & Hret). unfold step_label. rewrite Hcr.
  destruct (at_select s) eqn:Hr; [|done]. apply at_select_run in Hr. intros [= <-].
  pose proof (abs_put v (buf s)) as Ha. unfold sane, view. cbn. rewrite Ha. split.
  - split; [done|]. unfold a_put, a_set. cbn. split; [done|]. rewrite Hret, Hr. done.
  - rewrite Hr. unfold a_put, a_set, stop_key. cbn. by apply EffUpsert.
Qed.

Lemma remove_effect k s s' :
  sane s → step_label (LRemove k) s = Some s' → good s s'.
Proof.
  intros (Hcr & Hcl & Hret). unfold step_label. rewrite Hcr.
  destruct (at_select s) eqn:Hr; [|done]. apply at_select_run in Hr. intros [= <-].
  pose proof (abs_cancel k (buf s)) as Ha. unfold sane, view. cbn. rewrite Ha. split.
  - split; [done|]. unfold a_cancel, a_set. cbn. split; [done|]. rewrite Hret, Hr. done.
  - rewrite Hr. unfold a_cancel, a_set, stop_key. cbn. apply EffRemove.
Qed.

Lemma tick_effect hint s s' :
  sane s → step_label (LTick hint) s = Some s' → good s s'.
Proof.
  intros (Hcr & Hcl & Hret). unfold step_label. rewrite Hcr.
  destruct (at_select s) eqn:Hr; [|done]. apply at_select_run in Hr.
  destruct (collect hint (buf s)) as [vs b] eqn:E. intros [= <-].
  apply collect_takes in E as [Ht Ha]. unfold sane, view. cbn. rewrite Ha, Hr in *. split.
  - split; [done|]. split; [done|]. cbn. rewrite Hret. by destruct vs.
  - apply EffFlush; [done| |done|by destruct vs].
    unfold held. destruct vs; simpl; rewrite ?app_nil_r; [done|]. by rewrite Permutation_cons_append.
Qed.

Lemma shutdown_effect hint s s' :
  sane s → step_label (LShutdown hint) s = Some s' → good s s'.
Proof.
  intros (Hcr & Hcl & Hret). unfold step_label. rewrite Hcr.
  destruct (at_select s) eqn:Hr; [|done]. apply at_select_run in Hr.
  destruct (collectAll hint (buf s)) as [vs b] eqn:E. intros [= <-].
  apply collectAll_takes in E as (Ht & t' & Ha & ? & ? & ?).
  unfold sane, view. cbn. rewrite Ha, Hr in *. cbn. split.
  - split; [done|]. split; [done|]. rewrite Hret. by destruct vs.
  - apply EffDrain; [done| |done..|by destruct vs].
    unfold held. destruct vs; simpl; rewrite ?app_nil_r; [done|]. by rewrite Permutation_cons_append.
Qed.

Lemma threads_send p s : threads (send p s) = threads s.
Proof. unfold send. by destruct (emit p (buf s)). Qed.

Lemma run_send p s : run (send p s) = run s.
Proof. unfold send. by destruct (emit p (buf s)). Qed.

Lemma send_effect p r' ts' s s1 :
  sane s → run s ≠ RReturned ∨ r' = run s → (r' = RReturned → run s = RReturned) →
  held (run s) (threads s) ≡ₚ p :: held r' ts' →
  same_marks (threads s) ts' → finishing r' = finishing (run s) →
  send p s = s1 → good s (upd (buf s1) r' ts' s1).
Proof.
  intros (Hcr & Hcl & Hret) Hrun Hr' Hheld Hm Hf <-.
  destruct (send_spec p s Hcr Hcl) as (b & lo & c & -> & Ha & Hc & Hlo).
  unfold sane, view. cbn. rewrite Ha. cbn. split.
  - split; [done|]. split; [congruence|]. rewrite Hret. naive_solver.
  - by eapply EffSend.
Qed.

Lemma run_effect s s' :
  sane s → step_label LRun s = Some s' → good s s'.
Proof.
  intros Hs. unfold step_label. destruct (Hs) as (Hcr & Hcl & Hret). rewrite Hcr. unfold step_run.
  destruct (run s) eqn:Hr; try done; intros [= <-].
  1-3: rewrite threads_send;
    match goal with |- context [send ?p _] => eapply (send_effect p) end;
    [done|left; by rewrite Hr|done|rewrite Hr; reflexivity|by intros ??|by rewrite Hr|done].
  pose proof (abs_close (buf s)) as E. unfold a_close in E.
  destruct (a_closed (abs (buf s))) eqn:Hc; [by discriminate (proj1 Hret eq_refl)|].
  unfold chan_close in E. rewrite Hcl in E.
  destruct (close (buf s)) as [b|x]; simpl in E; [|done]. injection E as E.
  unfold sane, view. cbn. rewrite E, Hr. cbn. split; [done|]. by apply EffClose.
Qed.

Lemma fire_effect tid s s' :
  sane s → step_label (LFire tid) s = Some s' → good s s'.
Proof.
  intros (Hcr & Hcl & Hret). unfold step_label. rewrite Hcr. unfold fire.
  destruct (armed (a_timers (abs (buf s))) !! tid) as [tm|] eqn:Ht; simpl; [|done].
  case_decide; simpl; [|done]. intros [= <-].
  unfold sane, view. cbn. rewrite abs_set_timers. cbn. split; [done|]. by eapply EffFire.
Qed.

Lemma wait_effect dt s s' :
  sane s → step_label (LWait dt) s = Some s' → good s s'.
Proof.
  intros (Hcr & Hcl & Hret). unfold step_label. rewrite Hcr. case_decide; [|done]. intros [= <-].
  unfold sane, view. cbn. rewrite abs_set_timers. cbn. split; [done|]. by eapply EffWait.
Qed.

Lemma consume_effect s s' :
  sane s → step_label LConsume s = Some s' → good s s'.
Proof.
  intros (Hcr & Hcl & Hret). unfold step_label. rewrite Hcr. unfold chan_recv.
  destruct (chan_buf (chan s)) as [|p ps] eqn:Hb.
  { by destruct (chan_closed (chan s)). }
  intros [= <-]. unfold sane, view. cbn. rewrite abs_set_chan. cbn.
  split; [done|]. by eapply EffConsume.
Qed.

Lemma a_mark_set k g (b : ABuf V P) :
  a_mark k g b =
    a_set (match a_pending b !! k with
           | Some e => if decide (e_gen e = g) then <[k := set_ready e]> (a_pending b)
                       else a_pending b
           | None => a_pending b
           end) (a_timers b) b.
Proof.
  unfold a_mark. destruct b as [m t c cl w mx dr]. cbn.
  destruct (m !! k); [case_decide|]; done.
Qed.

Lemma thread_effect i hint s s' :
  sane s → step_label (LThread i hint) s = Some s' → good s s'.
Proof.
  intros Hs. destruct (Hs) as (Hcr & Hcl & Hret). unfold step_label, step_thread. rewrite Hcr.
  destruct (threads s !! i) as [[k g| | |vs]|] eqn:Hi; simpl; [..|done]; intros [= <-].
  - pose proof (abs_mark k g (buf s)) as Ha. rewrite a_mark_set in Ha.
    unfold sane, view. cbn. rewrite Ha. cbn. split; [done|]. by apply EffMark.
  - unfold sane, view. cbn. split; [done|]. apply EffMove.
    + rewrite (held_replace _ _ _ _ _ Hi) by done. case_decide; simpl; by rewrite app_nil_r.
    + apply (marks_replace _ _ _ _ Hi); [done|]. case_decide; by repeat constructor.
  - destruct (collect hint (buf s)) as [vs b] eqn:E.
    apply collect_takes in E as [Ht Ha]. unfold sane, view. cbn. rewrite Ha. cbn. split; [done|].
    apply EffFlush; [done| | |done].
    + rewrite (held_replace _ _ _ _ _ Hi) by done. by destruct vs.
    + apply (marks_replace _ _ _ _ Hi); [done|]. destruct vs; by repeat constructor.
  - rewrite run_send. eapply (send_effect (batch vs)); try done.
    + by right.
    + unfold held. rewrite (delete_Permutation _ _ _ Hi) at 1. rewrite bind_cons. simpl.
      by rewrite Permutation_middle.
    + intros k g. rewrite (delete_Permutation _ _ _ Hi) at 1. rewrite elem_of_cons. naive_solver.
Qed.

Lemma step_good s s' : sane s → step s s' → good s s'.
Proof.
  intros Hs [[v|k|hint|hint| |tid|i hint|dt| ] E];
    eauto using upsert_effect, remove_effect, tick_effect, shutdown_effect, run_effect,
      fire_effect, thread_effect, wait_effect, consume_effect.
Qed.

(** ** Invariants over the view *)

Lemma init_sane b : fresh_buffer b → sane (init b).
Proof. intros (_ & Hc & _ & _ & Hch). unfold sane. cbn. rewrite Hc. done. Qed.

Lemma reachable_sane b s : fresh_buffer b → reachable b s → sane s.
Proof.
  intros Hb. apply rtc_invariant; [by apply init_sane|]. intros s1 s2 Hs1 Hst.
  by destruct (step_good _ _ Hs1 Hst).
Qed.

(** The rule the invariants use: a property of views that holds initially and that
    effects preserve holds at every reachable state. *)
Lemma reachable_view (I : View → Prop) b s :
  fresh_buffer b → I (view (init b)) →
  (∀ G x y, I x → Effect G x y → I y) →
  reachable b s → I (view s).
Proof.
  intros Hb Hi HI Hr.
  cut (sane s ∧ I (view s)); [by intros [_ ?]|].
  refine (rtc_invariant step (λ s, sane s ∧ I (view s)) _ _ _ _ Hr).
  - split; [by apply init_sane|done].
  - intros s1 s2 [Hs1 H1] Hst. destruct (step_good _ _ Hs1 Hst). eauto.
Qed.
End system.
Arguments Event : clear implicits.
Arguments History : clear implicits.
Arguments RunPc : clear implicits.
Arguments ThreadPc : clear implicits.
Arguments Sys : clear implicits.
Arguments Label : clear implicits.
