(* ===== verification/Invariants.v ===== *)
(** Invariants of the interleaving model, for every implementation of [Buffer]:
    the exact accounting of payloads, the replay of the history, the timers of
    pending entries, the debounce window and the downstream index. *)

From S2P Require Import Prelude GoRuntime Buffer Interleaving.

(** Projections of the views of an effect. *)
Ltac view_simpl :=
  cbn [v_pend v_timers v_chan v_window v_run v_threads v_hist v_added v_delivered v_lost] in *.

(** ** Accounting: every payload is somewhere, once *)

Section accounting.
Context {B V P : Type} `{!PayloadOps V P} `{!Buffer B V P}.

(** The payloads a history calls for: a deletion for every accepted delete, and
    every batch that was taken out of the buffer. *)
Definition history_payload (h : History V) : list P :=
  match h with
  | Accepted (Upsert _) => []
  | Accepted (Remove k) => [deletion k]
  | Taken vs => [batch vs]
  end.

Definition accounted (x : View (V:=V) (P:=P)) : Prop :=
  v_hist x ≫= history_payload
    ≡ₚ v_delivered x ++ chan_buf (v_chan x) ++ v_lost x ++ held (v_run x) (v_threads x).

Lemma taken_history vs : taken vs ≫= history_payload = taken_payload vs.
Proof. by destruct vs. Qed.

Lemma accounted_effect G x y : accounted x → Effect G x y → accounted y.
Proof.
  unfold accounted. intros Hx He.
  destruct He; cbn [v_hist v_delivered v_chan v_lost v_run v_threads] in *;
    rewrite ?bind_app, ?taken_history; try done.
  - by rewrite Hx, app_nil_r.
  - rewrite Hx. unfold held. simpl. solve_Permutation.
  - rewrite Hx, H0. solve_Permutation.
  - rewrite Hx, H0. solve_Permutation.
  - by rewrite Hx, H.
  - rewrite Hx, H. destruct H2 as [[-> ->]|[-> ->]]; simpl; solve_Permutation.
  - rewrite Hx, H. unfold held. done.
  - rewrite Hx. unfold held. rewrite bind_app. simpl. by rewrite app_nil_r.
  - rewrite Hx. do 3 f_equiv. by rewrite (held_replace _ _ _ _ [TCheck] H), app_nil_r.
  - rewrite Hx, H. solve_Permutation.
Qed.

Lemma reachable_accounted b s : fresh_buffer b → reachable b s → accounted (view s).
Proof.
  intros Hb. apply reachable_view; [done| |by apply accounted_effect].
  destruct Hb as (_ & _ & _ & Hch & _). unfold accounted, view. cbn. by rewrite Hch.
Qed.
End accounting.

(** ** Replay: the pending values are what the history says *)

Section replay.
Context {B V P : Type} `{!PayloadOps V P} `{!Buffer B V P} `{!EqDecision V}.
Abbreviation entries := (gmap string (Entry V)).

(** Entries are stored under the key of their value. *)
Definition keyed (m : entries) : Prop := ∀ k e, m !! k = Some e → key_of (e_val e) = k.

(** Taking a value is right only when it is the current one of its key. *)
Definition take_one (m : gmap string V) (v : V) : option (gmap string V) :=
  if decide (m !! key_of v = Some v) then Some (delete (key_of v) m) else None.

Fixpoint take_all (vs : list V) (m : gmap string V) : option (gmap string V) :=
  match vs with
  | [] => Some m
  | v :: vs => m ← take_one m v; take_all vs m
  end.

(** The values that are waiting after an item of the history: the last state of
    every key wins, a delete cancels, a batch takes current values only. *)
Definition replay_item (m : gmap string V) (h : History V) : option (gmap string V) :=
  match h with
  | Accepted (Upsert v) => Some (<[key_of v := v]> m)
  | Accepted (Remove k) => Some (delete k m)
  | Taken vs => take_all vs m
  end.

Fixpoint replay (hs : list (History V)) (m : gmap string V) : option (gmap string V) :=
  match hs with
  | [] => Some m
  | h :: hs => m ← replay_item m h; replay hs m
  end.

Lemma replay_app h1 h2 m : replay (h1 ++ h2) m = replay h1 m ≫= replay h2.
Proof.
  revert m. induction h1 as [|h h1 IH]; intros m; simpl; [done|].
  destruct (replay_item m h); simpl; [apply IH|done].
Qed.

Lemma replay_snoc hs h m : replay (hs ++ [h]) m = replay hs m ≫= λ m, replay_item m h.
Proof.
  rewrite replay_app. destruct (replay hs m) as [m'|]; simpl; [|done].
  by destruct (replay_item m' h).
Qed.

Lemma keyed_delete k m : keyed m → keyed (delete k m).
Proof. intros Hm j e [_ Hj]%lookup_delete_Some. by apply Hm. Qed.

Lemma keyed_filter (Q : string * Entry V → Prop) `{∀ x, Decision (Q x)} m :
  keyed m → keyed (base.filter Q m).
Proof. intros Hm j e [Hj _]%map_lookup_filter_Some. by apply Hm. Qed.

Lemma take_all_selected sel keys m :
  keyed m → NoDup keys →
  take_all (selected sel e_val keys m) (e_val <$> m) = Some (e_val <$> unselected sel keys m).
Proof.
  revert m. induction keys as [|k keys IH]; intros m Hm Hnd.
  { simpl. by rewrite unselected_nil. }
  apply NoDup_cons in Hnd as [Hk Hnd]. rewrite selected_cons.
  destruct (m !! k) as [e|] eqn:He; [destruct (sel e) eqn:Hs|].
  - simpl. unfold take_one. rewrite (Hm _ _ He), lookup_fmap, He. simpl.
    rewrite decide_True by done. simpl. rewrite <- fmap_delete.
    rewrite <- (selected_delete sel e_val k keys m Hk), IH by auto using keyed_delete.
    by rewrite (unselected_take sel k keys m e).
  - rewrite IH, (unselected_skip sel k keys m) by naive_solver. done.
  - rewrite IH, (unselected_skip sel k keys m) by naive_solver. done.
Qed.

Lemma takes_unselected sel (m : entries) vs m' :
  takes sel m vs m' → ∃ keys, NoDup keys ∧ vs = selected sel e_val keys m ∧ m' = unselected sel keys m.
Proof.
  intros (keys & Hnd & Hin & -> & ->). exists keys. split; [done|]. split; [done|].
  apply map_filter_ext. intros k e Hk. simpl. rewrite Hin, <- not_true_iff_false. naive_solver.
Qed.

Lemma takes_keyed sel (m : entries) vs m' : keyed m → takes sel m vs m' → keyed m'.
Proof. intros Hm (keys & _ & _ & _ & ->). by apply keyed_filter. Qed.

Lemma takes_replay sel (m : entries) vs m' :
  keyed m → takes sel m vs m' → replay (taken vs) (e_val <$> m) = Some (e_val <$> m').
Proof.
  intros Hm (keys & Hnd & -> & ->)%takes_unselected.
  pose proof (take_all_selected sel keys m Hm Hnd) as E.
  destruct (selected sel e_val keys m); simpl in *; [done|]. by rewrite E.
Qed.

Definition replayed (x : View (V:=V) (P:=P)) : Prop :=
  keyed (v_pend x) ∧ replay (v_hist x) ∅ = Some (e_val <$> v_pend x).

Lemma replayed_effect G x y : replayed x → Effect G x y → replayed y.
Proof.
  unfold replayed. intros [Hk Hr] He.
  destruct He; cbn [v_hist v_pend] in *; rewrite ?replay_snoc, ?replay_app, ?Hr; simpl; try done.
  - split; [|by rewrite fmap_insert]. intros k e. rewrite lookup_insert_Some. naive_solver.
  - split; [by apply keyed_delete|by rewrite fmap_delete].
  - split; [by eapply takes_keyed|by eapply takes_replay].
  - split; [by eapply takes_keyed|by eapply takes_replay].
  - split.
    + intros j e. destruct (m !! k) as [e0|] eqn:E; [case_decide|]; [|by apply Hk..].
      rewrite lookup_insert_Some. intros [[<- <-]|[_ Hj]]; [by apply (Hk k e0)|by apply Hk].
    + f_equal. destruct (m !! k) as [e0|] eqn:E; [case_decide|]; [|done..].
      rewrite fmap_insert. symmetry. apply insert_id. by rewrite lookup_fmap, E.
Qed.

Lemma reachable_replayed b s : fresh_buffer b → reachable b s → replayed (view s).
Proof.
  intros Hb. apply reachable_view; [done| |by apply replayed_effect].
  destruct Hb as (Hp & _). unfold replayed, view. cbn. rewrite Hp. split; [|done].
  intros k e. by rewrite lookup_empty.
Qed.
End replay.

(** ** After the shutdown flush the buffer stays empty *)

Section drained.
Context {B V P : Type} `{!PayloadOps V P} `{!Buffer B V P}.

Definition drained (x : View (V:=V) (P:=P)) : Prop :=
  finishing (v_run x) = true → v_pend x = ∅.

Lemma takes_empty sel vs (m' : gmap string (Entry V)) : takes sel ∅ vs m' → m' = ∅.
Proof. intros (keys & _ & _ & _ & ->). apply map_filter_empty. Qed.

Lemma drained_effect G x y : drained x → Effect G x y → drained y.
Proof.
  unfold drained. intros Hx He. destruct He; cbn [v_run v_pend] in *; try done.
  - intros Hf. rewrite H2 in Hf. rewrite (Hx Hf) in H. by eapply takes_empty.
  - intros Hf. rewrite H1 in Hf. auto.
  - intros Hf. rewrite (Hx Hf), lookup_empty. done.
Qed.

Lemma reachable_drained b s : fresh_buffer b → reachable b s → drained (view s).
Proof.
  intros Hb. apply reachable_view; [done| |by apply drained_effect]. done.
Qed.
End drained.

(** ** The downstream index *)

Section index.
Context {B V P : Type} `{!PayloadOps V P} `{!Buffer B V P} `{!EqDecision V}.
Implicit Types idx : gmap string V.

(** What a payload does to the index of the receiver. *)
Definition apply_payload idx (p : P) : gmap string V :=
  foldl (λ m k, delete k m) (foldl (λ m v, <[key_of v := v]> m) idx (upserts_of p)) (deletes_of p).

Definition apply_payloads (ps : list P) idx : gmap string V := foldl apply_payload idx ps.

(** The specification: every accepted event acts on the index at once. *)
Definition apply_event idx (h : History V) : gmap string V :=
  match h with
  | Accepted (Upsert v) => <[key_of v := v]> idx
  | Accepted (Remove k) => delete k idx
  | Taken _ => idx
  end.

Definition spec_index (hs : list (History V)) : gmap string V := foldl apply_event ∅ hs.

(** The index as it will be once the pending values are sent. *)
Definition overlay (m : gmap string V) idx : gmap string V := m ∪ idx.

Lemma overlay_insert k v m idx : overlay (<[k := v]> m) idx = <[k := v]> (overlay m idx).
Proof. unfold overlay. by rewrite insert_union_l. Qed.

Lemma overlay_delete k m idx : overlay (delete k m) (delete k idx) = delete k (overlay m idx).
Proof. unfold overlay. by rewrite delete_union. Qed.

Lemma overlay_take k v m idx :
  m !! k = Some v → overlay (delete k m) (<[k := v]> idx) = overlay m idx.
Proof.
  intros Hk. unfold overlay. rewrite <- insert_union_r by apply lookup_delete_eq.
  by rewrite insert_union_l, insert_delete_id.
Qed.

Lemma overlay_take_all vs m m' idx :
  take_all vs m = Some m' →
  overlay m' (foldl (λ m v, <[key_of v := v]> m) idx vs) = overlay m idx.
Proof.
  revert m idx. induction vs as [|v vs IH]; intros m idx; simpl; [congruence|].
  unfold take_one. case_decide as Hv; simpl; [|done]. intros E.
  rewrite (IH _ _ E). by apply overlay_take.
Qed.

Lemma apply_batch idx vs :
  apply_payload idx (batch vs) = foldl (λ m v, <[key_of v := v]> m) idx vs.
Proof. unfold apply_payload. by rewrite upserts_of_batch, deletes_of_batch. Qed.

Lemma apply_deletion idx k : apply_payload idx (deletion k) = delete k idx.
Proof. unfold apply_payload. by rewrite upserts_of_deletion, deletes_of_deletion. Qed.

Lemma upserts_union vs (m : gmap string V) :
  foldl (λ m v, <[key_of v := v]> m) m vs = foldl (λ m v, <[key_of v := v]> m) ∅ vs ∪ m.
Proof.
  induction vs as [|v vs IH] using rev_ind; [cbn; by rewrite (left_id_L ∅ (∪))|].
  rewrite !foldl_app. cbn. by rewrite IH, insert_union_l.
Qed.

Lemma deletes_lookup ks (m : gmap string V) k :
  foldl (λ m k, delete k m) m ks !! k = if decide (k ∈ ks) then None else m !! k.
Proof.
  revert m. induction ks as [|j ks IH]; intros m; [done|]. cbn [foldl]. rewrite IH.
  destruct (decide (k = j)) as [->|Hk].
  - rewrite lookup_delete_eq, (decide_True (P:=j ∈ j :: ks)) by left. by case_decide.
  - rewrite lookup_delete_ne by done. apply decide_ext. set_solver.
Qed.

(** Applying a payload again changes nothing. *)
Lemma apply_payload_idem idx (p : P) : apply_payload (apply_payload idx p) p = apply_payload idx p.
Proof.
  unfold apply_payload. rewrite (upserts_union _ (foldl _ _ _)), (upserts_union _ idx).
  apply map_eq. intros k. rewrite !deletes_lookup. case_decide as Hk; [done|].
  rewrite !lookup_union, deletes_lookup, decide_False, lookup_union by done.
  by destruct (foldl _ ∅ _ !! k), (idx !! k).
Qed.

(** Taking a batch and sending it at once changes nothing in the overlay. *)
Lemma overlay_takes sel (m : gmap string (Entry V)) vs m' idx :
  keyed m → takes sel m vs m' →
  overlay (e_val <$> m') (apply_payloads (taken_payload vs) idx) = overlay (e_val <$> m) idx.
Proof.
  intros Hm (keys & Hnd & -> & ->)%takes_unselected.
  pose proof (take_all_selected sel keys m Hm Hnd) as E.
  destruct (selected sel e_val keys m) as [|v vs].
  - simpl in *. congruence.
  - cbn [taken_payload apply_payloads foldl]. rewrite apply_batch. by apply overlay_take_all.
Qed.

(** A step is orderly when, while some goroutine holds a payload, no event is
    accepted and no other batch is taken. *)
Definition orderly (s s' : Sys B V P) : Prop :=
  step s s' ∧ (inflight s = [] ∨ hist s' = hist s).

(** Runs whose steps are orderly, executably. *)
Fixpoint exec_orderly (ls : list (Label V)) s : option (Sys B V P) :=
  match ls with
  | [] => Some s
  | l :: ls =>
      s' ← step_label l s;
      if match inflight s with [] => true | _ => bool_decide (hist s' = hist s) end
      then exec_orderly ls s' else None
  end.

Lemma exec_orderly_rtc ls s s' : exec_orderly ls s = Some s' → rtc orderly s s'.
Proof.
  revert s. induction ls as [|l ls IH]; intros s; cbn; [by intros [= ->]|].
  destruct (step_label l s) as [s1|] eqn:E; cbn; [|done].
  destruct (inflight s) eqn:Hi; [|case_bool_decide as Hh; [|done]]; intros Hr;
    (eapply rtc_l; [|by apply IH]); (split; [by econstructor|auto]).
Qed.

(** With at most one payload held and none lost, the payloads sent and the held one
    are the specification's index, except for the pending values. *)
Definition in_sync (x : View (V:=V) (P:=P)) : Prop :=
  keyed (v_pend x) ∧ length (held (v_run x) (v_threads x)) ≤ 1 ∧
  (v_lost x = [] →
    overlay (e_val <$> v_pend x)
      (apply_payloads (v_delivered x ++ chan_buf (v_chan x) ++ held (v_run x) (v_threads x)) ∅)
    = spec_index (v_hist x)).

Lemma apply_payloads_app ps qs idx :
  apply_payloads (ps ++ qs) idx = apply_payloads qs (apply_payloads ps idx).
Proof. apply foldl_app. Qed.

Lemma spec_index_taken hs vs : spec_index (hs ++ taken vs) = spec_index hs.
Proof. unfold spec_index. rewrite foldl_app. by destruct vs. Qed.

Lemma spec_index_snoc hs h : spec_index (hs ++ [h]) = apply_event (spec_index hs) h.
Proof. unfold spec_index. by rewrite foldl_app. Qed.

Lemma perm_short (l l' : list P) : l ≡ₚ l' → length l ≤ 1 → l = l'.
Proof.
  intros E Hl. destruct l as [|p [|? ?]]; [..|simpl in Hl; lia].
  - by apply Permutation_nil_l in E.
  - by apply Permutation_singleton_l in E.
Qed.

Lemma length_taken_payload vs : length (taken_payload (P:=P) vs) ≤ 1.
Proof. destruct vs; simpl; lia. Qed.

(** While a payload is held, an orderly step accepts no event and takes nothing. *)
Definition quiet (x y : View (V:=V) (P:=P)) : Prop :=
  held (v_run x) (v_threads x) = [] ∨ v_hist y = v_hist x.

Lemma hist_app_id (h h' : list (History V)) : h ++ h' = h → h' = [].
Proof.
  intros E. apply (f_equal length) in E. rewrite length_app in E.
  destruct h'; [done|simpl in E; lia].
Qed.

Lemma in_sync_take sel m m' c r r' ts ts' h ad de lo vs w w' t t' :
  takes sel m vs m' → held r' ts' ≡ₚ held r ts ++ taken_payload vs →
  held r ts = [] ∨ h ++ taken vs = h →
  in_sync (mkView m t c w r ts h ad de lo) →
  in_sync (mkView m' t' c w' r' ts' (h ++ taken vs) ad de lo).
Proof.
  intros Ht Hh Hq (Hk & Hl & Hs). unfold in_sync. view_simpl.
  assert (held r' ts' = held r ts ++ taken_payload vs ∧ length (held r' ts') ≤ 1) as [E El].
  { assert (length (held r ts ++ taken_payload vs) ≤ 1) as Hlen.
    { destruct Hq as [->|Hq%hist_app_id]; [apply length_taken_payload|].
      destruct vs; [|done]. by rewrite app_nil_r. }
    split; [|by rewrite Hh]. symmetry. by apply perm_short. }
  split; [by eapply takes_keyed|]. split; [done|]. intros Hlo.
  rewrite spec_index_taken, <- (Hs Hlo), E, !app_assoc, apply_payloads_app.
  by apply (overlay_takes sel).
Qed.

Lemma in_sync_effect G x y : in_sync x → quiet x y → Effect G x y → in_sync y.
Proof.
  intros Hx Hq He. destruct He; unfold quiet in Hq; view_simpl.
  3: by eapply in_sync_take.
  3: by eapply in_sync_take.
  all: destruct Hx as (Hk & Hl & Hs); unfold in_sync in *; view_simpl.
  - split; [intros k e; rewrite lookup_insert_Some; naive_solver|]. split; [done|].
    intros Hlo. by rewrite spec_index_snoc, <- (Hs Hlo), fmap_insert, overlay_insert.
  - split; [by apply keyed_delete|].
    assert (held RSelect ts = []) as E.
    { destruct Hq as [|Hq]; [done|]. by apply hist_app_id in Hq. }
    assert (held (REmitDelete k) ts = [deletion k]) as E'.
    { unfold held in *. simpl in *. by rewrite E. }
    rewrite E', spec_index_snoc. split; [done|]. intros Hlo. rewrite <- (Hs Hlo), E, app_nil_r.
    rewrite app_assoc, apply_payloads_app. cbn [apply_payloads foldl apply_event].
    by rewrite apply_deletion, fmap_delete, overlay_delete.
  - assert (held r ts' = held r ts) as -> by (symmetry; apply perm_short; [by symmetry|done]).
    done.
  - pose proof (perm_short _ _ H Hl) as E. rewrite E in Hl, Hs. simpl in Hl.
    destruct (held r' ts') as [|q qs]; [|simpl in Hl; lia].
    split; [done|]. split; [simpl; lia|]. intros Hlo.
    destruct H2 as [[-> ->]|[-> ->]]; [|by destruct lo].
    rewrite <- (Hs Hlo). simpl. by rewrite app_nil_r.
  - split; [done|]. split; [done|]. intros Hlo. by rewrite H, <- (Hs Hlo).
  - assert (held r (ts ++ [TMark (cl_key (closure tm)) (cl_gen (closure tm))]) = held r ts) as ->
      by (unfold held; rewrite bind_app; simpl; by rewrite app_nil_r).
    done.
  - pose proof (held_replace r ts i _ [TCheck] H eq_refl) as E. simpl in E.
    rewrite app_nil_r in E. rewrite (perm_short _ _ E) by (by rewrite E).
    assert (∀ e, m !! k = Some e → e_val <$> <[k := set_ready e]> m = e_val <$> m) as Hm.
    { intros e He. rewrite fmap_insert. apply insert_id. by rewrite lookup_fmap, He. }
    destruct (m !! k) as [e|] eqn:He; [case_decide|]; [|done..].
    rewrite Hm by done. split; [|done]. intros j e'. rewrite lookup_insert_Some.
    intros [[<- <-]|[_ Hj]]; [by apply (Hk k e)|by apply Hk].
  - done.
  - split; [done|]. split; [done|]. intros Hlo.
    rewrite <- (Hs Hlo), H, <- (app_assoc de). done.
Qed.

Lemma orderly_in_sync b s : fresh_buffer b → rtc orderly (init b) s → in_sync (view s).
Proof.
  intros Hb Hr. cut (sane s ∧ in_sync (view s)); [by intros [_ ?]|].
  refine (rtc_invariant orderly (λ s, sane s ∧ in_sync (view s)) _ _ _ _ Hr).
  - split; [by apply init_sane|]. destruct Hb as (Hp & _ & _ & Hc & _).
    unfold in_sync, view. cbn. rewrite Hp, Hc. split; [|split; [lia|done]].
    intros k e. by rewrite lookup_empty.
  - intros s1 s2 [Hs1 H1] [Hst Hq]. destruct (step_good _ _ Hs1 Hst) as [? He].
    split; [done|]. by eapply in_sync_effect.
Qed.
End index.

(** ** No pending entry is forgotten *)

Section timers.
Context {B V P : Type} `{!PayloadOps V P} `{!Buffer B V P}.

(** An entry that is not ready yet has its timer armed, with its key and generation,
    or a goroutine started by that timer about to mark it. *)
Definition will_be_ready (x : View (V:=V) (P:=P)) (k : string) (e : Entry V) : Prop :=
  (∃ dl, armed (v_timers x) !! e_timer e = Some (mkTimer dl (mkClosure k (e_gen e))))
  ∨ TMark k (e_gen e) ∈ v_threads x.

Record timers_ok (x : View (V:=V) (P:=P)) : Prop := {
  armed_old tid tm : armed (v_timers x) !! tid = Some tm → tid < next_timer (v_timers x);
  entry_old k e : v_pend x !! k = Some e → e_timer e < next_timer (v_timers x);
  timer_inj k1 k2 e1 e2 :
    v_pend x !! k1 = Some e1 → v_pend x !! k2 = Some e2 → e_timer e1 = e_timer e2 → k1 = k2;
  not_forgotten k e : v_pend x !! k = Some e → e_ready e = false → will_be_ready x k e;
}.

Lemma stop_in_next k (m : gmap string (Entry V)) t : next_timer (stop_in k m t) = next_timer t.
Proof. unfold stop_in. by destruct (m !! k). Qed.

Lemma stop_in_now k (m : gmap string (Entry V)) t : now (stop_in k m t) = now t.
Proof. unfold stop_in. by destruct (m !! k). Qed.

Lemma stop_in_armed k (m : gmap string (Entry V)) t : armed (stop_in k m t) ⊆ armed t.
Proof. unfold stop_in. destruct (m !! k); [apply delete_subseteq|done]. Qed.

(** Stopping the timer of one key keeps those of the others. *)
Lemma stop_in_other k (m : gmap string (Entry V)) t tid :
  (∀ e, m !! k = Some e → e_timer e ≠ tid) → armed (stop_in k m t) !! tid = armed t !! tid.
Proof.
  intros Hne. unfold stop_in. destruct (m !! k) as [e|]; [|done]. simpl.
  rewrite lookup_delete_ne; [done|]. by apply Hne.
Qed.

(** A view with fewer entries, the same timers and the same marks. *)
Lemma timers_ok_sub m m' t c c' w r r' ts ts' h h' ad de de' lo lo' :
  m' ⊆ m → same_marks ts ts' →
  timers_ok (mkView m t c w r ts h ad de lo) → timers_ok (mkView m' t c' w r' ts' h' ad de' lo').
Proof.
  intros Hsub Hm [H1 H2 H3 H4]. view_simpl.
  assert (∀ k e, m' !! k = Some e → m !! k = Some e) as Hl by (intros; by eapply lookup_weaken).
  split; view_simpl; eauto. unfold will_be_ready in *. view_simpl.
  intros k e Hk Hr. destruct (H4 k e (Hl _ _ Hk) Hr) as [?|?]; [by left|right]. by apply Hm.
Qed.

Lemma timers_ok_upsert m t c w r ts h ad de lo v g :
  timers_ok (mkView m t c w r ts h ad de lo) →
  timers_ok (mkView
    (<[key_of v := mkEntry v (next_timer (stop_in (key_of v) m t)) false g]> m)
    (AfterFunc w (mkClosure (key_of v) g) (stop_in (key_of v) m t)).2
    c w r ts (h ++ [Accepted (Upsert v)]) (<[key_of v := now t]> ad) de lo).
Proof.
  intros [H1 H2 H3 H4]. view_simpl. unfold will_be_ready in *. rewrite stop_in_next.
  split; unfold will_be_ready; view_simpl; cbn [AfterFunc snd armed next_timer];
    rewrite ?stop_in_next.
  - intros tid tm. rewrite lookup_insert_Some. intros [[<- _]|[_ Hs]]; [lia|].
    eapply lookup_weaken in Hs; [|apply stop_in_armed]. specialize (H1 _ _ Hs). lia.
  - intros k e. rewrite lookup_insert_Some. intros [[<- <-]|[_ Hk]]; [simpl; lia|].
    specialize (H2 _ _ Hk). lia.
  - intros k1 k2 e1 e2. rewrite !lookup_insert_Some.
    intros [[<- <-]|[? E1]] [[<- <-]|[? E2]]; simpl; [done|..|by apply (H3 _ _ _ _ E1 E2)].
    + specialize (H2 _ _ E2). lia.
    + specialize (H2 _ _ E1). lia.
  - intros k e. rewrite lookup_insert_Some. intros [[<- <-]|[Hne Hk]] Hr; simpl.
    + left. eexists. by rewrite lookup_insert_eq.
    + destruct (H4 _ _ Hk Hr) as [[dl Hdl]|?]; [left; exists dl|by right].
      specialize (H2 _ _ Hk). rewrite lookup_insert_ne by lia.
      rewrite stop_in_other; [done|]. intros e0 He0 E. by apply Hne, (H3 _ _ _ _ He0 Hk).
Qed.

Lemma timers_ok_remove m t c w r r' ts h h' ad de lo k :
  timers_ok (mkView m t c w r ts h ad de lo) →
  timers_ok (mkView (delete k m) (stop_in k m t) c w r' ts h' ad de lo).
Proof.
  intros [H1 H2 H3 H4]. view_simpl. unfold will_be_ready in *.
  split; unfold will_be_ready; view_simpl; rewrite ?stop_in_next.
  - intros tid tm Ht. eapply H1, lookup_weaken; [done|apply stop_in_armed].
  - intros j e [_ Hj]%lookup_delete_Some. by eapply H2.
  - intros k1 k2 e1 e2 [_ E1]%lookup_delete_Some [_ E2]%lookup_delete_Some. by apply (H3 _ _ _ _ E1 E2).
  - intros j e [Hne Hj]%lookup_delete_Some Hr.
    destruct (H4 _ _ Hj Hr) as [[dl Hdl]|?]; [left; exists dl|by right].
    rewrite stop_in_other; [done|]. intros e0 He0 E. by apply Hne, (H3 _ _ _ _ He0 Hj).
Qed.

Lemma timers_ok_fire m t c w r ts h ad de lo tid tm :
  armed t !! tid = Some tm →
  timers_ok (mkView m t c w r ts h ad de lo) →
  timers_ok (mkView m (StopTimer tid t) c w r
               (ts ++ [TMark (cl_key (closure tm)) (cl_gen (closure tm))]) h ad de lo).
Proof.
  intros Ht [H1 H2 H3 H4]. view_simpl. unfold will_be_ready in *.
  split; unfold will_be_ready; view_simpl; cbn [StopTimer armed next_timer]; eauto.
  - intros tid' tm' [_ Ht']%lookup_delete_Some. eauto.
  - intros k e Hk Hr. rewrite elem_of_app, list_elem_of_singleton.
    destruct (H4 _ _ Hk Hr) as [[dl Hdl]|?]; [|by right; left].
    destruct (decide (tid = e_timer e)) as [->|Hne].
    + right. right. rewrite Ht in Hdl. injection Hdl as ->. done.
    + left. exists dl. by rewrite lookup_delete_ne.
Qed.

Lemma timers_ok_mark m t c w r ts i h ad de lo k g :
  ts !! i = Some (TMark k g) →
  timers_ok (mkView m t c w r ts h ad de lo) →
  timers_ok (mkView (match m !! k with
            | Some e => if decide (e_gen e = g) then <[k := set_ready e]> m else m
            | None => m
            end) t c w r (delete i ts ++ [TCheck]) h ad de lo).
Proof.
  intros Hi [H1 H2 H3 H4]. view_simpl.
  match goal with |- timers_ok (mkView ?x _ _ _ _ _ _ _ _ _) => set (m' := x) end.
  assert (∀ j e', m' !! j = Some e' → ∃ e, m !! j = Some e ∧ e_timer e' = e_timer e
    ∧ e_gen e' = e_gen e ∧ (e_ready e' = false → e_ready e = false ∧ (j, e_gen e) ≠ (k, g))) as Hm.
  { intros j e'. subst m'. destruct (m !! k) as [e0|] eqn:He0; [case_decide as Hg|].
    - rewrite lookup_insert_Some. intros [[<- <-]|[Hne Hj]]; [by exists e0|].
      exists e'. split_and!; try done. intros ?. split; [done|congruence].
    - intros Hj. exists e'. split_and!; try done. intros ?. split; [done|]. congruence.
    - intros Hj. exists e'. split_and!; try done. intros ?. split; [done|]. congruence. }
  clearbody m'. split; unfold will_be_ready in *; view_simpl; eauto.
  - intros j e' (e & Hj & -> & _)%Hm. eauto.
  - intros k1 k2 e1' e2' (e1 & E1 & -> & _)%Hm (e2 & E2 & -> & _)%Hm. eauto.
  - intros j e' (e & Hj & -> & -> & Hr)%Hm Hr'. destruct (Hr Hr') as [Hre Hne].
    destruct (H4 _ _ Hj Hre) as [?|Hin]; [by left|right].
    rewrite (delete_Permutation _ _ _ Hi), elem_of_cons in Hin.
    apply elem_of_app. destruct Hin as [Heq|]; [exfalso; apply Hne; congruence|by left].
Qed.

Lemma timers_ok_effect G x y : timers_ok x → Effect G x y → timers_ok y.
Proof.
  intros Hx He. destruct He;
    eauto using timers_ok_upsert, timers_ok_remove, timers_ok_fire, timers_ok_mark.
  - eapply timers_ok_sub, Hx; [|done]. destruct H as (? & _ & _ & _ & ->).
    auto with sync.
  - destruct Hx as [H5 _ _ _]. split; view_simpl; try (intros *; rewrite lookup_empty; done).
    intros tid tm Ht. rewrite H2. eapply H5, lookup_weaken; done.
  - eapply timers_ok_sub, Hx; done.
  - eapply timers_ok_sub, Hx; done.
  - eapply timers_ok_sub, Hx; [done|by intros ??].
  - destruct Hx as [H1 H2 H3 H4]. by split.
  - eapply timers_ok_sub, Hx; [done|by intros ??].
Qed.

Lemma reachable_timers_ok b s : fresh_buffer b → reachable b s → timers_ok (view s).
Proof.
  intros Hb. apply reachable_view; [done| |by apply timers_ok_effect].
  destruct Hb as (Hp & _ & Ha & _). split; unfold view; cbn; rewrite ?Hp, ?Ha; intros *;
    rewrite ?lookup_empty; done.
Qed.
End timers.
#[export] Hint Resolve stop_in_armed : sync.

(** ** Safety and liveness of the buffer's goroutines *)

Section safety.
Context {B V P : Type} `{!PayloadOps V P} `{!Buffer B V P}.

Lemma reachable_safe b s : fresh_buffer b → reachable b s →
  crash s = None
  ∧ (chan_closed (a_chan (abs (buf s))) = true ↔ run s = RReturned)
  ∧ (run s = RReturned → a_pending (abs (buf s)) = ∅).
Proof.
  intros Hb Hr. destruct (reachable_sane b s Hb Hr) as (Hc & Hcl & Hret).
  split; [done|]. split; [by rewrite Hcl|]. intros E.
  apply (reachable_drained b s Hb Hr). cbn. by rewrite E.
Qed.

Lemma exec_app l1 l2 (s : Sys B V P) : exec (l1 ++ l2) s = exec l1 s ≫= exec l2.
Proof.
  revert s. induction l1 as [|l l1 IH]; intros s; cbn; [done|].
  destruct (step_label l s); cbn; [apply IH|done].
Qed.

(** A goroutine about to mark an entry can do it at once. *)
Lemma mark_makes_ready s k e :
  crash s = None → a_pending (abs (buf s)) !! k = Some e → TMark k (e_gen e) ∈ threads s →
  ∃ l s', step_label l s = Some s'
    ∧ a_pending (abs (buf s')) !! k = Some (set_ready e).
Proof.
  intros Hc Hk [i Hi]%list_elem_of_lookup_1. exists (LThread i []). eexists. split.
  - unfold step_label, step_thread. rewrite Hc, Hi. reflexivity.
  - cbn. rewrite abs_mark. unfold a_mark. rewrite Hk, decide_True by done. cbn. apply lookup_insert_eq.
Qed.

(** An armed timer can fire once its time has come. *)
Lemma armed_can_fire s tid tm :
  crash s = None → armed (a_timers (abs (buf s))) !! tid = Some tm →
  ∃ ls s', exec ls s = Some s' ∧ crash s' = None
    ∧ a_pending (abs (buf s')) = a_pending (abs (buf s))
    ∧ TMark (cl_key (closure tm)) (cl_gen (closure tm)) ∈ threads s'.
Proof.
  intros Hc Ht. set (dt := Z.max 0 (deadline tm - now (a_timers (abs (buf s))))).
  set (s1 := upd (set_timers (advance dt (a_timers (abs (buf s)))) (buf s)) (run s) (threads s) s).
  assert (step_label (LWait dt) s = Some s1) as E1.
  { unfold step_label. by rewrite Hc, decide_True by lia. }
  exists [LWait dt; LFire tid]. eexists. split.
  - cbn [exec]. rewrite E1. cbn [mbind option_bind]. unfold step_label.
    replace (crash s1) with (@None Panic). cbn [buf upd s1]. rewrite abs_set_timers. cbn.
    unfold fire. cbn. rewrite Ht. cbn. rewrite decide_True by lia. reflexivity.
  - cbn. rewrite !abs_set_timers. cbn. split; [done|]. split; [done|]. apply elem_of_app. right. left.
Qed.

(** From every reachable state a pending entry can become ready, whatever the other
    goroutines have done. *)
Lemma can_become_ready b s k e :
  fresh_buffer b → reachable b s → a_pending (abs (buf s)) !! k = Some e →
  ∃ ls s' e', exec ls s = Some s' ∧ a_pending (abs (buf s')) !! k = Some e'
    ∧ e_ready e' = true ∧ e_val e' = e_val e.
Proof.
  intros Hb Hr Hk. destruct (reachable_sane b s Hb Hr) as [Hc _].
  destruct (e_ready e) eqn:He; [by exists [], s, e|].
  destruct (not_forgotten _ (reachable_timers_ok b s Hb Hr) k e Hk He) as [[dl Ht]|Hm].
  - destruct (armed_can_fire s _ _ Hc Ht) as (ls & s1 & E1 & Hc1 & Hp1 & Hm).
    rewrite <- Hp1 in Hk. destruct (mark_makes_ready s1 k e Hc1 Hk Hm) as (l & s2 & E2 & Hp2).
    exists (ls ++ [l]), s2, (set_ready e). rewrite exec_app, E1. cbn. rewrite E2. done.
  - destruct (mark_makes_ready s k e Hc Hk Hm) as (l & s2 & E2 & Hp2).
    exists [l], s2, (set_ready e). cbn. rewrite E2. done.
Qed.
End safety.

(** ** The debounce window, when generations are not reused *)

Section window.
Context {B V P : Type} `{!PayloadOps V P} `{!Buffer B V P}.
Open Scope Z_scope.

(** The number of upserts accepted so far. *)
Definition upsert_count (hs : list (History V)) : Z :=
  Z.of_nat (length (List.filter (λ h, match h with Accepted (Upsert _) => true | _ => false end) hs)).

Lemma upsert_count_app h1 h2 : upsert_count (h1 ++ h2) = upsert_count h1 + upsert_count h2.
Proof. unfold upsert_count. rewrite List.filter_app, length_app. lia. Qed.

Lemma upsert_count_nonneg hs : 0 ≤ upsert_count hs.
Proof. unfold upsert_count. lia. Qed.

Lemma upsert_count_taken hs vs : upsert_count (hs ++ taken vs) = upsert_count hs.
Proof. rewrite upsert_count_app. destruct vs; unfold upsert_count at 2; simpl; lia. Qed.

(** The window of the last upsert of a key has passed. *)
Definition window_passed (x : View (V:=V) (P:=P)) (k : string) : Prop :=
  ∃ a, v_added x !! k = Some a ∧ a + v_window x ≤ now (v_timers x).

(** Generations were handed out in order, an armed timer that belongs to an entry
    is due a window after the entry's last upsert, and an entry is marked only
    after that. *)
Record windowed (x : View (V:=V) (P:=P)) : Prop := {
  armed_gen tid tm : armed (v_timers x) !! tid = Some tm →
    cl_gen (closure tm) ≤ upsert_count (v_hist x);
  mark_gen k g : TMark k g ∈ v_threads x → g ≤ upsert_count (v_hist x);
  armed_window k e tid tm : v_pend x !! k = Some e → armed (v_timers x) !! tid = Some tm →
    closure tm = mkClosure k (e_gen e) →
    ∃ a, v_added x !! k = Some a ∧ deadline tm = a + v_window x;
  mark_window k e : v_pend x !! k = Some e → TMark k (e_gen e) ∈ v_threads x → window_passed x k;
  ready_window k e : v_pend x !! k = Some e → e_ready e = true → window_passed x k;
}.

(** Fewer entries, fewer timers, the same marks and no earlier clock. *)
Lemma windowed_sub m m' t t' c c' w r r' ts ts' h h' ad de de' lo lo' :
  m' ⊆ m → armed t' ⊆ armed t → now t ≤ now t' → same_marks ts ts' →
  upsert_count h ≤ upsert_count h' →
  windowed (mkView m t c w r ts h ad de lo) → windowed (mkView m' t' c' w r' ts' h' ad de' lo').
Proof.
  intros Hm Ht Hn Hs Hh [H1 H2 H3 H4 H5]. unfold window_passed in *. view_simpl.
  assert (∀ k e, m' !! k = Some e → m !! k = Some e) as Lm by (intros; by eapply lookup_weaken).
  assert (∀ k e, armed t' !! k = Some e → armed t !! k = Some e) as Lt
    by (intros; by eapply lookup_weaken).
  split; unfold window_passed; view_simpl.
  - intros tid tm E. specialize (H1 _ _ (Lt _ _ E)). lia.
  - intros k g E%Hs. specialize (H2 _ _ E). lia.
  - eauto.
  - intros k e E E'%Hs. destruct (H4 _ _ (Lm _ _ E) E') as (a & ? & ?). exists a. split; [done|lia].
  - intros k e E E'. destruct (H5 _ _ (Lm _ _ E) E') as (a & ? & ?). exists a. split; [done|lia].
Qed.

Lemma windowed_upsert m t c w r ts h ad de lo v g :
  g = upsert_count h + 1 →
  windowed (mkView m t c w r ts h ad de lo) →
  windowed (mkView
    (<[key_of v := mkEntry v (next_timer (stop_in (key_of v) m t)) false g]> m)
    (AfterFunc w (mkClosure (key_of v) g) (stop_in (key_of v) m t)).2
    c w r ts (h ++ [Accepted (Upsert v)]) (<[key_of v := now t]> ad) de lo).
Proof.
  intros Hg [H1 H2 H3 H4 H5]. unfold window_passed in *. view_simpl.
  assert (upsert_count (h ++ [Accepted (Upsert v)]) = g) as Hc.
  { rewrite upsert_count_app, Hg. unfold upsert_count at 2. simpl. lia. }
  assert (∀ k e, armed (stop_in (key_of v) m t) !! k = Some e → armed t !! k = Some e) as Lt
    by (intros; eapply lookup_weaken; [done|apply stop_in_armed]).
  split; unfold window_passed; view_simpl; cbn [AfterFunc snd armed now]; rewrite ?Hc, ?stop_in_now.
  - intros tid tm. rewrite lookup_insert_Some. intros [[_ <-]|[_ E]]; simpl; [lia|].
    specialize (H1 _ _ (Lt _ _ E)). lia.
  - intros k g' E. specialize (H2 _ _ E). lia.
  - intros k e tid tm. rewrite !lookup_insert_Some.
    intros [[<- <-]|[Hk Ek]] [[<- <-]|[_ Et]] Hcl; simpl in Hcl |- *.
    + exists (now t). rewrite lookup_insert_eq. done.
    + specialize (H1 _ _ (Lt _ _ Et)). rewrite Hcl in H1. simpl in H1. lia.
    + injection Hcl as ? _. done.
    + rewrite lookup_insert_ne by done. eauto.
  - intros k e. rewrite lookup_insert_Some. intros [[<- <-]|[Hk Ek]] Hin; simpl in Hin.
    + specialize (H2 _ _ Hin). lia.
    + rewrite lookup_insert_ne by done. eauto.
  - intros k e. rewrite lookup_insert_Some. intros [[<- <-]|[Hk Ek]] Hin; [done|].
    rewrite lookup_insert_ne by done. eauto.
Qed.

Lemma windowed_fire m t c w r ts h ad de lo tid tm :
  armed t !! tid = Some tm → deadline tm ≤ now t →
  windowed (mkView m t c w r ts h ad de lo) →
  windowed (mkView m (StopTimer tid t) c w r
              (ts ++ [TMark (cl_key (closure tm)) (cl_gen (closure tm))]) h ad de lo).
Proof.
  intros Ht Hd [H1 H2 H3 H4 H5]. unfold window_passed in *. view_simpl.
  split; unfold window_passed; view_simpl; cbn [StopTimer armed now]; eauto.
  - intros tid' tm' [_ ?]%lookup_delete_Some. eauto.
  - intros k g. rewrite elem_of_app, list_elem_of_singleton. intros [?|[= -> ->]]; eauto.
  - intros k e tid' tm' ? [_ ?]%lookup_delete_Some. eauto.
  - intros k e E. rewrite elem_of_app, list_elem_of_singleton. intros [?|Heq]; [eauto|].
    destruct (H3 k e tid tm E Ht) as (a & ? & ?); [destruct (closure tm); simpl in *; congruence|].
    exists a. split; [done|lia].
Qed.

Lemma windowed_mark m t c w r ts i h ad de lo k g :
  ts !! i = Some (TMark k g) →
  windowed (mkView m t c w r ts h ad de lo) →
  windowed (mkView (match m !! k with
            | Some e => if decide (e_gen e = g) then <[k := set_ready e]> m else m
            | None => m
            end) t c w r (delete i ts ++ [TCheck]) h ad de lo).
Proof.
  intros Hi [H1 H2 H3 H4 H5]. unfold window_passed in *. view_simpl.
  assert (∀ k g, TMark k g ∈ delete i ts ++ [TCheck] → TMark k g ∈ ts) as Hts.
  { intros k' g'. rewrite elem_of_app, list_elem_of_singleton. intros [Hd|Heq]; [|done].
    apply (elem_of_Permutation_proper _ _ _ (delete_Permutation _ _ _ Hi)). by right. }
  assert (TMark k g ∈ ts) as Hin by (by eapply list_elem_of_lookup_2).
  match goal with |- windowed (mkView ?x _ _ _ _ _ _ _ _ _) => set (m' := x) end.
  assert (∀ j e', m' !! j = Some e' → ∃ e, m !! j = Some e ∧ e_gen e' = e_gen e
    ∧ (e_ready e' = true → e_ready e = true ∨ (j = k ∧ e_gen e = g))) as Hm.
  { intros j e'. subst m'. destruct (m !! k) as [e0|] eqn:He0; [case_decide as Hg|];
      [rewrite lookup_insert_Some; intros [[<- <-]|[Hne Hj]]|..]; eauto 10. }
  clearbody m'. split; unfold window_passed; view_simpl; eauto.
  - intros j e' tid tm (e & Hj & -> & _)%Hm. eauto.
  - intros j e' (e & Hj & -> & _)%Hm ?%Hts. eauto.
  - intros j e' (e & Hj & _ & Hr)%Hm Hr'. destruct (Hr Hr') as [?|[-> <-]]; eauto.
Qed.

(** The side conditions of [windowed_sub]. *)
Ltac sub_solver :=
  first [ done | solve [auto with sync] | by rewrite stop_in_now | lia | by intros ?? | by rewrite upsert_count_taken
        | rewrite upsert_count_app;
          match goal with |- context [upsert_count [?h]] =>
            pose proof (upsert_count_nonneg [h]); lia end ].

Lemma windowed_effect G x y :
  (∀ v g, G v g → v_hist y = v_hist x ++ [Accepted (Upsert v)] → g = upsert_count (v_hist x) + 1) →
  windowed x → Effect G x y → windowed y.
Proof.
  intros HG Hx He. destruct He; view_simpl;
    try (eapply windowed_sub; [..|exact Hx]; cbn [advance now armed]; sub_solver).
  - apply windowed_upsert; [by apply (HG v)|done].
  - destruct H as (? & _ & _ & _ & ->). eapply windowed_sub; [..|exact Hx]; sub_solver.
  - by apply windowed_fire.
  - by apply windowed_mark.
Qed.

(** The window is a constant of the buffer. *)
Lemma reachable_window b s : fresh_buffer b → reachable b s → v_window (view s) = a_window (abs b).
Proof. intros Hb. apply (reachable_view (λ x, v_window x = _)); [done|done|]. intros G x y Hx He. by destruct He. Qed.

Lemma init_windowed b : fresh_buffer b → windowed (view (init b)).
Proof.
  intros (Hp & _ & Ha & _). split; unfold view; cbn; rewrite ?Hp, ?Ha; intros *;
    rewrite ?lookup_empty, ?elem_of_nil; done.
Qed.

(** Histories only grow, so the number of upserts does. *)
Lemma effect_count G x y : Effect G x y → upsert_count (v_hist x) ≤ upsert_count (v_hist y).
Proof.
  intros He. destruct He; view_simpl; rewrite ?upsert_count_app; try lia;
    match goal with |- _ ≤ _ + upsert_count ?h => pose proof (upsert_count_nonneg h); lia end.
Qed.
End window.
