(* ===== verification/Sequential.v ===== *)
(** [Run] as one goroutine: the cases of its [select] with the timer functions and
    the receives of the channel's consumer run one at a time between two iterations.  The composite operations of the code
    ([handleEvent], [flushPending], [checkFlush] ...) are sequences of critical
    sections, so such a run is a run of the interleaving model; this file proves
    it once for every implementation of [Buffer]. *)

From S2P Require Import Prelude GoRuntime Buffer Interleaving Invariants.

Section sequential.
Context {B V P : Type} `{!PayloadOps V P} `{!Buffer B V P}.

(** ** Composite operations *)

Definition flush_ready (hint : list string) (b : B) : Outcome B :=
  let '(vs, b) := collect hint b in
  match vs with [] => Ok b | _ => emit (batch vs) b end.

Definition flush_all (hint : list string) (b : B) : Outcome B :=
  let '(vs, b) := collectAll hint b in
  match vs with [] => Ok b | _ => emit (batch vs) b end.

Definition check_flush (hint : list string) (b : B) : Outcome B :=
  if decide (a_max (abs b) ≤ readyCountOf b)%Z then flush_ready hint b else Ok b.

Inductive SeqCase :=
  | SeqUpsert (v : V)
  | SeqRemove (k : string)
  | SeqTick (hint : list string)
  | SeqShutdown (hint : list string)
  | SeqTimer (tid : nat) (hint : list string)
  | SeqWait (dt : N)
  | SeqReceive.

(** The boolean says that [Run] returned; the list is what the consumer received. *)
Definition seq_case (c : SeqCase) (b : B) : Outcome (bool * list P * B) :=
  match c with
  | SeqUpsert v => Ok (false, [], put v b)
  | SeqRemove k => b ← emit (deletion k) (cancel k b); Ok (false, [], b)
  | SeqTick hint => b ← flush_ready hint b; Ok (false, [], b)
  | SeqShutdown hint => b ← flush_all hint b; b ← close b; Ok (true, [], b)
  | SeqTimer tid hint =>
      match fire tid (a_timers (abs b)) with
      | Some (cl, t) =>
          b ← check_flush hint (mark (cl_key cl) (cl_gen cl) (set_timers t b));
          Ok (false, [], b)
      | None => Ok (false, [], b)
      end
  | SeqWait dt => Ok (false, [], set_timers (advance (Z.of_N dt) (a_timers (abs b))) b)
  | SeqReceive =>
      match chan_recv (a_chan (abs b)) with
      | Received p c => Ok (false, [p], set_chan c b)
      | _ => Ok (false, [], b)
      end
  end.

Fixpoint seq_run (cs : list SeqCase) (b : B) : Outcome (bool * list P * B) :=
  match cs with
  | [] => Ok (false, [], b)
  | c :: cs =>
      '(returned, got, b) ← seq_case c b;
      if returned : bool then Ok (true, got, b)
      else '(returned, got', b) ← seq_run cs b; Ok (returned, got ++ got', b)
  end.

(** The events among the cases, up to the shutdown. *)
Definition case_events (c : SeqCase) : list (Event V) :=
  match c with
  | SeqUpsert v => [Upsert v]
  | SeqRemove k => [Remove k]
  | _ => []
  end.

Fixpoint seq_events (cs : list SeqCase) : list (Event V) :=
  match cs with
  | [] | SeqShutdown _ :: _ => []
  | c :: cs => case_events c ++ seq_events cs
  end.

Definition accepted (hs : list (History V)) : list (Event V) :=
  omap (λ h, match h with Accepted e => Some e | Taken _ => None end) hs.

Lemma accepted_app h1 h2 : accepted (h1 ++ h2) = accepted h1 ++ accepted h2.
Proof. apply omap_app. Qed.

Lemma accepted_taken hs vs : accepted (hs ++ taken vs) = accepted hs.
Proof. rewrite accepted_app. destruct vs; apply app_nil_r. Qed.

(** ** A composite operation is a sequence of steps *)

(** The state of the goroutines and of the buffer. *)
Record resting (r : RunPc V) (ts : list (ThreadPc V)) (b : B) (s : Sys B V P) : Prop := {
  rest_sane : sane s;
  rest_buf : buf s = b;
  rest_run : run s = r;
  rest_threads : threads s = ts;
}.

(** What the steps of a case leave: the accepted events added to the history, the
    received payloads to the delivered ones, and one more lost payload for every
    one more drop. *)
Record advanced (s : Sys B V P) (evs : list (Event V)) (got : list P) (s' : Sys B V P) : Prop := {
  adv_steps : rtc orderly s s';
  adv_events : accepted (hist s') = accepted (hist s) ++ evs;
  adv_delivered : delivered s' = delivered s ++ got;
  adv_drops : (length (lost s') + a_drops (abs (buf s))
    = length (lost s) + a_drops (abs (buf s')))%nat;
}.

Lemma advanced_refl s : advanced s [] [] s.
Proof. split; [done|by rewrite app_nil_r|by rewrite app_nil_r|lia]. Qed.

Lemma advanced_trans s1 e1 g1 s2 e2 g2 s3 :
  advanced s1 e1 g1 s2 → advanced s2 e2 g2 s3 → advanced s1 (e1 ++ e2) (g1 ++ g2) s3.
Proof.
  intros [S1 E1 D1 L1] [S2 E2 D2 L2]. split.
  - by etrans.
  - by rewrite E2, E1, app_assoc.
  - by rewrite D2, D1, app_assoc.
  - lia.
Qed.

(** Sending never panics while the closed flag agrees with the channel, and what
    it loses before the shutdown is logged. *)
Lemma send_ok p s :
  sane s →
  ∃ b, emit p (buf s) = Ok b
    ∧ send p s = mkSys b (run s) (threads s) (hist s) (added s) (delivered s) (lost (send p s)) None
    ∧ (run s ≠ RReturned →
        (length (lost (send p s)) + a_drops (abs (buf s)) = length (lost s) + a_drops (abs b))%nat).
Proof.
  intros (Hcr & Hcl & Hret). unfold send. pose proof (abs_emit p (buf s)) as E. unfold a_emit in E.
  destruct (a_closed (abs (buf s))) eqn:Hc.
  - destruct (emit p (buf s)) as [b|x]; [|done]. exists b. rewrite Hcr. split; [done|].
    split; [done|]. intros Hn. destruct Hn. by apply Hret.
  - unfold select_send in E. rewrite Hcl in E.
    destruct (chan_has_room (a_chan (abs (buf s)))); simpl in E;
      (destruct (emit p (buf s)) as [b|x]; simpl in E; [|done]); injection E as E;
      exists b; rewrite Hcr; (split; [done|split; [done|]]); intros _; rewrite E; cbn.
    + rewrite length_app. simpl. rewrite decide_False by lia. lia.
    + rewrite decide_True by done. rewrite length_app. simpl. lia.
Qed.

(** One step, in a state where no payload is held or that leaves the history. *)
Lemma one_step l s s' evs :
  step_label l s = Some s' → inflight s = [] ∨ hist s' = hist s →
  accepted (hist s') = accepted (hist s) ++ evs → delivered s' = delivered s →
  (length (lost s') + a_drops (abs (buf s)) = length (lost s) + a_drops (abs (buf s')))%nat →
  advanced s evs [] s'.
Proof. intros Hst Hq He Hd Hl. split; try done; [|by rewrite app_nil_r]. apply rtc_once. by split; [econstructor|]. Qed.

Lemma step_resting l s s' r ts b :
  sane s → step_label l s = Some s' → run s' = r → threads s' = ts → buf s' = b →
  resting r ts b s'.
Proof. intros Hs Hst <- <- <-. split; try done. by destruct (step_good s s' Hs); [econstructor|]. Qed.

(** The goroutine of [Run] sends. *)
Lemma run_sends p r r' b s :
  resting r [] b s → run_payload r = [p] →
  (r' = RSelect ∧ (∀ vs, r ≠ REmitFinal vs) ∨ r' = RClose ∧ ∃ vs, r = REmitFinal vs) →
  ∃ b' s', emit p b = Ok b' ∧ advanced s [] [] s' ∧ resting r' [] b' s'.
Proof.
  intros [Hs <- Hr Ht] Hp Hr'. destruct (send_ok p s Hs) as (b' & He & Hsend & Hlost).
  assert (run s ≠ RReturned) as Hn by (rewrite Hr; by destruct r). specialize (Hlost Hn).
  assert (step_label LRun s = Some (upd b' r' [] (send p s))) as Hst.
  { unfold step_label, step_run. destruct (Hs) as [-> _]. rewrite Hr.
    destruct r; try done; injection Hp as <-; rewrite Hsend; cbn;
      destruct Hr' as [[-> Hf]|[-> [? Hf]]]; try done;
      first [by rewrite Ht|by destruct (Hf vs)]. }
  exists b', (upd b' r' [] (send p s)). split; [done|]. split; [|by eapply step_resting].
  eapply one_step; [done|right; by rewrite Hsend|by rewrite Hsend, app_nil_r|by rewrite Hsend|done].
Qed.

(** A timer's goroutine sends. *)
Lemma thread_sends vs b s :
  resting RSelect [TEmit vs] b s →
  ∃ b' s', emit (batch vs) b = Ok b' ∧ advanced s [] [] s' ∧ resting RSelect [] b' s'.
Proof.
  intros [Hs <- Hr Ht]. destruct (send_ok (batch vs) s Hs) as (b' & He & Hsend & Hlost).
  assert (run s ≠ RReturned) as Hn by (by rewrite Hr). specialize (Hlost Hn).
  assert (step_label (LThread 0 []) s = Some (upd b' RSelect [] (send (batch vs) s))) as Hst.
  { unfold step_label, step_thread. destruct (Hs) as [-> _]. rewrite Ht. cbn -[send].
    rewrite Hsend. cbn. by rewrite Hr. }
  exists b', (upd b' RSelect [] (send (batch vs) s)). split; [done|]. split; [|by eapply step_resting].
  eapply one_step; [done|right; by rewrite Hsend|by rewrite Hsend, app_nil_r|by rewrite Hsend|done].
Qed.

(** A section that sends nothing: one step to a known state. *)
Lemma quiet_step l s r ts b evs s' :
  sane s → inflight s = [] → step_label l s = Some s' →
  run s' = r → threads s' = ts → buf s' = b →
  accepted (hist s') = accepted (hist s) ++ evs → delivered s' = delivered s →
  lost s' = lost s → a_drops (abs (buf s')) = a_drops (abs (buf s)) →
  advanced s evs [] s' ∧ resting r ts b s'.
Proof.
  intros Hs Hi Hst Hr Ht Hb He Hd Hl Ha. split; [|by eapply step_resting].
  eapply one_step; eauto. by rewrite Hl, Ha.
Qed.

Lemma resting_inflight r ts b s :
  resting r ts b s → run_payload (P:=P) r = [] → ts ≫= thread_payload (P:=P) = [] → inflight s = [].
Proof. intros [_ _ <- <-] E1 E2. unfold inflight, held. by rewrite E1, E2. Qed.

(** ** Every case is a run of the interleaving model *)

Abbreviation simulates o s evs :=
  (∃ ret got b' s', o = Ok (ret, got, b') ∧ advanced s evs got s'
    ∧ resting (if ret then RReturned else RSelect) [] b' s').

(** Computes a step from what is known of the state. *)
Ltac compute_step Hs Hr :=
  unfold step_label, step_run, step_thread, at_select; destruct Hs as [-> _]; rewrite ?Hr;
  reflexivity.

Lemma upsert_simulated v b s :
  resting RSelect [] b s → simulates (seq_case (SeqUpsert v) b) s [Upsert v].
Proof.
  intros Hrest. pose proof (resting_inflight _ _ _ _ Hrest eq_refl eq_refl) as Hi.
  destruct Hrest as [Hs <- Hr Ht]. exists false, [], (put v (buf s)). eexists. split; [done|].
  eapply (quiet_step (LUpsert v)); [done|done|compute_step Hs Hr|..]; try done.
  - apply accepted_app.
  - cbn. by rewrite abs_put.
Qed.

Lemma remove_simulated k b s :
  resting RSelect [] b s → simulates (seq_case (SeqRemove k) b) s [Remove k].
Proof.
  intros Hrest. pose proof (resting_inflight _ _ _ _ Hrest eq_refl eq_refl) as Hi.
  destruct Hrest as [Hs <- Hr Ht]. cbn.
  edestruct (quiet_step (LRemove k) s (REmitDelete k) [] (cancel k (buf s)) [Remove k]) as [H1 R1];
    [done|done|compute_step Hs Hr|reflexivity|exact Ht|reflexivity|apply accepted_app|done|done|..].
  { cbn. by rewrite abs_cancel. }
  destruct (run_sends (deletion k) _ RSelect _ _ R1) as (b' & s' & -> & H2 & R2);
    [done|by left|].
  exists false, [], b', s'. split; [done|]. split; [|done]. by eapply (advanced_trans _ [Remove k] [] _ [] []).
Qed.

(** Taking values changes nothing the drop log counts. *)
Lemma collect_drops hint b vs b' : collect hint b = (vs, b') → a_drops (abs b') = a_drops (abs b).
Proof. intros E%collect_takes. destruct E as [_ ->]. done. Qed.

Lemma collectAll_drops hint b vs b' :
  collectAll hint b = (vs, b') → a_drops (abs b') = a_drops (abs b).
Proof. intros E%collectAll_takes. destruct E as (_ & t' & -> & _). done. Qed.

Lemma tick_simulated hint b s :
  resting RSelect [] b s → simulates (seq_case (SeqTick hint) b) s [].
Proof.
  intros Hrest. pose proof (resting_inflight _ _ _ _ Hrest eq_refl eq_refl) as Hi.
  destruct Hrest as [Hs <- Hr Ht]. cbn. unfold flush_ready.
  destruct (collect hint (buf s)) as [vs b1] eqn:E.
  edestruct (quiet_step (LTick hint) s (match vs with [] => RSelect | _ => REmitBatch vs end) [] b1 [])
    as [H1 R1];
    [done|done|unfold step_label, at_select; destruct (Hs) as [-> _]; rewrite Hr, E; reflexivity
    |done|exact Ht|done|by rewrite app_nil_r; apply accepted_taken|done|done
    |by eapply (collect_drops hint)|].
  destruct vs as [|v vs]; [by do 4 eexists|].
  destruct (run_sends (batch (v :: vs)) _ RSelect _ _ R1) as (b' & s' & -> & H2 & R2);
    [done|by left|].
  exists false, [], b', s'. split; [done|]. split; [|done]. by eapply (advanced_trans _ [] [] _ [] []).
Qed.

(** [closePayloads] at the end of [Run]. *)
Lemma close_simulated b s :
  resting RClose [] b s →
  ∃ b' s', close b = Ok b' ∧ advanced s [] [] s' ∧ resting RReturned [] b' s'.
Proof.
  intros Hrest. pose proof (resting_inflight _ _ _ _ Hrest eq_refl eq_refl) as Hi.
  destruct Hrest as [Hs <- Hr Ht]. destruct (Hs) as (Hcr & Hcl & Hret).
  pose proof (abs_close (buf s)) as E. unfold a_close in E.
  destruct (a_closed (abs (buf s))) eqn:Hc.
  { exfalso. rewrite Hr in Hret. by discriminate (proj1 Hret eq_refl). }
  unfold chan_close in E. rewrite Hcl in E.
  destruct (close (buf s)) as [b'|] eqn:Eb; simpl in E; [|done]. injection E as E.
  exists b'. eexists. split; [done|].
  eapply (quiet_step LRun);
    [done|done|unfold step_label, step_run; rewrite Hcr, Hr, Eb; reflexivity|done|exact Ht|done|..];
    try done.
  - by rewrite app_nil_r.
  - cbn. by rewrite E.
Qed.

Lemma shutdown_simulated hint b s :
  resting RSelect [] b s → simulates (seq_case (SeqShutdown hint) b) s [].
Proof.
  intros Hrest. pose proof (resting_inflight _ _ _ _ Hrest eq_refl eq_refl) as Hi.
  destruct Hrest as [Hs <- Hr Ht]. cbn. unfold flush_all.
  destruct (collectAll hint (buf s)) as [vs b1] eqn:E.
  edestruct (quiet_step (LShutdown hint) s (match vs with [] => RClose | _ => REmitFinal vs end) [] b1 [])
    as [H1 R1];
    [done|done|unfold step_label, at_select; destruct (Hs) as [-> _]; rewrite Hr, E; reflexivity
    |done|exact Ht|done|by rewrite app_nil_r; apply accepted_taken|done|done
    |by eapply (collectAll_drops hint)|].
  destruct vs as [|v vs].
  - destruct (close_simulated _ _ R1) as (b2 & s2 & E2 & H2 & R2). cbn. rewrite E2.
    exists true, [], b2, s2. split; [done|]. split; [|done]. by eapply (advanced_trans _ [] [] _ [] []).
  - destruct (run_sends (batch (v :: vs)) _ RClose _ _ R1) as (b' & s' & -> & H2 & R2);
      [done|by eauto|]. cbn.
    destruct (close_simulated _ _ R2) as (b3 & s3 & -> & H3 & R3).
    exists true, [], b3, s3. split; [done|]. split; [|done].
    eapply (advanced_trans _ [] [] _ [] []), (advanced_trans _ [] [] _ [] []); done.
Qed.

(** A timer function: the section that marks, the count, the flush, the send. *)
Lemma flush_thread_simulated hint b s :
  resting RSelect [TFlush] b s →
  ∃ b' s', flush_ready hint b = Ok b' ∧ advanced s [] [] s' ∧ resting RSelect [] b' s'.
Proof.
  intros Hrest. pose proof (resting_inflight _ _ _ _ Hrest eq_refl eq_refl) as Hi.
  destruct Hrest as [Hs <- Hr Ht]. unfold flush_ready.
  destruct (collect hint (buf s)) as [vs b1] eqn:E.
  edestruct (quiet_step (LThread 0 hint) s RSelect (match vs with [] => [] | _ => [TEmit vs] end)
    b1 []) as [H1 R1];
    [done|done|unfold step_label, step_thread; destruct (Hs) as [-> _]; rewrite Ht; cbn; rewrite E;
      reflexivity|exact Hr|by destruct vs|done|by rewrite app_nil_r; apply accepted_taken|done|done
    |by eapply (collect_drops hint)|].
  destruct vs as [|v vs]; [by do 2 eexists|].
  destruct (thread_sends _ _ _ R1) as (b' & s' & -> & H2 & R2).
  exists b', s'. split; [done|]. split; [|done]. by eapply (advanced_trans _ [] [] _ [] []).
Qed.

Lemma mark_simulated k g b s :
  resting RSelect [TMark k g] b s →
  ∃ s', advanced s [] [] s' ∧ resting RSelect [TCheck] (mark k g b) s'.
Proof.
  intros Hrest. pose proof (resting_inflight _ _ _ _ Hrest eq_refl eq_refl) as Hi.
  destruct Hrest as [Hs <- Hr Ht]. eexists.
  eapply (quiet_step (LThread 0 []));
    [done|done|unfold step_label, step_thread; destruct (Hs) as [-> _]; rewrite Ht; reflexivity
    |exact Hr|..]; try done.
  - by rewrite app_nil_r.
  - cbn. rewrite abs_mark, a_mark_set. done.
Qed.

Lemma check_simulated hint b s :
  resting RSelect [TCheck] b s →
  ∃ b' s', check_flush hint b = Ok b' ∧ advanced s [] [] s' ∧ resting RSelect [] b' s'.
Proof.
  intros Hrest. pose proof (resting_inflight _ _ _ _ Hrest eq_refl eq_refl) as Hi.
  destruct Hrest as [Hs <- Hr Ht]. unfold check_flush.
  edestruct (quiet_step (LThread 0 []) s RSelect
    (if decide (a_max (abs (buf s)) ≤ readyCountOf (buf s))%Z then [TFlush] else [])
    (buf s) []) as [H1 R1];
    [done|done|unfold step_label, step_thread; destruct (Hs) as [-> _]; rewrite Ht; reflexivity
    |exact Hr|done|done|by rewrite app_nil_r|done|done|done|].
  case_decide; [|by do 2 eexists].
  destruct (flush_thread_simulated hint _ _ R1) as (b' & s' & -> & H2 & R2).
  exists b', s'. split; [done|]. split; [|done]. by eapply (advanced_trans _ [] [] _ [] []).
Qed.

Lemma timer_simulated tid hint b s :
  resting RSelect [] b s → simulates (seq_case (SeqTimer tid hint) b) s [].
Proof.
  intros Hrest. cbn. destruct (fire tid (a_timers (abs b))) as [[cl t]|] eqn:Hf.
  2:{ exists false, [], b, s. split; [done|]. split; [apply advanced_refl|done]. }
  pose proof (resting_inflight _ _ _ _ Hrest eq_refl eq_refl) as Hi.
  destruct Hrest as [Hs <- Hr Ht].
  edestruct (quiet_step (LFire tid) s RSelect [TMark (cl_key cl) (cl_gen cl)]
    (set_timers t (buf s)) []) as [H1 R1];
    [done|done|unfold step_label; destruct (Hs) as [-> _]; rewrite Hf; reflexivity
    |exact Hr|cbn; by rewrite Ht|done|by rewrite app_nil_r|done|done
    |cbn; by rewrite abs_set_timers|].
  destruct (mark_simulated _ _ _ _ R1) as (s2 & H2 & R2).
  destruct (check_simulated hint _ _ R2) as (b3 & s3 & -> & H3 & R3).
  exists false, [], b3, s3. split; [done|]. split; [|done].
  eapply (advanced_trans _ [] [] _ [] []), (advanced_trans _ [] [] _ [] []); done.
Qed.

Lemma wait_simulated dt b s :
  resting RSelect [] b s → simulates (seq_case (SeqWait dt) b) s [].
Proof.
  intros Hrest. pose proof (resting_inflight _ _ _ _ Hrest eq_refl eq_refl) as Hi.
  destruct Hrest as [Hs <- Hr Ht]. do 3 eexists. eexists. split; [done|].
  eapply (quiet_step (LWait (Z.of_N dt)));
    [done|done|unfold step_label; destruct (Hs) as [-> _]; rewrite decide_True by lia; reflexivity
    |exact Hr|exact Ht|done|by rewrite app_nil_r|done|done|cbn; by rewrite abs_set_timers].
Qed.

Lemma receive_simulated b s :
  resting RSelect [] b s → simulates (seq_case SeqReceive b) s [].
Proof.
  intros Hrest. cbn. destruct (chan_recv (a_chan (abs b))) as [p c| |] eqn:Hc.
  2,3: exists false, [], b, s; split; [done|]; split; [apply advanced_refl|done].
  destruct Hrest as [Hs <- Hr Ht]. do 4 eexists. split; [done|].
  edestruct (λ s' (E : step_label LConsume s = Some s'), conj E (step_resting _ _ _ RSelect [] (set_chan c (buf s)) Hs E))
    as [Hst Hrest];
    [unfold step_label; destruct (Hs) as [-> _]; rewrite Hc; reflexivity|].
  split; [|by apply Hrest]. split; [apply rtc_once; split; [by econstructor|by right]|..]; cbn.
  - by rewrite app_nil_r.
  - done.
  - by rewrite abs_set_chan.
Qed.

Lemma case_simulated c b s :
  resting RSelect [] b s → simulates (seq_case c b) s (case_events c).
Proof.
  destruct c; eauto using upsert_simulated, remove_simulated, tick_simulated, shutdown_simulated,
    timer_simulated, wait_simulated, receive_simulated.
Qed.

(** Only a shutdown makes [Run] return. *)
Lemma case_returns c b ret got b' :
  seq_case c b = Ok (ret, got, b') → ret = match c with SeqShutdown _ => true | _ => false end.
Proof.
  destruct c; cbn; try (by intros [= <- _]); try (intros (? & _ & [= <- _])%bind_Ok; done).
  - intros (? & _ & (? & _ & [= <- _])%bind_Ok)%bind_Ok. done.
  - destruct (fire _ _) as [[? ?]|]; [|by intros [= <- _]].
    intros (? & _ & [= <- _])%bind_Ok. done.
  - destruct (chan_recv _); by intros [= <- _].
Qed.

Lemma run_simulated cs b s :
  resting RSelect [] b s → simulates (seq_run cs b) s (seq_events cs).
Proof.
  revert b s. induction cs as [|c cs IH]; intros b s Hrest.
  { exists false, [], b, s. split; [done|]. split; [apply advanced_refl|done]. }
  destruct (case_simulated c b s Hrest) as (ret & got & b1 & s1 & E & H1 & R1). cbn [seq_run].
  pose proof (case_returns _ _ _ _ _ E) as Hret. rewrite E. cbn. destruct ret.
  - exists true, got, b1, s1. split; [done|]. split; [|done]. by destruct c.
  - destruct (IH _ _ R1) as (ret & got' & b2 & s2 & -> & H2 & R2).
    exists ret, (got ++ got'), b2, s2. split; [done|]. split; [|done].
    pose proof (advanced_trans _ _ _ _ _ _ _ H1 H2) as H. by destruct c.
Qed.

(** ** What a sequential run promises *)

Context `{!EqDecision V}.

Definition event_index (es : list (Event V)) : gmap string V :=
  foldl (λ m e, match e with Upsert v => <[key_of v := v]> m | Remove k => delete k m end) ∅ es.

Lemma spec_index_accepted hs : spec_index hs = event_index (accepted hs).
Proof.
  induction hs as [|h hs IH] using rev_ind; [done|].
  rewrite spec_index_snoc, accepted_app, IH. unfold event_index. rewrite foldl_app.
  by destruct h as [[?|?]|?].
Qed.

(** A run never panics; when nothing was dropped the payloads received, then those
    queued, followed by the pending values make the index the events ask for; when
    it returned, nothing is pending and the channel is closed. *)
Lemma seq_run_correct cs b :
  fresh_buffer b →
  ∃ ret got b', seq_run cs b = Ok (ret, got, b')
    ∧ (a_drops (abs b') = a_drops (abs b) →
        overlay (e_val <$> a_pending (abs b'))
            (apply_payloads (got ++ chan_buf (a_chan (abs b'))) ∅)
          = event_index (seq_events cs))
    ∧ (ret = true → a_pending (abs b') = ∅ ∧ chan_closed (a_chan (abs b')) = true)
    ∧ (a_drops (abs b) ≤ a_drops (abs b')).
Proof.
  intros Hb. assert (resting RSelect [] b (init b)) as R0 by (split; [by apply init_sane|done..]).
  destruct (run_simulated cs b _ R0) as (ret & got & b' & s' & E & [Hst Hev Hdel Hlost] & [Hs <- Hr Ht]).
  exists ret, got, (buf s'). split; [done|]. cbn in Hev, Hdel, Hlost.
  assert (reachable b s') as Hreach.
  { eapply rtc_subrel; [|done]. by intros ?? [? _]. }
  destruct (orderly_in_sync b s' Hb Hst) as (_ & _ & Hidx).
  unfold view in Hidx. view_simpl.
  destruct Hs as (_ & Hcl & Hret). split; [|split; [|lia]].
  - intros Hd. rewrite Hdel, Ht, Hr, spec_index_accepted, Hev in Hidx.
    rewrite <- Hidx; [|apply nil_length_inv; lia].
    unfold held. by destruct ret; rewrite app_nil_r.
  - intros ->. split.
    + apply (reachable_drained b s' Hb Hreach). cbn. by rewrite Hr.
    + rewrite Hcl. by apply Hret.
Qed.
End sequential.
