(* ===== verification/BufferTheorems.v ===== *)
(** What the two debounce buffers promise: their [Run] loops, and the goroutines
    that share them.  The instance buffer's names are the unqualified ones. *)

From S2P Require Import Prelude GoRuntime GoStrings Config Metadata Watcher Buffer Interleaving.
From S2P Require Import Invariants Sequential CrdDebounce Debounce.

(** ** [Run] is a sequential run *)

Definition seq_of (c : RunCase) : SeqCase (V:=ResourceInstance) :=
  match c with
  | CaseEvent ev =>
      if decide (EvType ev = EventDelete) then SeqRemove (ID (EvInstance ev))
      else SeqUpsert (EvInstance ev)
  | CaseTick hint => SeqTick hint
  | CaseEventsClosed hint | CaseDone hint => SeqShutdown hint
  | CaseTimer tid hint => SeqTimer tid hint
  | CaseWait dt => SeqWait dt
  | CaseReceive => SeqReceive
  end.

Definition crd_seq_of (c : CrdDebounce.RunCase) : SeqCase (V:=string) :=
  match c with
  | CrdDebounce.CaseEvent ev =>
      if decide (CrdType ev = EventDelete) then SeqRemove (CrdName ev) else SeqUpsert (CrdName ev)
  | CrdDebounce.CaseTick hint => SeqTick hint
  | CrdDebounce.CaseEventsClosed hint | CrdDebounce.CaseDone hint => SeqShutdown hint
  | CrdDebounce.CaseTimer tid hint => SeqTimer tid hint
  | CrdDebounce.CaseWait dt => SeqWait dt
  | CrdDebounce.CaseReceive => SeqReceive
  end.

Lemma flushPending_seq hint (d : DebounceBuffer) : flushPending hint d = flush_ready hint d.
Proof.
  unfold flushPending, flush_ready. cbn. destruct (takeReady hint d) as [[|v vs] b]; [done|].
  by rewrite decide_False.
Qed.

Lemma crd_flushPending_seq hint d : CrdDebounce.flushPending hint d = flush_ready hint d.
Proof.
  unfold CrdDebounce.flushPending, flush_ready. cbn.
  destruct (CrdDebounce.takeReady hint d) as [[|v vs] b]; [done|]. by rewrite decide_False.
Qed.

Lemma flushAll_seq hint (d : DebounceBuffer) : flushAllPending hint d = flush_all hint d.
Proof.
  unfold flushAllPending, flush_all. cbn. destruct (takeAll hint d) as [[|v vs] b]; [done|].
  rewrite decide_True; [done|simpl; lia].
Qed.

Lemma crd_flushAll_seq hint d : CrdDebounce.flushAllPending hint d = flush_all hint d.
Proof.
  unfold CrdDebounce.flushAllPending, flush_all. cbn.
  destruct (CrdDebounce.takeAll hint d) as [[|v vs] b]; [done|].
  rewrite decide_True; [done|simpl; lia].
Qed.

Lemma runCase_seq c (d : DebounceBuffer) : runCase c d = seq_case (seq_of c) d.
Proof.
  destruct c as [ev|hint|hint|hint|tid hint|dt| ]; cbn; rewrite ?flushPending_seq, ?flushAll_seq; try done.
  - unfold handleEvent. by case_decide.
  - destruct (fire tid (timers d)) as [[cl t]|]; [|done].
    unfold timerFunc, checkFlush, check_flush. cbn. by rewrite flushPending_seq.
Qed.

Lemma crd_runCase_seq c d : CrdDebounce.runCase c d = seq_case (crd_seq_of c) d.
Proof.
  destruct c as [ev|hint|hint|hint|tid hint|dt| ]; cbn; rewrite ?crd_flushPending_seq, ?crd_flushAll_seq;
    try done.
  - unfold CrdDebounce.handleEvent. by case_decide.
  - destruct (fire tid (CrdDebounce.timers d)) as [[cl t]|]; [|done].
    unfold CrdDebounce.timerFunc, CrdDebounce.checkFlush, check_flush. cbn.
    by rewrite crd_flushPending_seq.
Qed.

Lemma runLoop_seq cs (d : DebounceBuffer) : runLoop cs d = seq_run (seq_of <$> cs) d.
Proof.
  revert d. induction cs as [|c cs IH]; intros d; [done|]. cbn. rewrite runCase_seq.
  destruct (seq_case (seq_of c) d) as [[[[] got] b]|]; cbn; by rewrite ?IH.
Qed.

Lemma crd_runLoop_seq cs d : CrdDebounce.runLoop cs d = seq_run (crd_seq_of <$> cs) d.
Proof.
  revert d. induction cs as [|c cs IH]; intros d; [done|]. cbn. rewrite crd_runCase_seq.
  destruct (seq_case (crd_seq_of c) d) as [[[[] got] b]|]; cbn; by rewrite ?IH.
Qed.

Lemma new_fresh cfg : fresh_buffer (NewDebounceBuffer cfg).
Proof. done. Qed.

Lemma crd_new_fresh cfg : fresh_buffer (CrdDebounce.NewCrdDebounceBuffer cfg).
Proof. done. Qed.

(** ** What the receiver's index should be *)

(** The events [Run] handles before it returns. *)
Fixpoint handled (cs : list RunCase) : list ResourceEvent :=
  match cs with
  | [] | CaseEventsClosed _ :: _ | CaseDone _ :: _ => []
  | CaseEvent ev :: cs => ev :: handled cs
  | _ :: cs => handled cs
  end.

Fixpoint crd_handled (cs : list CrdDebounce.RunCase) : list CrdEvent :=
  match cs with
  | [] | CrdDebounce.CaseEventsClosed _ :: _ | CrdDebounce.CaseDone _ :: _ => []
  | CrdDebounce.CaseEvent ev :: cs => ev :: crd_handled cs
  | _ :: cs => crd_handled cs
  end.

(** The index when every event acts on it at once. *)
Definition index_of (evs : list ResourceEvent) : gmap string ResourceInstance :=
  foldl (λ idx ev, if decide (EvType ev = EventDelete) then delete (ID (EvInstance ev)) idx
                   else <[ID (EvInstance ev) := EvInstance ev]> idx) ∅ evs.

Definition crd_index_of (evs : list CrdEvent) : gmap string string :=
  foldl (λ idx ev, if decide (CrdType ev = EventDelete) then delete (CrdName ev) idx
                   else <[CrdName ev := CrdName ev]> idx) ∅ evs.

(** An event as the transition system sees it. *)
Definition instance_event (ev : ResourceEvent) : Event ResourceInstance :=
  if decide (EvType ev = EventDelete) then Remove (ID (EvInstance ev)) else Upsert (EvInstance ev).

Definition crd_event (ev : CrdEvent) : Event string :=
  if decide (CrdType ev = EventDelete) then Remove (CrdName ev) else Upsert (CrdName ev).

Lemma handled_events cs : seq_events (seq_of <$> cs) = instance_event <$> handled cs.
Proof. unfold instance_event. induction cs as [|[] cs IH]; cbn; try case_decide; cbn; by rewrite ?IH. Qed.

Lemma crd_handled_events cs : seq_events (crd_seq_of <$> cs) = crd_event <$> crd_handled cs.
Proof. unfold crd_event. induction cs as [|[] cs IH]; cbn; try case_decide; cbn; by rewrite ?IH. Qed.

Lemma instance_event_index evs : event_index (instance_event <$> evs) = index_of evs.
Proof.
  unfold event_index, index_of. generalize (∅ : gmap string ResourceInstance).
  induction evs as [|ev evs IH]; intros m; cbn; [done|]. rewrite IH. unfold instance_event. by case_decide.
Qed.

Lemma crd_event_index evs : event_index (crd_event <$> evs) = crd_index_of evs.
Proof.
  unfold event_index, crd_index_of. generalize (∅ : gmap string string).
  induction evs as [|ev evs IH]; intros m; cbn; [done|]. rewrite IH. unfold crd_event. by case_decide.
Qed.

Lemma event_index_of cs : event_index (seq_events (seq_of <$> cs)) = index_of (handled cs).
Proof. by rewrite handled_events, instance_event_index. Qed.

Lemma crd_event_index_of cs :
  event_index (seq_events (crd_seq_of <$> cs)) = crd_index_of (crd_handled cs).
Proof. by rewrite crd_handled_events, crd_event_index. Qed.

(** ** Example runs *)

(** A 10 s window, a flush every 5 s, batches of one. *)
Definition sample_cfg : Config :=
  mkConfig "http://localhost:3000" "" (10 * Second) (5 * Second) 1 (24 * 60 * Minute) [] [] ":8082" "info".

Definition nginx_instance : ResourceInstance := Eval vm_compute in Extract nginx.
Abbreviation nginx_id := "default/apps/v1/Deployment/nginx".
Abbreviation instance_init := (init (NewDebounceBuffer sample_cfg)).

(** The states the goroutines of an instance buffer, and of a capabilities buffer,
    can reach. *)
Definition instance_states (cfg : Config) : Sys DebounceBuffer ResourceInstance SyncPayload → Prop :=
  reachable (NewDebounceBuffer cfg).

Definition capability_states (cfg : Config) :
    Sys CrdDebounce.CrdDebounceBuffer string CrdDebounce.CrdSyncPayload → Prop :=
  reachable (CrdDebounce.NewCrdDebounceBuffer cfg).

(** The final state of a run; a run that is not one gives the initial state. *)
Definition final (ls : list (Label ResourceInstance)) :
    Sys DebounceBuffer ResourceInstance SyncPayload :=
  default instance_init (exec ls instance_init).

Lemma final_reachable ls : is_Some (exec ls instance_init) → instance_states sample_cfg (final ls).
Proof. intros [s E]. unfold final. rewrite E. by apply (exec_rtc ls). Qed.

Ltac run_trace := apply final_reachable, (bool_decide_unpack _); vm_compute; exact I.

Lemma run_index cfg cs :
  (0 < BatchFlushInterval cfg)%Z →
  ∃ ret got d, Run cs (NewDebounceBuffer cfg) = Ok (ret, got, d)
    ∧ (dropped d = [] →
        overlay (instance <$> pending d) (apply_payloads (got ++ chan_buf (Payloads d)) ∅)
          = index_of (handled cs))
    ∧ (ret = true → pending d = ∅ ∧ chan_closed (Payloads d) = true).
Proof.
  intros Hpos.
  destruct (seq_run_correct (seq_of <$> cs) _ (new_fresh cfg)) as (ret & got & d & E & Hi & Hr & _).
  exists ret, got, d. unfold Run, NewTicker. cbn. rewrite decide_True by done. cbn.
  rewrite runLoop_seq, E, <- event_index_of. split; [done|]. split.
  - intros Hd. rewrite <- Hi by (cbn; by rewrite Hd). cbn. by rewrite <- map_fmap_compose.
  - intros Hret. destruct (Hr Hret) as [Hp Hc]. split; [|done]. by apply fmap_empty_inv in Hp.
Qed.

Lemma crd_run_index cfg cs :
  (0 < BatchFlushInterval cfg)%Z →
  ∃ ret got d, CrdDebounce.Run cs (CrdDebounce.NewCrdDebounceBuffer cfg) = Ok (ret, got, d)
    ∧ (CrdDebounce.dropped d = [] →
        overlay (CrdDebounce.crdName <$> CrdDebounce.pending d)
            (apply_payloads (got ++ chan_buf (CrdDebounce.Payloads d)) ∅)
          = crd_index_of (crd_handled cs))
    ∧ (ret = true → CrdDebounce.pending d = ∅ ∧ chan_closed (CrdDebounce.Payloads d) = true).
Proof.
  intros Hpos.
  destruct (seq_run_correct (crd_seq_of <$> cs) _ (crd_new_fresh cfg)) as (ret & got & d & E & Hi & Hr & _).
  exists ret, got, d. unfold CrdDebounce.Run, NewTicker. cbn. rewrite decide_True by done. cbn.
  rewrite crd_runLoop_seq, E, <- crd_event_index_of. split; [done|]. split.
  - intros Hd. rewrite <- Hi by (cbn; by rewrite Hd). cbn. by rewrite <- map_fmap_compose.
  - intros Hret. destruct (Hr Hret) as [Hp Hc]. split; [|done]. by apply fmap_empty_inv in Hp.
Qed.

(** C3: debouncing and batching do not change the outcome of a sequential run.  For
    every configuration with a positive flush interval and every sequence of
    events, ticks, shutdowns, timer functions that run between two iterations and
    payloads that the sender takes between two iterations, [Run] does not panic;
    as long as no payload was dropped, the payloads the sender took and those
    still queued, applied in order, followed by the values still pending make the
    index that results from applying every event directly; and when it returned,
    nothing is pending and the channel is closed. *)
Theorem run_delivers_the_index (cfg : Config) (Hpos : (0 < BatchFlushInterval cfg)%Z) :
  (∀ cs, ∃ ret got d, Run cs (NewDebounceBuffer cfg) = Ok (ret, got, d)
     ∧ (dropped d = [] →
         overlay (instance <$> pending d) (apply_payloads (got ++ chan_buf (Payloads d)) ∅)
           = index_of (handled cs))
     ∧ (ret = true → pending d = ∅ ∧ chan_closed (Payloads d) = true))
  ∧ (∀ cs, ∃ ret got d, CrdDebounce.Run cs (CrdDebounce.NewCrdDebounceBuffer cfg) = Ok (ret, got, d)
     ∧ (CrdDebounce.dropped d = [] →
         overlay (CrdDebounce.crdName <$> CrdDebounce.pending d)
             (apply_payloads (got ++ chan_buf (CrdDebounce.Payloads d)) ∅)
           = crd_index_of (crd_handled cs))
     ∧ (ret = true → CrdDebounce.pending d = ∅ ∧ chan_closed (CrdDebounce.Payloads d) = true)).
Proof. split; intros cs; [by apply run_index|by apply crd_run_index]. Qed.

(** C34: [Run] panics exactly when its ticker cannot be created, in both buffers,
    and the configuration [BATCH_FLUSH_INTERVAL_MS=0] is such a one: [Load]
    accepts it. *)
Theorem Run_panics_iff `{GoUnicode} :
  (∀ cfg cs, (∃ x, Run cs (NewDebounceBuffer cfg) = Panicked x) ↔ (BatchFlushInterval cfg ≤ 0)%Z)
  ∧ (∀ cfg cs, (∃ x, CrdDebounce.Run cs (CrdDebounce.NewCrdDebounceBuffer cfg) = Panicked x)
       ↔ (BatchFlushInterval cfg ≤ 0)%Z)
  ∧ (∀ env : string → string, BatchFlushInterval
       (Load (λ key, if String.eqb key "BATCH_FLUSH_INTERVAL_MS" then "0" else env key)) = 0%Z).
Proof.
  split; [|split; [|done]]; intros cfg cs.
  - unfold Run, NewTicker. cbn. case_decide as Hd; cbn.
    + rewrite runLoop_seq. destruct (seq_run_correct (seq_of <$> cs) _ (new_fresh cfg)) as (? & ? & ? & -> & _).
      split; [by intros [? ?]|lia].
    + split; [intros _; lia|eauto].
  - unfold CrdDebounce.Run, NewTicker. cbn. case_decide as Hd; cbn.
    + rewrite crd_runLoop_seq.
      destruct (seq_run_correct (crd_seq_of <$> cs) _ (crd_new_fresh cfg)) as (? & ? & ? & -> & _).
      split; [by intros [? ?]|lia].
    + split; [intros _; lia|eauto].
Qed.

(** ** The goroutines that share a buffer *)

(** C4: whatever the order in which [Run], the timer goroutines, the consumer and
    the clock take their steps, no goroutine ever sends on a closed channel or
    closes it twice; the channel is closed exactly once [Run] has returned, and
    by then nothing is pending. *)
Theorem buffers_never_panic (cfg : Config) :
  (∀ s, instance_states cfg s →
     crash s = None
     ∧ (chan_closed (Payloads (buf s)) = true ↔ run s = RReturned)
     ∧ (run s = RReturned → pending (buf s) = ∅))
  ∧ (∀ s, capability_states cfg s →
     crash s = None
     ∧ (chan_closed (CrdDebounce.Payloads (buf s)) = true ↔ run s = RReturned)
     ∧ (run s = RReturned → CrdDebounce.pending (buf s) = ∅)).
Proof.
  split; intros s Hs;
    [destruct (reachable_safe _ s (new_fresh cfg) Hs) as (Hc & Hcl & Hp)
    |destruct (reachable_safe _ s (crd_new_fresh cfg) Hs) as (Hc & Hcl & Hp)];
    (split; [done|split; [done|]]); intros Hr; apply Hp in Hr; by apply fmap_empty_inv in Hr.
Qed.

(** C6: payloads are neither invented, duplicated nor altered.  In every reachable
    state the payloads received, in the channel, lost, and held by a goroutine
    are, together, exactly one deletion for every delete event accepted and one
    payload for every batch taken out of the buffer. *)
Theorem payload_accounting (cfg : Config) :
  (∀ s, instance_states cfg s →
     hist s ≫= history_payload
       ≡ₚ delivered s ++ chan_buf (Payloads (buf s)) ++ lost s ++ inflight s)
  ∧ (∀ s, capability_states cfg s →
     hist s ≫= history_payload
       ≡ₚ delivered s ++ chan_buf (CrdDebounce.Payloads (buf s)) ++ lost s ++ inflight s).
Proof.
  split; intros s Hs; [exact (reachable_accounted _ s (new_fresh cfg) Hs)
                      |exact (reachable_accounted _ s (crd_new_fresh cfg) Hs)].
Qed.

(** C7: last state wins.  Every batch that was ever taken consists of the latest
    values of its keys, each accepted since the key was last taken or deleted,
    and the pending values are the accepted ones that are still to be taken. *)
Theorem last_state_wins (cfg : Config) :
  (∀ s, instance_states cfg s → replay (hist s) ∅ = Some (instance <$> pending (buf s)))
  ∧ (∀ s, capability_states cfg s →
       replay (hist s) ∅ = Some (CrdDebounce.crdName <$> CrdDebounce.pending (buf s))).
Proof.
  split; intros s Hs;
    [destruct (reachable_replayed _ s (new_fresh cfg) Hs) as [_ E]
    |destruct (reachable_replayed _ s (crd_new_fresh cfg) Hs) as [_ E]];
    unfold view in E; view_simpl; rewrite E; cbn; by rewrite <- map_fmap_compose.
Qed.

(** Nothing is pending when [Run] has returned. *)
Lemma buffers_drained cfg :
  (∀ s, rtc orderly (init (NewDebounceBuffer cfg)) s → run s = RReturned → pending (buf s) = ∅)
  ∧ (∀ s, rtc orderly (init (CrdDebounce.NewCrdDebounceBuffer cfg)) s → run s = RReturned →
       CrdDebounce.pending (buf s) = ∅).
Proof.
  split; intros s Hs Hr;
    [destruct (reachable_safe _ s (new_fresh cfg)) as (_ & _ & Hp)
    |destruct (reachable_safe _ s (crd_new_fresh cfg)) as (_ & _ & Hp)];
    try (by eapply rtc_subrel; [|exact Hs]; intros ?? [? _]);
    apply Hp in Hr; by apply fmap_empty_inv in Hr.
Qed.

Lemma instances_settled cfg s :
  rtc orderly (init (NewDebounceBuffer cfg)) s →
  pending (buf s) = ∅ → inflight s = [] → chan_buf (Payloads (buf s)) = [] → lost s = [] →
  apply_payloads (delivered s) ∅ = spec_index (hist s).
Proof.
  intros Hs Hp Hi Hc Hl. destruct (orderly_in_sync _ s (new_fresh cfg) Hs) as (_ & _ & E).
  unfold view in E. view_simpl. rewrite <- (E Hl). unfold inflight in Hi. rewrite Hi. cbn [abs].
  change (a_pending _) with (entry <$> pending (buf s)). change (a_chan _) with (Payloads (buf s)).
  rewrite Hp, Hc, !fmap_empty, !app_nil_r. unfold overlay. by rewrite map_empty_union.
Qed.

Lemma capabilities_settled cfg s :
  rtc orderly (init (CrdDebounce.NewCrdDebounceBuffer cfg)) s →
  CrdDebounce.pending (buf s) = ∅ → inflight s = [] →
  chan_buf (CrdDebounce.Payloads (buf s)) = [] → lost s = [] →
  apply_payloads (delivered s) ∅ = spec_index (hist s).
Proof.
  intros Hs Hp Hi Hc Hl. destruct (orderly_in_sync _ s (crd_new_fresh cfg) Hs) as (_ & _ & E).
  unfold view in E. view_simpl. rewrite <- (E Hl). unfold inflight in Hi. rewrite Hi. cbn [abs].
  change (a_pending _) with (CrdDebounce.entry <$> CrdDebounce.pending (buf s)).
  change (a_chan _) with (CrdDebounce.Payloads (buf s)).
  rewrite Hp, Hc, !fmap_empty, !app_nil_r. unfold overlay. by rewrite map_empty_union.
Qed.

(** C5: the receiver's index.  When no event is accepted and no batch taken while
    some goroutine still holds a payload, then, once nothing is pending, held or
    queued, and if nothing was lost, the payloads received make the index that
    applying every event directly makes. *)
Theorem index_is_synced (cfg : Config) :
  (∀ s, rtc orderly (init (NewDebounceBuffer cfg)) s →
     pending (buf s) = ∅ → inflight s = [] → chan_buf (Payloads (buf s)) = [] → lost s = [] →
     apply_payloads (delivered s) ∅ = spec_index (hist s))
  ∧ (∀ s, rtc orderly (init (CrdDebounce.NewCrdDebounceBuffer cfg)) s →
     CrdDebounce.pending (buf s) = ∅ → inflight s = [] →
     chan_buf (CrdDebounce.Payloads (buf s)) = [] → lost s = [] →
     apply_payloads (delivered s) ∅ = spec_index (hist s)).
Proof.
  split; intros s Hs Hp Hi Hc Hl; [by apply (instances_settled cfg)|by apply (capabilities_settled cfg)].
Qed.

(** C8: no change is forgotten.  In every reachable state a pending entry that is not
    ready has its timer armed or a goroutine about to mark it, and can still
    become ready with its value unchanged, whatever happened before. *)
Theorem no_change_forgotten (cfg : Config) s id p (Hs : instance_states cfg s)
    (Hp : pending (buf s) !! id = Some p) :
  (ready p = true
   ∨ (∃ dl, armed (timers (buf s)) !! timer p = Some (mkTimer dl (mkClosure id (gen p))))
   ∨ TMark id (gen p) ∈ threads s)
  ∧ (∃ ls s' p', exec ls s = Some s' ∧ pending (buf s') !! id = Some p'
       ∧ ready p' = true ∧ instance p' = instance p).
Proof.
  assert (a_pending (abs (buf s)) !! id = Some (entry p)) as Hk.
  { change (a_pending (abs (buf s))) with (entry <$> pending (buf s)). by rewrite lookup_fmap, Hp. }
  split.
  - destruct (ready p) eqn:Hr; [by left|right].
    exact (not_forgotten _ (reachable_timers_ok _ s (new_fresh cfg) Hs) id (entry p) Hk Hr).
  - destruct (can_become_ready _ s id (entry p) (new_fresh cfg) Hs Hk) as (ls & s' & e & E & Hk' & Hr & Hv).
    change (a_pending (abs (buf s'))) with (entry <$> pending (buf s')) in Hk'.
    rewrite lookup_fmap in Hk'. destruct (pending (buf s') !! id) as [p'|] eqn:Hp'; [|done].
    injection Hk' as <-. by exists ls, s', p'.
Qed.

(** ** Witnesses *)

(** Two values, one replaced and one deleted, whose deletion is received, and a
    shutdown. *)
Definition sample_cases : list RunCase :=
  [CaseEvent (mkResourceEvent EventAdd nginx_instance);
   CaseEvent (mkResourceEvent EventAdd (Extract (crd_object "widgets.example.com")));
   CaseEvent (mkResourceEvent EventUpdate nginx_instance);
   CaseEvent (mkResourceEvent EventDelete (Extract (crd_object "widgets.example.com")));
   CaseReceive; CaseTick []; CaseWait 20000000000; CaseTimer 2 []; CaseDone []].

Lemma run_delivers_the_index_witness :
  ∃ ret got d, Run sample_cases (NewDebounceBuffer sample_cfg) = Ok (ret, got, d)
    ∧ overlay (instance <$> pending d) (apply_payloads (got ++ chan_buf (Payloads d)) ∅)
        = {[nginx_id := nginx_instance]}.
Proof.
  destruct (proj1 (run_delivers_the_index sample_cfg (eq_refl : 0 < BatchFlushInterval sample_cfg)%Z)
    sample_cases) as (ret & got & d & E & Hi & _).
  exists ret, got, d. split; [exact E|]. rewrite Hi; [vm_compute; reflexivity|].
  assert (match Run sample_cases (NewDebounceBuffer sample_cfg) with
          | Ok (_, _, d) => dropped d | Panicked _ => [] end = []) as Hd by (vm_compute; reflexivity).
  rewrite E in Hd. exact Hd.
Defined.

(** One upsert, debounced, flushed by the ticker and received. *)
Definition quiet_trace : list (Label ResourceInstance) :=
  [LUpsert nginx_instance; LWait (10 * Second); LFire 0; LThread 0 []; LTick []; LRun; LConsume].

Lemma buffers_never_panic_witness : crash (final quiet_trace) = None.
Proof. apply (proj1 (buffers_never_panic sample_cfg)). run_trace. Defined.

Lemma payload_accounting_witness :
  [batch [nginx_instance]] ≡ₚ delivered (final quiet_trace).
Proof.
  assert (instance_states sample_cfg (final quiet_trace)) as Hs by run_trace.
  pose proof (proj1 (payload_accounting sample_cfg) _ Hs) as H. vm_compute in H |- *. exact H.
Defined.

Lemma last_state_wins_witness :
  replay (hist (final [LUpsert nginx_instance])) ∅ = Some {[nginx_id := nginx_instance]}.
Proof.
  assert (instance_states sample_cfg (final [LUpsert nginx_instance])) as Hs by run_trace.
  rewrite (proj1 (last_state_wins sample_cfg) _ Hs). vm_compute. reflexivity.
Defined.

Lemma index_is_synced_witness :
  apply_payloads (delivered (final quiet_trace)) ∅ = {[nginx_id := nginx_instance]}.
Proof.
  rewrite (proj1 (index_is_synced sample_cfg) (final quiet_trace));
    [vm_compute; reflexivity| |vm_compute; reflexivity..].
  apply (exec_orderly_rtc quiet_trace). vm_compute. reflexivity.
Defined.

Lemma no_change_forgotten_witness :
  ∃ ls s', exec ls (final [LUpsert nginx_instance]) = Some s' ∧ is_Some (pending (buf s') !! nginx_id).
Proof.
  assert (instance_states sample_cfg (final [LUpsert nginx_instance])) as Hs by run_trace.
  destruct (no_change_forgotten sample_cfg _ nginx_id (mkPendingChange nginx_instance 0 false 0) Hs)
    as (_ & ls & s' & p' & E & Hp & _); [vm_compute; reflexivity|].
  exists ls, s'. split; [exact E|by exists p'].
Defined.
