(* ===== verification/Quiescence.v ===== *)
(** What the goroutines of a buffer do to its channel, the well-formedness of the
    buffer, and the end of their work: between two events from outside the
    goroutines take a bounded number of steps, and they only stop when all of
    them have nothing left to do.  The general part is for every implementation
    of [Buffer]; the properties are those of the two buffers. *)

From S2P Require Import Prelude GoRuntime GoStrings Config Metadata Watcher Buffer Interleaving.
From S2P Require Import Invariants Sequential CrdDebounce Debounce BufferTheorems.

(** ** The channel and the log *)

Section channel.
Context {B V P : Type} `{!PayloadOps V P} `{!Buffer B V P}.
Implicit Types s : Sys B V P.
Abbreviation bufA s := (abs (buf s)).
Abbreviation chan s := (a_chan (abs (buf s))).
Abbreviation drops s := (a_drops (abs (buf s))).

(** What a step does to the payloads: nothing, or it enqueues one that a goroutine
    held, or it loses that one, with a log line or because the channel is
    already closed. *)
Inductive ChanStep s s' : Prop :=
  | ChanQuiet ps :
      chan_buf (chan s) = ps ++ chan_buf (chan s') → chan_cap (chan s') = chan_cap (chan s) →
      lost s' = lost s → drops s' = drops s → ChanStep s s'
  | ChanSent p :
      p ∈ inflight s → a_closed (bufA s) = false → chan_has_room (chan s) = true → chan s' = chan_push p (chan s) →
      lost s' = lost s → drops s' = drops s → ChanStep s s'
  | ChanDropped p :
      p ∈ inflight s → chan_has_room (chan s) = false → a_closed (bufA s) = false →
      chan s' = chan s → lost s' = lost s ++ [p] → drops s' = S (drops s) → ChanStep s s'
  | ChanDiscarded p :
      p ∈ inflight s → a_closed (bufA s) = true →
      chan s' = chan s → lost s' = lost s ++ [p] → drops s' = drops s → ChanStep s s'.

Lemma chan_same s s' :
  chan s' = chan s → lost s' = lost s → drops s' = drops s → ChanStep s s'.
Proof. intros Hc Hl Hd. apply (ChanQuiet _ _ []); by rewrite ?Hc. Qed.

(** A send, followed by any move of the goroutines. *)
Lemma send_chan p r ts s :
  sane s → p ∈ inflight s → ChanStep s (upd (buf (send p s)) r ts (send p s)).
Proof.
  intros (Hcr & Hcl & _) Hp. unfold send. pose proof (abs_emit p (buf s)) as E. unfold a_emit in E.
  destruct (a_closed (bufA s)) eqn:Hc.
  - destruct (emit p (buf s)) as [b|x]; simpl in E; [|done]. injection E as E.
    rewrite E, decide_True by done. apply (ChanDiscarded _ _ p); cbn; by rewrite ?E.
  - unfold select_send in E. rewrite Hcl in E.
    destruct (chan_has_room (chan s)) eqn:Hr; simpl in E;
      (destruct (emit p (buf s)) as [b|x]; simpl in E; [|done]); injection E as E; rewrite E; cbn.
    + rewrite decide_False by (rewrite length_app; cbn; lia).
      apply (ChanSent _ _ p); cbn; by rewrite ?E.
    + rewrite decide_True by done. apply (ChanDropped _ _ p); cbn; by rewrite ?E.
Qed.

Lemma held_run s p : run_payload (run s) = [p] → p ∈ inflight s.
Proof. intros E. unfold inflight, held. rewrite E. left. Qed.

Lemma held_thread s i vs : threads s !! i = Some (TEmit vs) → batch vs ∈ inflight s.
Proof.
  intros Hi. unfold inflight, held. apply elem_of_app. right.
  apply list_elem_of_bind. exists (TEmit vs). split; [left|by eapply list_elem_of_lookup_2].
Qed.

Lemma run_chan s s' : sane s → step_run s = Some s' → ChanStep s s'.
Proof.
  intros Hs. unfold step_run. destruct (run s) eqn:Hr; intros [= <-].
  1-3: rewrite threads_send; apply send_chan; [done|apply held_run; by rewrite Hr].
  destruct (Hs) as (_ & Hcl & _). pose proof (abs_close (buf s)) as E. unfold a_close in E.
  destruct (a_closed (bufA s)) eqn:Hc.
  - destruct (close (buf s)); simpl in E; [|done]. injection E as E.
    apply chan_same; cbn; by rewrite ?E.
  - unfold chan_close in E. rewrite Hcl in E. destruct (close (buf s)); simpl in E; [|done].
    injection E as E. apply (ChanQuiet _ _ []); cbn; by rewrite ?E.
Qed.

Lemma thread_chan i hint s s' : sane s → step_thread i hint s = Some s' → ChanStep s s'.
Proof.
  intros Hs. unfold step_thread.
  destruct (threads s !! i) as [[k g| | |vs]|] eqn:Hi; cbn [mbind option_bind]; [..|done]; intros [= <-].
  - pose proof (abs_mark k g (buf s)) as Ha. rewrite a_mark_set in Ha.
    apply chan_same; cbn; by rewrite ?Ha.
  - by apply chan_same.
  - destruct (collect hint (buf s)) as [vs b] eqn:E. apply collect_takes in E as [_ Ha].
    apply chan_same; cbn; first [done|by rewrite Ha].
  - apply send_chan; [done|]. by eapply held_thread.
Qed.

Lemma step_chan s s' : sane s → step s s' → ChanStep s s'.
Proof.
  intros Hs [l E]. destruct (Hs) as (Hcr & _). unfold step_label in E. rewrite Hcr in E.
  destruct l as [v|k|hint|hint| |tid|i hint|dt| ]; eauto using run_chan, thread_chan;
    try (destruct (at_select s); [|done]).
  - injection E as <-. apply chan_same; cbn; by rewrite ?abs_put.
  - injection E as <-. apply chan_same; cbn; by rewrite ?abs_cancel.
  - destruct (collect hint (buf s)) as [vs b] eqn:Ec. injection E as <-.
    apply collect_takes in Ec as [_ Ha]. apply chan_same; cbn; first [done|by rewrite Ha].
  - destruct (collectAll hint (buf s)) as [vs b] eqn:Ec. injection E as <-.
    apply collectAll_takes in Ec as (_ & t & Ha & _). apply chan_same; cbn; by rewrite ?Ha.
  - destruct (fire tid _) as [[cl t]|]; [|done]. injection E as <-.
    apply chan_same; cbn; by rewrite ?abs_set_timers.
  - case_decide; [|done]. injection E as <-. apply chan_same; cbn; by rewrite ?abs_set_timers.
  - unfold chan_recv in E. destruct (chan_buf (chan s)) as [|p ps] eqn:Hb.
    { by destruct (chan_closed (chan s)). }
    injection E as <-. apply (ChanQuiet _ _ [p]); cbn; by rewrite ?abs_set_chan.
Qed.

(** A property of states that holds initially and that [ChanStep] preserves. *)
Lemma reachable_chan (I : Sys B V P → Prop) b s :
  fresh_buffer b → I (init b) →
  (∀ s s', sane s → I s → sane s' → ChanStep s s' → step s s' → I s') → reachable b s → I s.
Proof.
  intros Hb Hi HI Hr. cut (sane s ∧ I s); [by intros [_ ?]|].
  refine (rtc_invariant step (λ s, sane s ∧ I s) _ _ _ _ Hr).
  - split; [by apply init_sane|done].
  - intros s1 s2 [Hs1 H1] Hst. destruct (step_good _ _ Hs1 Hst) as [Hs2 _].
    eauto using step_chan.
Qed.

Lemma reachable_bounded b s :
  fresh_buffer b → reachable b s →
  chan_cap (chan s) = chan_cap (a_chan (abs b)) ∧ chan_wf (chan s).
Proof.
  intros Hb. apply (reachable_chan (λ s, chan_cap (chan s) = _ ∧ chan_wf (chan s))); [done| |].
  - destruct Hb as (_ & _ & _ & Hch & _). unfold chan_wf. cbn. rewrite Hch. cbn. split; [done|lia].
  - intros s1 s2 _ [Hc Hw] _ Hst _.
    destruct Hst as [ps E Hcap _ _|p _ _ Hr E _ _|p _ _ _ E _ _|p _ _ E _ _]; try (by rewrite E).
    + split; [congruence|]. unfold chan_wf in *. rewrite Hcap. rewrite E, length_app in Hw. lia.
    + rewrite E. split; [done|]. by apply chan_push_wf.
Qed.

(** Nothing is enqueued once the channel is closed. *)
Lemma closed_queue s s' :
  ChanStep s s' → a_closed (bufA s) = true → ∃ ps, chan_buf (chan s) = ps ++ chan_buf (chan s').
Proof.
  intros [ps E _ _ _|p _ Hc _ _ _ _|p _ _ Hc _ _ _|p _ _ E _ _] Hcl; [by exists ps|congruence..|].
  exists []. by rewrite E.
Qed.

Lemma returned_stays s s' : step s s' → run s = RReturned → run s' = RReturned.
Proof.
  intros [l E] Hr. unfold step_label, at_select, step_run in E. rewrite Hr in E.
  destruct (crash s); [done|]. destruct l as [v|k|hint|hint| |tid|i hint|dt| ]; try done.
  - destruct (fire tid _) as [[cl t]|]; [|done]. by injection E as <-.
  - unfold step_thread in E. destruct (threads s !! i) as [[k g| | |vs]|]; [..|done]; cbn in E.
    + by injection E as <-.
    + by injection E as <-.
    + destruct (collect hint (buf s)). by injection E as <-.
    + injection E as <-. cbn. by rewrite run_send.
  - case_decide; [|done]. by injection E as <-.
  - destruct (chan_recv (chan s)); [|done..]. by injection E as <-.
Qed.

(** While [Run] is running every lost payload has its log line; later ones are
    discarded silently. *)
Lemma reachable_logged b s :
  fresh_buffer b → a_drops (abs b) = 0 → reachable b s →
  drops s ≤ length (lost s) ∧ (run s ≠ RReturned → length (lost s) = drops s).
Proof.
  intros Hb Hd. apply (reachable_chan (λ s, drops s ≤ length (lost s)
    ∧ (run s ≠ RReturned → length (lost s) = drops s))); [done|cbn; lia|].
  intros s1 s2 (_ & _ & Hret) [Hle Heq] _ Hst Hst'. pose proof (returned_stays _ _ Hst') as Hmono.
  destruct Hst as [ps _ _ -> ->|p _ _ _ _ -> ->|p _ _ _ _ -> ->|p _ Hc _ -> ->];
    rewrite ?length_app; cbn; try (split; [lia|]; intros; rewrite Heq; [lia|tauto]).
  split; [lia|]. intros Hn. tauto.
Qed.

(** Why a payload is lost. *)
Lemma losses_explained b s :
  fresh_buffer b → a_drops (abs b) = 0 → reachable b s →
  (run s ≠ RReturned → length (lost s) = drops s)
  ∧ ∀ s', step s s' → lost s' = lost s ∧ drops s' = drops s
    ∨ ∃ p, p ∈ inflight s ∧ lost s' = lost s ++ [p]
      ∧ (length (chan_buf (chan s)) = chan_cap (a_chan (abs b)) ∧ drops s' = S (drops s)
         ∨ chan_closed (chan s) = true ∧ drops s' = drops s).
Proof.
  intros Hb Hd Hr. split; [by apply (reachable_logged b)|].
  intros s' Hst. destruct (reachable_sane b s Hb Hr) as (Hcr & Hcl & Hret).
  destruct (reachable_bounded b s Hb Hr) as [Hcap Hw]. unfold chan_wf in Hw.
  destruct (step_chan s s') as [ps _ _ ? ?|p _ _ _ _ ? ?|p Hp Hroom _ _ Hlo Hdr|p Hp Hc _ Hlo Hdr];
    [by split|done|by left..| |]; right; exists p; (split; [done|]); (split; [done|]).
  - left. split; [|done]. unfold chan_has_room in Hroom. apply bool_decide_eq_false in Hroom. lia.
  - right. split; [congruence|done].
Qed.
End channel.

(** ** Well-formed buffers *)

Section well_formed.
Context {B V P : Type} `{!PayloadOps V P} `{!Buffer B V P} `{!EqDecision V}.
Implicit Types s : Sys B V P.

(** The types of the fields, and what ties them together: the channel within its
    capacity and closed when the flag says so, every entry stored under the key of
    its value, with a 64-bit generation and a timer of its own. *)
Record well_formed (cap : nat) (b : ABuf V P) : Prop := {
  wf_cap : chan_cap (a_chan b) = cap;
  wf_chan : length (chan_buf (a_chan b)) ≤ cap;
  wf_flag : chan_closed (a_chan b) = a_closed b;
  wf_keys : keyed (a_pending b);
  wf_gens k e : a_pending b !! k = Some e → (0 ≤ e_gen e < 2 ^ 64)%Z;
  wf_ids k e : a_pending b !! k = Some e → e_timer e < next_timer (a_timers b);
  wf_timers k1 k2 e1 e2 :
    a_pending b !! k1 = Some e1 → a_pending b !! k2 = Some e2 → e_timer e1 = e_timer e2 → k1 = k2;
  wf_closed : a_closed b = true → a_pending b = ∅;
}.

Definition gens_fit (x : View (V:=V) (P:=P)) : Prop :=
  ∀ k e, v_pend x !! k = Some e → (0 ≤ e_gen e < 2 ^ 64)%Z.

Lemma gens_fit_effect (G : V → Z → Prop) x y :
  (∀ v g, G v g → (0 ≤ g < 2 ^ 64)%Z) → gens_fit x → Effect G x y → gens_fit y.
Proof.
  unfold gens_fit. intros HG Hx He. destruct He; view_simpl; try done; intros j e'.
  - rewrite lookup_insert_Some. intros [[_ <-]|[_ Hj]]; [by apply (HG v)|eauto].
  - intros [_ Hj]%lookup_delete_Some. eauto.
  - destruct H as (_ & _ & _ & _ & ->). intros [Hj _]%map_lookup_filter_Some. eauto.
  - destruct (m !! k) as [e|] eqn:Hk; [case_decide|]; eauto.
    rewrite lookup_insert_Some. intros [[_ <-]|[_ Hj]]; eauto. exact (Hx _ _ Hk).
Qed.

Lemma reachable_gens b s :
  (∀ (v : V) (b : B), (0 ≤ next_gen v b < 2 ^ 64)%Z) →
  fresh_buffer b → reachable b s → gens_fit (view s).
Proof.
  intros HG Hb Hr. cut (sane s ∧ gens_fit (view s)); [by intros [_ ?]|].
  refine (rtc_invariant step (λ s, sane s ∧ gens_fit (view s)) _ _ _ _ Hr).
  - split; [by apply init_sane|]. destruct Hb as (Hp & _). intros k e. cbn. by rewrite Hp, lookup_empty.
  - intros s1 s2 [Hs1 H1] Hst. destruct (step_good _ _ Hs1 Hst) as [Hs2 He].
    split; [done|]. eapply gens_fit_effect; [|exact H1|exact He]. by intros v g ->.
Qed.

Lemma reachable_well_formed b s :
  (∀ (v : V) (b : B), (0 ≤ next_gen v b < 2 ^ 64)%Z) →
  fresh_buffer b → reachable b s → well_formed (chan_cap (a_chan (abs b))) (abs (buf s)).
Proof.
  intros HG Hb Hr. destruct (reachable_bounded b s Hb Hr) as [Hc Hw].
  destruct (reachable_sane b s Hb Hr) as (_ & Hcl & Hret).
  destruct (reachable_safe b s Hb Hr) as (_ & _ & Hcp).
  destruct (reachable_timers_ok b s Hb Hr) as [_ H1 H2 _].
  split; [done|by rewrite <- Hc|done| | | | |].
  - exact (proj1 (reachable_replayed b s Hb Hr)).
  - exact (reachable_gens b s HG Hb Hr).
  - exact H1.
  - exact H2.
  - intros E. by apply Hcp, Hret.
Qed.
End well_formed.

(** ** The goroutines come to rest *)

Section rest.
Context {B V P : Type} `{!PayloadOps V P} `{!Buffer B V P}.
Implicit Types s : Sys B V P.
Abbreviation armed_of s := (armed (a_timers (abs (buf s)))).
Abbreviation queue s := (chan_buf (a_chan (abs (buf s)))).

(** The steps that need nothing from outside: no event, no tick, no passing of
    time. *)
Definition internal (l : Label V) : Prop :=
  match l with LRun | LFire _ | LThread _ _ | LConsume => True | _ => False end.

(** The number of steps a goroutine has in front of it, a payload it may send
    included. *)
Definition run_work (r : RunPc V) : nat :=
  match r with
  | RSelect | RReturned => 0
  | REmitDelete _ | REmitBatch _ => 2
  | REmitFinal _ => 4
  | RClose => 1
  end.

Definition thread_work (t : ThreadPc V) : nat :=
  match t with TMark _ _ => 5 | TCheck => 4 | TFlush => 3 | TEmit _ => 2 end.

Definition threads_work (ts : list (ThreadPc V)) : nat := sum_list_with thread_work ts.
#[local] Arguments threads_work : simpl never.
#[local] Arguments Nat.mul : simpl never.

Definition work s : nat :=
  6 * size (armed_of s) + threads_work (threads s) + run_work (run s) + length (queue s).

(** Nothing is left to do: no goroutine runs, no payload waits, no timer is due. *)
Definition at_rest s : Prop :=
  threads s = [] ∧ queue s = [] ∧ (run s = RSelect ∨ run s = RReturned)
  ∧ ∀ tid tm, armed_of s !! tid = Some tm → (now (a_timers (abs (buf s))) < deadline tm)%Z.

Lemma threads_work_replace ts i t extra :
  ts !! i = Some t →
  threads_work ts + sum_list_with thread_work extra = thread_work t + threads_work (delete i ts ++ extra).
Proof.
  intros Hi. unfold threads_work. rewrite sum_list_with_app.
  rewrite (delete_Permutation _ _ _ Hi) at 1. cbn. lia.
Qed.

Lemma send_work p s :
  sane s → armed_of (send p s) = armed_of s ∧ length (queue (send p s)) ≤ S (length (queue s)).
Proof.
  intros (Hcr & Hcl & _). destruct (send_spec p s Hcr Hcl) as (b & lo & c & -> & Ha & _ & Hc).
  cbn. rewrite Ha. cbn. split; [done|]. destruct Hc as [[-> _]|[-> _]]; [|lia].
  cbn. rewrite length_app. cbn. lia.
Qed.

Lemma run_work_decreases s s' : sane s → step_run s = Some s' → work s' < work s.
Proof.
  intros Hs. unfold step_run, work. destruct (run s) eqn:Hr; intros [= <-]; cbn -[send];
    try (match goal with |- context [send ?p s] =>
      destruct (send_work p s Hs) as [-> Hq]; rewrite threads_send; cbn -[send]; lia end).
  destruct (Hs) as (_ & Hcl & Hret). pose proof (abs_close (buf s)) as E. unfold a_close in E.
  destruct (a_closed (abs (buf s))) eqn:Hc; [by discriminate (eq_trans (eq_sym Hr) (proj1 Hret eq_refl))|].
  unfold chan_close in E. rewrite Hcl in E.
  destruct (close (buf s)) as [b|x]; simpl in E; [|done]. injection E as E. cbn.
  rewrite E. cbn. lia.
Qed.

Lemma thread_work_decreases i hint s s' :
  sane s → step_thread i hint s = Some s' → work s' < work s.
Proof.
  intros Hs. unfold step_thread, work.
  destruct (threads s !! i) as [[k g| | |vs]|] eqn:Hi; cbn [mbind option_bind]; [..|done];
    intros [= <-].
  - pose proof (threads_work_replace _ _ _ [TCheck] Hi) as Hw. cbn in Hw.
    pose proof (abs_mark k g (buf s)) as Ha. rewrite a_mark_set in Ha. cbn. rewrite Ha. cbn. lia.
  - case_decide; [pose proof (threads_work_replace _ _ _ [TFlush] Hi) as Hw
                 |pose proof (threads_work_replace _ _ _ [] Hi) as Hw]; cbn in *; lia.
  - destruct (collect hint (buf s)) as [vs b] eqn:E. apply collect_takes in E as [_ Ha].
    pose proof (threads_work_replace _ _ _ (match vs with [] => [] | _ => [TEmit vs] end) Hi) as Hw.
    cbn. rewrite Ha. cbn. destruct vs; cbn in Hw; lia.
  - destruct (send_work (batch vs) s Hs) as [Ha Hq].
    pose proof (threads_work_replace _ _ _ [] Hi) as Hw. rewrite app_nil_r in Hw. cbn in Hw.
    cbn -[send]. rewrite Ha, run_send. lia.
Qed.

(** Every internal step uses up some work. *)
Lemma internal_decreases l s s' :
  sane s → internal l → step_label l s = Some s' → work s' < work s.
Proof.
  intros Hs Hl E. destruct (Hs) as [Hcr _]. unfold step_label in E. rewrite Hcr in E.
  destruct l; try done; eauto using run_work_decreases, thread_work_decreases; unfold work.
  - unfold fire in E. destruct (armed_of s !! tid) as [tm|] eqn:Ht; cbn in E; [|done].
    case_decide; [|done]. injection E as <-. cbn. rewrite abs_set_timers. cbn.
    rewrite map_size_delete_Some by eauto.
    assert (size (armed_of s) ≠ 0).
    { intros E%map_size_empty_inv. by rewrite E, lookup_empty in Ht. }
    unfold threads_work. rewrite sum_list_with_app. cbn. lia.
  - unfold chan_recv in E. destruct (queue s) as [|p ps] eqn:Hq.
    { by destruct (chan_closed (a_chan (abs (buf s)))). }
    injection E as <-. cbn. rewrite abs_set_chan. cbn. rewrite ?Hq. cbn. lia.
Qed.

(** As long as some goroutine has work, an internal step is possible. *)
Lemma rest_or_step s : crash s = None → at_rest s ∨ ∃ l s', internal l ∧ step_label l s = Some s'.
Proof.
  intros Hcr. unfold at_rest, step_label. destruct (threads s) as [|t ts] eqn:Ht.
  2:{ right. exists (LThread 0 []). rewrite Hcr. unfold step_thread. rewrite Ht. by eexists. }
  destruct (queue s) as [|p ps] eqn:Hq.
  2:{ right. exists LConsume. rewrite Hcr. unfold chan_recv. rewrite Hq. by eexists. }
  destruct (decide (map_Exists (λ _ tm, (deadline tm ≤ now (a_timers (abs (buf s))))%Z) (armed_of s)))
    as [(tid & tm & Htm & Hd)|Hn].
  { right. exists (LFire tid). rewrite Hcr. unfold fire. rewrite Htm. cbn.
    rewrite decide_True by done. by eexists. }
  assert (∀ tid tm, armed_of s !! tid = Some tm → (now (a_timers (abs (buf s))) < deadline tm)%Z) as Hd.
  { intros tid tm Htm. apply Z.nle_gt. intros Hle. apply Hn. by exists tid, tm. }
  destruct (run s) eqn:Hr; try (left; by auto); right; exists LRun;
    rewrite Hcr; unfold step_run; rewrite Hr; by eexists.
Qed.

Lemma rest_no_step l s : at_rest s → internal l → step_label l s = None.
Proof.
  intros (Ht & Hq & Hr & Hd) Hl. unfold step_label. destruct (crash s); [done|].
  destruct l as [v|k|hint|hint| |tid|i hint|dt| ]; try done.
  - unfold step_run. by destruct Hr as [-> | ->].
  - unfold fire. destruct (armed_of s !! tid) as [tm|] eqn:E; [|done]. cbn.
    rewrite decide_False; [done|]. apply Z.lt_nge. eauto.
  - unfold step_thread. by rewrite Ht.
  - unfold chan_recv. rewrite Hq. by destruct (chan_closed _).
Qed.

(** Every run of internal steps is bounded by the work at its start. *)
Lemma internal_bounded ls s s' :
  sane s → Forall internal ls → exec ls s = Some s' → length ls + work s' ≤ work s ∧ sane s'.
Proof.
  intros Hs Hf. revert s Hs. induction Hf as [|l ls Hl _ IH]; intros s Hs E.
  - injection E as <-. by split.
  - cbn in E. destruct (step_label l s) as [s1|] eqn:E1; cbn in E; [|done].
    pose proof (internal_decreases _ _ _ Hs Hl E1).
    destruct (step_good s s1 Hs (Step _ _ l E1)) as [Hs1 _].
    destruct (IH _ Hs1 E). cbn. split; [lia|done].
Qed.

(** Some run of internal steps ends at rest. *)
Lemma can_rest s : sane s → ∃ ls s', Forall internal ls ∧ exec ls s = Some s' ∧ at_rest s'.
Proof.
  induction s as [s IH] using (induction_ltof1 _ work). intros Hs.
  destruct (rest_or_step s (proj1 Hs)) as [Hrest|(l & s1 & Hl & E)].
  - exists [], s. by repeat split; try apply Hrest.
  - destruct (step_good s s1 Hs (Step _ _ l E)) as [Hs1 _].
    destruct (IH s1 (internal_decreases _ _ _ Hs Hl E) Hs1) as (ls & s2 & Hf & E2 & Hr).
    exists (l :: ls), s2. cbn. rewrite E. split; [by constructor|done].
Qed.

(** At rest every payload was received or lost. *)
Lemma rest_accounted b s :
  fresh_buffer b → reachable b s → at_rest s → hist s ≫= history_payload ≡ₚ delivered s ++ lost s.
Proof.
  intros Hb Hr (Ht & Hq & Hrun & _). pose proof (reachable_accounted b s Hb Hr) as E.
  unfold accounted, view in E. view_simpl. rewrite E, Hq, Ht. unfold held.
  destruct Hrun as [-> | ->]; cbn; by rewrite app_nil_r.
Qed.

Lemma rest_inflight s : at_rest s → inflight s = [].
Proof. intros (Ht & _ & Hr & _). unfold inflight, held. rewrite Ht. by destruct Hr as [-> | ->]. Qed.

Lemma comes_to_rest b s :
  fresh_buffer b → reachable b s →
  (∀ ls s', Forall internal ls → exec ls s = Some s' →
     length ls ≤ work s
     ∧ ((∀ l, internal l → step_label l s' = None) ↔ at_rest s')
     ∧ (at_rest s' → hist s' ≫= history_payload ≡ₚ delivered s' ++ lost s'))
  ∧ (∃ ls s', Forall internal ls ∧ exec ls s = Some s' ∧ at_rest s').
Proof.
  intros Hb Hr. pose proof (reachable_sane b s Hb Hr) as Hs. split; [|by apply can_rest].
  intros ls s' Hf E. destruct (internal_bounded _ _ _ Hs Hf E) as [Hl Hs']. split; [lia|].
  split; [|apply (rest_accounted b); [done|]; unfold reachable in *; etrans; [exact Hr|by apply (exec_rtc ls)]].
  split; [|intros; by apply rest_no_step]. intros Hn.
  destruct (rest_or_step s' (proj1 Hs')) as [?|(l & s2 & Hl' & E2)]; [done|].
  by rewrite (Hn l Hl') in E2.
Qed.
End rest.

Lemma orderly_reachable {B V P} `{!PayloadOps V P} `{!Buffer B V P} `{!EqDecision V} b (s : Sys B V P) :
  rtc orderly (init b) s → reachable b s.
Proof. apply rtc_subrel. by intros ?? [? _]. Qed.

(** ** Shutting down *)

Section shutdown.
Context {B V P : Type} `{!PayloadOps V P} `{!Buffer B V P} `{!EqDecision V}.
Implicit Types s : Sys B V P.
Abbreviation pend s := (a_pending (abs (buf s))).
Abbreviation chan s := (a_chan (abs (buf s))).

(** [Run] has taken everything out of the buffer for its last payload, for which the
    channel has room, and no timer goroutine holds a batch. *)
Record draining s : Prop := {
  dr_sane : sane s;
  dr_finishing : finishing (run s) = true;
  dr_pending : pend s = ∅;
  dr_lost : lost s = [];
  dr_threads : (threads s ≫= thread_payload (P:=P)) = [];
  dr_room : run_payload (P:=P) (run s) ≠ [] → chan_has_room (chan s) = true;
}.

Lemma draining_inflight s : draining s → inflight s = run_payload (run s).
Proof. intros Hd. unfold inflight, held. by rewrite (dr_threads _ Hd), app_nil_r. Qed.

Lemma collect_nothing hint b vs b' :
  a_pending (abs b) = ∅ → collect hint b = (vs, b') → vs = [] ∧ abs b' = abs b.
Proof.
  intros Hp E. pose proof (abs_collect hint b) as Hc. rewrite E in Hc.
  unfold a_collect, a_set in Hc. rewrite Hp, range_keys_empty, map_filter_empty in Hc.
  injection Hc as Hvs Hb. split; [done|]. rewrite Hb. destruct (abs b). cbn in *. congruence.
Qed.

Lemma thread_payload_replace ts i t extra :
  ts !! i = Some t → thread_payload (P:=P) t = [] → (extra ≫= thread_payload (P:=P)) = [] →
  (ts ≫= thread_payload (P:=P)) = [] → (delete i ts ++ extra) ≫= thread_payload (P:=P) = [].
Proof.
  intros Hi Ht Hx Hts. rewrite bind_app, Hx, app_nil_r. apply nil_length_inv.
  trans (length (ts ≫= thread_payload (P:=P))); [|by rewrite Hts].
  apply Permutation_length. by rewrite (delete_Permutation _ _ _ Hi) at 2; rewrite bind_cons, Ht.
Qed.

Lemma hist_send p s : hist (send p s) = hist s.
Proof. unfold send. by destruct (emit p (buf s)). Qed.

(** The parts of [draining] that a step of a timer goroutine may touch. *)
Lemma draining_thread i hint s s' :
  draining s → step_thread i hint s = Some s' →
  run s' = run s ∧ hist s' = hist s ∧ chan s' = chan s
  ∧ (threads s' ≫= thread_payload (P:=P)) = [].
Proof.
  intros Hd E. unfold step_thread in E.
  destruct (threads s !! i) as [t|] eqn:Hi; cbn [mbind option_bind] in E; [|done]. injection E as <-.
  pose proof (λ extra Ht Hx, thread_payload_replace _ _ t extra Hi Ht Hx (dr_threads _ Hd)) as Hrep.
  destruct t as [k g| | |vs].
  - pose proof (abs_mark k g (buf s)) as Ha. rewrite a_mark_set in Ha. cbn. rewrite Ha.
    split; [done|]. split; [done|]. split; [done|]. by apply Hrep.
  - cbn. split; [done|]. split; [done|]. split; [done|]. apply Hrep; [done|]. by case_decide.
  - destruct (collect hint (buf s)) as [vs b] eqn:Ec.
    apply collect_nothing in Ec as [-> Ha]; [|apply Hd]. cbn. rewrite Ha, app_nil_r.
    split; [done|]. split; [done|]. split; [done|]. by apply Hrep.
  - exfalso. pose proof (dr_threads _ Hd) as Ht. assert (batch vs ∈ (threads s ≫= thread_payload (P:=P))) as Hin.
    { apply list_elem_of_bind. exists (TEmit vs). split; [left|by eapply list_elem_of_lookup_2]. }
    by rewrite Ht, elem_of_nil in Hin.
Qed.

(** From then on nothing is accepted, taken or lost, whatever step is made. *)
Lemma draining_step s s' : draining s → step s s' → draining s' ∧ hist s' = hist s.
Proof.
  intros Hd Hst. destruct (step_good _ _ (dr_sane _ Hd) Hst) as [Hs' He].
  assert (lost s' = []) as Hlost.
  { destruct (step_chan _ _ (dr_sane _ Hd) Hst) as [ps _ _ -> _|p _ _ _ _ -> _|p Hp Hr _ _ _ _|p Hp Hc _ _ _];
      [apply Hd|apply Hd| |]; rewrite (draining_inflight _ Hd) in Hp.
    - rewrite (dr_room _ Hd) in Hr; [done|]. intros E. by rewrite E, elem_of_nil in Hp.
    - apply (dr_sane _ Hd) in Hc. by rewrite Hc, elem_of_nil in Hp. }
  assert (finishing (run s') = true → pend s' = ∅) as Hpend.
  { refine (drained_effect _ (view s) (view s') _ He). intros _. apply Hd. }
  cut (finishing (run s') = true ∧ hist s' = hist s ∧ (threads s' ≫= thread_payload (P:=P)) = []
       ∧ (run_payload (P:=P) (run s') ≠ [] → chan_has_room (chan s') = true)).
  { intros (? & ? & ? & ?). split; [|done]. split; auto. }
  clear Hlost Hpend Hs' He. destruct Hst as [l E]. destruct (Hd) as [(Hcr & _) Hf _ _ Ht Hroom].
  assert (at_select s = false) as Hsel by (unfold at_select; by destruct (run s)).
  unfold step_label in E. rewrite Hcr, Hsel in E.
  destruct l as [v|k|hint|hint| |tid|i hint|dt| ]; try done.
  - unfold step_run in E. destruct (run s) eqn:Hr; try done; injection E as <-.
    + cbn -[send]. by rewrite hist_send, threads_send.
    + destruct (close (buf s)); cbn; rewrite ?Hr; done.
  - destruct (fire tid _) as [[cl t]|]; [|done]. injection E as <-. cbn.
    rewrite bind_app, Ht, abs_set_timers. done.
  - destruct (draining_thread i hint s s' Hd E) as (-> & -> & -> & ?). done.
  - case_decide; [|done]. injection E as <-. cbn. by rewrite abs_set_timers.
  - unfold chan_recv in E. destruct (chan_buf (chan s)) as [|p ps] eqn:Hb.
    { by destruct (chan_closed (chan s)). }
    injection E as <-. cbn. rewrite abs_set_chan. cbn. split; [done|]. split; [done|]. split; [done|].
    intros Hne. specialize (Hroom Hne). apply bool_decide_eq_true in Hroom. rewrite Hb in Hroom.
    apply bool_decide_eq_true. cbn in *. lia.
Qed.

Lemma draining_exec ls s s' :
  draining s → exec ls s = Some s' → draining s' ∧ hist s' = hist s ∧ rtc orderly s s'.
Proof.
  revert s. induction ls as [|l ls IH]; intros s Hd E; [by injection E as <-|].
  cbn in E. apply bind_Some in E as (s1 & E1 & E).
  destruct (draining_step s s1 Hd (Step _ _ l E1)) as [Hd1 Hh]. destruct (IH s1 Hd1 E) as (Hd2 & Hh2 & Hr).
  split; [done|]. split; [congruence|]. eapply rtc_l; [|done]. split; [by econstructor|by right].
Qed.

(** The shutdown of [Run] at its select starts to drain. *)
Lemma shutdown_drains hint s s' :
  sane s → lost s = [] → inflight s = [] → chan_has_room (chan s) = true →
  step_label (LShutdown hint) s = Some s' → draining s'.
Proof.
  intros Hs Hl Hi Hr E. destruct (step_good _ _ Hs (Step _ _ _ E)) as [Hs' _].
  unfold step_label in E. rewrite (proj1 Hs) in E. destruct (at_select s); [|done].
  destruct (collectAll hint (buf s)) as [vs b] eqn:Ec. injection E as <-.
  apply collectAll_takes in Ec as (_ & t & Ha & _).
  apply app_nil in Hi as [_ Ht]. split; try done; cbn; [by destruct vs|by rewrite Ha|].
  intros _. by rewrite Ha.
Qed.

(** Everything that happens after the shutdown is orderly, and at rest nothing is
    left over. *)
Lemma shutdown_settles hint ls s s' :
  sane s → lost s = [] → inflight s = [] → chan_has_room (chan s) = true →
  exec (LShutdown hint :: ls) s = Some s' → at_rest s' →
  rtc orderly s s' ∧ run s' = RReturned ∧ pend s' = ∅ ∧ lost s' = []
  ∧ spec_index (hist s') = spec_index (hist s).
Proof.
  intros Hs Hl Hi Hr E Hrest. cbn [exec] in E. apply bind_Some in E as (s1 & E1 & E).
  pose proof (shutdown_drains hint s s1 Hs Hl Hi Hr E1) as Hd1.
  destruct (draining_exec ls s1 s' Hd1 E) as (Hd2 & Hh & Ho). split.
  { eapply rtc_l; [|exact Ho]. split; [by econstructor|by left]. }
  destruct Hrest as (_ & _ & Hrun & _).
  split; [|split; [apply Hd2|split; [apply Hd2|]]].
  { destruct Hrun as [Hrun|]; [|done]. pose proof (dr_finishing _ Hd2) as Hf. by rewrite Hrun in Hf. }
  rewrite Hh. unfold step_label in E1. rewrite (proj1 Hs) in E1. destruct (at_select s); [|done].
  destruct (collectAll hint (buf s)) as [vs b]. injection E1 as <-. cbn. apply spec_index_taken.
Qed.
End shutdown.

(** ** The two buffers *)

(** C14: a well-formedness invariant.  In every reachable state of either buffer,
    and of any order of its goroutines, the channel holds at most 100 payloads
    and is closed exactly when the flag says so, every entry is stored under its
    own ID with a 64-bit generation and a timer that no other entry has, and
    after [closePayloads] nothing is pending. *)
Theorem buffers_well_formed (cfg : Config) :
  (∀ s, instance_states cfg s → well_formed 100 (abs (buf s)))
  ∧ (∀ s, capability_states cfg s → well_formed 100 (abs (buf s))).
Proof.
  assert (∀ z, (0 ≤ to_uint64 z < 2 ^ 64)%Z) as Hu by (intros z; apply Z.mod_pos_bound; lia).
  split; intros s Hs.
  - refine (reachable_well_formed (NewDebounceBuffer cfg) s _ (new_fresh cfg) Hs).
    intros v d. cbn. unfold nextGen. destruct (pending d !! ID v); [apply Hu|lia].
  - refine (reachable_well_formed (CrdDebounce.NewCrdDebounceBuffer cfg) s _ (crd_new_fresh cfg) Hs).
    intros v d. apply Hu.
Qed.

(** C9: the goroutines always come to rest.  From every reachable state the steps
    that need nothing from outside (those of [Run] between two selects, of the
    timer goroutines, of due timers and of the consumer) are at most [work s]
    many, they can only stop where no goroutine has anything left to do (so
    there is no deadlock), and there every deletion and every batch has been
    received or lost. *)
Theorem goroutines_come_to_rest (cfg : Config) :
  (∀ s, instance_states cfg s →
     (∀ ls s', Forall internal ls → exec ls s = Some s' →
        length ls ≤ work s
        ∧ ((∀ l, internal l → step_label l s' = None) ↔ at_rest s')
        ∧ (at_rest s' → hist s' ≫= history_payload ≡ₚ delivered s' ++ lost s'))
     ∧ (∃ ls s', Forall internal ls ∧ exec ls s = Some s' ∧ at_rest s'))
  ∧ (∀ s, capability_states cfg s →
     (∀ ls s', Forall internal ls → exec ls s = Some s' →
        length ls ≤ work s
        ∧ ((∀ l, internal l → step_label l s' = None) ↔ at_rest s')
        ∧ (at_rest s' → hist s' ≫= history_payload ≡ₚ delivered s' ++ lost s'))
     ∧ (∃ ls s', Forall internal ls ∧ exec ls s = Some s' ∧ at_rest s')).
Proof.
  split; intros s Hs; [by apply (comes_to_rest (NewDebounceBuffer cfg))
                      |by apply (comes_to_rest (CrdDebounce.NewCrdDebounceBuffer cfg))].
Qed.

(** C13: a payload is lost only with a reason, and with a log line while [Run] is
    running.  In every reachable state the number of lost payloads is the number
    of drop lines as long as [Run] has not returned; a step that loses a payload
    loses one that a goroutine held, and does it because the channel holds 100
    payloads (one more line) or because it is closed (no line). *)
Theorem losses_are_logged (cfg : Config) :
  (∀ s, instance_states cfg s →
     (run s ≠ RReturned → length (lost s) = length (dropped (buf s)))
     ∧ ∀ s', step s s' → lost s' = lost s ∧ length (dropped (buf s')) = length (dropped (buf s))
       ∨ ∃ p, p ∈ inflight s ∧ lost s' = lost s ++ [p]
         ∧ (length (chan_buf (Payloads (buf s))) = 100
              ∧ length (dropped (buf s')) = S (length (dropped (buf s)))
            ∨ chan_closed (Payloads (buf s)) = true
              ∧ length (dropped (buf s')) = length (dropped (buf s))))
  ∧ (∀ s, capability_states cfg s →
     (run s ≠ RReturned → length (lost s) = length (CrdDebounce.dropped (buf s)))
     ∧ ∀ s', step s s' → lost s' = lost s
         ∧ length (CrdDebounce.dropped (buf s')) = length (CrdDebounce.dropped (buf s))
       ∨ ∃ p, p ∈ inflight s ∧ lost s' = lost s ++ [p]
         ∧ (length (chan_buf (CrdDebounce.Payloads (buf s))) = 100
              ∧ length (CrdDebounce.dropped (buf s')) = S (length (CrdDebounce.dropped (buf s)))
            ∨ chan_closed (CrdDebounce.Payloads (buf s)) = true
              ∧ length (CrdDebounce.dropped (buf s')) = length (CrdDebounce.dropped (buf s)))).
Proof.
  split; intros s Hs;
    [exact (losses_explained (NewDebounceBuffer cfg) s (new_fresh cfg) eq_refl Hs)
    |exact (losses_explained (CrdDebounce.NewCrdDebounceBuffer cfg) s (crd_new_fresh cfg) eq_refl Hs)].
Qed.

(** C10: the graceful shutdown delivers everything.  Take a state that orderly steps
    reach, with [Run] at its select, nothing lost, no payload held by a goroutine
    and a free place in the channel, and shut [Run] down: whatever the goroutines,
    late timers, the clock and the consumer then do until they rest, [Run] has
    returned, nothing was lost, and the payloads received make the index of all
    the events accepted; and they can come to rest. *)
Theorem shutdown_delivers (cfg : Config) :
  (∀ s hint s1, rtc orderly (init (NewDebounceBuffer cfg)) s →
     lost s = [] → inflight s = [] → chan_has_room (Payloads (buf s)) = true →
     step_label (LShutdown hint) s = Some s1 →
     (∀ ls s', exec ls s1 = Some s' → at_rest s' →
        run s' = RReturned ∧ lost s' = []
        ∧ apply_payloads (delivered s') ∅ = spec_index (hist s))
     ∧ ∃ ls s', exec ls s1 = Some s' ∧ at_rest s')
  ∧ (∀ s hint s1, rtc orderly (init (CrdDebounce.NewCrdDebounceBuffer cfg)) s →
     lost s = [] → inflight s = [] → chan_has_room (CrdDebounce.Payloads (buf s)) = true →
     step_label (LShutdown hint) s = Some s1 →
     (∀ ls s', exec ls s1 = Some s' → at_rest s' →
        run s' = RReturned ∧ lost s' = []
        ∧ apply_payloads (delivered s') ∅ = spec_index (hist s))
     ∧ ∃ ls s', exec ls s1 = Some s' ∧ at_rest s').
Proof.
  split; intros s hint s1 Ho Hl Hi Hr E1.
  - assert (sane s) as Hs by (apply (reachable_sane _ s (new_fresh cfg)); by apply orderly_reachable).
    split; [|destruct (step_good _ _ Hs (Step _ _ _ E1)) as [Hs1 _];
             destruct (can_rest s1 Hs1) as (ls & s' & _ & ? & ?); by exists ls, s'].
    intros ls s' E Hrest.
    destruct (shutdown_settles hint ls s s' Hs Hl Hi Hr) as (Ho' & Hrun & Hp & Hl' & Hsp);
      [cbn [exec]; by rewrite E1|done|]. split; [done|]. split; [done|]. rewrite <- Hsp.
    apply (instances_settled cfg); [by etrans| | |apply Hrest|done].
    + by apply fmap_empty_inv in Hp.
    + by apply rest_inflight.
  - assert (sane s) as Hs by (apply (reachable_sane _ s (crd_new_fresh cfg)); by apply orderly_reachable).
    split; [|destruct (step_good _ _ Hs (Step _ _ _ E1)) as [Hs1 _];
             destruct (can_rest s1 Hs1) as (ls & s' & _ & ? & ?); by exists ls, s'].
    intros ls s' E Hrest.
    destruct (shutdown_settles hint ls s s' Hs Hl Hi Hr) as (Ho' & Hrun & Hp & Hl' & Hsp);
      [cbn [exec]; by rewrite E1|done|]. split; [done|]. split; [done|]. rewrite <- Hsp.
    apply (capabilities_settled cfg); [by etrans| | |apply Hrest|done].
    + by apply fmap_empty_inv in Hp.
    + by apply rest_inflight.
Qed.

(** ** Witnesses *)

Lemma buffers_well_formed_witness : well_formed 100 (abs (buf (final quiet_trace))).
Proof. apply (proj1 (buffers_well_formed sample_cfg)). run_trace. Defined.

(** An upsert whose timer is due: the timer, its goroutine and nothing else. *)
Definition due_trace : list (Label ResourceInstance) := [LUpsert nginx_instance; LWait (10 * Second)].

Lemma goroutines_come_to_rest_witness :
  (∃ ls s', Forall internal ls ∧ exec ls (final due_trace) = Some s' ∧ at_rest s')
  ∧ ∀ ls s', Forall internal ls → exec ls (final due_trace) = Some s' → length ls ≤ 6.
Proof.
  assert (instance_states sample_cfg (final due_trace)) as Hs by run_trace.
  destruct (proj1 (goroutines_come_to_rest sample_cfg) _ Hs) as [Hb Hr].
  split; [exact Hr|]. intros ls s' Hf E.
  assert (work (final due_trace) = 6) as Hw by (vm_compute; reflexivity).
  rewrite <- Hw. exact (proj1 (Hb ls s' Hf E)).
Defined.

(** The 101st deletion finds the channel full. *)
Definition full_trace : list (Label ResourceInstance) :=
  concat (repeat [LRemove nginx_id; LRun] 101).

Lemma losses_are_logged_witness :
  length (lost (final full_trace)) = 1 ∧ length (dropped (buf (final full_trace))) = 1.
Proof.
  assert (instance_states sample_cfg (final full_trace)) as Hs by run_trace.
  destruct (proj1 (losses_are_logged sample_cfg) _ Hs) as [Hl _].
  assert (length (dropped (buf (final full_trace))) = 1) as Hd by (vm_compute; reflexivity).
  assert (run (final full_trace) ≠ RReturned) as Hr by (vm_compute; discriminate).
  split; [|exact Hd]. exact (eq_trans (Hl Hr) Hd).
Defined.

(** Two values are pending, one of them ready, when the context is cancelled. *)
Definition before_shutdown : list (Label ResourceInstance) :=
  [LUpsert nginx_instance; LWait (10 * Second); LFire 0; LThread 0 [];
   LUpsert (Extract (crd_object "widgets.example.com"))].

Lemma shutdown_delivers_witness :
  ∃ s1 ls s', step_label (LShutdown []) (final before_shutdown) = Some s1
    ∧ exec ls s1 = Some s' ∧ at_rest s'
    ∧ apply_payloads (delivered s') ∅ = spec_index (hist (final before_shutdown)).
Proof.
  destruct (step_label (LShutdown []) (final before_shutdown)) as [s1|] eqn:E1.
  2:{ exfalso. assert (is_Some (step_label (LShutdown []) (final before_shutdown))) as [? E]
        by (apply (bool_decide_unpack _); vm_compute; exact I). congruence. }
  destruct (proj1 (shutdown_delivers sample_cfg) (final before_shutdown) [] s1) as [Hall (ls & s' & E & Hr)];
    [apply (exec_orderly_rtc before_shutdown); vm_compute; reflexivity|vm_compute; reflexivity..|exact E1|].
  exists s1, ls, s'. destruct (Hall ls s' E Hr) as (_ & _ & Hi). repeat split; try assumption; apply Hr.
Defined.
