(* ===== verification/DebounceWindow.v ===== *)
(** The debounce window, and the races of the goroutines that share a buffer: what
    the capabilities buffer guarantees, and runs of the instance buffer that
    show what the code does not. *)

From S2P Require Import Prelude GoRuntime GoStrings Config Metadata Watcher Buffer Interleaving.
From S2P Require Import Invariants CrdDebounce Debounce BufferTheorems.

(** ** The capabilities buffer: generations are never reused *)

Section crd.
#[local] Open Scope Z_scope.
Abbreviation CSys := (Sys CrdDebounce.CrdDebounceBuffer string CrdDebounce.CrdSyncPayload).
Implicit Types s : CSys.
Abbreviation next s := (CrdDebounce.nextGen (buf s)).

(** Only an add touches the counter. *)
Lemma cancel_next k d : CrdDebounce.nextGen (CrdDebounce.cancelPending k d) = CrdDebounce.nextGen d.
Proof. unfold CrdDebounce.cancelPending. by destruct (CrdDebounce.pending d !! k). Qed.

Lemma mark_next k g d : CrdDebounce.nextGen (CrdDebounce.markReady k g d) = CrdDebounce.nextGen d.
Proof.
  unfold CrdDebounce.markReady. destruct (CrdDebounce.pending d !! k); [|done]. by case_decide.
Qed.

Lemma takeReady_next hint d vs d' :
  CrdDebounce.takeReady hint d = (vs, d') → CrdDebounce.nextGen d' = CrdDebounce.nextGen d.
Proof.
  unfold CrdDebounce.takeReady. case_decide; [by intros [= <- <-]|].
  destruct (range_loop _ _ _ _) as [? ?]. by intros [= <- <-].
Qed.

Lemma takeAll_next hint d vs d' :
  CrdDebounce.takeAll hint d = (vs, d') → CrdDebounce.nextGen d' = CrdDebounce.nextGen d.
Proof.
  unfold CrdDebounce.takeAll. case_decide; [by intros [= <- <-]|].
  destruct (range_loop _ _ _ _) as [[? ?] ?]. by intros [= <- <-].
Qed.

Lemma emit_next p d d' :
  CrdDebounce.emitPayload p d = Ok d' → CrdDebounce.nextGen d' = CrdDebounce.nextGen d.
Proof.
  unfold CrdDebounce.emitPayload. destruct (CrdDebounce.payloadsClosed d); [by intros [= <-]|].
  intros ([sent c] & _ & [= <-])%bind_Ok. by destruct sent.
Qed.

Lemma close_next d d' :
  CrdDebounce.closePayloads d = Ok d' → CrdDebounce.nextGen d' = CrdDebounce.nextGen d.
Proof.
  unfold CrdDebounce.closePayloads. destruct (CrdDebounce.payloadsClosed d); [by intros [= <-]|].
  by intros (c & _ & [= <-])%bind_Ok.
Qed.

Lemma send_next p s : next (send p s) = next s.
Proof.
  unfold send. destruct (emit p (buf s)) as [d|] eqn:E; [|done]. by apply emit_next in E.
Qed.

Lemma send_hist p s : hist (send p s) = hist s.
Proof. unfold send. by destruct (emit p (buf s)). Qed.

(** A step keeps the counter and the number of upserts, or adds one to both. *)
Definition keeps s s' : Prop := next s' = next s ∧ upsert_count (hist s') = upsert_count (hist s).
Definition counts s s' : Prop :=
  next s' = to_uint64 (next s + 1) ∧ upsert_count (hist s') = upsert_count (hist s) + 1.

Lemma step_run_keeps s s' : step_run s = Some s' → keeps s s'.
Proof.
  unfold step_run, keeps. destruct (run s); try done; intros [= <-]; cbn -[send];
    rewrite ?send_next, ?send_hist; try done.
  destruct (CrdDebounce.closePayloads (buf s)) as [d|] eqn:E; [|done]. cbn.
  by rewrite (close_next _ _ E).
Qed.

Lemma step_thread_keeps i hint s s' : step_thread i hint s = Some s' → keeps s s'.
Proof.
  unfold step_thread, keeps. destruct (threads s !! i) as [[k g| | |vs]|]; cbn -[send];
    [..|done]; try (intros [= <-]; cbn -[send]; rewrite ?mark_next, ?send_next, ?send_hist; done).
  destruct (CrdDebounce.takeReady hint (buf s)) as [vs d] eqn:E. intros [= <-]. cbn.
  by rewrite upsert_count_taken, (takeReady_next _ _ _ _ E).
Qed.

Lemma step_counter s s' : step s s' → keeps s s' ∨ counts s s'.
Proof.
  intros [l E]. unfold step_label in E. destruct (crash s); [done|].
  destruct l as [v|k|hint|hint| |tid|i hint|dt| ].
  - destruct (at_select s); [|done]. injection E as <-. right. split; [done|].
    cbn. apply upsert_count_app.
  - destruct (at_select s); [|done]. injection E as <-. left. split; [apply cancel_next|].
    cbn. rewrite upsert_count_app. apply Z.add_0_r.
  - destruct (at_select s); [|done]. cbn in E.
    destruct (CrdDebounce.takeReady hint (buf s)) as [vs d] eqn:T. injection E as <-. left.
    split; [exact (takeReady_next _ _ _ _ T)|apply upsert_count_taken].
  - destruct (at_select s); [|done]. cbn in E.
    destruct (CrdDebounce.takeAll hint (buf s)) as [vs d] eqn:T. injection E as <-. left.
    split; [exact (takeAll_next _ _ _ _ T)|apply upsert_count_taken].
  - left. by apply step_run_keeps.
  - destruct (fire tid _) as [[cl t]|]; [|done]. injection E as <-. by left.
  - left. by eapply step_thread_keeps.
  - case_decide; [|done]. injection E as <-. by left.
  - destruct (chan_recv _); try done. injection E as <-. by left.
Qed.

(** The counter is the number of upserts, and while that fits in 64 bits the window
    is respected. *)
Lemma reachable_windowed cfg s :
  capability_states cfg s →
  next s = to_uint64 (upsert_count (hist s))
  ∧ (upsert_count (hist s) < 2 ^ 64 → windowed (view s)).
Proof.
  intros Hr.
  cut (sane s ∧ next s = to_uint64 (upsert_count (hist s))
       ∧ (upsert_count (hist s) < 2 ^ 64 → windowed (view s))); [by intros [_ ?]|].
  refine (rtc_invariant step (λ s, sane s ∧ next s = to_uint64 (upsert_count (hist s))
       ∧ (upsert_count (hist s) < 2 ^ 64 → windowed (view s))) _ _ _ _ Hr).
  - split; [by apply init_sane, crd_new_fresh|]. split; [done|]. intros _.
    apply init_windowed, crd_new_fresh.
  - intros s1 s2 (Hs & Hn & Hw) Hst. destruct (step_good _ _ Hs Hst) as [Hs2 He].
    split; [done|]. pose proof (effect_count _ _ _ He) as Hle. cbn in Hle. split.
    + destruct (step_counter _ _ Hst) as [[-> ->]|[-> ->]]; [done|].
      rewrite Hn. unfold to_uint64. by rewrite Zplus_mod_idemp_l.
    + intros Hlt. eapply windowed_effect; [|apply Hw; lia|exact He].
      intros v g -> Hh. cbn in Hh |- *. rewrite Hn. unfold to_uint64. rewrite Zplus_mod_idemp_l.
      rewrite Hh, upsert_count_app in Hlt. change (upsert_count [Accepted (Upsert v)]) with 1 in Hlt.
      apply Z.mod_small. pose proof (upsert_count_nonneg (hist s1)). lia.
Qed.

(** C11: the capabilities buffer respects the debounce window.  In every reachable
    state (of fewer than 2^64 adds) every name that a flush would take was last
    added at least a window ago, whatever adds, deletes, flushes and late timer
    functions came before. *)
Theorem crd_window_respected cfg s hint name (Hs : capability_states cfg s)
    (Hcount : upsert_count (hist s) < 2 ^ 64)
    (Hname : name ∈ (CrdDebounce.takeReady hint (buf s)).1) :
  ∃ t, added s !! name = Some t
    ∧ t + DebounceWindow cfg ≤ now (CrdDebounce.timers (buf s)).
Proof.
  destruct (reachable_windowed cfg s Hs) as [_ Hw]. specialize (Hw Hcount).
  destruct (reachable_replayed _ s (crd_new_fresh cfg) Hs) as [Hk _].
  pose proof (CrdDebounce.crd_abstract_takeReady hint (buf s)) as E.
  apply (f_equal fst) in E. change (CrdDebounce.takeReady hint (buf s)).1 with
    (prod_map id CrdDebounce.abstract (CrdDebounce.takeReady hint (buf s))).1 in Hname.
  rewrite E in Hname. apply list_elem_of_omap in Hname as (k & _ & Hsel).
  destruct (a_pending (CrdDebounce.abstract (buf s)) !! k) as [e|] eqn:He; [|done].
  cbn in Hsel. destruct (e_ready e) eqn:Hr; [|done]. injection Hsel as <-.
  destruct (ready_window _ Hw k e He Hr) as (t & Ht & Hle).
  pose proof (Hk k e He) as Hkey. cbn in Hkey. exists t. rewrite Hkey. split; [done|].
  by rewrite (reachable_window _ s (crd_new_fresh cfg) Hs) in Hle.
Qed.
End crd.

(** ** The instance buffer: runs that break what the code intends *)

(** A timer fires while [Run] handles a delete and a new upsert of the same
    resource; then the timer's function runs. *)
Definition reuse_trace : list (Label ResourceInstance) :=
  [LUpsert nginx_instance; LWait (10 * Second); LFire 0; LRemove nginx_id; LRun;
   LUpsert nginx_instance; LThread 0 []].

(** C29: the instance buffer does not respect the window.  Generations restart at 0
    when an entry was removed, so a timer function that was started for a
    deleted entry marks the entry that replaced it: there is a reachable state
    in which the next flush takes a value whose window has only begun. *)
Theorem stale_timer_marks_new_entry :
  ∃ s p t, instance_states sample_cfg s
    ∧ pending (buf s) !! nginx_id = Some p ∧ ready p = true
    ∧ (takeReady [] (buf s)).1 = [nginx_instance]
    ∧ added s !! nginx_id = Some t
    ∧ now (timers (buf s)) = t ∧ (0 < DebounceWindow sample_cfg)%Z.
Proof.
  exists (final reuse_trace), (mkPendingChange nginx_instance 1 true 0), (10 * Second)%Z.
  split; [run_trace|]. split_and!; vm_compute; reflexivity.
Qed.

(** A timer's goroutine takes a batch; before it sends it, [Run] handles the delete
    of the resource in the batch. *)
Definition overtaking_trace : list (Label ResourceInstance) :=
  [LUpsert nginx_instance; LWait (10 * Second); LFire 0; LThread 0 []; LThread 0 []; LThread 0 [];
   LRemove nginx_id; LRun; LThread 0 []; LConsume; LConsume].

(** C28: a delete can be overtaken by an older upsert.  There is a reachable state in
    which everything was delivered and nothing is pending, held, queued, lost or
    logged, the last event was the delete of the resource, and the receiver's
    index still has it: the hypothesis of the index theorem that no event is
    accepted while a batch is held cannot be dropped. *)
Theorem upsert_overtakes_delete :
  ∃ s, instance_states sample_cfg s
    ∧ pending (buf s) = ∅ ∧ inflight s = [] ∧ chan_buf (Payloads (buf s)) = []
    ∧ lost s = [] ∧ dropped (buf s) = []
    ∧ last (hist s) = Some (Accepted (Remove nginx_id))
    ∧ spec_index (hist s) = ∅
    ∧ apply_payloads (delivered s) ∅ = {[nginx_id := nginx_instance]}.
Proof.
  exists (final overtaking_trace). split; [run_trace|]. split_and!; vm_compute; reflexivity.
Qed.

(** The same batch, overtaken by the shutdown. *)
Definition shutdown_trace : list (Label ResourceInstance) :=
  [LUpsert nginx_instance; LWait (10 * Second); LFire 0; LThread 0 []; LThread 0 []; LThread 0 [];
   LShutdown []; LRun; LThread 0 []].

(** C30: the final flush does not send everything.  There is a reachable state in
    which [Run] has returned, no payload was ever sent, no drop was logged, and
    the only value that was accepted is gone. *)
Theorem shutdown_loses_batch :
  ∃ s, instance_states sample_cfg s
    ∧ run s = RReturned ∧ hist s = [Accepted (Upsert nginx_instance); Taken [nginx_instance]]
    ∧ pending (buf s) = ∅ ∧ inflight s = [] ∧ delivered s = []
    ∧ chan_buf (Payloads (buf s)) = [] ∧ dropped (buf s) = [].
Proof.
  exists (final shutdown_trace). split; [run_trace|]. split_and!; vm_compute; reflexivity.
Qed.

(** ** Witness *)

Definition crd_trace : list (Label string) :=
  [LUpsert "widgets.example.com"; LWait (10 * Second); LFire 0; LThread 0 []].

Lemma crd_window_respected_witness :
  ∃ s t, capability_states sample_cfg s ∧ added s !! "widgets.example.com" = Some t
    ∧ (t + 10 * Second ≤ now (CrdDebounce.timers (buf s)))%Z.
Proof.
  pose (s0 := init (V:=string) (P:=CrdDebounce.CrdSyncPayload) (CrdDebounce.NewCrdDebounceBuffer sample_cfg)).
  pose (s := default s0 (exec crd_trace s0)). exists s.
  assert (capability_states sample_cfg s) as Hs.
  { apply (exec_rtc crd_trace). vm_compute. reflexivity. }
  destruct (crd_window_respected sample_cfg s [] "widgets.example.com" Hs) as (t & Ht & Hle).
  - vm_compute. reflexivity.
  - vm_compute. left.
  - exists t. split; [exact Hs|split; [exact Ht|exact Hle]].
Defined.
