(* ===== verification/DebounceSpec.v ===== *)
(** What each operation of the instance buffer does, branch by branch. *)

From S2P Require Import Prelude GoRuntime GoStrings Config Metadata Watcher Buffer Debounce.

(** The channel is closed when the flag says so, as the goroutines keep it. *)
Definition consistent (d : DebounceBuffer) : Prop :=
  payloadsClosed d = chan_closed (Payloads d).

(** What [emitPayload] does to the channel and the log: a payload is discarded
    after the shutdown, enqueued while there is room, and dropped with a log line
    otherwise. *)
Definition offered (p : SyncPayload) (d d' : DebounceBuffer) : Prop :=
  (Payloads d', dropped d') =
    if payloadsClosed d then (Payloads d, dropped d)
    else if chan_has_room (Payloads d) then (chan_push p (Payloads d), dropped d)
    else (Payloads d, dropped d ++ [PayloadDropped (length (Upserts p)) (length (Deletes p))]).

Lemma emitPayload_ok p d :
  consistent d →
  ∃ d', emitPayload p d = Ok d' ∧ offered p d d' ∧ pending d' = pending d ∧ timers d' = timers d
    ∧ payloadsClosed d' = payloadsClosed d ∧ consistent d'.
Proof.
  unfold consistent, emitPayload, offered. intros Hc. destruct (payloadsClosed d) eqn:Hp; [by exists d; rewrite Hp|].
  unfold select_send. rewrite <- Hc. destruct (chan_has_room (Payloads d)) eqn:Hr; eexists;
    (split; [reflexivity|]); cbn; rewrite ?Hp; split_and!; done.
Qed.

(** The values of the entries a predicate selects. *)
Definition values_of (sel : pendingChange → bool) (m : gmap string pendingChange) :
    list ResourceInstance :=
  instance <$> (base.filter (λ kv, sel kv.2 = true) (map_to_list m)).*2.

(** Ranging over the keys selects the values of the selected entries, each once. *)
Lemma selected_values hint sel (m : gmap string pendingChange) :
  selected sel instance (range_keys hint m) m ≡ₚ values_of sel m.
Proof.
  unfold selected. assert (range_keys hint m ≡ₚ (map_to_list m).*1) as ->.
  { apply NoDup_Permutation; [auto with sync|apply NoDup_fst_map_to_list|].
    intros k. rewrite range_keys_elem, list_elem_of_fmap. split.
    - intros [e He]. exists (k, e). split; [done|]. by apply elem_of_map_to_list.
    - intros ([k' e] & -> & He%elem_of_map_to_list). by exists e. }
  unfold values_of.
  assert (∀ kv, kv ∈ map_to_list m → m !! kv.1 = Some kv.2) as Hl.
  { intros [k e] He. by apply elem_of_map_to_list in He. }
  induction (map_to_list m) as [|[k e] l IH]; [done|].
  pose proof (Hl (k, e) ltac:(by left)) as E. cbn in E. rewrite filter_cons, fmap_cons.
  cbn [omap list_omap fst snd]. rewrite E. cbn [mbind option_bind].
  destruct (sel e) eqn:Hs; [rewrite decide_True by done|rewrite decide_False by congruence];
    rewrite ?fmap_cons; rewrite IH by (intros; apply Hl; by right); done.
Qed.

Lemma takeReady_spec hint d :
  ∃ ups, takeReady hint d = (ups, with_pending (base.filter (λ kv, ready kv.2 = false) (pending d)) (timers d) d)
    ∧ ups ≡ₚ values_of ready (pending d).
Proof.
  unfold takeReady. case_decide as Hs.
  - apply map_size_empty_inv in Hs. exists []. unfold values_of. rewrite Hs, map_filter_empty, map_to_list_empty.
    split; [|done]. rewrite <- Hs. by destruct d.
  - change (λ id change s, if ready change then _ else _) with (take_body ready instance).
    rewrite take_loop by auto with sync. cbn. rewrite filter_taken.
    eexists. split; [done|]. apply selected_values.
Qed.

(** The successor of a generation is another one, even when it wraps around. *)
Lemma to_uint64_succ_ne g : to_uint64 (g + 1) ≠ g.
Proof.
  unfold to_uint64. intros E. pose proof (Z.mod_pos_bound (g + 1) (2 ^ 64)) as Hb.
  pose proof (Z_div_mod_eq_full (g + 1) (2 ^ 64)) as Hd. rewrite E in Hd, Hb. lia.
Qed.

(** C18: an event.  A delete removes the pending change of its resource, stops that
    change's timer and offers a deletion at once.  An add or update replaces the
    pending change (last state wins), stops its timer, and starts a new one, due
    a window later, with another generation; nothing is sent. *)
Theorem handleEvent_spec d ev (Hd : consistent d) :
  let id := ID (EvInstance ev) in
  ∃ d', handleEvent ev d = Ok d' ∧ consistent d' ∧
    if decide (EvType ev = EventDelete) then
      pending d' = delete id (pending d)
      ∧ offered {| Upserts := []; Deletes := [id] |} d d'
      ∧ (∀ q, pending d !! id = Some q → armed (timers d') !! timer q = None)
    else
      ∃ p, pending d' = <[id := p]> (pending d)
        ∧ instance p = EvInstance ev ∧ ready p = false
        ∧ armed (timers d') !! timer p
            = Some (mkTimer (now (timers d) + debounceWindow d) (mkClosure id (gen p)))
        ∧ (∀ q, pending d !! id = Some q → gen p ≠ gen q
             ∧ (timer q ≠ timer p → armed (timers d') !! timer q = None))
        ∧ (Payloads d', dropped d') = (Payloads d, dropped d).
Proof.
  cbv zeta. unfold handleEvent. case_decide as Ht.
  - set (d1 := cancelPending (ID (EvInstance ev)) d).
    assert (consistent d1 ∧ pending d1 = delete (ID (EvInstance ev)) (pending d)
      ∧ (Payloads d1, dropped d1, payloadsClosed d1) = (Payloads d, dropped d, payloadsClosed d)
      ∧ (∀ q, pending d !! ID (EvInstance ev) = Some q → armed (timers d1) !! timer q = None))
      as (Hc1 & Hp1 & [= E1 E2 E3] & Hq1).
    { subst d1. unfold cancelPending. destruct (pending d !! ID (EvInstance ev)) as [q|] eqn:Hq.
      - cbn. do 3 (split; [done|]). intros ? [= ->]. apply lookup_delete_eq.
      - rewrite delete_id by done. done. }
    destruct (emitPayload_ok {| Upserts := []; Deletes := [ID (EvInstance ev)] |} d1 Hc1)
      as (d' & -> & Ho & Hp' & Ht' & _ & Hc'). exists d'. split; [done|]. split; [done|].
    rewrite Hp', Ht', Hp1. split; [done|]. split; [|done].
    unfold offered in *. by rewrite Ho, E1, E2, E3.
  - eexists. split; [done|]. split; [done|]. eexists. cbn. split; [done|]. cbn. do 2 (split; [done|]).
    split; [|split; [|done]].
    + rewrite lookup_insert_eq. by destruct (pending d !! _).
    + intros q Hq. rewrite Hq. cbn. unfold nextGen. rewrite Hq. split.
      * apply to_uint64_succ_ne.
      * intros Hne. rewrite lookup_insert_ne by done. apply lookup_delete_eq.
Qed.

Lemma stop_all_stops {E} (tm : E → nat) keys (m : gmap string E) (t : Timers Closure) k e :
  k ∈ keys → m !! k = Some e → armed (stop_all tm keys m t) !! tm e = None.
Proof.
  intros Hk He. unfold stop_all. revert t.
  assert (∀ ks (t : Timers Closure), armed t !! tm e = None →
    armed (foldl (λ t k, match m !! k with Some e => StopTimer (tm e) t | None => t end) t ks)
      !! tm e = None) as Hkeep.
  { induction ks as [|j ks IH]; intros t Ht; [done|]. cbn. apply IH.
    destruct (m !! j); [|done]. apply lookup_delete_None. by right. }
  induction Hk as [k keys|k j keys Hk IH]; intros t; cbn; [|by apply IH].
  apply Hkeep. rewrite He. apply lookup_delete_eq.
Qed.

Lemma takeAll_spec hint d :
  ∃ ups t, takeAll hint d = (ups, with_pending ∅ t d)
    ∧ ups ≡ₚ values_of (λ _, true) (pending d)
    ∧ ∀ k p, pending d !! k = Some p → armed t !! timer p = None.
Proof.
  unfold takeAll. case_decide as Hs.
  - apply map_size_empty_inv in Hs. exists [], (timers d). unfold values_of.
    rewrite Hs, map_to_list_empty. split; [rewrite <- Hs; by destruct d|].
    split; [done|]. intros k p. by rewrite lookup_empty.
  - pose proof (drain_loop instance timer (range_keys hint (pending d)) [] (pending d) (timers d)
      (range_keys_NoDup _ _)) as E.
    unfold drain_body in E. rewrite E. cbn. rewrite filter_drained.
    do 2 eexists. split; [done|]. split; [apply selected_values|].
    intros k p Hp. eapply stop_all_stops; [|done]. apply range_keys_elem. by eexists.
Qed.

Lemma readyCount_length d : readyCount d = Z.of_nat (length (values_of ready (pending d))).
Proof.
  unfold readyCount. rewrite count_loop, size_filter_length. unfold values_of.
  by rewrite !length_fmap.
Qed.

(** A batch is sent when it is not empty. *)
Definition offered_batch (ups : list ResourceInstance) (d d' : DebounceBuffer) : Prop :=
  match ups with
  | [] => (Payloads d', dropped d') = (Payloads d, dropped d)
  | _ => offered {| Upserts := ups; Deletes := [] |} d d'
  end.

Lemma flushPending_ready hint d :
  consistent d →
  ∃ d' ups, flushPending hint d = Ok d' ∧ ups ≡ₚ values_of ready (pending d)
    ∧ pending d' = base.filter (λ kv, ready kv.2 = false) (pending d)
    ∧ timers d' = timers d ∧ offered_batch ups d d' ∧ consistent d'.
Proof.
  intros Hd. destruct (takeReady_spec hint d) as (ups & E & Hups). unfold flushPending. rewrite E.
  destruct ups as [|v ups]; [by do 2 eexists|]. rewrite decide_False by done.
  destruct (emitPayload_ok {| Upserts := v :: ups; Deletes := [] |} (with_pending
    (base.filter (λ kv, ready kv.2 = false) (pending d)) (timers d) d) Hd)
    as (d' & -> & Ho & Hp & Ht & _ & Hc).
  exists d', (v :: ups). by rewrite Hp, Ht.
Qed.

(** C19: the flushes.  [flushPending] takes the values of exactly the ready entries,
    each once, in one payload, whatever their number and the order of the map,
    and leaves the others and their timers; [checkFlush] does so exactly when at
    least [maxBatchSize] entries are ready, and otherwise changes nothing;
    [flushAllPending] takes every value and stops every timer. *)
Theorem flush_spec d hint (Hd : consistent d) :
  (∃ d' ups, flushPending hint d = Ok d' ∧ ups ≡ₚ values_of ready (pending d)
     ∧ pending d' = base.filter (λ kv, ready kv.2 = false) (pending d)
     ∧ timers d' = timers d ∧ offered_batch ups d d')
  ∧ checkFlush hint d =
      (if decide (maxBatchSize d ≤ Z.of_nat (length (values_of ready (pending d))))%Z
       then flushPending hint d else Ok d)
  ∧ (∃ d' ups, flushAllPending hint d = Ok d' ∧ ups ≡ₚ values_of (λ _, true) (pending d)
     ∧ pending d' = ∅ ∧ offered_batch ups d d'
     ∧ ∀ k p, pending d !! k = Some p → armed (timers d') !! timer p = None).
Proof.
  split; [|split].
  - destruct (flushPending_ready hint d Hd) as (d' & ups & ? & ? & ? & ? & ? & _). by exists d', ups.
  - unfold checkFlush. by rewrite readyCount_length.
  - destruct (takeAll_spec hint d) as (ups & t & E & Hups & Hst). unfold flushAllPending. rewrite E.
    destruct ups as [|v ups]; [by do 2 eexists|]. rewrite decide_True by (cbn; lia).
    destruct (emitPayload_ok {| Upserts := v :: ups; Deletes := [] |} (with_pending ∅ t d) Hd)
      as (d' & -> & Ho & Hp & Ht & _ & Hc).
    exists d', (v :: ups). by rewrite Hp, Ht.
Qed.

(** ** Witnesses *)

Definition ready_entry (v : ResourceInstance) (tm : nat) (r : bool) : pendingChange :=
  mkPendingChange v tm r 0.

(** Two ready entries and one that waits, in a buffer whose batches have size 1. *)
Definition waiting_buffer : DebounceBuffer :=
  let d := NewDebounceBuffer
    (mkConfig "http://localhost:3000" "" Second Second 1 Minute [] [] ":8082" "info") in
  let v k := mkResourceInstance k "" k "Pod" "v1" "" None None "" in
  with_pending {["a" := ready_entry (v "a") 0 true; "b" := ready_entry (v "b") 1 true;
                 "c" := ready_entry (v "c") 2 false]} no_timers d.

Lemma handleEvent_spec_witness :
  ∃ d', handleEvent (mkResourceEvent EventDelete
          (mkResourceInstance "c" "" "c" "Pod" "v1" "" None None "")) waiting_buffer = Ok d'
    ∧ pending d' !! "c" = None.
Proof.
  destruct (handleEvent_spec waiting_buffer (mkResourceEvent EventDelete
    (mkResourceInstance "c" "" "c" "Pod" "v1" "" None None "")) eq_refl) as (d' & E & _ & Hp & _).
  exists d'. split; [exact E|]. rewrite Hp. vm_compute. reflexivity.
Defined.

Lemma flush_spec_witness :
  ∃ d' ups, flushPending [] waiting_buffer = Ok d' ∧ length ups = 2
    ∧ offered_batch ups waiting_buffer d'.
Proof.
  destruct (flush_spec waiting_buffer [] eq_refl) as [(d' & ups & E & Hu & _ & _ & Ho) _].
  exists d', ups. split; [exact E|]. split; [|exact Ho]. rewrite Hu. vm_compute. reflexivity.
Defined.
