(* ===== verification/RestClient.v ===== *)
(** [internal/client/rest.go]: the REST client, its retry loop and its backoff.

    The HTTP exchange itself is the standard library's and the server's: what it
    answers to each attempt is an argument ([World]), like the random numbers and
    the outcome of the wait that a cancelled context may interrupt. *)

From S2P Require Import Prelude GoRuntime.
#[local] Open Scope Z_scope.

(** ** Payloads *)

(** The interface [Payload]; [IsNil] says that a value of a pointer type is nil,
    [Marshal] is [json.Marshal]. *)
Class Payload (T : Type) := {
  PIsEmpty : T → bool;
  IsNil : T → bool;
  Marshal : T → string + string;
}.

(** [isNilPayload] and the test on the interface value itself. *)
Definition isNilPayload `{Payload T} (p : T) : bool := IsNil p.

(** ** The client and its options *)

Record RESTClient := mkRESTClient {
  endpoint : string;
  httpTimeout : Z;
  maxRetries : Z;
  initialDelay : Z;
  maxDelay : Z;
}.

Inductive ClientOption :=
  | TimeoutOption (d : Z)
  | RetryOption (maxRetries initialDelay maxDelay : Z).

Definition WithTimeout (d : Z) (c : RESTClient) : RESTClient :=
  mkRESTClient (endpoint c) d (maxRetries c) (initialDelay c) (maxDelay c).

Definition WithRetry (retries initial max : Z) (c : RESTClient) : RESTClient :=
  let retries := if decide (0 ≤ retries) then retries else maxRetries c in
  let initial := if decide (0 < initial) then initial else initialDelay c in
  let max := if decide (0 < max) then max else maxDelay c in
  let initial := if decide (max < initial) then max else initial in
  mkRESTClient (endpoint c) (httpTimeout c) retries initial max.

Definition apply_option (c : RESTClient) (o : ClientOption) : RESTClient :=
  match o with
  | TimeoutOption d => WithTimeout d c
  | RetryOption r i m => WithRetry r i m c
  end.

Definition New (endpoint : string) (opts : list ClientOption) : RESTClient :=
  foldl apply_option (mkRESTClient endpoint (30 * Second) 3 (1 * Second) (30 * Second)) opts.

(** ** Backoff, in the arithmetic of [float64] *)

(** A quotient by a power of two, rounded to nearest, ties to even. *)
Definition round_shift (n e : Z) : Z :=
  let q := n / 2 ^ e in
  let r := n mod 2 ^ e in
  if decide (2 * r < 2 ^ e) then q
  else if decide (2 ^ e < 2 * r) then q + 1
  else if Z.even q then q else q + 1.

(** The [float64] nearest to a non-negative integer: 53 significant bits. *)
Definition float53 (n : Z) : Z :=
  if decide (n < 2 ^ 53) then n
  else let e := Z.log2 n - 52 in round_shift n e * 2 ^ e.

(** [rand.Float64] is [u / 2^53] for a random [u] of 53 bits; the jitter
    [0.75 + u / 2^53 * 0.25] lies in [0.75, 1], where floats are the multiples of
    [2^-53]; this is the multiple. *)
Definition jitter (u : Z) : Z := 3 * 2 ^ 51 + round_shift u 2.

(** [time.Duration(f)] of a float too large for an int64, as amd64 computes it. *)
Definition float_to_duration (n : Z) : Z := if decide (n < 2 ^ 63) then n else - 2 ^ 63.

(** The delay before the jitter.  Scaling a float by a power of two is exact; a
    product that overflows to infinity exceeds [maxDelay] all the more. *)
Definition backoffBase (c : RESTClient) (attempt : nat) : Z :=
  let delay := float53 (initialDelay c) * 2 ^ (Z.of_nat attempt - 1) in
  if decide (float53 (maxDelay c) < delay) then float53 (maxDelay c) else delay.

Definition backoffDelay (c : RESTClient) (attempt : nat) (u : Z) : Z :=
  float_to_duration (float53 (backoffBase c attempt * jitter u) / 2 ^ 53).

(** ** Requests *)

(** What a request comes to: it cannot be created, [Do] fails, or the server answers
    with a status.  [Do] fails when the connection does, and also when the time
    is up or the response is lost after the server handled the request: [handled]
    is then the status the server answered with, which the client never sees. *)
Inductive HttpOutcome :=
  | RequestError (msg : string)
  | TransportError (msg : string) (handled : option Z)
  | Status (code : Z).

(** [clientError] and [serverError], and the two errors [doPost] wraps. *)
Inductive PostError :=
  | CreatingRequest (msg : string)
  | SendingRequest (msg : string)
  | clientError (statusCode : Z)
  | serverError (statusCode : Z).

Definition isClientError (err : PostError) : bool :=
  match err with clientError _ => true | _ => false end.

Definition doPost (o : HttpOutcome) : option PostError :=
  match o with
  | RequestError msg => Some (CreatingRequest msg)
  | TransportError msg _ => Some (SendingRequest msg)
  | Status code =>
      if bool_decide (400 ≤ code) && bool_decide (code < 500) then Some (clientError code)
      else if decide (500 ≤ code) then Some (serverError code)
      else None
  end.

(** For every attempt: the server's answer, the random number of the backoff, and
    whether the wait ended by the timer ([true]) or by the context. *)
Record World := mkWorld {
  answers : nat → HttpOutcome;
  randoms : nat → Z;
  wait_ends : nat → bool;
}.

Inductive SendError :=
  | MarshalFailed (msg : string)
  | CancelledDuringBackoff
  | PostFailed (err : PostError)
  | ExhaustedRetries (retries : Z) (lastErr : option PostError).

(** What [Send] does, in order. *)
Inductive Action := Waited (delay : Z) | Posted (body : string).

(** The loop, from attempt [attempt] with [n] iterations left. *)
Fixpoint Send_loop (c : RESTClient) (w : World) (body : string) (n attempt : nat)
    (lastErr : option PostError) : option SendError * list Action :=
  match n with
  | O => (Some (ExhaustedRetries (maxRetries c) lastErr), [])
  | S n =>
      let try :=
        match doPost (answers w attempt) with
        | None => (None, [Posted body])
        | Some err =>
            if isClientError err then (Some (PostFailed err), [Posted body])
            else
              let '(r, acts) := Send_loop c w body n (S attempt) (Some err) in
              (r, Posted body :: acts)
        end in
      if decide (0 < attempt)%nat then
        let delay := backoffDelay c attempt (randoms w attempt) in
        if wait_ends w attempt then (try.1, Waited delay :: try.2)
        else (Some CancelledDuringBackoff, [])
      else try
  end.

(** [Send]; [None] is the nil interface.  The loop ranges over an [int], which
    wraps around and has no iterations when it is not positive. *)
Definition Send `{Payload T} (c : RESTClient) (w : World) (payload : option T) :
    option SendError * list Action :=
  match payload with
  | None => (None, [])
  | Some p =>
      if isNilPayload p || PIsEmpty p then (None, [])
      else
        match Marshal p with
        | inr msg => (Some (MarshalFailed msg), [])
        | inl body => Send_loop c w body (Z.to_nat (to_int64 (maxRetries c + 1))) 0 None
        end
  end.

(** ** Lemmas *)

Lemma round_shift_ge n e k : 0 ≤ e → k * 2 ^ e ≤ n → k ≤ round_shift n e.
Proof.
  intros He Hk. assert (0 < 2 ^ e) by (by apply Z.pow_pos_nonneg).
  assert (k ≤ n / 2 ^ e) by (apply Z.div_le_lower_bound; lia).
  unfold round_shift. repeat case_decide; [lia|lia|]. destruct (Z.even _); lia.
Qed.

Lemma round_shift_le n e k : 0 ≤ e → n ≤ k * 2 ^ e → round_shift n e ≤ k.
Proof.
  intros He Hk. assert (0 < 2 ^ e) as Hp by (by apply Z.pow_pos_nonneg).
  pose proof (Z_div_mod_eq_full n (2 ^ e)) as E. pose proof (Z.mod_pos_bound n (2 ^ e) Hp) as Hb.
  assert (n / 2 ^ e < k ∨ n / 2 ^ e = k ∧ n mod 2 ^ e = 0) as Hq.
  { destruct (Z.lt_trichotomy (n / 2 ^ e) k) as [|[Heq|]]; [by left|right|]; nia. }
  unfold round_shift. repeat case_decide; [lia|lia|]. destruct (Z.even _); lia.
Qed.

(** The exponent of a product of a duration of at most [2^53] ns with a jitter. *)
Lemma log2_product n : 2 ^ 53 ≤ n ≤ 2 ^ 106 → 1 ≤ Z.log2 n - 52 ≤ 54.
Proof.
  intros [H1 H2]. apply Z.log2_le_mono in H1, H2. rewrite Z.log2_pow2 in H1, H2 by lia. lia.
Qed.

Lemma log2_top n : n ≤ 2 ^ 106 → Z.log2 n = 106 → n = 2 ^ 106.
Proof.
  intros Hn Hl. assert (0 < n) as Hpos by (destruct (Z.lt_trichotomy 0 n) as [?|[<-|?]]; [done|done|rewrite Z.log2_nonpos in Hl; lia]).
  pose proof (Z.log2_spec n Hpos) as [H _]. rewrite Hl in H. lia.
Qed.

Lemma round_shift_top : round_shift (2 ^ 106) 54 * 2 ^ 54 = 2 ^ 106.
Proof. vm_compute. reflexivity. Qed.

(** Rounding keeps a product on its side of every whole number of nanoseconds. *)
Lemma float53_ge n k : 0 ≤ k → n ≤ 2 ^ 106 → k * 2 ^ 53 ≤ n → k * 2 ^ 53 ≤ float53 n.
Proof.
  intros Hk Hn Hle. unfold float53. case_decide; [done|].
  pose proof (log2_product n ltac:(lia)) as He. set (e := Z.log2 n - 52) in *.
  destruct (decide (e = 54)) as [E|E].
  - rewrite (log2_top n) in * by lia. rewrite E, round_shift_top. done.
  - assert (2 ^ 53 = 2 ^ (53 - e) * 2 ^ e) as E53 by (rewrite <- Z.pow_add_r by lia; f_equal; lia).
    rewrite E53 in *. rewrite Z.mul_assoc in *.
    apply Z.mul_le_mono_nonneg_r; [apply Z.pow_nonneg; lia|]. apply round_shift_ge; lia.
Qed.

Lemma float53_le n k : 0 ≤ n → n ≤ 2 ^ 106 → n ≤ k * 2 ^ 53 → float53 n ≤ k * 2 ^ 53.
Proof.
  intros Hk Hn Hle. unfold float53. case_decide; [done|].
  pose proof (log2_product n ltac:(lia)) as He. set (e := Z.log2 n - 52) in *.
  destruct (decide (e = 54)) as [E|E].
  - rewrite (log2_top n) in * by lia. rewrite E, round_shift_top. done.
  - assert (2 ^ 53 = 2 ^ (53 - e) * 2 ^ e) as E53 by (rewrite <- Z.pow_add_r by lia; f_equal; lia).
    rewrite E53 in *. rewrite Z.mul_assoc in *.
    apply Z.mul_le_mono_nonneg_r; [apply Z.pow_nonneg; lia|]. apply round_shift_le; lia.
Qed.

Lemma float53_small n : 0 ≤ n ≤ 2 ^ 53 → float53 n = n.
Proof.
  intros Hn. destruct (decide (n = 2 ^ 53)) as [->|]; [reflexivity|].
  unfold float53. rewrite decide_True; lia.
Qed.

Lemma jitter_range u : 0 ≤ u < 2 ^ 53 → 3 * 2 ^ 51 ≤ jitter u ≤ 2 ^ 53.
Proof.
  intros Hu. unfold jitter. split.
  - pose proof (round_shift_ge u 2 0 ltac:(lia) ltac:(lia)). lia.
  - pose proof (round_shift_le u 2 (2 ^ 51) ltac:(lia) ltac:(lia)). lia.
Qed.

(** What the options keep. *)
Definition valid_client (c : RESTClient) : Prop :=
  0 ≤ maxRetries c ∧ 0 < initialDelay c ≤ maxDelay c.

Lemma New_valid ep opts : valid_client (New ep opts).
Proof.
  unfold New. assert (valid_client (mkRESTClient ep (30 * Second) 3 (1 * Second) (30 * Second))) as H
    by (vm_compute; intuition discriminate).
  revert H. generalize (mkRESTClient ep (30 * Second) 3 (1 * Second) (30 * Second)).
  induction opts as [|o opts IH]; intros c Hc; [done|]. apply IH. destruct o as [d|r i m]; [done|].
  destruct Hc as (? & ? & ?). unfold valid_client; cbn. repeat case_decide; lia.
Qed.

Lemma backoffBase_min c attempt :
  0 < initialDelay c ≤ maxDelay c → maxDelay c ≤ 2 ^ 53 →
  backoffBase c attempt = Z.min (initialDelay c * 2 ^ (Z.of_nat attempt - 1)) (maxDelay c).
Proof. intros Hi Hm. unfold backoffBase. rewrite !float53_small by lia. case_decide; lia. Qed.

(** C27: the backoff.  For every client that [New] builds, whatever its options (the
    maximal delay being at most 2^53 ns, 104 days), the wait before a retry lies
    between 75% and 100% of the calculated delay, which doubles with every
    attempt and never exceeds the maximal delay; the rounding of [float64] does
    not break the bounds. *)
Theorem backoff_bounds ep opts attempt u (Hmax : maxDelay (New ep opts) ≤ 2 ^ 53)
    (Hattempt : (0 < attempt)%nat) (Hu : 0 ≤ u < 2 ^ 53) :
  let c := New ep opts in
  let base := Z.min (initialDelay c * 2 ^ (Z.of_nat attempt - 1)) (maxDelay c) in
  3 * base / 4 ≤ backoffDelay c attempt u ≤ base ∧ 0 < base ≤ maxDelay c.
Proof.
  intros c base. destruct (New_valid ep opts) as (_ & Hi). fold c in Hi, Hmax.
  assert (0 < 2 ^ (Z.of_nat attempt - 1)) by (apply Z.pow_pos_nonneg; lia).
  assert (0 < base ≤ maxDelay c) as Hb by (subst base; nia). split; [|done].
  unfold backoffDelay. rewrite backoffBase_min by done. fold base.
  pose proof (jitter_range u Hu) as Hj. set (n := base * jitter u).
  assert (0 ≤ n ≤ 2 ^ 106) as Hn by (subst n; change (2 ^ 106) with (2 ^ 53 * 2 ^ 53); nia).
  assert (3 * base / 4 * 2 ^ 53 ≤ n) as Hlo.
  { pose proof (Z_div_mod_eq_full (3 * base) 4). pose proof (Z.mod_pos_bound (3 * base) 4 ltac:(lia)).
    subst n. change (2 ^ 53) with (4 * 2 ^ 51). nia. }
  assert (n ≤ base * 2 ^ 53) as Hhi by (subst n; nia).
  assert (0 ≤ 3 * base / 4) as H0 by (apply Z.div_pos; lia).
  pose proof (float53_ge n _ H0 ltac:(lia) Hlo) as Hge. pose proof (float53_le n base ltac:(lia) ltac:(lia) Hhi) as Hle.
  assert (3 * base / 4 ≤ float53 n / 2 ^ 53) by (apply Z.div_le_lower_bound; lia).
  assert (float53 n / 2 ^ 53 ≤ base) by (apply Z.div_le_upper_bound; lia).
  unfold float_to_duration. rewrite decide_True by lia. done.
Qed.

(** ** What the answers mean *)

(** The client learns that the server took the request: any status below 400. *)
Definition succeeded (o : HttpOutcome) : bool :=
  match o with Status code => code <? 400 | _ => false end.

(** The server refused the request: a status from 400 to 499. *)
Definition refused (o : HttpOutcome) : bool :=
  match o with Status code => (400 <=? code) && (code <=? 499) | _ => false end.

(** An answer after which the loop goes on: a server error, or none at all. *)
Definition retryable (o : HttpOutcome) : bool := negb (succeeded o) && negb (refused o).

(** The error of an answer that is not a success. *)
Definition error_of (o : HttpOutcome) : PostError :=
  match o with
  | RequestError msg => CreatingRequest msg
  | TransportError msg _ => SendingRequest msg
  | Status code => if code <=? 499 then clientError code else serverError code
  end.

Lemma doPost_answer o : doPost o = if succeeded o then None else Some (error_of o).
Proof.
  destruct o as [msg|msg h|code]; [done..|]. cbn. destruct (Z.ltb_spec code 400).
  - rewrite (bool_decide_eq_false_2 (400 ≤ code)) by lia. cbn. by rewrite decide_False by lia.
  - rewrite (bool_decide_eq_true_2 (400 ≤ code)) by lia. cbn. destruct (Z.leb_spec code 499).
    + by rewrite bool_decide_eq_true_2 by lia.
    + rewrite bool_decide_eq_false_2 by lia. by rewrite decide_True by lia.
Qed.

Lemma isClientError_refused o : succeeded o = false → isClientError (error_of o) = refused o.
Proof.
  destruct o as [msg|msg h|code]; [done..|]. cbn. intros H%Z.ltb_ge.
  destruct (Z.leb_spec code 499); cbn; rewrite ?andb_true_r, ?andb_false_r; [|done].
  symmetry. by apply Z.leb_le.
Qed.

(** ** The retry loop *)

Section send.
#[local] Open Scope nat_scope.
Context (c : RESTClient) (w : World) (body : string).

(** An attempt is made unless the context ends the wait before it. *)
Definition may_try (i : nat) : bool := (i =? 0) || wait_ends w i.

Definition attempt_actions (i : nat) : list Action :=
  (if decide (0 < i) then [Waited (backoffDelay c i (randoms w i))] else []) ++ [Posted body].

(** How the attempt [i] ends the loop, when it is the last one that it makes. *)
Definition verdict (last : bool) (i : nat) : option (option SendError) :=
  if succeeded (answers w i) then Some None
  else if refused (answers w i) then Some (Some (PostFailed (error_of (answers w i))))
  else if last then Some (Some (ExhaustedRetries (maxRetries c) (Some (error_of (answers w i)))))
  else None.

Lemma Send_loop_step n a lastErr :
  Send_loop c w body (S n) a lastErr =
    if may_try a then
      if succeeded (answers w a) then (None, attempt_actions a)
      else
        if refused (answers w a) then (Some (PostFailed (error_of (answers w a))), attempt_actions a)
        else prod_map id (app (attempt_actions a))
               (Send_loop c w body n (S a) (Some (error_of (answers w a))))
    else (Some CancelledDuringBackoff, []).
Proof.
  cbn [Send_loop]. rewrite doPost_answer. unfold may_try, attempt_actions. case_decide as Ha.
  - replace (a =? 0) with false by (symmetry; apply Nat.eqb_neq; lia). cbn [orb].
    destruct (wait_ends w a); [|done]. destruct (succeeded (answers w a)) eqn:Hs; [done|].
    rewrite isClientError_refused by done. destruct (refused (answers w a)); [done|].
    by destruct (Send_loop _ _ _ _ _ _).
  - replace a with 0 in * by lia. cbn [orb Nat.eqb].
    destruct (succeeded (answers w 0)) eqn:Hs; [done|].
    rewrite isClientError_refused by done. destruct (refused (answers w 0)); [done|].
    by destruct (Send_loop _ _ _ _ _ _).
Qed.

Lemma Send_loop_spec n a lastErr :
  ∃ k r, k ≤ n
    ∧ (∀ j, j < k → may_try (a + j) = true ∧ retryable (answers w (a + j)) = true)
    ∧ ((may_try (a + k) = false ∧ r = Some CancelledDuringBackoff
          ∧ Send_loop c w body (S n) a lastErr = (r, seq a k ≫= attempt_actions))
       ∨ (may_try (a + k) = true ∧ verdict (k =? n) (a + k) = Some r
          ∧ Send_loop c w body (S n) a lastErr = (r, seq a (S k) ≫= attempt_actions))).
Proof.
  revert a lastErr. induction n as [|n IH]; intros a lastErr; rewrite Send_loop_step.
  - exists 0. rewrite Nat.add_0_r. destruct (may_try a).
    + unfold verdict. destruct (succeeded (answers w a)); [|destruct (refused (answers w a))];
        eexists; (split; [lia|]; split; [lia|]); right;
        (split; [done|split; [done|]]); cbn; by rewrite app_nil_r.
    + eexists. split; [lia|]. split; [lia|]. by left.
  - destruct (may_try a) eqn:Hm.
    2:{ exists 0. eexists. split; [lia|]. split; [lia|]. left. by rewrite Nat.add_0_r. }
    destruct (succeeded (answers w a)) eqn:Hs; [|destruct (refused (answers w a)) eqn:Hc].
    1,2: exists 0; eexists; (split; [lia|]; split; [lia|]); right; rewrite Nat.add_0_r;
      (split; [done|]); unfold verdict; rewrite Hs, ?Hc; (split; [done|]); cbn; by rewrite app_nil_r.
    destruct (IH (S a) (Some (error_of (answers w a)))) as (k & r & Hk & Hprev & Hend). exists (S k), r.
    rewrite <- Nat.add_succ_comm. split; [lia|]. split.
    + intros [|j] Hj; [rewrite Nat.add_0_r; unfold retryable; by rewrite Hm, Hs, Hc|].
      rewrite <- Nat.add_succ_comm. apply Hprev. lia.
    + destruct Hend as [(Hm' & -> & E)|(Hm' & Hv & E)]; [left|right]; rewrite E; done.
Qed.
End send.

(** ** What the server accepted *)

(** The server took the request, whether or not the client learns of it. *)
Definition took (o : HttpOutcome) : bool :=
  match o with
  | Status code | TransportError _ (Some code) => code <? 400
  | _ => false
  end.

(** The server took the request and the client takes it for failed. *)
Definition unseen (o : HttpOutcome) : bool := took o && negb (succeeded o).

(** The bodies the server took, from what the attempts came to.  A request that is
    taken at all is taken before the next one is sent. *)
Fixpoint accepted_bodies (w : World) (attempt : nat) (acts : list Action) : list string :=
  match acts with
  | [] => []
  | Waited _ :: acts => accepted_bodies w attempt acts
  | Posted body :: acts =>
      if took (answers w attempt) then body :: accepted_bodies w (S attempt) acts
      else accepted_bodies w (S attempt) acts
  end.

(** How many of the requests the server took unseen, and how many there were. *)
Fixpoint unseen_count (w : World) (attempt : nat) (acts : list Action) : nat :=
  match acts with
  | [] => 0
  | Waited _ :: acts => unseen_count w attempt acts
  | Posted _ :: acts => (if unseen (answers w attempt) then 1 else 0) + unseen_count w (S attempt) acts
  end.

Fixpoint requests (acts : list Action) : nat :=
  match acts with
  | [] => 0
  | Waited _ :: acts => requests acts
  | Posted _ :: acts => S (requests acts)
  end.

Lemma took_cases o : took o = succeeded o || unseen o.
Proof. unfold unseen. destruct o as [?|? [?|]|?]; cbn; by rewrite ?andb_true_r, ?andb_negb_r, ?orb_false_r. Qed.

Lemma succeeded_seen o : succeeded o = true → unseen o = false.
Proof. unfold unseen. intros ->. apply andb_false_r. Qed.

(** How often the result says that the server took the body. *)
Definition seen_count (r : option SendError) : nat := match r with None => 1 | Some _ => 0 end.

(** The server takes the body once when the loop reports success, and once more for
    every request it took unseen. *)
Lemma Send_loop_accepted c w body n a lastErr :
  let '(r, acts) := Send_loop c w body n a lastErr in
  accepted_bodies w a acts = replicate (unseen_count w a acts + seen_count r) body
  ∧ (unseen_count w a acts + seen_count r ≤ requests acts ≤ n)%nat.
Proof.
  revert a lastErr. induction n as [|n IH]; intros a lastErr; [by cbn; split; [|lia]|].
  rewrite Send_loop_step. destruct (may_try w a); [|by cbn; split; [|lia]].
  specialize (IH (S a) (Some (error_of (answers w a)))).
  destruct (Send_loop c w body n (S a) _) as [r acts]. destruct IH as [IHa IHn].
  pose proof (took_cases (answers w a)) as Ht. pose proof (succeeded_seen (answers w a)) as Hu.
  destruct (succeeded (answers w a)); [|destruct (refused (answers w a)) eqn:Hr];
    cbn [prod_map fst snd]; unfold attempt_actions; case_decide; cbn; rewrite ?Ht, ?Hu by done; cbn;
    try destruct (unseen (answers w a)); cbn; rewrite ?IHa; (split; [done|lia]).
Qed.

Lemma Send_accepted `{Payload T} c w (p : T) body :
  isNilPayload p || PIsEmpty p = false → Marshal p = inl body →
  let '(r, acts) := Send c w (Some p) in
  accepted_bodies w 0 acts = replicate (unseen_count w 0 acts + seen_count r) body
  ∧ (unseen_count w 0 acts + seen_count r ≤ requests acts
       ≤ Z.to_nat (to_int64 (maxRetries c + 1)))%nat.
Proof. intros Hp Hm. unfold Send. rewrite Hp, Hm. apply Send_loop_accepted. Qed.

(** C15: [Send].  A nil or empty payload is not sent.  Otherwise, for a client that
    [New] built, there is an attempt [k], at most [maxRetries], that ends the
    loop: every earlier attempt was made and failed in a way that is retried
    (not by a 4xx); attempt [k] is given up when the context ends its wait, and
    otherwise decides the result: success, a 4xx returned at once, or, when it is
    the last one, the error of exhausted retries.  What was sent is exactly one
    request with the marshalled payload per attempt made, each retry preceded by
    its wait. *)
Theorem Send_spec `{Payload T} ep opts w (p : option T)
    (Hmax : (maxRetries (New ep opts) < 2 ^ 63 - 1)%Z) :
  let c := New ep opts in
  match p with
  | None => Send c w p = (None, [])
  | Some v =>
      if isNilPayload v || PIsEmpty v then Send c w p = (None, [])
      else match Marshal v with
      | inr msg => Send c w p = (Some (MarshalFailed msg), [])
      | inl body =>
          ∃ k r, (Z.of_nat k ≤ maxRetries c)%Z
            ∧ (∀ j, (j < k)%nat → may_try w j = true ∧ retryable (answers w j) = true)
            ∧ ((may_try w k = false ∧ r = Some CancelledDuringBackoff
                  ∧ Send c w p = (r, seq 0 k ≫= attempt_actions c w body))
               ∨ (may_try w k = true ∧ verdict c w (Z.of_nat k =? maxRetries c)%Z k = Some r
                  ∧ Send c w p = (r, seq 0 (S k) ≫= attempt_actions c w body)))
      end
  end.
Proof.
  intros c. destruct (New_valid ep opts) as [Hr _]. fold c in Hr, Hmax.
  destruct p as [v|]; [|done]. unfold Send. destruct (isNilPayload v || PIsEmpty v); [done|].
  destruct (Marshal v) as [body|msg]; [|done].
  assert (Z.to_nat (to_int64 (maxRetries c + 1)) = S (Z.to_nat (maxRetries c))) as ->.
  { replace (to_int64 (maxRetries c + 1)) with (maxRetries c + 1) by
      (symmetry; apply to_int64_exact; unfold in_int64, int64_min, int64_max; lia). lia. }
  destruct (Send_loop_spec c w body (Z.to_nat (maxRetries c)) 0 None) as (k & r & Hk & Hprev & Hend).
  exists k, r. split; [lia|]. split; [exact Hprev|].
  replace (Z.of_nat k =? maxRetries c) with (Nat.eqb k (Z.to_nat (maxRetries c))); [exact Hend|].
  destruct (Nat.eqb_spec k (Z.to_nat (maxRetries c))), (Z.eqb_spec (Z.of_nat k) (maxRetries c)); lia.
Qed.

(** An edge of the loop bound.  With the largest int as the number of retries,
    [maxRetries + 1] wraps around, the loop has no iterations, and [Send] reports
    exhausted retries, wrapping a nil error, without a single request. *)
Theorem Send_overflow `{Payload T} ep w (v : T) body
    (Hv : isNilPayload v || PIsEmpty v = false) (Hm : Marshal v = inl body) :
  Send (New ep [RetryOption (2 ^ 63 - 1) 0 0]) w (Some v)
    = (Some (ExhaustedRetries (2 ^ 63 - 1) None), []).
Proof. unfold Send. rewrite Hv, Hm. reflexivity. Qed.

(** ** Witnesses *)

#[export] Instance text_payload : Payload string := {|
  PIsEmpty s := bool_decide (s = "");
  IsNil _ := false;
  Marshal s := inl s;
|}.

(** Two failures of the server, then a success. *)
Definition flaky : World :=
  mkWorld (λ i, if (i <? 2)%nat then Status 503 else Status 200) (λ _, 0) (λ _, true).

Lemma backoff_bounds_witness :
  let c := New "http://localhost:3000" [] in
  750000000 ≤ backoffDelay c 1 12345 ≤ 1000000000 ∧ 22500000000 ≤ backoffDelay c 9 12345 ≤ 30000000000.
Proof.
  split.
  - apply (backoff_bounds "http://localhost:3000" [] 1 12345); [done|lia|lia].
  - apply (backoff_bounds "http://localhost:3000" [] 9 12345); [done|lia|lia].
Defined.

Lemma Send_spec_witness :
  ∃ k r, (Z.of_nat k ≤ 3) ∧ Send (New "http://localhost:3000" []) flaky (Some "body") = (r, 
    seq 0 (S k) ≫= attempt_actions (New "http://localhost:3000" []) flaky "body").
Proof.
  destruct (Send_spec "http://localhost:3000" [] flaky (Some "body") ltac:(done))
    as (k & r & Hk & _ & [(Hm & _)|(_ & _ & E)]).
  - destruct k; discriminate Hm.
  - exists k, r. split; [exact Hk|exact E].
Defined.

Lemma Send_overflow_witness :
  Send (New "http://localhost:3000" [RetryOption (2 ^ 63 - 1) 0 0]) flaky (Some "body")
    = (Some (ExhaustedRetries (2 ^ 63 - 1) None), []).
Proof. apply (Send_overflow "http://localhost:3000" flaky "body" "body"); reflexivity. Defined.

Example flaky_succeeds :
  (Send (New "http://localhost:3000" []) flaky (Some "body")).1 = None
  ∧ length (Send (New "http://localhost:3000" []) flaky (Some "body")).2 = 5%nat.
Proof. vm_compute. done. Qed.
