(* ===== verification/Json.v ===== *)
(** Go's [encoding/json], as far as the sources use it: [Marshal] of strings, nulls,
    integers, arrays and objects, byte for byte, and a reader that gives the
    value back.

    A Go string is any sequence of bytes; [Marshal] escapes the characters that
    HTML and JavaScript treat specially, and replaces bytes that are not UTF-8 by
    the replacement character. *)

From Stdlib Require Import Ascii String.
From S2P Require Import Prelude GoRuntime GoStrings.

(** ** UTF-8 *)

(** A decoded character with its encoding, or a byte that belongs to none. *)
Inductive Rune := Good (enc : string) | Bad.

Definition between (lo hi : nat) (c : ascii) : bool := (lo <=? byte_of c) && (byte_of c <=? hi).
Definition continuation : ascii → bool := between 128 191.

(** The lead bytes with the second bytes they allow, as in the Unicode standard. *)
Definition two_bytes (b c : ascii) : bool := between 194 223 b && continuation c.

Definition three_bytes (b c d : ascii) : bool :=
  (between 224 224 b && between 160 191 c || between 225 236 b && continuation c
   || between 237 237 b && between 128 159 c || between 238 239 b && continuation c)
  && continuation d.

Definition four_bytes (b c d e : ascii) : bool :=
  (between 240 240 b && between 144 191 c || between 241 243 b && continuation c
   || between 244 244 b && between 128 143 c)
  && continuation d && continuation e.

(** What [range] over a string, and [utf8.DecodeRuneInString], see. *)
Fixpoint runes (s : string) : list Rune :=
  match s with
  | EmptyString => []
  | String b s1 =>
      if byte_of b <? 128 then Good (String b "") :: runes s1
      else match s1 with
      | EmptyString => Bad :: runes s1
      | String c s2 =>
          if two_bytes b c then Good (String b (String c "")) :: runes s2
          else match s2 with
          | EmptyString => Bad :: runes s1
          | String d s3 =>
              if three_bytes b c d then Good (String b (String c (String d ""))) :: runes s3
              else match s3 with
              | EmptyString => Bad :: runes s1
              | String e s4 =>
                  if four_bytes b c d e
                  then Good (String b (String c (String d (String e "")))) :: runes s4
                  else Bad :: runes s1
              end
          end
      end
  end.

Definition is_good (r : Rune) : bool := match r with Good _ => true | Bad => false end.

Definition valid_utf8 (s : string) : bool := forallb is_good (runes s).

(** ** Strings *)

Definition char (n : nat) : ascii := ascii_of_nat n.
Definition quote_char : ascii := char 34.
Definition backslash : ascii := char 92.

Definition hex_digit (n : nat) : ascii :=
  if n <? 10 then char (48 + n) else char (87 + n).

(** A byte below 128. *)
Definition escape_byte (c : ascii) : string :=
  let n := byte_of c in
  if (n =? 34) || (n =? 92) then String backslash (String c "")
  else if n =? 8 then "\b"
  else if n =? 12 then "\f"
  else if n =? 10 then "\n"
  else if n =? 13 then "\r"
  else if n =? 9 then "\t"
  else if (n <? 32) || (n =? 60) || (n =? 62) || (n =? 38)
  then "\u00" +:+ String (hex_digit (n / 16)) (String (hex_digit (n mod 16)) "")
  else String c "".

Definition line_separator : string := String (char 226) (String (char 128) (String (char 168) "")).
Definition paragraph_separator : string := String (char 226) (String (char 128) (String (char 169) "")).

Definition escape_rune (r : Rune) : string :=
  match r with
  | Bad => "\ufffd"
  | Good (String c EmptyString) => escape_byte c
  | Good enc =>
      if String.eqb enc line_separator then "\u2028"
      else if String.eqb enc paragraph_separator then "\u2029"
      else enc
  end.

Definition escape (s : string) : string := foldr (λ r t, escape_rune r +:+ t) "" (runes s).

Definition quote (s : string) : string :=
  String quote_char (escape s +:+ String quote_char "").

(** ** Values *)

Inductive Json :=
  | JNull
  | JInt (z : Z)
  | JString (s : string)
  | JArray (l : list Json)
  | JObject (fields : list (string * Json)).

Fixpoint encode (j : Json) : string :=
  match j with
  | JNull => "null"
  | JInt z => Itoa z
  | JString s => quote s
  | JArray l => "[" +:+ Join "," (List.map encode l) +:+ "]"
  | JObject fields =>
      "{" +:+ Join "," (List.map (λ kv, quote kv.1 +:+ ":" +:+ encode kv.2) fields) +:+ "}"
  end.

(** ** A reader *)

(** The UTF-8 encoding of a code point of the basic plane; a surrogate alone is
    replaced. *)
Definition encode_point (n : nat) : string :=
  if n <? 128 then String (char n) ""
  else if n <? 2048 then String (char (192 + n / 64)) (String (char (128 + n mod 64)) "")
  else if (55296 <=? n) && (n <=? 57343)
  then String (char 239) (String (char 191) (String (char 189) ""))
  else String (char (224 + n / 4096))
         (String (char (128 + n / 64 mod 64)) (String (char (128 + n mod 64)) "")).

Definition hex_value (c : ascii) : option nat :=
  let n := byte_of c in
  if (48 <=? n) && (n <=? 57) then Some (n - 48)
  else if (97 <=? n) && (n <=? 102) then Some (n - 87)
  else if (65 <=? n) && (n <=? 70) then Some (n - 55)
  else None.

Definition unescape (c : ascii) : option ascii :=
  let n := byte_of c in
  if (n =? 34) || (n =? 92) || (n =? 47) then Some c
  else if n =? 98 then Some (char 8)
  else if n =? 102 then Some (char 12)
  else if n =? 110 then Some (char 10)
  else if n =? 114 then Some (char 13)
  else if n =? 116 then Some (char 9)
  else None.

Definition push (p : string) (r : option (string * string)) : option (string * string) :=
  '(s, rest) ← r; Some (p +:+ s, rest).

(** The rest of a string literal after its opening quote. *)
Fixpoint unquote (s : string) : option (string * string) :=
  match s with
  | EmptyString => None
  | String c s1 =>
      if Ascii.eqb c quote_char then Some ("", s1)
      else if Ascii.eqb c backslash then
        match s1 with
        | EmptyString => None
        | String e s2 =>
            if Ascii.eqb e "u" then
              match s2 with
              | String h1 (String h2 (String h3 (String h4 s3))) =>
                  a ← hex_value h1; b ← hex_value h2; c ← hex_value h3; d ← hex_value h4;
                  push (encode_point (4096 * a + 256 * b + 16 * c + d)) (unquote s3)
              | _ => None
              end
            else b ← unescape e; push (String b "") (unquote s2)
        end
      else if byte_of c <? 32 then None
      else push (String c "") (unquote s1)
  end.

(** The reader of values of a known nesting ([n] bounds the recursion).  Numbers are
    left out: the payloads have none. *)
Fixpoint parse (n : nat) (s : string) : option (Json * string) :=
  match n with
  | 0 => None
  | S n =>
      match s with
      | String c s1 =>
          if Ascii.eqb c quote_char then '(t, rest) ← unquote s1; Some (JString t, rest)
          else if Ascii.eqb c "[" then
            match s1 with
            | String d rest =>
                if Ascii.eqb d "]" then Some (JArray [], rest)
                else '(l, rest) ← parse_elements n s1; Some (JArray l, rest)
            | EmptyString => None
            end
          else if Ascii.eqb c "{" then
            match s1 with
            | String d rest =>
                if Ascii.eqb d "}" then Some (JObject [], rest)
                else '(l, rest) ← parse_fields n s1; Some (JObject l, rest)
            | EmptyString => None
            end
          else
            match s with
            | String "n" (String "u" (String "l" (String "l" rest))) => Some (JNull, rest)
            | _ => None
            end
      | EmptyString => None
      end
  end
with parse_elements (n : nat) (s : string) : option (list Json * string) :=
  match n with
  | 0 => None
  | S n =>
      '(v, rest) ← parse n s;
      match rest with
      | String c rest =>
          if Ascii.eqb c "," then '(l, rest) ← parse_elements n rest; Some (v :: l, rest)
          else if Ascii.eqb c "]" then Some ([v], rest) else None
      | EmptyString => None
      end
  end
with parse_fields (n : nat) (s : string) : option (list (string * Json) * string) :=
  match n with
  | 0 => None
  | S n =>
      match s with
      | String c s1 =>
          if Ascii.eqb c quote_char then
            '(k, rest) ← unquote s1;
            match rest with
            | String c rest =>
                if Ascii.eqb c ":" then
                  '(v, rest) ← parse n rest;
                  match rest with
                  | String c rest =>
                      if Ascii.eqb c "," then
                        '(l, rest) ← parse_fields n rest; Some ((k, v) :: l, rest)
                      else if Ascii.eqb c "}" then Some ([(k, v)], rest) else None
                  | EmptyString => None
                  end
                else None
            | EmptyString => None
            end
          else None
      | EmptyString => None
      end
  end.

(** A whole text; its length bounds the nesting. *)
Definition decode (s : string) : option Json :=
  '(j, rest) ← parse (String.length s) s;
  if String.eqb rest "" then Some j else None.

Example encode_escapes :
  encode (JString ("<a>" +:+ String (char 10) (String (char 255) ""))) =
    String quote_char ("\u003ca\u003e\n\ufffd" +:+ String quote_char "").
Proof. vm_compute. reflexivity. Qed.

Example decode_object :
  decode (encode (JObject [("upserts", JArray [JString "x&y"; JNull]); ("deletes", JArray [])]))
    = Some (JObject [("upserts", JArray [JString "x&y"; JNull]); ("deletes", JArray [])]).
Proof. vm_compute. reflexivity. Qed.

(** ** Strings survive *)

#[local] Arguments String.append !s1 s2 /.

Lemma push_push p q r : push p (push q r) = push (p +:+ q) r.
Proof. destruct r as [[s rest]|]; [|done]. cbn. by rewrite append_assoc'. Qed.

Lemma unquote_escape_byte c t :
  byte_of c < 128 → unquote (escape_byte c +:+ t) = push (String c "") (unquote t).
Proof.
  intros Hc. destruct c as [[] [] [] [] [] [] [] []];
    first [reflexivity|exfalso; cbn in Hc; lia].
Qed.

Definition high (c : ascii) : bool := 128 <=? byte_of c.

Lemma unquote_high c t : high c = true → unquote (String c t) = push (String c "") (unquote t).
Proof. destruct c as [[] [] [] [] [] [] [] []]; first [reflexivity|discriminate]. Qed.

Lemma unquote_high_all e t :
  string_forall high e = true → unquote (e +:+ t) = push e (unquote t).
Proof.
  induction e as [|c e IH]; cbn [string_forall].
  - intros _. cbn. by destruct (unquote t) as [[? ?]|].
  - intros [Hc He]%andb_true_iff. cbn [String.append]. by rewrite unquote_high, IH, push_push.
Qed.

(** The encodings of characters: one byte below 128, or several above. *)
Definition encoding (e : string) : Prop :=
  (∃ c, byte_of c < 128 ∧ e = String c "")
  ∨ (∃ c d e', e = String c (String d e')) ∧ string_forall high e = true.

Ltac lead_bytes :=
  unfold continuation, between, high;
  rewrite ?andb_true_iff, ?orb_true_iff, ?andb_true_iff, ?Nat.leb_le; lia.

Lemma two_bytes_high b c : two_bytes b c = true → high b = true ∧ high c = true.
Proof. unfold two_bytes. lead_bytes. Qed.

Lemma three_bytes_high b c d :
  three_bytes b c d = true → high b = true ∧ high c = true ∧ high d = true.
Proof. unfold three_bytes. lead_bytes. Qed.

Lemma four_bytes_high b c d e :
  four_bytes b c d e = true → high b = true ∧ high c = true ∧ high d = true ∧ high e = true.
Proof. unfold four_bytes. lead_bytes. Qed.

(** A string is empty, or starts with a character or with a stray byte. *)
Lemma runes_cases s :
  s = "" ∨ (∃ e r, runes s = Good e :: runes r ∧ s = e +:+ r ∧ encoding e)
  ∨ (∃ c r, runes s = Bad :: runes r ∧ s = String c r).
Proof.
  destruct s as [|b s1]; [by left|right]. cbn [runes].
  destruct (byte_of b <? 128) eqn:Hb.
  { left. exists (String b ""), s1. split; [done|]. split; [done|]. left. exists b.
    by apply Nat.ltb_lt in Hb. }
  destruct s1 as [|c s2]; [right; by exists b, ""|].
  destruct (two_bytes b c) eqn:H2.
  { left. exists (String b (String c "")), s2. split; [done|]. split; [done|].
    right. split; [by do 3 eexists|]. apply two_bytes_high in H2 as [Hb' Hc']. cbn [string_forall]. by rewrite Hb', Hc'. }
  destruct s2 as [|d s3]; [right; by exists b, (String c "")|].
  destruct (three_bytes b c d) eqn:H3.
  { left. exists (String b (String c (String d ""))), s3. split; [done|]. split; [done|].
    right. split; [by do 3 eexists|]. apply three_bytes_high in H3 as (Hb' & Hc' & Hd').
    cbn [string_forall]. by rewrite Hb', Hc', Hd'. }
  destruct s3 as [|e s4]; [right; by exists b, (String c (String d ""))|].
  destruct (four_bytes b c d e) eqn:H4.
  { left. exists (String b (String c (String d (String e "")))), s4. split; [done|]. split; [done|].
    right. split; [by do 3 eexists|]. apply four_bytes_high in H4 as (Hb' & Hc' & Hd' & He').
    cbn [string_forall]. by rewrite Hb', Hc', Hd', He'. }
  right. by exists b, (String c (String d (String e s4))).
Qed.

Lemma unquote_escape_rune e t :
  encoding e → unquote (escape_rune (Good e) +:+ t) = push e (unquote t).
Proof.
  intros [(c & Hc & ->)|[(c & d & e' & ->) Hh]]; [by apply unquote_escape_byte|].
  cbn [escape_rune]. destruct (String.eqb_spec (String c (String d e')) line_separator) as [->|];
    [reflexivity|].
  destruct (String.eqb_spec (String c (String d e')) paragraph_separator) as [->|]; [reflexivity|].
  by apply unquote_high_all.
Qed.

Lemma length_append s t : String.length (s +:+ t) = String.length s + String.length t.
Proof. induction s as [|c s IH]; [done|]. cbn. by rewrite IH. Qed.

Lemma unquote_escape s t :
  valid_utf8 s = true → unquote (escape s +:+ String quote_char t) = Some (s, t).
Proof.
  remember (String.length s) as n eqn:Hn. revert s Hn.
  induction n as [n IH] using lt_wf_ind; intros s -> Hs.
  destruct (runes_cases s) as [->|[(e & r & Hr & E & He)|(c & r & Hr & ->)]]; [done| |].
  - unfold escape. rewrite Hr. cbn [foldr]. fold (escape r).
    rewrite append_assoc', unquote_escape_rune by done.
    rewrite (IH (String.length r)); [by rewrite E| |done|].
    + rewrite E, length_append. destruct He as [(? & _ & ->)|[(? & ? & ? & ->) _]]; cbn; lia.
    + unfold valid_utf8 in *. by rewrite Hr in Hs.
  - unfold valid_utf8 in Hs. by rewrite Hr in Hs.
Qed.

(** ** Values survive *)

(** Induction over values, with the hypothesis for every member. *)
Section json_induction.
Context (P : Json → Prop).
Context (Hnull : P JNull) (Hint : ∀ z, P (JInt z)) (Hstring : ∀ s, P (JString s)).
Context (Harray : ∀ l, Forall P l → P (JArray l)).
Context (Hobject : ∀ fields, Forall (λ kv, P kv.2) fields → P (JObject fields)).

Fixpoint json_ind' (j : Json) : P j :=
  match j with
  | JNull => Hnull
  | JInt z => Hint z
  | JString s => Hstring s
  | JArray l =>
      Harray l ((fix go l : Forall P l :=
        match l with
        | [] => Forall_nil_2 P
        | j :: l => Forall_cons_2 P j l (json_ind' j) (go l)
        end) l)
  | JObject fields =>
      Hobject fields ((fix go l : Forall (λ kv, P kv.2) l :=
        match l with
        | [] => Forall_nil_2 (λ kv : string * Json, P kv.2)
        | kv :: l => Forall_cons_2 (λ kv, P kv.2) kv l (json_ind' kv.2) (go l)
        end) fields)
  end.
End json_induction.

(** Values without numbers whose strings are UTF-8. *)
Fixpoint textual (j : Json) : bool :=
  match j with
  | JNull => true
  | JInt _ => false
  | JString s => valid_utf8 s
  | JArray l => forallb textual l
  | JObject fields => forallb (λ kv, valid_utf8 kv.1 && textual kv.2) fields
  end.

(** Reading an encoded value gives it back, whatever follows. *)
Definition reads (j : Json) : Prop :=
  ∀ n rest, String.length (encode j) ≤ n → parse n (encode j +:+ rest) = Some (j, rest).

Lemma length_quote s : 2 ≤ String.length (quote s).
Proof. unfold quote. cbn. rewrite length_append. cbn. lia. Qed.

(** No encoding is empty or starts with a closing bracket. *)
Lemma encode_head j :
  textual j = true → ∃ c t, encode j = String c t ∧ Ascii.eqb c "]" = false.
Proof.
  destruct j as [|z|s|l|fields]; intros Ht; [..|done| | | ]; [by do 2 eexists|by do 2 eexists| | ];
    cbn [encode]; [exists "["%char|exists "{"%char]; by eexists.
Qed.

Lemma parse_quote n s rest :
  valid_utf8 s = true → parse (S n) (quote s +:+ rest) = Some (JString s, rest).
Proof.
  intros Hs. unfold quote. cbn [String.append parse]. rewrite append_assoc'. cbn [String.append].
  change (Ascii.eqb quote_char quote_char) with true. cbn iota.
  by rewrite unquote_escape.
Qed.

Lemma parse_elements_reads l :
  l ≠ [] → Forall reads l →
  ∀ n rest, String.length (Join "," (List.map encode l)) < n →
    parse_elements n (Join "," (List.map encode l) +:+ String "]" rest) = Some (l, rest).
Proof.
  intros Hne Hl. induction Hl as [|v l Hv Hl IH]; [done|]. intros [|n] rest Hn; [lia|].
  cbn [parse_elements]. destruct l as [|v' l].
  - cbn [List.map Join] in *. rewrite Hv by lia. done.
  - change (Join "," (List.map encode (v :: v' :: l)))
      with (encode v +:+ String "," (Join "," (List.map encode (v' :: l)))) in *.
    rewrite length_append in Hn. cbn [String.length] in Hn.
    rewrite append_assoc', Hv by lia. cbn [String.append mbind option_bind].
    change (Ascii.eqb "," ",") with true. cbn iota. rewrite IH by (done || lia). done.
Qed.

Abbreviation field kv := (quote kv.1 +:+ ":" +:+ encode kv.2).

Lemma parse_fields_reads l :
  l ≠ [] → Forall (λ kv, reads kv.2) l → Forall (λ kv, valid_utf8 kv.1 = true) l →
  ∀ n rest, String.length (Join "," (List.map (λ kv, field kv) l)) < n →
    parse_fields n (Join "," (List.map (λ kv, field kv) l) +:+ String "}" rest) = Some (l, rest).
Proof.
  intros Hne Hl Hk. revert Hk. induction Hl as [|[k v] l Hv Hl IH]; [done|].
  intros [Hkv Hk]%Forall_cons [|n] rest Hn; [lia|]. cbn [fst snd] in *.
  assert (∀ t, parse_fields (S n) (quote k +:+ ":" +:+ encode v +:+ t) =
    ('(v', rest') ← parse n (encode v +:+ t);
     match rest' with
     | String c rest'' =>
         if Ascii.eqb c "," then '(l, rest) ← parse_fields n rest''; Some ((k, v') :: l, rest)
         else if Ascii.eqb c "}" then Some ([(k, v')], rest'') else None
     | EmptyString => None
     end)) as Hstep.
  { intros t. unfold quote. cbn [String.append parse_fields]. rewrite append_assoc'. cbn [String.append].
    change (Ascii.eqb quote_char quote_char) with true. cbn iota. rewrite unquote_escape by done. done. }
  destruct l as [|kv l].
  - change (Join "," (List.map _ [(k, v)])) with (field (k, v)) in *. cbn [fst snd] in *.
    rewrite !length_append in Hn. rewrite !append_assoc', Hstep, Hv by lia. done.
  - change (Join "," (List.map (λ kv, field kv) ((k, v) :: kv :: l)))
      with (field (k, v) +:+ String "," (Join "," (List.map (λ kv, field kv) (kv :: l)))) in *.
    cbn [fst snd] in *. rewrite !length_append in Hn. cbn [String.length] in Hn.
    rewrite !append_assoc', Hstep, Hv by lia. cbn [String.append mbind option_bind]. change (Ascii.eqb "," ",") with true. cbn iota.
    rewrite IH by (done || lia). done.
Qed.

Lemma textual_reads j : textual j = true → reads j.
Proof.
  induction j as [|z|s|l IH|fields IH] using json_ind'; intros Ht.
  - intros [|n] rest Hn; [cbn in Hn; lia|done].
  - done.
  - intros [|n] rest Hn; [cbn [encode] in Hn; pose proof (length_quote s); lia|].
    by apply parse_quote.
  - intros [|n] rest Hn; [cbn in Hn; lia|]. cbn [encode textual] in *.
    assert (Forall reads l) as Hl.
    { rewrite forallb_forall in Ht. apply Forall_forall. intros j Hj.
      rewrite Forall_forall in IH. apply IH, Ht, list_elem_of_In; done. }
    destruct l as [|v l]; [done|].
    destruct (encode_head v) as (c & t & E & Hc); [by apply andb_true_iff in Ht as [? _]|].
    cbn [String.append String.length] in Hn. rewrite length_append in Hn. cbn [String.length] in Hn.
    cbn [String.append parse]. rewrite append_assoc'.
    change (Ascii.eqb "[" quote_char) with false. change (Ascii.eqb "[" "[") with true. cbn iota.
    pose proof (parse_elements_reads (v :: l) ltac:(done) Hl n rest ltac:(cbn [List.map] in *; lia)) as Hp.
    cbn [List.map] in *. change ("]" +:+ rest) with (String "]" rest).
    rewrite Hp. destruct l; cbn [List.map Join] in *; rewrite E; cbn [String.append]; by rewrite Hc.
  - intros [|n] rest Hn; [cbn in Hn; lia|]. cbn [encode textual] in *.
    rewrite forallb_forall in Ht.
    assert (Forall (λ kv, reads kv.2) fields) as Hl.
    { rewrite Forall_forall in *. intros kv Hkv. apply IH; [done|].
      apply list_elem_of_In, Ht, andb_true_iff in Hkv. tauto. }
    assert (Forall (λ kv, valid_utf8 kv.1 = true) fields) as Hk.
    { apply Forall_forall. intros kv Hkv%list_elem_of_In%Ht%andb_true_iff. tauto. }
    destruct fields as [|[k v] l]; [done|].
    cbn [String.append String.length] in Hn. rewrite length_append in Hn. cbn [String.length] in Hn.
    cbn [String.append parse]. rewrite append_assoc'.
    change (Ascii.eqb "{" quote_char) with false. change (Ascii.eqb "{" "[") with false.
    change (Ascii.eqb "{" "{") with true. cbn iota.
    apply Nat.succ_le_mono in Hn. rewrite Nat.add_1_r in Hn.
    pose proof (parse_fields_reads ((k, v) :: l) ltac:(done) Hl Hk n rest Hn) as Hp.
    assert (∃ u, Join "," (List.map (λ kv, field kv) ((k, v) :: l)) = String quote_char u) as [u E]
      by (destruct l; eexists; reflexivity).
    change (λ kv : string * Json, quote kv.1 +:+ String ":" (encode kv.2))
      with (λ kv : string * Json, field kv).
    rewrite E in Hp |- *. change ("}" +:+ rest) with (String "}" rest).
    cbn [String.append] in Hp |- *. change (Ascii.eqb quote_char "}") with false. cbn iota.
    by rewrite Hp.
Qed.

Lemma decode_encode j : textual j = true → decode (encode j) = Some j.
Proof.
  intros Ht. unfold decode. rewrite <- (append_nil_r (encode j)) at 2.
  by rewrite (textual_reads j Ht) by done.
Qed.
