(* ===== verification/Wire.v ===== *)
(** The JSON of the payloads and of the API's response, as the struct tags of
    [SyncPayload], [CrdSyncPayload], [ResourceInstance] and [resyncResponse] say,
    and the payload interface of the REST client. *)

From Stdlib Require Import String.
From S2P Require Import Prelude GoRuntime GoStrings Metadata Json RestClient CrdDebounce Debounce.

(** ** Encoding *)

(** A nil map is null; the keys of another are sorted. *)
Definition key_le (a b : string * string) : Prop := String.leb a.1 b.1 = true.

#[export] Instance key_le_dec a b : Decision (key_le a b).
Proof. unfold key_le. apply _. Defined.

Definition map_json (m : StringMap) : Json :=
  match m with
  | None => JNull
  | Some m => JObject (prod_map id JString <$> merge_sort key_le (map_to_list m))
  end.

Definition instance_json (r : ResourceInstance) : Json :=
  JObject [("id", JString (ID r)); ("namespace", JString (Namespace r));
           ("name", JString (Name r)); ("kind", JString (Kind r));
           ("apiVersion", JString (APIVersion r)); ("apiGroup", JString (APIGroup r));
           ("labels", map_json (Labels r)); ("annotations", map_json (Annotations r));
           ("createdAt", JString (CreatedAt r))].

(** The lists of a payload that the program leaves empty are nil slices. *)
Definition list_json {A} (f : A → Json) (l : list A) : Json :=
  match l with [] => JNull | _ => JArray (f <$> l) end.

Definition payload_json (p : SyncPayload) : Json :=
  JObject [("upserts", list_json instance_json (Upserts p));
           ("deletes", list_json JString (Deletes p))].

(** With [omitempty] an empty list has no field. *)
Definition omit_empty (name : string) (l : list string) : list (string * Json) :=
  match l with [] => [] | _ => [(name, JArray (JString <$> l))] end.

Definition crd_payload_json (p : CrdDebounce.CrdSyncPayload) : Json :=
  JObject (omit_empty "upserts" (CrdDebounce.Upserts p) ++ omit_empty "deletes" (CrdDebounce.Deletes p)).

#[export] Instance sync_payload_payload : Payload SyncPayload := {|
  PIsEmpty := IsEmpty;
  IsNil _ := false;
  Marshal p := inl (encode (payload_json p));
|}.

#[export] Instance crd_payload_payload : Payload CrdDebounce.CrdSyncPayload := {|
  PIsEmpty := CrdDebounce.IsEmpty;
  IsNil _ := false;
  Marshal p := inl (encode (crd_payload_json p));
|}.

(** ** A receiver *)

Definition read_string (j : Json) : option string :=
  match j with JString s => Some s | _ => None end.

Definition read_map (j : Json) : option StringMap :=
  match j with
  | JNull => Some None
  | JObject fields =>
      kvs ← mapM (λ kv, s ← read_string kv.2; Some (kv.1, s)) fields;
      Some (Some (list_to_map kvs))
  | _ => None
  end.

Definition read_instance (j : Json) : option ResourceInstance :=
  match j with
  | JObject [("id", i); ("namespace", ns); ("name", n); ("kind", k); ("apiVersion", av);
             ("apiGroup", ag); ("labels", ls); ("annotations", an); ("createdAt", ca)] =>
      i ← read_string i; ns ← read_string ns; n ← read_string n; k ← read_string k;
      av ← read_string av; ag ← read_string ag; ls ← read_map ls; an ← read_map an;
      ca ← read_string ca;
      Some (mkResourceInstance i ns n k av ag ls an ca)
  | _ => None
  end.

Definition read_list {A} (f : Json → option A) (j : Json) : option (list A) :=
  match j with JNull => Some [] | JArray l => mapM f l | _ => None end.

(** The value of a field, null when it is absent. *)
Definition field_of (name : string) (fields : list (string * Json)) : Json :=
  default JNull (list_to_map (M := gmap string Json) fields !! name).

Definition read_payload (body : string) : option SyncPayload :=
  j ← decode body;
  match j with
  | JObject fields =>
      ups ← read_list read_instance (field_of "upserts" fields);
      dels ← read_list read_string (field_of "deletes" fields);
      Some (mkSyncPayload ups dels)
  | _ => None
  end.

Definition read_crd_payload (body : string) : option CrdDebounce.CrdSyncPayload :=
  j ← decode body;
  match j with
  | JObject fields =>
      ups ← read_list read_string (field_of "upserts" fields);
      dels ← read_list read_string (field_of "deletes" fields);
      Some (CrdDebounce.mkCrdSyncPayload ups dels)
  | _ => None
  end.

(** ** Lemmas *)

Lemma mapM_fmap_Some {A B} (f : A → B) (g : B → option A) l :
  (∀ x, g (f x) = Some x) → mapM g (f <$> l) = Some l.
Proof. intros Hg. induction l as [|x l IH]; [done|]. cbn. rewrite Hg. cbn in *. by rewrite IH. Qed.

Lemma read_map_json m : read_map (map_json m) = Some m.
Proof.
  destruct m as [m|]; [|done]. cbn [map_json read_map].
  rewrite (mapM_fmap_Some (prod_map id JString)) by (by intros [k v]). cbn [mbind option_bind].
  do 2 f_equal. rewrite <- (list_to_map_to_list m) at 2. apply list_to_map_proper.
  - rewrite merge_sort_Permutation. apply NoDup_fst_map_to_list.
  - apply merge_sort_Permutation.
Qed.

Lemma read_instance_json r : read_instance (instance_json r) = Some r.
Proof. cbn -[map_json read_map]. rewrite !read_map_json. by destruct r. Qed.

Lemma read_list_json {A} (f : A → Json) g l :
  (∀ x, g (f x) = Some x) → read_list g (list_json f l) = Some l.
Proof.
  intros Hg. destruct l as [|x l]; [done|]. unfold read_list, list_json. by apply mapM_fmap_Some.
Qed.

Lemma read_encoded p :
  textual (payload_json p) = true → read_payload (encode (payload_json p)) = Some p.
Proof.
  intros Ht. unfold read_payload. rewrite decode_encode by done. cbn -[read_list list_json].
  change (field_of "upserts" _) with (list_json instance_json (Upserts p)).
  change (field_of "deletes" _) with (list_json JString (Deletes p)).
  rewrite !read_list_json by (apply read_instance_json || done). by destruct p.
Qed.

Lemma crd_read_encoded p :
  textual (crd_payload_json p) = true → read_crd_payload (encode (crd_payload_json p)) = Some p.
Proof.
  intros Ht. unfold read_crd_payload. rewrite decode_encode by done. unfold crd_payload_json.
  assert (field_of "upserts" (omit_empty "upserts" (CrdDebounce.Upserts p)
            ++ omit_empty "deletes" (CrdDebounce.Deletes p)) = list_json JString (CrdDebounce.Upserts p)
    ∧ field_of "deletes" (omit_empty "upserts" (CrdDebounce.Upserts p)
            ++ omit_empty "deletes" (CrdDebounce.Deletes p)) = list_json JString (CrdDebounce.Deletes p))
    as [E1 E2] by (by destruct p as [[|u us] [|d ds]]).
  cbn [mbind option_bind]. rewrite E1, E2, !read_list_json by done. by destruct p.
Qed.

(** C17: the wire format loses nothing.  For every payload of both pipelines whose
    strings are UTF-8, a receiver that reads the request body gets exactly the
    payload that was sent: the upserted instances with their labels and
    annotations, and the deleted IDs, in order. *)
Theorem payload_roundtrip :
  (∀ p, textual (payload_json p) = true → ∃ body, Marshal p = inl body ∧ read_payload body = Some p)
  ∧ (∀ p, textual (crd_payload_json p) = true →
       ∃ body, Marshal p = inl body ∧ read_crd_payload body = Some p).
Proof.
  split; intros p Ht; eexists; (split; [reflexivity|]);
    [by apply read_encoded|by apply crd_read_encoded].
Qed.

Definition mixed_payload : SyncPayload :=
  mkSyncPayload
    [mkResourceInstance "default/apps/v1/Deployment/nginx" "default" "nginx" "Deployment" "apps/v1"
       "apps" (Some {["app" := "nginx"; "tier" := "<web>"]}) None "2026-02-20T10:00:00Z"]
    ["default/apps/v1/Deployment/old-service"].

Lemma payload_roundtrip_witness :
  read_payload (encode (payload_json mixed_payload)) = Some mixed_payload
  ∧ read_crd_payload (encode (crd_payload_json (CrdDebounce.mkCrdSyncPayload ["a.example.com"] [])))
      = Some (CrdDebounce.mkCrdSyncPayload ["a.example.com"] []).
Proof.
  split.
  - destruct (proj1 payload_roundtrip mixed_payload) as (body & [= <-] & E);
      [vm_compute; reflexivity|exact E].
  - destruct (proj2 payload_roundtrip (CrdDebounce.mkCrdSyncPayload ["a.example.com"] []))
      as (body & [= <-] & E); [vm_compute; reflexivity|exact E].
Defined.
