(* ===== verification/ApiServer.v ===== *)
(** [internal/api/server.go]: the server of the resync endpoint, its routing, its
    handler, and its life from the listener to the shutdown.

    Of the standard library's HTTP server (Go 1.26) the model has what the code
    uses: the answer to a request that the server could parse, and when [Serve]
    and [Shutdown] return. *)

From Stdlib Require Import Ascii String.
From S2P Require Import Prelude GoRuntime GoStrings Json Metadata Watcher WatcherProofs.

(** What the client of the API receives. *)
Record HttpResponse := mkHttpResponse {
  contentType : string;
  statusCode : Z;
  responseBody : string;
}.

Definition StatusOK : Z := 200.
Definition StatusInternalServerError : Z := 500.

Record resyncResponse := mkResyncResponse {
  RespStatus : string;
  RespResources : Z;
  RespMessage : string;
}.

Definition resyncResponse_json (r : resyncResponse) : Json :=
  JObject [("status", JString (RespStatus r)); ("resources", JInt (RespResources r));
           ("message", JString (RespMessage r))].

(** [json.NewEncoder(w).Encode] ends the text with a newline. *)
Definition writeJSON (status : Z) (v : Json) : HttpResponse :=
  mkHttpResponse "application/json" status (encode v +:+ String (char 10) "").

(** [handleResync]; the interface [Resyncer] is the function [resync], [None] when
    the call does not return. *)
Definition handleResync {W} (resync : W → option (nat * option string * W)) (w : W) :
    option (HttpResponse * W) :=
  '(count, err, w) ← resync w;
  Some match err with
       | Some err =>
           (writeJSON StatusInternalServerError
              (resyncResponse_json (mkResyncResponse "error" 0 ("resync failed: " +:+ err))), w)
       | None =>
           let count := Z.of_nat count in
           (writeJSON StatusOK
              (resyncResponse_json (mkResyncResponse "ok" count
                 ("resynced " +:+ Itoa count +:+ " resources"))), w)
       end.

(** ** The server *)

(** The struct; [httpServer] is its field [server]. *)
Record httpServer := mkHttpServer {
  Addr : string;
  Pattern : string * string;   (** the method and the path of the only route *)
  ReadHeaderTimeout : Z;
}.

Record Server (W : Type) := mkServer {
  bindAddress : string;
  resyncer : W → option (nat * option string * W);
  server : httpServer;
}.
Arguments mkServer {W}.
Arguments bindAddress {W}.
Arguments resyncer {W}.
Arguments server {W}.

Definition NewServer {W} (bindAddress : string) (resyncer : W → option (nat * option string * W)) :
    Server W :=
  mkServer bindAddress resyncer (mkHttpServer bindAddress ("POST", "/api/v1/resync") (10 * Second)).

(** ** Routing *)

(** A request that the server parsed; [Path] is [URL.EscapedPath()], or [*]. *)
Record Request := mkRequest { Method : string; Path : string }.

(** [path.Clean] of a rooted path: empty segments and dots go, two dots remove the
    segment before them; the multiplexer keeps a slash at the end. *)
Fixpoint clean_segments (segs acc : list string) : list string :=
  match segs with
  | [] => rev acc
  | seg :: segs =>
      if String.eqb seg "" || String.eqb seg "." then clean_segments segs acc
      else if String.eqb seg ".." then clean_segments segs (tail acc)
      else clean_segments segs (seg :: acc)
  end.

Definition cleanPath (p : string) : string :=
  let clean := "/" +:+ Join "/" (clean_segments (Split "/" p) []) in
  if bool_decide (last (Split "/" p) = Some "") && negb (String.eqb clean "/") then clean +:+ "/"
  else clean.

(** [url.PathUnescape]; [None] is its error. *)
Definition unhex (c : ascii) : option nat :=
  let n := byte_of c in
  if bool_decide (48 ≤ n ∧ n ≤ 57) then Some (n - 48)
  else if bool_decide (97 ≤ n ∧ n ≤ 102) then Some (n - 87)
  else if bool_decide (65 ≤ n ∧ n ≤ 70) then Some (n - 55)
  else None.

Fixpoint PathUnescape (s : string) : option string :=
  match s with
  | EmptyString => Some ""
  | String c s =>
      if Ascii.eqb c "%" then
        match s with
        | String a (String b s) =>
            h ← unhex a; l ← unhex b; rest ← PathUnescape s;
            Some (String (ascii_of_nat (16 * h + l)) rest)
        | _ => None
        end
      else rest ← PathUnescape s; Some (String c rest)
  end.

(** The multiplexer's own [pathUnescape] keeps a segment with a malformed escape. *)
Definition pathUnescape (s : string) : string := default s (PathUnescape s).

(** The multiplexer compares a path with the literal segments of a pattern, one
    unescaped segment at a time; an empty last segment stands for a slash at the
    end. *)
Fixpoint matchPath (segs route : list string) : bool :=
  match segs, route with
  | [], [] => true
  | seg :: segs, lit :: route =>
      let seg := if String.eqb seg "" && bool_decide (segs = []) then "/" else pathUnescape seg in
      String.eqb seg lit && matchPath segs route
  | _, _ => false
  end.

Definition path_segments (p : string) : list string :=
  match Split "/" p with EmptyString :: segs => segs | _ => [] end.

(** An answer of the handler, or one that the library gives itself. *)
Inductive Answer := Handled (r : HttpResponse) | Bare (status : Z).

(** What the server answers.  [OPTIONS *] is the library's own handler's, any other
    request for [*] is a bad request; a path that is not clean is redirected
    (except for [CONNECT]); a path that does not match the only route is not
    found, and another method on a path that does is not allowed.  The route has
    no wildcard and no slash at its end. *)
Definition ServeHTTP {W} (s : Server W) (r : Request) (w : W) : option (Answer * W) :=
  if String.eqb (Path r) "*" then
    Some (Bare (if String.eqb (Method r) "OPTIONS" then 200 else 400), w)
  else if negb (String.eqb (Method r) "CONNECT") && negb (String.eqb (cleanPath (Path r)) (Path r))
  then Some (Bare 307, w)
  else if negb (matchPath (path_segments (Path r)) (path_segments (Pattern (server s)).2))
  then Some (Bare 404, w)
  else if negb (String.eqb (Method r) (Pattern (server s)).1) then Some (Bare 405, w)
  else '(resp, w) ← handleResync (resyncer s) w; Some (Handled resp, w).

(** The resync handler, served by the watcher: whatever resource types could not be
    listed and whatever events were dropped, it returns and answers status 200 with
    the number of listed objects; its error branch is never taken. *)
Lemma handleResync_spec `{Unstructured U} list_resource choice others w :
  ∃ w', handleResync (TriggerResync list_resource choice others) w =
    Some (mkHttpResponse "application/json" 200
            (encode (JObject
               [("status", JString "ok");
                ("resources", JInt (Z.of_nat (length (listed (U:=U) list_resource (watchedGVRs w)))));
                ("message", JString ("resynced "
                   +:+ Itoa (Z.of_nat (length (listed (U:=U) list_resource (watchedGVRs w))))
                   +:+ " resources"))])
             +:+ String (char 10) ""), w').
Proof.
  destruct (resync_gvrs_total list_resource choice others (watchedGVRs w) 0 w) as [w' E].
  exists w'. unfold handleResync, TriggerResync. rewrite E. done.
Qed.

Example cleanPath_examples :
  cleanPath <$> [""; "/"; "//api/v1/resync"; "/api/./v1/x/../resync"; "/api/v1/resync/"; "/.."]
    = ["/"; "/"; "/api/v1/resync"; "/api/v1/resync"; "/api/v1/resync/"; "/"].
Proof. reflexivity. Qed.

Example handleResync_error :
  handleResync (λ w : unit, Some (0, Some "no route", w)) () =
    Some (writeJSON 500 (JObject [("status", JString "error"); ("resources", JInt 0);
            ("message", JString "resync failed: no route")]), ()).
Proof. reflexivity. Qed.

(** The paths that the route's match: each segment unescaped. *)
Definition resync_path (p : string) : Prop := pathUnescape <$> Split "/" p = [""; "api"; "v1"; "resync"].

#[export] Instance resync_path_dec p : Decision (resync_path p).
Proof. unfold resync_path. apply _. Defined.

Lemma pathUnescape_special s : s ∈ [""; "."; ".."] → pathUnescape s = s.
Proof. rewrite !elem_of_cons, elem_of_nil. by intros [-> | [-> | [-> | []]]]. Qed.

Lemma pathUnescape_empty s : pathUnescape s = "" → s = "".
Proof.
  unfold pathUnescape. destruct s as [|c s]; [done|]. cbn. destruct (Ascii.eqb c "%").
  - destruct s as [|a [|b s]]; [done..|]. destruct (unhex a); [|done]. cbn. destruct (unhex b); [|done].
    cbn. by destruct (PathUnescape s).
  - by destruct (PathUnescape s).
Qed.

Lemma pathUnescape_plain s : ContainsByte "%" s = false → pathUnescape s = s.
Proof.
  intros Hs. unfold pathUnescape. enough (PathUnescape s = Some s) as -> by done. revert Hs.
  induction s as [|c s IH]; [done|]. cbn [ContainsByte PathUnescape].
  intros [-> Hs]%orb_false_elim. by rewrite IH.
Qed.

(** Clean segments stay. *)
Lemma clean_segments_keep segs acc :
  Forall (λ s, s ∉ [""; "."; ".."]) segs → clean_segments segs acc = rev acc ++ segs.
Proof.
  intros Hs. revert acc. induction Hs as [|s segs Hs _ IH]; intros acc; cbn [clean_segments].
  - by rewrite app_nil_r.
  - rewrite !not_elem_of_cons in Hs. destruct Hs as (H1 & H2 & H3 & _).
    apply String.eqb_neq in H1, H2, H3. rewrite H1, H2, H3. cbn [orb]. rewrite IH. cbn.
    by rewrite <- app_assoc.
Qed.

Lemma resync_path_segments p :
  resync_path p ↔ ∃ a v r, p = "/" +:+ a +:+ "/" +:+ v +:+ "/" +:+ r
    ∧ Split "/" p = [""; a; v; r]
    ∧ pathUnescape a = "api" ∧ pathUnescape v = "v1" ∧ pathUnescape r = "resync".
Proof.
  split.
  - unfold resync_path. intros E. pose proof (Join_Split "/" p) as Hj.
    destruct (Split "/" p) as [|e [|a [|v [|r [|]]]]]; try discriminate.
    cbn [fmap list_fmap] in E. injection E as He Ha Hv Hr.
    assert (e = "") as -> by (by apply pathUnescape_empty).
    exists a, v, r. by rewrite <- Hj.
  - intros (a & v & r & _ & Hs & E1 & E2 & E3). unfold resync_path. rewrite Hs. cbn. by rewrite E1, E2, E3.
Qed.

Lemma resync_path_clean p : resync_path p → cleanPath p = p.
Proof.
  intros (a & v & r & Hp & Hs & Ha & Hv & Hr)%resync_path_segments. unfold cleanPath. rewrite Hs.
  assert (∀ s lit, pathUnescape s = lit → lit ∉ [""; "."; ".."] → s ∉ [""; "."; ".."]) as Hn.
  { intros s lit <- Hl Hin. by rewrite (pathUnescape_special s Hin) in Hl. }
  change (clean_segments ("" :: [a; v; r]) []) with (clean_segments [a; v; r] []).
  rewrite clean_segments_keep.
  2:{ repeat constructor; (eapply Hn; [eassumption|set_solver]). }
  assert (r ≠ "") as Hr0 by (intros ->; discriminate Hr).
  cbn [last]. rewrite bool_decide_eq_false_2 by congruence. cbn [andb rev app Join].
  by rewrite Hp.
Qed.

Lemma matchPath_unescaped segs route :
  "/" ∉ route → "" ∉ route → matchPath segs route = true ↔ pathUnescape <$> segs = route.
Proof.
  revert segs. induction route as [|lit route IH]; intros [|seg segs]; try done.
  intros [Hs1 Hs]%not_elem_of_cons [He1 He]%not_elem_of_cons. cbn [matchPath]. rewrite fmap_cons.
  rewrite andb_true_iff, (IH segs Hs He), String.eqb_eq.
  destruct (String.eqb_spec seg "") as [->|_]; cbn [andb]; [|naive_solver].
  split; [|by intros [= E]; destruct He1].
  case_bool_decide; [by intros [E _]|]. by intros [E _].
Qed.

Lemma match_resync_path p :
  matchPath (path_segments p) (path_segments "/api/v1/resync") = true ↔ resync_path p.
Proof.
  change (path_segments "/api/v1/resync") with ["api"; "v1"; "resync"].
  rewrite matchPath_unescaped by (rewrite !not_elem_of_cons; by split_and!; try apply not_elem_of_nil).
  unfold path_segments, resync_path. destruct (Split "/" p) as [|e segs]; [done|]. rewrite fmap_cons.
  split.
  - destruct e; [|done]. by intros ->.
  - intros [= He Hs]. apply pathUnescape_empty in He as ->. done.
Qed.

(** What is decided by method and path alone, for every resyncer. *)
Lemma ServeHTTP_routing {W} address (resync : W → option (nat * option string * W)) r w :
  ServeHTTP (NewServer address resync) r w =
    if decide (resync_path (Path r)) then
      if String.eqb (Method r) "POST"
      then '(resp, w) ← handleResync resync w; Some (Handled resp, w)
      else Some (Bare 405, w)
    else
      Some (Bare (if String.eqb (Path r) "*" then if String.eqb (Method r) "OPTIONS" then 200 else 400
                  else if String.eqb (Method r) "CONNECT" || String.eqb (cleanPath (Path r)) (Path r)
                  then 404 else 307)%Z, w).
Proof.
  unfold ServeHTTP. cbn [NewServer server Pattern resyncer fst snd].
  pose proof (match_resync_path (Path r)) as Hm. case_decide as Hp.
  - rewrite (resync_path_clean _ Hp), String.eqb_refl, andb_false_r.
    rewrite (proj2 Hm Hp). cbn [negb].
    destruct (String.eqb_spec (Path r) "*") as [E|_]; [by rewrite E in Hp|].
    by destruct (String.eqb (Method r) "POST").
  - destruct (String.eqb (Path r) "*"); [done|]. rewrite <- negb_orb.
    destruct (_ || _); cbn [negb]; [|done]. destruct (matchPath _ _); [|done].
    by destruct Hp, Hm; auto.
Qed.

(** A path without escapes is matched when it is the route's. *)
Lemma resync_path_plain p : ContainsByte "%" p = false → resync_path p ↔ p = "/api/v1/resync".
Proof.
  intros Hp. split; [|by intros ->].
  intros (a & v & r & E & _ & Ha & Hv & Hr)%resync_path_segments. rewrite E in Hp |- *.
  rewrite !ContainsByte_app in Hp. rewrite !orb_false_iff in Hp. destruct Hp as (_ & H1 & _ & H2 & _ & H3).
  rewrite pathUnescape_plain in Ha, Hv, Hr by done. by subst.
Qed.

(** C38: the API, served by the watcher, for every request that the server could
    parse.  A POST whose path, each segment percent-unescaped, is
    [/api/v1/resync] (without escapes: exactly this path) triggers a resync and is
    answered, whatever resource types could not be listed and whatever events were
    dropped, with status 200 and the number of listed objects; the error branch is
    never taken.  Every other request leaves the watcher as it is and gets 405 on
    that path, 200 for [OPTIONS *] and 400 for another method on [*], and 307 or
    404 elsewhere: a redirect if the path is not clean, except for CONNECT. *)
Theorem ServeHTTP_spec `{Unstructured U} address list_resource choice others r w :
  let s := NewServer address (TriggerResync list_resource choice others) in
  let n := Z.of_nat (length (listed (U:=U) list_resource (watchedGVRs w))) in
  (if decide (resync_path (Path r)) then
     if String.eqb (Method r) "POST"
     then ∃ w', ServeHTTP s r w =
       Some (Handled (mkHttpResponse "application/json" 200
         (encode (JObject [("status", JString "ok"); ("resources", JInt n);
            ("message", JString ("resynced " +:+ Itoa n +:+ " resources"))])
          +:+ String (char 10) "")), w')
     else ServeHTTP s r w = Some (Bare 405, w)
   else ServeHTTP s r w =
     Some (Bare (if String.eqb (Path r) "*" then if String.eqb (Method r) "OPTIONS" then 200 else 400
                 else if String.eqb (Method r) "CONNECT" || String.eqb (cleanPath (Path r)) (Path r)
                 then 404 else 307)%Z, w))
  ∧ (ContainsByte "%" (Path r) = false → resync_path (Path r) ↔ Path r = "/api/v1/resync").
Proof.
  cbv zeta. split; [|apply resync_path_plain]. rewrite ServeHTTP_routing.
  case_decide; [|done]. destruct (String.eqb (Method r) "POST"); [|done].
  destruct (handleResync_spec list_resource choice others w) as [w' Hw]. exists w'. by rewrite Hw.
Qed.

(** An escaped path that the route matches, and what is redirected. *)
Example ServeHTTP_examples :
  let s := NewServer ":8082" (λ w : unit, Some (0, None, w)) in
  let answer m p := match ServeHTTP s (mkRequest m p) () with
                    | Some (Handled r, _) => statusCode r | Some (Bare c, _) => c | None => 0%Z end in
  [answer "POST" "/api/v1/resync"; answer "POST" "/api/v1/%72esync"; answer "OPTIONS" "*";
   answer "POST" "//api/v1/resync"; answer "GET" "/api/v1/resync"; answer "POST" "/api/v1/resync/"]
    = [200; 200; 200; 307; 405; 404]%Z.
Proof. reflexivity. Qed.

(** ** The life of the server *)

(** What [Start] returns: nil, or an error with its text. *)
Inductive ServerPc := Listening | Serving | ServerReturned (err : option string).

(** The goroutine that waits for the context and shuts the server down. *)
Inductive ShutdownPc := NotStarted | AwaitingDone | ShuttingDown | ShutdownReturned.

Record ServerState := mkServerState {
  sv_pc : ServerPc;
  sv_shutdown : ShutdownPc;
  sv_handlers : nat;         (** requests being handled *)
  sv_cancelled : bool;
}.

Definition server_init : ServerState := mkServerState Listening NotStarted 0 false.

(** [SvListen], [SvServe] are the steps of [Start], with the error of the call;
    [SvServe None] is the return of [Serve] after [Shutdown] began, which does not
    wait for the handlers; [SvShutdown] and [SvShutdownDone] are the call of
    [Shutdown] and its return, when the handlers are done or the timeout of five
    seconds has passed. *)
Inductive ServerLabel :=
  | SvListen (err : option string)
  | SvServe (err : option string)
  | SvRequest
  | SvHandled
  | SvCancel
  | SvShutdown
  | SvShutdownDone (timeout : bool).

Definition closing (p : ShutdownPc) : bool :=
  match p with ShuttingDown | ShutdownReturned => true | _ => false end.

Definition server_label {W} (sv : Server W) (l : ServerLabel) (s : ServerState) : option ServerState :=
  let '(mkServerState pc sh n can) := s in
  match l, pc, sh with
  | SvListen (Some err), Listening, _ =>
      Some (mkServerState
        (ServerReturned (Some ("listening on " +:+ bindAddress sv +:+ ": " +:+ err))) sh n can)
  | SvListen None, Listening, _ => Some (mkServerState Serving AwaitingDone n can)
  | SvServe (Some err), Serving, _ =>
      if closing sh then None
      else Some (mkServerState (ServerReturned (Some ("serving: " +:+ err))) sh n can)
  | SvServe None, Serving, _ =>
      if closing sh then Some (mkServerState (ServerReturned None) sh n can) else None
  | SvRequest, Serving, _ => if closing sh then None else Some (mkServerState pc sh (S n) can)
  | SvHandled, _, _ => if n then None else Some (mkServerState pc sh (pred n) can)
  | SvCancel, _, _ => Some (mkServerState pc sh n true)
  | SvShutdown, _, AwaitingDone => if can then Some (mkServerState pc ShuttingDown n can) else None
  | SvShutdownDone timeout, _, ShuttingDown =>
      if timeout || bool_decide (n = 0) then Some (mkServerState pc ShutdownReturned n can) else None
  | _, _, _ => None
  end.

Fixpoint server_exec {W} (sv : Server W) (ls : list ServerLabel) (s : ServerState) :
    option ServerState :=
  match ls with [] => Some s | l :: ls => s ← server_label sv l s; server_exec sv ls s end.

(** [Start] returns nil only after the shutdown began. *)
Definition server_ok {W} (sv : Server W) (s : ServerState) : Prop :=
  (closing (sv_shutdown s) = true → sv_cancelled s = true)
  ∧ match sv_pc s with
    | Listening => sv_shutdown s = NotStarted ∧ sv_handlers s = 0
    | Serving => sv_shutdown s ≠ NotStarted
    | ServerReturned None => closing (sv_shutdown s) = true
    | ServerReturned (Some err) =>
        ∃ e, err = "listening on " +:+ bindAddress sv +:+ ": " +:+ e ∨ err = "serving: " +:+ e
    end.

Lemma server_label_ok {W} (sv : Server W) l s s' :
  server_ok sv s → server_label sv l s = Some s' → server_ok sv s'.
Proof.
  unfold server_ok. destruct s as [pc sh n can]. cbn -[String.append].
  intros [Hc Hp] E. destruct l as [[e|]|[e|]| | | | |tm]; cbn -[String.append] in E.
  - destruct pc; try done. injection E as <-. cbn -[String.append]. split; [done|]. exists e. by left.
  - destruct pc; try done. by injection E as <-.
  - destruct pc; try done. destruct (closing sh) eqn:Ec; [done|]. injection E as <-.
    cbn -[String.append]. split; [by rewrite Ec|]. exists e. by right.
  - destruct pc; try done. destruct (closing sh) eqn:Ec; [|done]. injection E as <-. cbn.
    by rewrite Ec.
  - destruct pc; try done. destruct (closing sh) eqn:Ec; [done|]. injection E as <-. cbn.
    split; [by rewrite Ec|done].
  - destruct n as [|n]; [by destruct pc as [| |[]]|].
    replace s' with (mkServerState pc sh n can) by (destruct pc; by injection E).
    cbn. split; [done|]. destruct pc as [| |[]]; naive_solver.
  - replace s' with (mkServerState pc sh n true) by (destruct pc; by injection E). by cbn.
  - destruct sh, can; try (by destruct pc as [| |[]]).
    replace s' with (mkServerState pc ShuttingDown n true) by (destruct pc; by injection E).
    cbn. split; [done|]. destruct pc as [| |[]]; naive_solver.
  - destruct sh; try (by destruct pc as [| |[]]).
    assert (Some (mkServerState pc ShutdownReturned n can) = Some s') as E1.
    { destruct (tm || bool_decide (n = 0)) eqn:Et; rewrite ?Et in E; [by destruct pc|by destruct pc]. }
    injection E1 as <-. cbn in *. split; [done|]. destruct pc as [| |[]]; naive_solver.
Qed.

Lemma server_exec_ok {W} (sv : Server W) ls s s' :
  server_ok sv s → server_exec sv ls s = Some s' → server_ok sv s'.
Proof.
  revert s. induction ls as [|l ls IH]; intros s Hs E; cbn in E; [by injection E as <-|].
  apply bind_Some in E as (s1 & E1 & E). eauto using server_label_ok.
Qed.

(** When and how [Start] of the server ends.  It returns nil only after the
    context was cancelled and the shutdown began; every other return is an error
    that says whether listening or serving failed, with the address it could not
    listen on; and no request is handled before the listener exists. *)
Theorem Server_Start_returns {W} (sv : Server W) ls s
    (Hrun : server_exec sv ls server_init = Some s) :
  match sv_pc s with
  | Listening => sv_handlers s = 0
  | Serving => True
  | ServerReturned None => sv_cancelled s = true ∧ closing (sv_shutdown s) = true
  | ServerReturned (Some err) =>
      ∃ e, err = "listening on " +:+ bindAddress sv +:+ ": " +:+ e ∨ err = "serving: " +:+ e
  end.
Proof.
  assert (server_ok sv s) as [Hc Hp] by by apply (server_exec_ok sv ls server_init).
  destruct (sv_pc s) as [| |[err|]]; [by destruct Hp|done|done|auto].
Qed.

(** [Start] does not wait for the graceful shutdown it asks for: it can return nil,
    upon which the manager may end the process, while a resync is still running
    and [Shutdown] is still waiting for it. *)
Theorem Server_Start_leaves_handlers {W} (sv : Server W) :
  ∃ ls s, server_exec sv ls server_init = Some s
    ∧ sv_pc s = ServerReturned None ∧ sv_shutdown s = ShuttingDown ∧ sv_handlers s = 1.
Proof. exists [SvListen None; SvRequest; SvCancel; SvShutdown; SvServe None]. by eexists. Qed.

Lemma Server_Start_returns_witness :
  ∃ e, "listening on :8082: address in use" = "listening on " +:+ ":8082" +:+ ": " +:+ e
       ∨ "listening on :8082: address in use" = "serving: " +:+ e.
Proof.
  exact (Server_Start_returns (NewServer ":8082" (λ w : unit, None)) [SvListen (Some "address in use")]
    (mkServerState (ServerReturned (Some "listening on :8082: address in use")) NotStarted 0 false)
    eq_refl).
Defined.

Lemma ServeHTTP_spec_witness :
  let s := NewServer ":8082" (TriggerResync (U:=PlainObject) (λ _, None) (λ _, 0) (λ _ w, w)) in
  resync_path "/api/v1/resync"
  ∧ ∃ w', (λ a, match a.1 with Handled r => statusCode r | Bare c => c end)
            <$> ServeHTTP s (mkRequest "POST" "/api/v1/%72esync") (small_watcher true) = Some 200%Z
          ∧ snd <$> ServeHTTP s (mkRequest "POST" "/api/v1/%72esync") (small_watcher true) = Some w'.
Proof.
  split.
  - apply (ServeHTTP_spec ":8082" (λ _, None : option (list PlainObject)) (λ _, 0) (λ _ w, w)
      (mkRequest "POST" "/api/v1/resync") (small_watcher true)); reflexivity.
  - destruct (ServeHTTP_spec ":8082" (λ _, None : option (list PlainObject)) (λ _, 0) (λ _ w, w)
      (mkRequest "POST" "/api/v1/%72esync") (small_watcher true)) as [Hr _].
    rewrite decide_True in Hr by reflexivity. destruct Hr as [w' E].
    exists w'. by rewrite E.
Defined.
