(* ===== verification/Pipeline.v ===== *)
(** [cmd/main.go]: which parts run and how they are wired, the sender loops, and each
    pipeline as one transition system, from the events the debouncer accepts
    through the live channel to the bodies the server accepts. *)

From Stdlib Require Import String.
From S2P Require Import Prelude GoRuntime GoStrings Config Metadata Watcher Buffer Interleaving.
From S2P Require Import Invariants Sequential RestClient Json Wire CrdDebounce Debounce.
From S2P Require Import BufferTheorems Quiescence.

(** ** What [main] starts *)

(** The command line's flags and their defaults. *)
Record Flags := mkFlags {
  metricsAddr : string;
  probeAddr : string;
  enableLeaderElection : bool;
  metricsCertPath : string;
}.

Definition default_flags : Flags := mkFlags "0" ":8081" false "".

(** [ctrl.Options], as far as [main] sets it. *)
Record ManagerOptions := mkManagerOptions {
  MetricsBindAddress : string;
  SecureServing : bool;
  CertDir : string;
  HealthProbeBindAddress : string;
  LeaderElection : bool;
  LeaderElectionID : string;
}.

Definition manager_options (fl : Flags) : ManagerOptions :=
  mkManagerOptions (metricsAddr fl) (negb (String.eqb (metricsCertPath fl) "")) (metricsCertPath fl)
    (probeAddr fl) (enableLeaderElection fl) "57d01317.vectordbsync.io".

(** The runnables of the manager, with the endpoint or address they use. *)
Inductive Runnable :=
  | watcherRunnable
  | debouncerRunnable
  | senderRunnable (client : RESTClient)
  | crdDebouncerRunnable
  | crdSenderRunnable (client : RESTClient)
  | apiServer (bindAddress : string).

Definition main_runnables (cfg : Config) : list Runnable :=
  [watcherRunnable; debouncerRunnable; senderRunnable (RestClient.New (InstancesEndpoint cfg) [])]
  ++ (if negb (String.eqb (CapabilitiesEndpoint cfg) "")
      then [crdDebouncerRunnable; crdSenderRunnable (RestClient.New (CapabilitiesEndpoint cfg) [])]
      else [])
  ++ [apiServer (APIBindAddress cfg)].

(** What [main] logs when a runnable cannot be added. *)
Definition add_message (r : Runnable) : string :=
  match r with
  | watcherRunnable => "Failed to add watcher to manager"
  | debouncerRunnable => "Failed to add debouncer to manager"
  | senderRunnable _ => "Failed to add REST sender to manager"
  | crdDebouncerRunnable => "Failed to add CRD debouncer to manager"
  | crdSenderRunnable _ => "Failed to add CRD sender to manager"
  | apiServer _ => "Failed to add API server to manager"
  end.

(** [mgr.Add] of each in turn: the first failure exits. *)
Fixpoint add_all (add_fails : Runnable → bool) (rs : list Runnable) : string + list Runnable :=
  match rs with
  | [] => inr []
  | r :: rs =>
      if add_fails r then inl (add_message r)
      else match add_all add_fails rs with inl m => inl m | inr rs => inr (r :: rs) end
  end.

(** [main] from the manager's creation to the last runnable; [inl] is the message
    logged before [os.Exit(1)], and the arguments are the failures of the
    libraries. *)
Definition main_setup `{GoUnicode} (newManagerFails : bool) (dynErr discoErr : option string)
    (add_fails : Runnable → bool) (cfg : Config) : string + (Watcher * list Runnable) :=
  if newManagerFails then inl "Failed to start manager"
  else match NewWatcher dynErr discoErr cfg with
       | inl _ => inl "Failed to create resource watcher"
       | inr w => match add_all add_fails (main_runnables cfg) with
                  | inl m => inl m
                  | inr rs => inr (w, rs)
                  end
       end.

(** The library calls [main] depends on, by whether they fail. *)
Record Libraries := mkLibraries {
  newManagerFails : ManagerOptions → bool;
  dynamicErr : option string;
  discoveryErr : option string;
  addFails : Runnable → bool;
  healthzFails : bool;
  readyzFails : bool;
  managerFails : list Runnable → bool;
}.

(** The whole of [main]: the message it exits with, or [None] when the manager ran
    to its end, and the runnables that ran. *)
Definition main `{GoUnicode} (lib : Libraries) (fl : Flags) (env : string → string) :
    option string * list Runnable :=
  match main_setup (newManagerFails lib (manager_options fl)) (dynamicErr lib) (discoveryErr lib)
          (addFails lib) (Load env) with
  | inl m => (Some m, [])
  | inr (_, rs) =>
      if healthzFails lib then (Some "Failed to set up health check", [])
      else if readyzFails lib then (Some "Failed to set up ready check", [])
      else (if managerFails lib rs then Some "Failed to run manager" else None, rs)
  end.

(** Nothing is lost on the way, and nothing fails silently. *)
Lemma add_all_same add_fails l l' :
  add_all add_fails l = inr l' → l' = l ∧ Forall (λ r, add_fails r = false) l.
Proof.
  revert l'. induction l as [|r l IH]; intros l'; cbn; [by intros [= <-]|].
  destruct (add_fails r) eqn:Er; [done|]. destruct (add_all add_fails l) as [m|l1]; [done|].
  intros [= <-]. destruct (IH l1) as [-> ?]; [done|]. split; [done|by constructor].
Qed.

Lemma add_all_fails add_fails l m :
  add_all add_fails l = inl m → ∃ r, r ∈ l ∧ add_fails r = true ∧ m = add_message r.
Proof.
  induction l as [|r l IH]; cbn; [done|]. destruct (add_fails r) eqn:Er.
  - intros [= <-]. exists r. split; [left|done].
  - destruct (add_all add_fails l) as [m'|l1]; [|done]. intros [= <-].
    destruct IH as (r' & Hr & ?); [done|]. exists r'. split; [by right|done].
Qed.

(** What the setup needs of the libraries. *)
Definition setup_succeeds (lib : Libraries) (fl : Flags) (cfg : Config) : Prop :=
  newManagerFails lib (manager_options fl) = false ∧ dynamicErr lib = None ∧ discoveryErr lib = None
  ∧ Forall (λ r, addFails lib r = false) (main_runnables cfg)
  ∧ healthzFails lib = false ∧ readyzFails lib = false.

(** [main] runs the manager when nothing before it failed. *)
Lemma main_runs `{GoUnicode} lib fl env :
  setup_succeeds lib fl (Load env) →
  main lib fl env =
    (if managerFails lib (main_runnables (Load env)) then Some "Failed to run manager" else None,
     main_runnables (Load env)).
Proof.
  intros (H1 & H2 & H3 & H4 & H5 & H6). unfold main, main_setup, NewWatcher. rewrite H1, H2, H3.
  destruct (add_all (addFails lib) (main_runnables (Load env))) as [m|rs] eqn:E.
  - apply add_all_fails in E as (r & Hr & Hf & _). rewrite Forall_forall in H4. by rewrite H4 in Hf.
  - apply add_all_same in E as [-> _]. by rewrite H5, H6.
Qed.

(** The messages of the failures that are not those of [mgr.Add]. *)
Definition exit_messages : list string :=
  ["Failed to start manager"; "Failed to create resource watcher";
   "Failed to set up health check"; "Failed to set up ready check"].

Lemma main_gives_up `{GoUnicode} lib fl env :
  ¬ setup_succeeds lib fl (Load env) →
  ∃ m, main lib fl env = (Some m, [])
    ∧ (m ∈ exit_messages
       ∨ ∃ r, r ∈ main_runnables (Load env) ∧ addFails lib r = true ∧ m = add_message r).
Proof.
  intros Hn. unfold main, main_setup, NewWatcher.
  destruct (newManagerFails lib (manager_options fl)) eqn:H1; [eexists; split; [done|left; set_solver]|].
  destruct (dynamicErr lib) eqn:H2; [eexists; split; [done|left; set_solver]|].
  destruct (discoveryErr lib) eqn:H3; [eexists; split; [done|left; set_solver]|].
  destruct (add_all (addFails lib) (main_runnables (Load env))) as [m|rs] eqn:E.
  { apply add_all_fails in E as (r & Hr & Hf & ->). eexists. split; [done|]. right. by exists r. }
  apply add_all_same in E as [-> Hall].
  destruct (healthzFails lib) eqn:H5; [eexists; split; [done|left; set_solver]|].
  destruct (readyzFails lib) eqn:H6; [eexists; split; [done|left; set_solver]|].
  by destruct Hn.
Qed.

(** The channel that the [Start] of a runnable receives from. *)
Inductive Channel := EventsChannel | PayloadsChannel | CrdEventsChannel | CrdPayloadsChannel.

#[export] Instance Channel_eq_dec : EqDecision Channel.
Proof. solve_decision. Defined.

Definition receives_from (r : Runnable) : option Channel :=
  match r with
  | debouncerRunnable => Some EventsChannel
  | senderRunnable _ => Some PayloadsChannel
  | crdDebouncerRunnable => Some CrdEventsChannel
  | crdSenderRunnable _ => Some CrdPayloadsChannel
  | watcherRunnable | apiServer _ => None
  end.

(** The goroutines that receive from a channel. *)
Definition receivers (ch : Channel) (rs : list Runnable) : nat :=
  length (base.filter (λ r, receives_from r = Some ch) rs).

(** The client for an endpoint, with every default written out. *)
Definition default_client (ep : string) : RESTClient :=
  mkRESTClient ep (30 * Second) 3 Second (30 * Second).

Lemma New_default ep : RestClient.New ep [] = default_client ep.
Proof. vm_compute. reflexivity. Qed.

(** The runnables of a configuration, without the lists of the code. *)
Definition wired (cfg : Config) (r : Runnable) : Prop :=
  match r with
  | watcherRunnable | debouncerRunnable => True
  | senderRunnable c => c = default_client (InstancesEndpoint cfg)
  | crdDebouncerRunnable => CapabilitiesEndpoint cfg ≠ ""
  | crdSenderRunnable c => CapabilitiesEndpoint cfg ≠ "" ∧ c = default_client (CapabilitiesEndpoint cfg)
  | apiServer addr => addr = APIBindAddress cfg
  end.

Lemma main_runnables_wired cfg r : r ∈ main_runnables cfg ↔ wired cfg r.
Proof.
  unfold main_runnables. rewrite !New_default.
  destruct (String.eqb_spec (CapabilitiesEndpoint cfg) "") as [E|E]; cbn [negb app];
    rewrite !elem_of_cons, elem_of_nil; destruct r; cbn; naive_solver.
Qed.

Lemma main_runnables_receivers cfg ch :
  receivers ch (main_runnables cfg) =
    match ch with
    | EventsChannel | PayloadsChannel => 1
    | CrdEventsChannel | CrdPayloadsChannel =>
        if decide (CapabilitiesEndpoint cfg = "") then 0 else 1
    end.
Proof.
  unfold main_runnables, receivers.
  destruct (String.eqb_spec (CapabilitiesEndpoint cfg) "") as [E|E]; cbn [negb app];
    [rewrite (decide_True (P:=CapabilitiesEndpoint cfg = "")) by done
    |rewrite (decide_False (P:=CapabilitiesEndpoint cfg = "")) by done]; by destruct ch.
Qed.

Lemma NewWatcher_watches `{GoUnicode} cfg w :
  NewWatcher None None cfg = inr w → watchCRDs w = true ↔ CapabilitiesEndpoint cfg ≠ "".
Proof.
  intros [= <-]. cbn [watchCRDs]. destruct (String.eqb_spec (CapabilitiesEndpoint cfg) "");
    cbn [negb]; by split.
Qed.

(** C37: wiring.  [main] hands runnables to the manager exactly when every library call
    before succeeded; otherwise it exits with the message of a call that failed,
    that of the runnable when adding one failed.  What runs is the watcher, the
    API server at its address, the instance pipeline with a client for its
    endpoint and, exactly when the capabilities endpoint is configured, the other
    pipeline with a client for its own, every client with the default timeout,
    retries and delays.  Each of the four channels has one receiver, but those of
    a disabled capabilities pipeline have none; and the watcher watches custom
    resource definitions, whatever its filter says, in the same case. *)
Theorem main_wiring `{GoUnicode} (lib : Libraries) (fl : Flags) (env : string → string) :
  let cfg := Load env in
  (setup_succeeds lib fl cfg →
     ((main lib fl env).1 = if managerFails lib (main lib fl env).2
                            then Some "Failed to run manager" else None)
     ∧ (∀ r, r ∈ (main lib fl env).2 ↔ wired cfg r)
     ∧ ∀ ch, receivers ch (main lib fl env).2 =
         match ch with
         | EventsChannel | PayloadsChannel => 1
         | CrdEventsChannel | CrdPayloadsChannel =>
             if decide (CapabilitiesEndpoint cfg = "") then 0 else 1
         end)
  ∧ (¬ setup_succeeds lib fl cfg →
     ∃ m, main lib fl env = (Some m, [])
       ∧ (m ∈ exit_messages ∨ ∃ r, wired cfg r ∧ addFails lib r = true ∧ m = add_message r))
  ∧ (∀ w, NewWatcher None None cfg = inr w → watchCRDs w = true ↔ CapabilitiesEndpoint cfg ≠ "").
Proof.
  intros cfg. split; [|split].
  - intros Hok. rewrite main_runs by done. cbn [fst snd]. split; [done|].
    split; [apply main_runnables_wired|apply main_runnables_receivers].
  - intros Hn. destruct (main_gives_up lib fl env Hn) as (m & E & Hm). exists m. split; [done|].
    destruct Hm as [?|(r & Hr%main_runnables_wired & ? & ?)]; [by left|right; by exists r].
  - apply NewWatcher_watches.
Qed.

(** ** The sender loop *)

Inductive SendContext := RunContext | DrainContext.

(** One round of the loop: the payload, the context it was sent with, the answers
    the server gave, the result and the requests. *)
Record Round (T : Type) := mkRound {
  round_payload : T;
  round_context : SendContext;
  round_world : World;
  round_result : option SendError;
  round_actions : list Action;
}.
Arguments mkRound {T}.
Arguments round_payload {T}.
Arguments round_context {T}.
Arguments round_world {T}.
Arguments round_result {T}.
Arguments round_actions {T}.

Section sender.
Context `{Payload T} (c : RESTClient) (cancelled : nat → bool) (w : nat → World).

(** The body of the loop, for the [n]-th payload; [cancelled] says whether the
    context is done when it arrives, [w] what the server does with its requests.
    A failure is logged and the loop goes on. *)
Definition sender_round (n : nat) (payload : T) : Round T :=
  let sendCtx := if cancelled n then DrainContext else RunContext in
  let '(err, acts) := Send c (w n) (Some payload) in
  mkRound payload sendCtx (w n) err acts.

(** [runSenderLoop] over the values it receives, from the [n]-th on. *)
Fixpoint runSenderLoop (n : nat) (payloads : list T) : list (Round T) :=
  match payloads with
  | [] => []
  | payload :: payloads => sender_round n payload :: runSenderLoop (S n) payloads
  end.

(** What the server accepted in the rounds. *)
Definition accepted (rounds : list (Round T)) : list string :=
  rounds ≫= λ r, accepted_bodies (round_world r) 0 (round_actions r).

Definition nonempty (p : T) : bool := negb (isNilPayload p || PIsEmpty p).

Definition bodies (ps : list T) : list string :=
  omap (λ p, match Marshal p with inl b => Some b | inr _ => None end)
    (base.filter (λ p, nonempty p = true) ps).

Lemma bodies_cons p ps :
  bodies (p :: ps) =
    (if nonempty p then match Marshal p with inl b => [b] | inr _ => [] end else []) ++ bodies ps.
Proof.
  unfold bodies. rewrite filter_cons. destruct (nonempty p).
  - rewrite decide_True by done. cbn [omap list_omap]. by destruct (Marshal p).
  - by rewrite decide_False.
Qed.

Lemma sender_round_payload n p : round_payload (sender_round n p) = p.
Proof. unfold sender_round. by destruct (Send c (w n) (Some p)). Qed.

Lemma sender_rounds n ps : round_payload <$> runSenderLoop n ps = ps.
Proof.
  revert n. induction ps as [|p ps IH]; intros n; [done|]. cbn.
  by rewrite sender_round_payload, IH.
Qed.

Lemma runSenderLoop_snoc n ps p :
  runSenderLoop n (ps ++ [p]) = runSenderLoop n ps ++ [sender_round (n + length ps) p].
Proof.
  revert n. induction ps as [|q ps IH]; intros n; cbn; [by rewrite Nat.add_0_r|].
  by rewrite IH, <- Nat.add_succ_comm.
Qed.

Lemma runSenderLoop_elem n ps r :
  r ∈ runSenderLoop n ps → ∃ i p, r = sender_round i p.
Proof.
  revert n. induction ps as [|p ps IH]; intros n; cbn; [by rewrite elem_of_nil|].
  rewrite elem_of_cons. intros [->|Hr]; [by eauto|by eapply IH].
Qed.

Lemma runSenderLoop_lookup n ps i :
  runSenderLoop n ps !! i = sender_round (n + i) <$> ps !! i.
Proof.
  revert n i. induction ps as [|p ps IH]; intros n [|i]; cbn; [done|done|by rewrite Nat.add_0_r|].
  by rewrite IH, <- Nat.add_succ_comm.
Qed.

Lemma sender_round_context n p :
  round_context (sender_round n p) = if cancelled n then DrainContext else RunContext.
Proof. unfold sender_round. by destruct (Send c (w n) (Some p)). Qed.

(** What the server took of one payload: its body, once if the round succeeded, and
    once more for every request taken unseen. *)
Lemma round_accepted n p body (r := sender_round n p) :
  nonempty p = true → Marshal p = inl body →
  accepted_bodies (round_world r) 0 (round_actions r)
    = replicate (unseen_count (round_world r) 0 (round_actions r) + seen_count (round_result r)) body
  ∧ unseen_count (round_world r) 0 (round_actions r) + seen_count (round_result r)
      ≤ requests (round_actions r) ≤ Z.to_nat (to_int64 (maxRetries c + 1)).
Proof.
  intros Hne%negb_true_iff Hm. pose proof (Send_accepted c (w n) p body Hne Hm) as Ha.
  subst r. unfold sender_round. by destruct (Send c (w n) (Some p)).
Qed.

Lemma round_skipped n p (r := sender_round n p) :
  nonempty p = false → round_result r = None ∧ round_actions r = [].
Proof. intros Hp%negb_false_iff. subst r. unfold sender_round, Send. by rewrite Hp. Qed.
End sender.

(** C16: no payload is skipped.  Whatever the
    server does and whenever the context is cancelled, the sender calls [Send] for
    every payload of the channel, in order, also after failures and during
    shutdown, then with a context of its own.  The server takes the body of a payload that is not empty once if
    its round succeeded, and once more for every request that it took although the
    client saw an error (a timeout, a lost response), so a body may arrive more
    than once, and may have arrived when the round failed; never more often than
    there were requests, at most [maxRetries + 1].  An empty payload is a success
    without a request. *)
Theorem sender_processes_all `{Payload T} c cancelled w (ps : list T) :
  round_payload <$> runSenderLoop c cancelled w 0 ps = ps
  ∧ (∀ i r, runSenderLoop c cancelled w 0 ps !! i = Some r →
       round_context r = if cancelled i then DrainContext else RunContext)
  ∧ ∀ r, r ∈ runSenderLoop c cancelled w 0 ps →
      if nonempty (round_payload r) then
        ∀ body, Marshal (round_payload r) = inl body →
          let unseen := unseen_count (round_world r) 0 (round_actions r) in
          let seen := match round_result r with None => 1 | Some _ => 0 end in
          accepted_bodies (round_world r) 0 (round_actions r) = replicate (unseen + seen) body
          ∧ unseen + seen ≤ requests (round_actions r) ≤ Z.to_nat (to_int64 (maxRetries c + 1))
      else round_result r = None ∧ round_actions r = [].
Proof.
  split; [apply sender_rounds|]. split.
  { intros i r. rewrite runSenderLoop_lookup. intros (p & _ & ->)%fmap_Some. apply sender_round_context. }
  intros r (i & p & ->)%runSenderLoop_elem.
  rewrite sender_round_payload. destruct (nonempty p) eqn:Hp.
  - intros body Hm. by apply round_accepted.
  - by apply round_skipped.
Qed.

(** ** What arrives when every round succeeds *)

(** The second list is the first with some of its elements repeated on the spot. *)
Inductive resent {A} : list A → list A → Prop :=
  | resent_nil : resent [] []
  | resent_once x l l' : resent l l' → resent (x :: l) (x :: l')
  | resent_again x l l' : resent l (x :: l') → resent l (x :: x :: l').

Lemma resent_replicate {A} k (x : A) l l' :
  resent l l' → resent (x :: l) (replicate (S k) x ++ l').
Proof. intros Hl. induction k as [|k IH]; [by apply resent_once|by apply resent_again]. Qed.

Lemma sender_accepts `{Payload T} c cancelled w n (ps : list T) :
  (∀ p, p ∈ ps → ∃ b, Marshal p = inl b) →
  Forall (λ r, round_result r = None) (runSenderLoop c cancelled w n ps) →
  resent (bodies ps) (accepted (runSenderLoop c cancelled w n ps)).
Proof.
  revert n. induction ps as [|p ps IH]; intros n Hm; [constructor|].
  destruct (Hm p) as [b Hb]; [by left|]. cbn [runSenderLoop]. intros [Hr Hrest]%Forall_cons.
  specialize (IH (S n) ltac:(intros; apply Hm; by right) Hrest).
  unfold accepted. cbn [mbind list_bind]. fold (accepted (runSenderLoop c cancelled w (S n) ps)).
  rewrite bodies_cons, Hb. destruct (nonempty p) eqn:Hne.
  - destruct (round_accepted c cancelled w n p b Hne Hb) as [-> _]. rewrite Hr, Nat.add_1_r.
    by apply resent_replicate.
  - by destruct (round_skipped c cancelled w n p Hne) as [_ ->].
Qed.

(** ** From the watcher's events to the server's index *)

Lemma apply_empty_payload (p : SyncPayload) idx :
  nonempty p = false → apply_payload (V:=ResourceInstance) idx p = idx.
Proof.
  unfold nonempty. cbn. unfold IsEmpty, apply_payload. cbn.
  intros [H1 H2]%negb_false_iff%andb_true_iff. apply bool_decide_eq_true_1 in H1, H2.
  by rewrite (nil_length_inv _ H1), (nil_length_inv _ H2).
Qed.

Lemma apply_empty_crd_payload (p : CrdDebounce.CrdSyncPayload) idx :
  nonempty p = false → apply_payload (V:=string) idx p = idx.
Proof.
  unfold nonempty. cbn. unfold CrdDebounce.IsEmpty, apply_payload. cbn.
  intros [H1 H2]%negb_false_iff%andb_true_iff. apply bool_decide_eq_true_1 in H1, H2.
  by rewrite (nil_length_inv _ H1), (nil_length_inv _ H2).
Qed.

(** A receiver reads the bodies back; the payloads it missed were empty, and those it
    got again change nothing. *)
Section receiver.
Context `{Payload T} {A : Type} (read : string → option T) (apply : A → T → A) (ok : T → Prop).
Hypothesis read_ok : ∀ p, ok p → ∃ b, Marshal p = inl b ∧ read b = Some p.
Hypothesis apply_empty : ∀ p a, nonempty p = false → apply a p = a.
Hypothesis apply_idem : ∀ a p, apply (apply a p) p = apply a p.

Lemma receiver_reads ps a :
  Forall ok ps → ∃ qs, mapM read (bodies ps) = Some qs ∧ foldl apply a qs = foldl apply a ps.
Proof.
  revert a. induction ps as [|p ps IH]; intros a; [by exists []|].
  intros [Hp Hps]%Forall_cons. rewrite bodies_cons. destruct (nonempty p) eqn:Hne.
  - destruct (IH (apply a p) Hps) as (qs & E & Ha). exists (p :: qs).
    destruct (read_ok p Hp) as (b & -> & Hb). split; [|exact Ha].
    cbn [app mapM]. by rewrite Hb, E.
  - destruct (IH a Hps) as (qs & E & Ha). exists qs.
    split; [exact E|]. rewrite Ha. cbn [foldl]. by rewrite apply_empty.
Qed.

Lemma resent_reads bs bs' qs :
  resent bs bs' → mapM read bs = Some qs →
  ∃ qs', mapM read bs' = Some qs' ∧ ∀ a, foldl apply a qs' = foldl apply a qs.
Proof.
  intros Hr. revert qs. induction Hr as [|x l l' _ IH|x l l' _ IH]; intros qs E.
  - by exists qs.
  - cbn in E. destruct (read x) as [q|] eqn:Hx; [|done]. destruct (mapM read l) as [ql|]; [|done].
    injection E as <-. destruct (IH ql eq_refl) as (qs' & E & Ha). exists (q :: qs').
    cbn. rewrite Hx, E. split; [done|]. intros a. apply Ha.
  - destruct (IH qs E) as (qs' & E' & Ha). cbn in E'. destruct (read x) as [q|] eqn:Hx; [|done].
    destruct (mapM read l') as [ql|] eqn:El; [|done]. injection E' as <-.
    exists (q :: q :: ql). cbn. rewrite Hx, El. split; [done|]. intros a. rewrite <- Ha. cbn.
    by rewrite apply_idem.
Qed.

(** When every round succeeds the bodies that arrive do what the payloads do. *)
Lemma sent_and_read c cancelled w ps a :
  Forall ok ps → Forall (λ r, round_result r = None) (runSenderLoop c cancelled w 0 ps) →
  ∃ qs, mapM read (accepted (runSenderLoop c cancelled w 0 ps)) = Some qs
    ∧ foldl apply a qs = foldl apply a ps.
Proof.
  intros Hok Hsent. destruct (receiver_reads ps a Hok) as (qs & E & Ha).
  destruct (resent_reads (bodies ps) (accepted (runSenderLoop c cancelled w 0 ps)) qs) as (qs' & E' & Ha');
    [|exact E|exists qs'; split; [exact E'|by rewrite Ha']].
  apply sender_accepts; [|done]. intros p Hp. rewrite Forall_forall in Hok.
  destruct (read_ok p (Hok p Hp)) as (b & Hb & _). by exists b.
Qed.
End receiver.

Lemma instances_sent c cancelled w (ps : list SyncPayload) idx :
  Forall (λ p, textual (payload_json p) = true) ps →
  Forall (λ r, round_result r = None) (runSenderLoop c cancelled w 0 ps) →
  ∃ qs, mapM read_payload (accepted (runSenderLoop c cancelled w 0 ps)) = Some qs
    ∧ apply_payloads (V:=ResourceInstance) qs idx = apply_payloads ps idx.
Proof.
  apply (sent_and_read read_payload (apply_payload (V:=ResourceInstance))
    (λ p, textual (payload_json p) = true)).
  - intros p Hp. eexists. split; [reflexivity|]. by apply read_encoded.
  - apply apply_empty_payload.
  - apply apply_payload_idem.
Qed.

Lemma capabilities_sent c cancelled w (ps : list CrdDebounce.CrdSyncPayload) idx :
  Forall (λ p, textual (crd_payload_json p) = true) ps →
  Forall (λ r, round_result r = None) (runSenderLoop c cancelled w 0 ps) →
  ∃ qs, mapM read_crd_payload (accepted (runSenderLoop c cancelled w 0 ps)) = Some qs
    ∧ apply_payloads (V:=string) qs idx = apply_payloads ps idx.
Proof.
  apply (sent_and_read read_crd_payload (apply_payload (V:=string))
    (λ p, textual (crd_payload_json p) = true)).
  - intros p Hp. eexists. split; [reflexivity|]. by apply crd_read_encoded.
  - apply apply_empty_crd_payload.
  - apply apply_payload_idem.
Qed.

(** ** A pipeline: a debouncer and the sender that ranges over its channel *)

Section pipe.
Context {B V P : Type} `{!PayloadOps V P} `{!Buffer B V P} `{!Payload P} `{!EqDecision V}.
Context (c : RESTClient) (cancelled : nat → bool) (w : nat → World).

(** Where the goroutine of the sender is: at the receive of its [range] loop, in the
    call of [Send], or returned. *)
Inductive SenderPc :=
  | Ranging
  | Sending (payload : P)
  | SenderReturned.

(** The goroutines of the debouncer, that of the sender, and the rounds it made. *)
Record Pipe := mkPipe {
  p_sys : Sys B V P;
  p_sender : SenderPc;
  p_rounds : list (Round P);
}.

(** The [Start] methods: the debouncer's creates the ticker and enters the loop of
    [Run]; the sender's ranges over the debouncer's channel. *)
Definition pipe_start (interval : Z) (b : B) : Outcome Pipe :=
  _ ← NewTicker interval;
  Ok (mkPipe (init b) Ranging []).

Inductive PipeLabel :=
  | Debouncer (l : Label V)   (** a step of the debouncer's goroutines, or of the clock *)
  | Sender.                   (** the next step of the sender *)

(** The sender receives from the live channel, or ends when it is closed and empty,
    or waits; a payload it received it sends, while the debouncer goes on. *)
Definition pipe_label (l : PipeLabel) (x : Pipe) : option Pipe :=
  match l with
  | Debouncer LConsume => None
  | Debouncer l => s ← step_label l (p_sys x); Some (mkPipe s (p_sender x) (p_rounds x))
  | Sender =>
      match p_sender x with
      | Ranging =>
          match chan_recv (a_chan (abs (buf (p_sys x)))) with
          | Received payload _ =>
              s ← step_label LConsume (p_sys x);
              Some (mkPipe s (Sending payload) (p_rounds x))
          | RecvClosed => Some (mkPipe (p_sys x) SenderReturned (p_rounds x))
          | RecvBlocks => None
          end
      | Sending payload =>
          Some (mkPipe (p_sys x) Ranging
                  (p_rounds x ++ [sender_round c cancelled w (length (p_rounds x)) payload]))
      | SenderReturned => None
      end
  end.

Fixpoint pipe_exec (ls : list PipeLabel) (x : Pipe) : option Pipe :=
  match ls with
  | [] => Some x
  | l :: ls => x ← pipe_label l x; pipe_exec ls x
  end.

(** Steps in which the debouncer's goroutines keep their payloads in order. *)
Definition pipe_orderly (x x' : Pipe) : Prop :=
  (∃ l, pipe_label l x = Some x')
  ∧ (inflight (p_sys x) = [] ∨ hist (p_sys x') = hist (p_sys x)).

(** The payload in the hands of the sender. *)
Definition sender_payload (pc : SenderPc) : list P :=
  match pc with Sending payload => [payload] | _ => [] end.

(** What the steps keep: the rounds are those of [runSenderLoop] over the payloads
    received so far, and the sender has returned only from a closed and empty
    channel. *)
Record pipe_ok (b : B) (x : Pipe) : Prop := {
  ok_sys : rtc orderly (init b) (p_sys x);
  ok_rounds : p_rounds x = runSenderLoop c cancelled w 0 (round_payload <$> p_rounds x);
  ok_received : delivered (p_sys x) = (round_payload <$> p_rounds x) ++ sender_payload (p_sender x);
  ok_returned : p_sender x = SenderReturned →
    run (p_sys x) = RReturned ∧ chan_buf (a_chan (abs (buf (p_sys x)))) = [];
}.

Lemma start_ok b interval x : pipe_start interval b = Ok x → pipe_ok b x.
Proof. unfold pipe_start, NewTicker. case_decide; cbn; [|done]. intros [= <-]. by split. Qed.

Lemma consumed s s' :
  step_label LConsume s = Some s' →
  hist s' = hist s ∧ run s' = run s
  ∧ ∃ p, delivered s' = delivered s ++ [p]
      ∧ chan_buf (a_chan (abs (buf s))) = p :: chan_buf (a_chan (abs (buf s'))).
Proof.
  unfold step_label. destruct (crash s); [done|]. unfold chan_recv.
  destruct (chan_buf (a_chan (abs (buf s)))) as [|p ps]; [by destruct (chan_closed _)|].
  intros [= <-]. cbn. rewrite abs_set_chan. cbn. split; [done|split; [done|by exists p]].
Qed.

Lemma delivered_send p (s : Sys B V P) : delivered (send p s) = delivered s.
Proof. unfold send. by destruct (emit p (buf s)). Qed.

(** Only the consumer's step receives. *)
Lemma only_consume_receives l (s s' : Sys B V P) :
  l ≠ LConsume → step_label l s = Some s' → delivered s' = delivered s.
Proof.
  intros Hl. unfold step_label. destruct (crash s); [done|].
  destruct l as [v|k|hint|hint| |tid|i hint|dt| ]; try done; try (destruct (at_select s); [|done]).
  - by intros [= <-].
  - by intros [= <-].
  - destruct (collect hint (buf s)). by intros [= <-].
  - destruct (collectAll hint (buf s)). by intros [= <-].
  - unfold step_run. destruct (run s); intros [= <-]; cbn -[send]; try apply delivered_send.
    by destruct (close (buf s)).
  - destruct (fire tid _) as [[cl t]|]; cbn; [|done]. by intros [= <-].
  - unfold step_thread. destruct (threads s !! i) as [[k g| | |vs]|]; cbn -[send]; [..|done];
      try (by intros [= <-]).
    + destruct (collect hint (buf s)). by intros [= <-].
    + intros [= <-]. apply delivered_send.
  - case_decide; [|done]. by intros [= <-].
Qed.

(** A step of the debouncer, between the sender's. *)
Lemma debouncer_ok b l x s :
  fresh_buffer b → pipe_ok b x → l ≠ LConsume → step_label l (p_sys x) = Some s →
  inflight (p_sys x) = [] ∨ hist s = hist (p_sys x) →
  pipe_ok b (mkPipe s (p_sender x) (p_rounds x)).
Proof.
  intros Hb [Hs Hr Hd Hret] Hl E Ho. assert (step (p_sys x) s) as Hst by (by econstructor).
  split; cbn.
  - eapply rtc_r; [exact Hs|]. by split.
  - exact Hr.
  - by rewrite (only_consume_receives l (p_sys x)).
  - intros Hx. destruct (Hret Hx) as [Hrun Hq]. split; [by apply (returned_stays (p_sys x))|].
    pose proof (reachable_sane b (p_sys x) Hb (orderly_reachable b _ Hs)) as Hsane.
    destruct (closed_queue _ _ (step_chan _ _ Hsane Hst)) as [ps Eq]; [by apply Hsane|].
    rewrite Hq in Eq. by destruct ps, (chan_buf (a_chan (abs (buf s)))).
Qed.

Lemma sender_ok b x x' :
  fresh_buffer b → pipe_ok b x → pipe_label Sender x = Some x' → pipe_ok b x'.
Proof.
  intros Hb [Hs Hr Hd Hret]. cbn [pipe_label]. destruct (p_sender x) as [|payload|] eqn:Hpc; [| |done].
  - destruct (chan_recv (a_chan (abs (buf (p_sys x))))) as [p q| |] eqn:Hc; [| |done].
    + intros (s & E & [= <-])%bind_Some. destruct (consumed _ _ E) as (Hh & Hrun & p' & Ed & Eq).
      unfold chan_recv in Hc. rewrite Eq in Hc. injection Hc as <- _.
      split; cbn; [|done| |done].
      * eapply rtc_r; [exact Hs|]. split; [by econstructor|by right].
      * by rewrite Ed, Hd, app_nil_r.
    + intros [= <-]. split; try done. intros _. cbn.
      pose proof (reachable_sane b (p_sys x) Hb (orderly_reachable b _ Hs)) as (_ & Hcl & Hclosed).
      unfold chan_recv in Hc. destruct (chan_buf _); [|done].
      destruct (chan_closed _) eqn:E; [|done]. split; [|done]. apply Hclosed. by rewrite <- Hcl.
  - intros [= <-]. split; cbn; [done| | |done].
    + rewrite fmap_app. cbn. rewrite sender_round_payload, runSenderLoop_snoc, <- Hr, length_fmap. done.
    + by rewrite fmap_app, app_nil_r, Hd; cbn; rewrite sender_round_payload.
Qed.

Lemma pipe_reachable_ok b interval x0 x :
  fresh_buffer b → pipe_start interval b = Ok x0 → rtc pipe_orderly x0 x → pipe_ok b x.
Proof.
  intros Hb Hx0. apply rtc_invariant; [by eapply start_ok|].
  intros x1 x2 Hok [[[l|] E] Ho]; [|by eapply sender_ok].
  cbn [pipe_label] in E. destruct l; try done; apply bind_Some in E as (s & E & [= <-]);
    (eapply debouncer_ok; [done|done| |exact E|exact Ho]; done).
Qed.

(** ** The sender ends *)

(** The steps the sender has in front of it when nothing more is enqueued. *)
Definition sender_work (x : Pipe) : nat :=
  let queue := length (chan_buf (a_chan (abs (buf (p_sys x))))) in
  match p_sender x with
  | Ranging => 2 * queue + 1
  | Sending _ => 2 * queue + 2
  | SenderReturned => 0
  end.

(** What the sender leaves alone. *)
Definition same_debouncer (x x' : Pipe) : Prop :=
  crash (p_sys x') = crash (p_sys x)
  ∧ chan_closed (a_chan (abs (buf (p_sys x')))) = chan_closed (a_chan (abs (buf (p_sys x))))
  ∧ inflight (p_sys x') = inflight (p_sys x) ∧ lost (p_sys x') = lost (p_sys x)
  ∧ hist (p_sys x') = hist (p_sys x).

#[local] Instance same_debouncer_preorder : PreOrder same_debouncer.
Proof.
  split; [by intros x|]. unfold same_debouncer.
  intros x y z (H1 & H2 & H3 & H4 & H5) (-> & -> & -> & -> & ->). done.
Qed.

Lemma sender_progress x :
  crash (p_sys x) = None → chan_closed (a_chan (abs (buf (p_sys x)))) = true →
  p_sender x = SenderReturned
  ∨ ∃ x', pipe_label Sender x = Some x' ∧ sender_work x = S (sender_work x') ∧ same_debouncer x x'.
Proof.
  intros Hcr Hcl. unfold sender_work, pipe_label. destruct (p_sender x) as [|payload|]; [right..|by left].
  - unfold step_label, chan_recv. rewrite Hcr.
    destruct (chan_buf (a_chan (abs (buf (p_sys x))))) as [|p ps] eqn:Hq.
    + rewrite Hcl. eexists. split; [done|]. done.
    + eexists. split; [done|]. unfold same_debouncer. cbn. rewrite abs_set_chan. cbn. split; [lia|done].
  - eexists. split; [done|]. cbn. split; [lia|]. by repeat split.
Qed.

Lemma sender_ends n x :
  sender_work x = n → crash (p_sys x) = None → chan_closed (a_chan (abs (buf (p_sys x)))) = true →
  ∃ x', pipe_exec (replicate n Sender) x = Some x' ∧ p_sender x' = SenderReturned
    ∧ same_debouncer x x'.
Proof.
  revert x. induction n as [|n IH]; intros x Hw Hcr Hcl;
    destruct (sender_progress x Hcr Hcl) as [Hx|(x1 & E & Hw1 & Hsame)].
  - by exists x.
  - lia.
  - unfold sender_work in Hw. by rewrite Hx in Hw.
  - destruct (IH x1) as (x' & E' & Hx' & Hsame'); [lia|by destruct Hsame as (-> & _)
      |by destruct Hsame as (_ & -> & _)|].
    exists x'. cbn [replicate pipe_exec]. rewrite E. split; [exact E'|]. split; [done|]. by etrans.
Qed.

Lemma sender_steps_ok b n x x' :
  fresh_buffer b → pipe_ok b x → pipe_exec (replicate n Sender) x = Some x' → pipe_ok b x'.
Proof.
  intros Hb. revert x. induction n as [|n IH]; intros x Hok E; [by injection E as <-|].
  cbn [replicate pipe_exec] in E. apply bind_Some in E as (x1 & E1 & E).
  apply (IH x1); [|exact E]. by apply (sender_ok b x).
Qed.

(** Once [Run] has returned the sender takes what is left and returns, and its rounds
    are those of [runSenderLoop] over everything that was received. *)
Lemma pipe_ends b interval x0 x :
  fresh_buffer b → pipe_start interval b = Ok x0 → rtc pipe_orderly x0 x →
  run (p_sys x) = RReturned →
  ∃ x', pipe_exec (replicate (sender_work x) Sender) x = Some x' ∧ p_sender x' = SenderReturned
    ∧ same_debouncer x x' ∧ rtc orderly (init b) (p_sys x')
    ∧ run (p_sys x') = RReturned ∧ chan_buf (a_chan (abs (buf (p_sys x')))) = []
    ∧ p_rounds x' = runSenderLoop c cancelled w 0 (delivered (p_sys x')).
Proof.
  intros Hb Hx0 Hx Hrun. pose proof (pipe_reachable_ok b interval x0 x Hb Hx0 Hx) as Hok.
  destruct (reachable_sane b (p_sys x) Hb (orderly_reachable b _ (ok_sys _ _ Hok))) as (Hcr & Hcl & Hret).
  destruct (sender_ends (sender_work x) x eq_refl Hcr) as (x' & E & Hx' & Hsame);
    [rewrite Hcl; by apply Hret|].
  pose proof (sender_steps_ok b _ x x' Hb Hok E) as [Hs Hr Hd He]. destruct (He Hx') as [Hrun' Hq].
  exists x'. rewrite Hx', app_nil_r in Hd. rewrite Hd. by split_and!.
Qed.
End pipe.
Arguments Pipe : clear implicits.
Arguments SenderPc : clear implicits.
Arguments PipeLabel : clear implicits.

(** The two pipelines of [main]. *)
Definition instance_start (cfg : Config) : Outcome (Pipe DebounceBuffer ResourceInstance SyncPayload) :=
  pipe_start (flushInterval (NewDebounceBuffer cfg)) (NewDebounceBuffer cfg).

Definition capability_start (cfg : Config) :
    Outcome (Pipe CrdDebounce.CrdDebounceBuffer string CrdDebounce.CrdSyncPayload) :=
  pipe_start (CrdDebounce.flushInterval (CrdDebounce.NewCrdDebounceBuffer cfg))
    (CrdDebounce.NewCrdDebounceBuffer cfg).

(** C2: both pipelines, end to end.  Let the goroutines of a debouncer, the clock and
    the sender that ranges over the live channel take their steps in any order in
    which no event is accepted and no batch taken while a payload is held, until
    [Run] has returned.  Then the sender empties the channel and returns after a
    bounded number of steps of its own; and if by then no payload is held and none
    was lost, the strings are UTF-8 and every round of the sender succeeded
    (possibly after retries), the bodies the server accepted, those it accepted
    more than once included, decoded and applied in order, make exactly the index
    that applying every accepted event directly makes; in the capabilities
    pipeline the index of names. *)
Theorem pipeline_end_to_end (cfg : Config) client cancelled w :
  (∀ x0 x, instance_start cfg = Ok x0 → rtc (pipe_orderly client cancelled w) x0 x →
     run (p_sys x) = RReturned →
     ∃ x', pipe_exec client cancelled w (replicate (sender_work x) Sender) x = Some x'
       ∧ p_sender x' = SenderReturned
       ∧ (inflight (p_sys x) = [] → lost (p_sys x) = [] →
          Forall (λ p, textual (payload_json p) = true) (delivered (p_sys x')) →
          Forall (λ r, round_result r = None) (p_rounds x') →
          ∃ received, mapM read_payload (accepted (p_rounds x')) = Some received
            ∧ apply_payloads received ∅ = spec_index (hist (p_sys x))))
  ∧ (∀ x0 x, capability_start cfg = Ok x0 → rtc (pipe_orderly client cancelled w) x0 x →
     run (p_sys x) = RReturned →
     ∃ x', pipe_exec client cancelled w (replicate (sender_work x) Sender) x = Some x'
       ∧ p_sender x' = SenderReturned
       ∧ (inflight (p_sys x) = [] → lost (p_sys x) = [] →
          Forall (λ p, textual (crd_payload_json p) = true) (delivered (p_sys x')) →
          Forall (λ r, round_result r = None) (p_rounds x') →
          ∃ received, mapM read_crd_payload (accepted (p_rounds x')) = Some received
            ∧ apply_payloads received ∅ = spec_index (hist (p_sys x)))).
Proof.
  split; intros x0 x Hx0 Hx Hrun;
    [destruct (pipe_ends client cancelled w _ _ x0 x (new_fresh cfg) Hx0 Hx Hrun)
      as (x' & E & Hx' & (_ & _ & Hi & Hl & Hh) & Hs & Hrun' & Hq & Hr)
    |destruct (pipe_ends client cancelled w _ _ x0 x (crd_new_fresh cfg) Hx0 Hx Hrun)
      as (x' & E & Hx' & (_ & _ & Hi & Hl & Hh) & Hs & Hrun' & Hq & Hr)];
    exists x'; (split; [exact E|split; [exact Hx'|]]); rewrite <- Hi, <- Hl, <- Hh, Hr;
    intros Hheld Hlost Hutf8 Hsent.
  - destruct (instances_sent client cancelled w _ ∅ Hutf8 Hsent) as (qs & Eq & Ha).
    exists qs. split; [exact Eq|]. rewrite Ha. apply (instances_settled cfg); try done.
    by apply (proj1 (buffers_drained cfg)).
  - destruct (capabilities_sent client cancelled w _ ∅ Hutf8 Hsent) as (qs & Eq & Ha).
    exists qs. split; [exact Eq|]. rewrite Ha. apply (capabilities_settled cfg); try done.
    by apply (proj2 (buffers_drained cfg)).
Qed.

(** ** Witnesses *)

#[local] Instance ascii_unicode : GoUnicode := string_map lower_byte.

(** Every library call succeeds. *)
Definition no_failures : Libraries :=
  mkLibraries (λ _, false) None None (λ _, false) false false (λ _, false).

(** The default environment, with a capabilities endpoint. *)
Definition crd_env (key : string) : string :=
  if String.eqb key "CAPABILITIES_ENDPOINT" then "http://localhost:3000/capabilities" else "".

Lemma main_wiring_witness :
  setup_succeeds no_failures default_flags (Load crd_env)
  ∧ crdSenderRunnable (default_client "http://localhost:3000/capabilities")
      ∈ (main no_failures default_flags crd_env).2
  ∧ receivers CrdEventsChannel (main no_failures default_flags crd_env).2 = 1.
Proof.
  assert (setup_succeeds no_failures default_flags (Load crd_env)) as Hok
    by (repeat split; apply Forall_forall; by intros).
  destruct (main_wiring no_failures default_flags crd_env) as [Hrun _].
  destruct (Hrun Hok) as (_ & Hin & Hch). split; [exact Hok|]. split.
  - apply Hin. split; [discriminate|vm_compute; reflexivity].
  - rewrite Hch. vm_compute. reflexivity.
Defined.

Definition failing : World := mkWorld (λ _, Status 404) (λ _, 0%Z) (λ _, true).

(** The server takes the first request, but its answer is lost; the retry succeeds. *)
Definition slow : World :=
  mkWorld (λ i, if decide (i = 0) then TransportError "timeout" (Some 200%Z) else Status 200)
    (λ _, 0%Z) (λ _, true).

(** The first payload is refused, the second one arrives twice. *)
Lemma sender_processes_all_witness :
  let rounds := runSenderLoop (RestClient.New "http://localhost:3000" []) (λ _, false)
    (λ n, if decide (n = 0) then failing else slow) 0 ["a"; "b"] in
  round_payload <$> rounds = ["a"; "b"]
  ∧ (∀ r, rounds !! 1 = Some r →
       accepted_bodies (round_world r) 0 (round_actions r) = replicate 2 "b").
Proof.
  split; [|intros r Hr].
  - apply (sender_processes_all (RestClient.New "http://localhost:3000" [])).
  - pose proof (proj2 (proj2 (sender_processes_all (RestClient.New "http://localhost:3000" []) (λ _, false)
      (λ n, if decide (n = 0) then failing else slow) ["a"; "b"])) r
      (list_elem_of_lookup_2 _ 1 r Hr)) as Ha.
    injection Hr as <-. destruct (Ha "b" eq_refl) as [E _]. exact E.
Defined.

Abbreviation sample_sender := (RestClient.New "http://localhost:3000" []).

(** An upsert is debounced, sent by the ticker and received by the sender, which
    posts it twice while another one is accepted; then the shutdown. *)
Definition pipe_trace : list (PipeLabel ResourceInstance) :=
  [Debouncer (LUpsert nginx_instance); Debouncer (LWait (10 * Second)); Debouncer (LFire 0);
   Debouncer (LThread 0 []); Debouncer (LThread 0 []); Debouncer (LThread 0 []);
   Debouncer (LThread 0 []); Sender;
   Debouncer (LUpsert (Extract (crd_object "widgets.example.com"))); Sender;
   Debouncer (LShutdown []); Debouncer LRun; Debouncer LRun].

Definition pipe_initial : Pipe DebounceBuffer ResourceInstance SyncPayload :=
  mkPipe instance_init Ranging [].

Definition pipe_final (ls : list (PipeLabel ResourceInstance)) : Pipe DebounceBuffer ResourceInstance SyncPayload :=
  default pipe_initial (pipe_exec sample_sender (λ _, false) (λ _, slow) ls pipe_initial).

(** Checks that a trace is orderly. *)
Fixpoint pipe_orderly_exec (ls : list (PipeLabel ResourceInstance))
    (x : Pipe DebounceBuffer ResourceInstance SyncPayload) : option (Pipe DebounceBuffer ResourceInstance SyncPayload) :=
  match ls with
  | [] => Some x
  | l :: ls =>
      x' ← pipe_label sample_sender (λ _, false) (λ _, slow) l x;
      if decide (inflight (p_sys x) = [] ∨ hist (p_sys x') = hist (p_sys x))
      then pipe_orderly_exec ls x' else None
  end.

Lemma pipe_orderly_exec_rtc ls x x' :
  pipe_orderly_exec ls x = Some x' → rtc (pipe_orderly sample_sender (λ _, false) (λ _, slow)) x x'.
Proof.
  revert x. induction ls as [|l ls IH]; intros x; cbn [pipe_orderly_exec]; [intros [= ->]; constructor|].
  intros (x1 & E & Hx)%bind_Some. case_decide; [|done].
  eapply rtc_l; [|by apply IH]. split; [by exists l|done].
Qed.

Lemma pipeline_end_to_end_witness :
  ∃ received,
    mapM read_payload (accepted (p_rounds (pipe_final (pipe_trace ++ [Sender; Sender; Sender]))))
      = Some received
    ∧ length received = 4
    ∧ apply_payloads received ∅ = spec_index (hist (p_sys (pipe_final pipe_trace))).
Proof.
  destruct (proj1 (pipeline_end_to_end sample_cfg sample_sender (λ _, false) (λ _, slow))
    pipe_initial (pipe_final pipe_trace)) as (x' & E & _ & Hidx).
  - reflexivity.
  - apply (pipe_orderly_exec_rtc pipe_trace). vm_compute. reflexivity.
  - vm_compute. reflexivity.
  - assert (x' = pipe_final (pipe_trace ++ [Sender; Sender; Sender])) as ->.
    { apply (inj Some). rewrite <- E. vm_compute. reflexivity. }
    destruct Hidx as (received & Hr & Ha).
    + vm_compute. reflexivity.
    + vm_compute. reflexivity.
    + apply (bool_decide_unpack _). vm_compute. exact I.
    + apply (bool_decide_unpack _). vm_compute. exact I.
    + exists received. split; [exact Hr|]. split; [|exact Ha].
      assert (length <$> mapM read_payload
        (accepted (p_rounds (pipe_final (pipe_trace ++ [Sender; Sender; Sender])))) = Some 4) as Hl
        by (vm_compute; reflexivity).
      rewrite Hr in Hl. by injection Hl.
Defined.
