(* ===== verification/ClusterSync.v ===== *)
(** The cluster and the index: what the informers report of the objects in the
    cluster, what of it reaches the receiver, and in which sense the receiver's
    index is a copy of the cluster.

    The informers and their caches are client-go's.  What the program relies on is
    stated as the relation [informs]: an informer reports an object it does not
    hold as added, an object it holds as updated or deleted, and passes its own
    copy as the old one. *)

From S2P Require Import Prelude GoRuntime GoStrings GoTime Config Metadata Watcher WatcherProofs.
From S2P Require Import Buffer Interleaving Invariants Sequential RestClient Json Wire CrdDebounce.
From S2P Require Import Debounce BufferTheorems Quiescence Pipeline.

(** ** Instances that a reader cannot tell apart *)

(** A nil map of labels and an empty one are the same labels, though the code
    distinguishes them; the comparison of maps in the watcher does not. *)
Definition normal_form (r : ResourceInstance) : ResourceInstance :=
  mkResourceInstance (ID r) (Namespace r) (Name r) (Kind r) (APIVersion r) (APIGroup r)
    (Some (entries (Labels r))) (Annotations r) (CreatedAt r).

#[export] Instance instance_equiv : Equiv ResourceInstance :=
  λ r1 r2, normal_form r1 = normal_form r2.

#[export] Instance instance_equivalence : Equivalence (≡@{ResourceInstance}).
Proof. split; [by intros ?|by intros ???|intros ??? E1 E2; by etrans]. Qed.

#[export] Instance ID_proper : Proper ((≡@{ResourceInstance}) ==> (=)) ID.
Proof. by intros r1 r2 [=]. Qed.

(** One event's effect on an index of instances, and of names. *)
Definition apply_instance_event (idx : gmap string ResourceInstance) (ev : ResourceEvent) :
    gmap string ResourceInstance :=
  if decide (EvType ev = EventDelete) then delete (ID (EvInstance ev)) idx
  else <[ID (EvInstance ev) := EvInstance ev]> idx.

Definition apply_crd_event (idx : gmap string string) (ev : CrdEvent) : gmap string string :=
  if decide (CrdType ev = EventDelete) then delete (CrdName ev) idx
  else <[CrdName ev := CrdName ev]> idx.

#[export] Instance apply_instance_event_proper :
  Proper ((≡) ==> (=) ==> (≡)) apply_instance_event.
Proof. intros m1 m2 E ev ? <-. unfold apply_instance_event. case_decide; by rewrite E. Qed.

#[export] Instance apply_instance_events_proper :
  Proper ((≡) ==> (=) ==> (≡)) (foldl apply_instance_event).
Proof.
  intros m1 m2 E evs ? <-. revert m1 m2 E. induction evs as [|ev evs IH]; intros m1 m2 E; [done|].
  cbn. apply IH. by apply apply_instance_event_proper.
Qed.

(** ** Views of a cluster *)

Section cluster.
Context `{Unstructured U}.

(** An object is identified by its namespace, API version, kind and name. *)
Definition ObjKey : Type := string * string * string * string.

Definition obj_key (u : U) : ObjKey :=
  (GetNamespace u, GetAPIVersion u, GetKind u, GetName u).

Abbreviation Cluster := (gmap ObjKey U).

(** What the API server accepts; custom resource definitions are cluster-scoped and
    served at one version. *)
Definition legal (u : U) : Prop :=
  valid_object u
  ∧ (IsCRD u = true → GetNamespace u = "" ∧ GetAPIVersion u = "apiextensions.k8s.io/v1").

(** The objects are stored under their keys. *)
Definition cluster_ok (c : Cluster) : Prop := ∀ k u, c !! k = Some u → k = obj_key u ∧ legal u.

Section views.
Context {A : Type} (show : U → option (string * A)).

(** The index that shows the objects of a cluster. *)
Definition view_of (c : Cluster) : gmap string A :=
  list_to_map (omap (λ ku, show ku.2) (map_to_list c)).

(** What identifies objects identifies what is shown of them. *)
Class Shows : Prop := {
  show_inj u1 u2 k a1 a2 :
    legal u1 → legal u2 → show u1 = Some (k, a1) → show u2 = Some (k, a2) → obj_key u1 = obj_key u2;
  show_key u1 u2 : obj_key u1 = obj_key u2 → fst <$> show u1 = fst <$> show u2;
}.

Context `{!Shows}.

Lemma view_lookup c k a :
  cluster_ok c → view_of c !! k = Some a ↔ ∃ u, c !! obj_key u = Some u ∧ show u = Some (k, a).
Proof.
  intros Hc.
  assert (∀ b, (k, b) ∈ omap (λ ku, show ku.2) (map_to_list c)
            ↔ ∃ u, c !! obj_key u = Some u ∧ show u = Some (k, b)) as Hin.
  { intros b. rewrite list_elem_of_omap. split.
    - intros ([k' u] & Hin%elem_of_map_to_list & E). destruct (Hc _ _ Hin) as [-> _]. by exists u.
    - intros (u & Hu & E). exists (obj_key u, u). by rewrite elem_of_map_to_list. }
  unfold view_of. rewrite <- elem_of_list_to_map', Hin; [done|].
  intros b (u1 & H1 & E1)%Hin (u2 & H2 & E2)%Hin.
  assert (obj_key u1 = obj_key u2) as Hk by (eapply show_inj; [eapply Hc, H1|eapply Hc, H2|done..]).
  congruence.
Qed.

Lemma cluster_ok_insert c u : cluster_ok c → legal u → cluster_ok (<[obj_key u := u]> c).
Proof using Type. intros Hc Hu k u'. rewrite lookup_insert_Some. intros [[<- <-]|[_ Hk]]; eauto. Qed.

Lemma cluster_ok_delete c k : cluster_ok c → cluster_ok (delete k c).
Proof using Type. intros Hc k' u [_ Hk]%lookup_delete_Some. eauto. Qed.

(** Storing an object shows it, removing it hides it. *)
Lemma view_insert c u :
  cluster_ok c → legal u →
  view_of (<[obj_key u := u]> c)
    = match show u with Some (k, a) => <[k := a]> (view_of c) | None => view_of c end.
Proof.
  intros Hc Hu. apply map_eq. intros j. apply option_eq. intros b.
  rewrite view_lookup by by apply cluster_ok_insert.
  setoid_rewrite lookup_insert_Some. destruct (show u) as [[k a]|] eqn:Eu.
  - rewrite lookup_insert_Some, view_lookup by done. split.
    + intros (u' & [[_ <-]|[Hne Hk]] & E); [left; naive_solver|].
      right. split; [|by exists u']. intros ->. apply Hne.
      by eapply (show_inj u u'); [|eapply Hc, Hk|..].
    + intros [[-> ->]|(Hne & u' & Hk & E)]; [exists u; naive_solver|].
      exists u'. split; [|done]. right. split; [|done]. intros Hkey%show_key.
      rewrite Eu, E in Hkey. by injection Hkey.
  - rewrite view_lookup by done. split; intros (u' & Hk & E); exists u'; (split; [|done]).
    + destruct Hk as [[_ <-]|[_ ?]]; [congruence|done].
    + right. split; [|done]. intros Hkey%show_key. by rewrite Eu, E in Hkey.
Qed.

Lemma view_delete c u :
  cluster_ok c → legal u →
  view_of (delete (obj_key u) c)
    = match show u with Some (k, a) => delete k (view_of c) | None => view_of c end.
Proof.
  intros Hc Hu. apply map_eq. intros j. apply option_eq. intros b.
  rewrite view_lookup by by apply cluster_ok_delete.
  setoid_rewrite lookup_delete_Some. destruct (show u) as [[k a]|] eqn:Eu.
  - rewrite lookup_delete_Some, view_lookup by done. split.
    + intros (u' & [Hne Hk] & E). split; [|by exists u']. intros ->. apply Hne.
      by eapply (show_inj u u'); [|eapply Hc, Hk|..].
    + intros (Hne & u' & Hk & E). exists u'. split; [|done]. split; [|done]. intros Hkey%show_key.
      rewrite Eu, E in Hkey. by injection Hkey.
  - rewrite view_lookup by done. split; intros (u' & Hk & E); exists u'; (split; [|done]).
    + by destruct Hk.
    + split; [|done]. intros Hkey%show_key. by rewrite Eu, E in Hkey.
Qed.
End views.

(** What the two receivers should show. *)
Definition show_instance (u : U) : option (string * ResourceInstance) :=
  if IsCRD u then None else Some (ID (Extract u), Extract u).

Definition show_crd (u : U) : option (string * string) :=
  if IsCRD u then Some (GetName u, GetName u) else None.

Lemma key_IsCRD u1 u2 : obj_key u1 = obj_key u2 → IsCRD u1 = IsCRD u2.
Proof. intros [= _ Ha Hk _]. unfold IsCRD. by rewrite Ha, Hk. Qed.

Lemma key_ID u1 u2 : obj_key u1 = obj_key u2 → ID (Extract u1) = ID (Extract u2).
Proof. intros [= Hns Ha Hk Hn]. unfold Extract. cbn. by rewrite Hns, Ha, Hk, Hn. Qed.

#[export] Instance shows_instances : Shows show_instance.
Proof.
  unfold show_instance. split; intros u1 u2.
  - intros k a1 a2 [V1 _] [V2 _] E1 E2. destruct (IsCRD u1); [done|]. destruct (IsCRD u2); [done|].
    injection E1 as <- <-. injection E2 as E <-.
    destruct (Extract_ID_parts u1 u2 V1 V2) as (? & ? & ? & ?); [done|]. unfold obj_key. congruence.
  - intros Hk. rewrite (key_IsCRD u1 u2 Hk). destruct (IsCRD u2); [done|].
    exact (f_equal Some (key_ID u1 u2 Hk)).
Qed.

#[export] Instance shows_crds : Shows show_crd.
Proof.
  unfold show_crd. split; intros u1 u2.
  - intros k a1 a2 [_ V1] [_ V2] E1 E2. destruct (IsCRD u1) eqn:C1; [|done].
    destruct (IsCRD u2) eqn:C2; [|done]. injection E1 as <- <-. injection E2 as E <-.
    destruct (V1 eq_refl) as [N1 A1], (V2 eq_refl) as [N2 A2]. unfold obj_key, IsCRD in *.
    apply andb_true_iff in C1 as [K1%String.eqb_eq _], C2 as [K2%String.eqb_eq _]. congruence.
  - intros Hk. rewrite (key_IsCRD u1 u2 Hk). destruct (IsCRD u2); cbn; [|done]. by injection Hk as _ _ _ ->.
Qed.

Definition cluster_index : Cluster → gmap string ResourceInstance := view_of show_instance.
Definition cluster_crds : Cluster → gmap string string := view_of show_crd.

(** ** What the informers report *)

(** An update is of one object, whose creation time stays; equal resource versions
    mean equal metadata; and no label or annotation had an empty value before
    (the comparison of the watcher is exact only then). *)
Definition same_object (o u : U) : Prop :=
  GetCreationTimestamp o = GetCreationTimestamp u
  ∧ (GetResourceVersion o = GetResourceVersion u →
       entries (GetLabels o) = entries (GetLabels u)
       ∧ entries (GetAnnotations o) = entries (GetAnnotations u))
  ∧ (∀ k v, entries (GetLabels o) !! k = Some v → v ≠ "")
  ∧ (∀ k v, entries (GetAnnotations o) !! k = Some v → v ≠ "").

Inductive informs (c : Cluster) : Notification U → Cluster → Prop :=
  | informs_added u :
      legal u → c !! obj_key u = None →
      informs c (Added (Object u)) (<[obj_key u := u]> c)
  | informs_updated o u :
      legal u → c !! obj_key u = Some o → same_object o u →
      informs c (Updated (Object o) (Object u)) (<[obj_key u := u]> c)
  | informs_deleted o u :
      legal u → c !! obj_key u = Some o →
      informs c (Deleted (Object u)) (delete (obj_key u) c)
  | informs_tombstone o :
      c !! obj_key o = Some o →
      informs c (Deleted (Tombstone (Object o))) (delete (obj_key o) c).

(** An update that the watcher ignores shows nothing new. *)
Lemma ignored_update o u :
  obj_key o = obj_key u → same_object o u → metadataChanged o u = false → Extract o ≡ Extract u.
Proof.
  intros [= Hns Ha Hk Hn] (Ht & Hrv & Hl & Han) Hm.
  assert (entries (GetLabels o) = entries (GetLabels u)
          ∧ entries (GetAnnotations o) = entries (GetAnnotations u)) as [El Ea].
  { destruct (decide (GetResourceVersion o = GetResourceVersion u)) as [|Hne]; [auto|].
    rewrite <- (mapsEqual_correct (GetLabels o)), <- (mapsEqual_correct (GetAnnotations o)) by done.
    apply not_true_iff_false in Hm. rewrite metadataChanged_iff in Hm.
    destruct (mapsEqual (GetLabels o) (GetLabels u)), (mapsEqual (GetAnnotations o) (GetAnnotations u));
      tauto. }
  unfold equiv, instance_equiv, normal_form, Extract. cbn -[entries filterAnnotations].
  unfold filterAnnotations.
  by rewrite Hns, Ha, Hk, Hn, El, Ea, Ht.
Qed.

(** The events of a notification for each pipeline. *)
Definition to_instances (e : ResourceEvent + CrdEvent) : option ResourceEvent :=
  match e with inl e => Some e | inr _ => None end.
Definition to_crds (e : ResourceEvent + CrdEvent) : option CrdEvent :=
  match e with inl _ => None | inr e => Some e end.

(** A copy of the cluster stays one. *)
Definition copies (c : Cluster) (idx : gmap string ResourceInstance) (crds : gmap string string) : Prop :=
  cluster_ok c ∧ idx ≡ cluster_index c ∧ crds = cluster_crds c.

Definition apply_event (e : ResourceEvent + CrdEvent) (i : gmap string ResourceInstance * gmap string string) :
    gmap string ResourceInstance * gmap string string :=
  match e with
  | inl e => (apply_instance_event i.1 e, i.2)
  | inr e => (i.1, apply_crd_event i.2 e)
  end.

Definition apply_event_opt (e : option (ResourceEvent + CrdEvent)) i :=
  match e with Some e => apply_event e i | None => i end.

(** An object that is stored, for the first time or again, and its event. *)
Definition upsert_event (ty : EventType) (u : U) : ResourceEvent + CrdEvent :=
  if IsCRD u then inr (mkCrdEvent ty (GetName u)) else inl (mkResourceEvent ty (Extract u)).

Lemma copies_stored c idx crds u ty :
  copies c idx crds → legal u → ty ≠ EventDelete →
  let i := apply_event (upsert_event ty u) (idx, crds) in copies (<[obj_key u := u]> c) i.1 i.2.
Proof.
  intros (Hc & Hi & Hr) Hu Hty. cbv zeta. split; [by apply cluster_ok_insert|].
  unfold cluster_index, cluster_crds in *. rewrite (view_insert show_instance), (view_insert show_crd) by done.
  unfold upsert_event, show_instance, show_crd. destruct (IsCRD u); cbn -[Extract];
    [unfold apply_crd_event|unfold apply_instance_event]; cbn -[Extract]; rewrite decide_False by done.
  - split; [done|]. by rewrite Hr.
  - split; [|done]. by rewrite Hi.
Qed.

Lemma copies_removed c idx crds u :
  copies c idx crds → legal u →
  let i := apply_event (upsert_event EventDelete u) (idx, crds) in
  copies (delete (obj_key u) c) i.1 i.2.
Proof.
  intros (Hc & Hi & Hr) Hu. cbv zeta. split; [by apply cluster_ok_delete|].
  unfold cluster_index, cluster_crds in *. rewrite (view_delete show_instance), (view_delete show_crd) by done.
  unfold upsert_event, show_instance, show_crd. destruct (IsCRD u); cbn -[Extract].
  - split; [done|]. by rewrite Hr.
  - split; [|done]. by rewrite Hi.
Qed.

(** An update of a custom resource definition, or one that the watcher ignores. *)
Lemma copies_ignored c idx crds o u :
  copies c idx crds → legal u → c !! obj_key u = Some o → same_object o u →
  (IsCRD u = true ∨ metadataChanged o u = false) →
  copies (<[obj_key u := u]> c) idx crds.
Proof.
  intros (Hc & Hi & Hr) Hu Ho Hsame Hig. destruct (Hc _ _ Ho) as [Hk Hlo].
  split; [by apply cluster_ok_insert|]. unfold cluster_index, cluster_crds in *.
  rewrite (view_insert show_instance), (view_insert show_crd) by done.
  pose proof (key_IsCRD u o Hk) as Hcrd. unfold show_instance, show_crd in *.
  destruct (IsCRD u) eqn:Eu.
  - split; [done|]. rewrite Hr. symmetry. apply insert_id.
    rewrite (view_lookup show_crd) by done. exists o. rewrite <- Hk. split; [done|].
    unfold show_crd. rewrite <- Hcrd. injection Hk as _ _ _ ->. done.
  - destruct Hig as [?|Hm]; [done|]. split; [|done]. rewrite Hi.
    trans (<[ID (Extract u) := Extract o]> (view_of show_instance c));
      [|by apply insert_proper; [apply ignored_update|]].
    rewrite (key_ID u o Hk), insert_id; [done|].
    rewrite (view_lookup show_instance) by done. exists o. rewrite <- Hk. split; [done|].
    unfold show_instance. by rewrite <- Hcrd.
Qed.

Lemma informs_copies c n c' idx crds :
  informs c n c' → copies c idx crds →
  let i := apply_event_opt (event_for n) (idx, crds) in copies c' i.1 i.2.
Proof.
  intros Hn Hc. destruct Hn as [u Hu Hk|o u Hu Ho Hs|o u Hu Ho|o Ho]; unfold event_for; cbn.
  - pose proof (copies_stored c idx crds u EventAdd Hc Hu) as Hst. unfold upsert_event in Hst.
    destruct (IsCRD u); by apply Hst.
  - pose proof (copies_stored c idx crds u EventUpdate Hc Hu) as Hst. unfold upsert_event in Hst.
    pose proof (copies_ignored c idx crds o u Hc Hu Ho Hs) as Hig.
    destruct (IsCRD u); [by apply Hig; left|].
    destruct (metadataChanged o u); [by apply Hst|by apply Hig; right].
  - pose proof (copies_removed c idx crds u Hc Hu) as Hst. unfold upsert_event in Hst.
    destruct (IsCRD u); by apply Hst.
  - destruct (proj1 Hc _ _ Ho) as [_ Hu].
    pose proof (copies_removed c idx crds o Hc Hu) as Hst. unfold upsert_event in Hst.
    destruct (IsCRD o); by apply Hst.
Qed.

(** ** The watcher at work *)

(** What happens to a running watcher: an informer calls a handler, a resync lists an
    object, and the buffers take events out of the channels. *)
Inductive FeedStep :=
  | Notify (choice : nat) (n : Notification U)
  | Relist (choice : nat) (u : U)
  | TakeEvent
  | TakeCrd.




(** The event that a step should put on its way. *)
Definition feed_event (st : FeedStep) : option (ResourceEvent + CrdEvent) :=
  match st with
  | Notify _ n => event_for n
  | Relist _ u => Some (upsert_event EventAdd u)
  | TakeEvent | TakeCrd => None
  end.






(** ** The cluster beside the watcher *)

(** The steps agree with a cluster: the informers report its changes, and a resync
    lists what is in it. *)
Inductive cluster_step (c : Cluster) : FeedStep → Cluster → Prop :=
  | by_informer choice n c' : informs c n c' → cluster_step c (Notify choice n) c'
  | by_resync choice u : c !! obj_key u = Some u → cluster_step c (Relist choice u) c
  | by_take : cluster_step c TakeEvent c
  | by_take_crd : cluster_step c TakeCrd c.

Inductive cluster_run : Cluster → list FeedStep → Cluster → Prop :=
  | run_nil c : cluster_run c [] c
  | run_cons c st c1 sts c2 :
      cluster_step c st c1 → cluster_run c1 sts c2 → cluster_run c (st :: sts) c2.

Lemma step_copies c st c' idx crds :
  cluster_step c st c' → copies c idx crds →
  let i := apply_event_opt (feed_event st) (idx, crds) in copies c' i.1 i.2.
Proof.
  intros [choice n c1 Hn|choice u Hu| |] Hc; [by apply (informs_copies c)| |done..].
  destruct (proj1 Hc _ _ Hu) as [_ Hl].
  pose proof (copies_stored c idx crds u EventAdd Hc Hl) as Hst.
  rewrite (insert_id c _ _ Hu) in Hst. by apply Hst.
Qed.

(** Applying the events of the steps keeps a copy of the cluster a copy. *)
Lemma run_copies c sts c' idx crds :
  cluster_run c sts c' → copies c idx crds →
  copies c' (foldl apply_instance_event idx (omap to_instances (omap feed_event sts)))
    (foldl apply_crd_event crds (omap to_crds (omap feed_event sts))).
Proof.
  intros Hr. revert idx crds. induction Hr as [|c st c1 sts c2 Hst _ IH]; intros idx crds Hc; [done|].
  specialize (IH _ _ (step_copies _ _ _ _ _ Hst Hc)). cbn [omap list_omap].
  destruct (feed_event st) as [[e|e]|]; exact IH.
Qed.

Lemma empty_copies : copies ∅ ∅ ∅.
Proof. done. Qed.


(** ** What a resync repairs *)

Lemma stored_all (objs : list U) (c0 : Cluster) :
  foldl (λ c u, <[obj_key u := u]> c) c0 objs
    = list_to_map (reverse ((λ u, (obj_key u, u)) <$> objs)) ∪ c0.
Proof.
  revert c0. induction objs as [|u objs IH]; intros c0; cbn [foldl].
  { by rewrite fmap_nil, reverse_nil, list_to_map_nil, (left_id_L ∅ (∪)). }
  rewrite IH, fmap_cons, reverse_cons, list_to_map_app, list_to_map_cons,
    list_to_map_nil, insert_empty.
  by rewrite <- (assoc_L (∪)), <- insert_union_singleton_l.
Qed.

Lemma stored_cluster (objs : list U) c :
  cluster_ok c → objs ≡ₚ (map_to_list c).*2 → foldl (λ c u, <[obj_key u := u]> c) ∅ objs = c.
Proof.
  intros Hc Hp. rewrite stored_all, (right_id_L ∅ (∪)).
  assert (((λ u, (obj_key u, u)) <$> objs) ≡ₚ map_to_list c) as Hl.
  { rewrite Hp, <- list_fmap_compose. rewrite <- (list_fmap_id (map_to_list c)) at 2.
    apply reflexive_eq, list_fmap_ext. intros i [k u] Hi. cbn.
    apply list_elem_of_lookup_2, elem_of_map_to_list in Hi. by destruct (Hc _ _ Hi) as [-> _]. }
  rewrite <- (list_to_map_to_list c). apply list_to_map_proper.
  - rewrite reverse_Permutation, Hl. apply NoDup_fst_map_to_list.
  - by rewrite reverse_Permutation.
Qed.

(** Listed objects replace what the indexes have under their IDs and names, and
    nothing else. *)
Lemma listed_over_stale (objs : list U) c0 idx crds :
  cluster_ok c0 → Forall legal objs →
  let c := foldl (λ c u, <[obj_key u := u]> c) c0 objs in
  foldl apply_instance_event (overlay (cluster_index c0) idx) (instance_events objs)
    = overlay (cluster_index c) idx
  ∧ foldl apply_crd_event (overlay (cluster_crds c0) crds) (crd_events objs)
    = overlay (cluster_crds c) crds.
Proof.
  intros Hc Hl. cbv zeta. revert c0 Hc. induction Hl as [|u objs Hu _ IH]; intros c0 Hc; [done|].
  unfold instance_events, crd_events. cbn [List.filter foldl].
  destruct (IH (<[obj_key u := u]> c0)) as [<- <-]; [by apply cluster_ok_insert|].
  unfold cluster_index, cluster_crds. rewrite !view_insert by (apply _ || done).
  unfold show_instance at 2, show_crd at 2. unfold instance_events, crd_events.
  destruct (IsCRD u); cbn [negb]; rewrite fmap_cons; cbn [foldl]; (split; [|try done]); try done;
    f_equal; [unfold apply_crd_event|unfold apply_instance_event]; cbn [CrdType CrdName EvType EvInstance];
    rewrite decide_False by done; by rewrite <- overlay_insert.
Qed.
End cluster.
Arguments FeedStep : clear implicits.

(** ** The whole program *)

(** C23: what a resync does and what it repairs.  A resync that lists exactly the
    objects of a cluster and runs alone, with room in both channels for what it
    lists, counts the listed objects, queues an ADD event for each of them, in
    listing order and in the channel of its pipeline, and changes nothing else; and
    the events turn any two indexes, however stale, into ones that show every
    object of the cluster as it is.  Entries of other IDs stay: a lost deletion is
    not repaired. *)
Theorem resync_repairs `{Unstructured U} list_resource choice w c idx crds
    (objs := listed (U:=U) list_resource (watchedGVRs w))
    (Hc : cluster_ok c) (Hlist : objs ≡ₚ (map_to_list c).*2)
    (Hroom : room_for (length (instance_events objs)) (length (crd_events objs)) w) :
  TriggerResync list_resource choice (λ _ w, w) w
    = Some (size c, None, queued (instance_events objs) (crd_events objs) w)
  ∧ foldl apply_instance_event idx (instance_events objs) = overlay (cluster_index c) idx
  ∧ foldl apply_crd_event crds (crd_events objs) = overlay (cluster_crds c) crds.
Proof.
  split.
  - unfold TriggerResync. rewrite resync_gvrs_complete by done. cbn [mbind option_bind].
    do 3 f_equal. fold objs. by rewrite Hlist, length_fmap, length_map_to_list.
  - assert (Forall legal objs) as Hl.
    { rewrite Hlist. apply Forall_fmap, Forall_forall. intros [k u] Hin%elem_of_map_to_list.
      by apply (Hc k u). }
    destruct (listed_over_stale objs ∅ idx crds) as [H1 H2]; [done|done|].
    rewrite (stored_cluster objs c Hc Hlist) in H1, H2. rewrite <- H1, <- H2.
    assert (cluster_index (U:=U) ∅ = ∅ ∧ cluster_crds (U:=U) ∅ = ∅) as [-> ->]
      by (unfold cluster_index, cluster_crds, view_of; by rewrite map_to_list_empty).
    unfold overlay. by rewrite !(left_id_L ∅ (∪)).
Qed.



(** ** Witnesses *)

#[local] Instance ascii_unicode : GoUnicode := string_map lower_byte.

#[local] Instance PlainObject_eq_dec : EqDecision PlainObject.
Proof. solve_decision. Defined.

(** A deployment that appears, changes a label and is listed by a resync, a service
    that comes and goes, and a definition. *)
Definition nginx_labelled : PlainObject :=
  mkPlainObject "default" "nginx" "Deployment" "apps/v1" "8" (Some {["app" := "web"]})
    (p_annotations nginx) (p_created nginx).
Definition service : PlainObject := mkPlainObject "default" "web" "Service" "v1" "3" None None 0%Z.
Definition widgets : PlainObject := crd_object "widgets.example.com".

Definition sample_steps : list (FeedStep PlainObject) :=
  [Notify 0 (Added (Object nginx)); Notify 1 (Added (Object service)); TakeEvent;
   Notify 0 (Added (Object widgets)); Notify 0 (Updated (Object nginx) (Object nginx_labelled));
   TakeEvent; TakeEvent; TakeCrd; Notify 2 (Deleted (Tombstone (Object service)));
   Relist 0 nginx_labelled; TakeEvent; TakeEvent].

Definition sample_cluster : gmap ObjKey PlainObject :=
  {[obj_key nginx := nginx_labelled; obj_key widgets := widgets]}.

Lemma sample_legal u : u ∈ [nginx; nginx_labelled; service; widgets] → legal u.
Proof.
  rewrite !elem_of_cons, elem_of_nil. intros [-> | [-> | [-> | [-> | []]]]]; split; try done;
    vm_compute; intuition discriminate.
Qed.

Lemma sample_run : cluster_run ∅ sample_steps sample_cluster.
Proof.
  assert (sample_cluster = delete (obj_key service)
    (<[obj_key nginx_labelled := nginx_labelled]> (<[obj_key widgets := widgets]>
      (<[obj_key service := service]> (<[obj_key nginx := nginx]> ∅))))) as ->
    by (apply (bool_decide_unpack _); vm_compute; exact I).
  repeat first [apply run_nil | eapply run_cons; [first [apply by_take|apply by_take_crd
    |apply by_informer; first [apply informs_added|eapply informs_updated|apply informs_tombstone]
    |apply by_resync]|]]; try (apply sample_legal; set_solver); try (vm_compute; reflexivity).
  split; [reflexivity|]. split; [discriminate|]. split; intros k v.
  - cbn. by rewrite lookup_empty.
  - cbn. rewrite lookup_insert_Some, lookup_singleton_Some. naive_solver.
Qed.




(** The state that a feed ends in, and the watcher it starts from. *)
Definition sample_watcher : Watcher :=
  match NewWatcher None None sample_cfg with inr w => w | inl _ => small_watcher true end.


Abbreviation sample_client := (RestClient.New "http://localhost:3000" []).




(** What a resync lists of the sample cluster; the index has a stale entry. *)
Definition sample_lists (g : GVR) : option (list PlainObject) :=
  if decide (g = crdGVR) then Some [widgets] else Some [nginx_labelled].

Definition roomy_watcher : Watcher :=
  with_watchedGVRs [mkGVR "apps" "v1" "deployments"; crdGVR] sample_watcher.

Lemma resync_repairs_witness :
  foldl apply_instance_event {[nginx_id := nginx_instance; "stale" := nginx_instance]}
      (instance_events [nginx_labelled; widgets])
    = {[nginx_id := Extract nginx_labelled; "stale" := nginx_instance]}.
Proof.
  assert (listed sample_lists (watchedGVRs roomy_watcher) = [nginx_labelled; widgets]) as El
    by (vm_compute; reflexivity).
  pose proof (resync_repairs sample_lists (λ _, 0) roomy_watcher sample_cluster
    {[nginx_id := nginx_instance; "stale" := nginx_instance]} ∅) as R. cbv zeta in R. rewrite El in R.
  destruct R as (_ & -> & _).
  - destruct (run_copies _ _ _ _ _ sample_run empty_copies) as [Hc _]. exact Hc.
  - apply (bool_decide_unpack _). vm_compute. exact I.
  - split; [reflexivity|]. vm_compute. lia.
  - apply (bool_decide_unpack _). vm_compute. exact I.
Defined.
